(** * Hamiltonian assembly of kwant/_system.pyx

    A shallow embedding of the matrix assemblers of [kwant/_system.pyx]:
    the non-vectorized assemblers of the full system ([make_sparse_full],
    [make_dense_full]) and of a selection of sites ([make_sparse],
    [make_dense]) with their caller [hamiltonian_submatrix], and the
    vectorized assemblers ([_vectorized_make_sparse],
    [_vectorized_make_dense]) with [_count_norbs], [_expand_norbs],
    [_reverse_subgraph] and the three vectorized entry points.

    Conventions of the embedding.
    - Site numbers, orbital counts, offsets and buffer indices ([gint] and
      [long] in the source) are natural numbers: the model covers runs in
      which no index is negative and no C integer overflows.  Where the
      width of [gint] decides the outcome it is modelled: the items of
      [to_sites] and [from_sites] are integers that [hamiltonian_submatrix]
      converts to [gint] before it tests them ([checked_onsite],
      [site_ok]), and the entry counters of the sparse assemblers are
      also given with 32-bit arithmetic ([count_entries_gint],
      [make_sparse_full_gint], [sel_count_entries_gint],
      [make_sparse_gint]); these agree with the versions on natural
      numbers when the count is below [2^31].
    - The message of the shape error of the vectorized assemblers holds
      [str(hops)]: [array_str] gives the rows that numpy prints.
    - The sparse assemblers return the triplets that they hand to
      [coo_matrix]; the check of the indices against [shape] that the
      constructor makes is not part of the model, and a result that
      depends on it assumes the triplets inside the shape.
    - Matrix entries ([complex] in the source) are an abstract type with a
      zero, an addition, a conjugation and the test [value != 0]; the laws
      that a proof needs are stated where it needs them.
    - The evaluator [ham(ts, fs, *args, params=params)] is a pure function
      of the two sites; [ta.matrix(..., complex)] is folded into it.
    - Exceptions and writes outside a buffer are results of the model
      ([Raise]); with [boundscheck(False)] the latter are undefined in the
      source and the model only records that they would happen. *)

From Stdlib Require Import List Arith Lia Bool ZArith.
From stdpp Require Import gmap.
Import ListNotations.

Set Implicit Arguments.

(** ** Scalars *)

Class Scalar (C : Type) := {
  c0 : C;                 (* the complex zero *)
  cadd : C -> C -> C;     (* [+] *)
  cconj : C -> C;         (* [.conjugate()] *)
  is0 : C -> bool         (* [value == 0] *)
}.

Class ScalarLaws (C : Type) `{Scalar C} : Prop := {
  cadd_0_l : forall v : C, cadd c0 v = v;
  is0_true : forall v : C, is0 v = true -> v = c0;
  cconj_invol : forall v : C, cconj (cconj v) = v;
  cconj_0 : cconj c0 = c0;
  cconj_add : forall u v : C, cconj (cadd u v) = cadd (cconj u) (cconj v);
  is0_cconj : forall v : C, is0 (cconj v) = is0 v
}.
Arguments ScalarLaws C {_}.

(** ** Results *)

(** [str(hops)] for a two-column integer array, as it appears in an error
    message: all rows, or the leading and the trailing rows with [...]
    between them. *)
Inductive ArrayStr : Type :=
| AllRows (rows : list (nat * nat))
| Summarized (leading trailing : list (nat * nat)).

Inductive Error : Type :=
| ValueError_msg (a b : nat)
    (* [ValueError(msg.format(a, b))] of the non-vectorized assemblers *)
| ValueError_shape (hops : ArrayStr)
    (* [ValueError(_shape_error_msg.format(hops))] *)
| ValueError_norbs
    (* "Cannot determine the number of orbitals for some site families." *)
| ValueError_dimensions
    (* "negative dimensions are not allowed", of [np.empty] *)
| OverflowError
    (* a Python integer that does not fit the C integer it is assigned to *)
| SliceExtentMismatch
    (* a slice assignment whose two sides have different extents *)
| BufferOverrun
    (* a write at or past the end of [data] / [rows_cols] *)
| OutOfBounds
    (* a write outside the dense output of the vectorized assembler *)
| UninitialisedData
    (* buffer slots handed to [coo_matrix] that were never written *)
| IndexError
    (* a Python list indexed outside its range *)
| AssertionError.

Inductive result (A : Type) : Type :=
| Ok (a : A)
| Raise (e : Error).
Arguments Ok {A} a.
Arguments Raise {A} e.

Definition bind {A B} (r : result A) (f : A -> result B) : result B :=
  match r with
  | Ok a => f a
  | Raise e => Raise e
  end.

Notation "'try' x := r 'in' k" := (bind r (fun x => k))
  (at level 10, x name, r at level 100, k at level 200).

(** [for x in l: s = body(x, s)], stopping at the first exception. *)
Fixpoint for_each {X S} (body : X -> S -> result S) (l : list X) (s : S)
  : result S :=
  match l with
  | [] => Ok s
  | x :: l' => try s' := body x s in for_each body l' s'
  end.

Definition range (n : nat) : list nat := seq 0 n.

(** ** Machine integers *)

(** [gint] is the C [int]: 32 bits, two's complement.  A Python integer
    assigned to a [gint] variable must fit, or the assignment raises
    [OverflowError]; arithmetic on [gint] keeps the low 32 bits of the
    result. *)
Definition fits_gint (z : Z) : bool :=
  (- 2 ^ 31 <=? z)%Z && (z <? 2 ^ 31)%Z.

Definition gint_wrap (z : Z) : Z :=
  ((z + 2 ^ 31) mod 2 ^ 32 - 2 ^ 31)%Z.

(** ** Matrices *)

(** A two-dimensional array: a [tinyarray] block or a numpy output. *)
Record Matrix (C : Type) := {
  shape0 : nat;
  shape1 : nat;
  entry : nat -> nat -> C
}.

(** A [scipy.sparse.coo_matrix]: the shape and the stored triplets
    [(row, col, value)] in storage order. *)
Record Coo (C : Type) := {
  coo_shape0 : nat;
  coo_shape1 : nat;
  coo_data : list (nat * nat * C)
}.

(** What an entry point returns: [sparse] selects the format. *)
Inductive Assembled (C : Type) : Type :=
| Sparse (A : Coo C)
| Dense (M : Matrix C).
Arguments Sparse {C} A.
Arguments Dense {C} M.

Section Matrices.
Context {C : Type} `{Scalar C}.

(** [np.zeros((r, c), complex)] *)
Definition zeros (r c : nat) : Matrix C :=
  {| shape0 := r; shape1 := c; entry := fun _ _ => c0 |}.

(** [mat.transpose().conjugate()] *)
Definition conj_transpose (h : Matrix C) : Matrix C :=
  {| shape0 := shape1 h; shape1 := shape0 h;
     entry := fun i j => cconj (entry h j i) |}.

(** Extent of the slice [a:b] of an axis of length [dim]. *)
Definition slice_len (a b dim : nat) : nat := Nat.min b dim - Nat.min a dim.

Definition in_block (a c : nat) (h : Matrix C) (r col : nat) : bool :=
  (a <=? r) && (r <? a + shape0 h) && (c <=? col) && (col <? c + shape1 h).

(** [M[a:b, c:d] = h] on memoryviews.  The copy needs equal extents on
    both sides (the source gets them from the offsets being the running
    sums of the orbital counts). *)
Definition assign_block (M : Matrix C) (a b c d : nat) (h : Matrix C)
  : result (Matrix C) :=
  if (slice_len a b (shape0 M) =? shape0 h)
     && (slice_len c d (shape1 M) =? shape1 h)
  then Ok {| shape0 := shape0 M; shape1 := shape1 M;
             entry := fun r col =>
               if in_block a c h r col
               then entry h (r - a) (col - c) else entry M r col |}
  else Raise SliceExtentMismatch.

(** [A.todense()] of a COO matrix: entries stored at the same position
    are summed, in storage order, onto a zero matrix. *)
Definition coo_add (acc : nat -> nat -> C) (t : nat * nat * C)
  : nat -> nat -> C :=
  let '(r, c, v) := t in
  fun r' c' => if (r' =? r) && (c' =? c) then cadd (acc r' c') v
               else acc r' c'.

Definition coo_sum (l : list (nat * nat * C)) (acc : nat -> nat -> C)
  : nat -> nat -> C :=
  fold_left coo_add l acc.

Definition todense (A : Coo C) : Matrix C :=
  {| shape0 := coo_shape0 A; shape1 := coo_shape1 A;
     entry := coo_sum (coo_data A) (fun _ _ => c0) |}.

(** The matrix an assembled result stands for. *)
Definition as_dense (A : Assembled C) : Matrix C :=
  match A with
  | Sparse A => todense A
  | Dense M => M
  end.
End Matrices.

(** ** The graph *)

(** [CGraph]: [num_nodes] and, for each node, the slice
    [out_neighbors(fs)] of the compressed edge array. *)
Record CGraph := {
  num_nodes : nat;
  out_neighbors : nat -> list nat
}.

(** Every stored head is a node of the graph. *)
Definition graph_wf (gr : CGraph) : Prop :=
  forall fs ts, fs < num_nodes gr -> In ts (out_neighbors gr fs) ->
                ts < num_nodes gr.

(** [np.cumsum] *)
Fixpoint cumsum_from (acc : nat) (l : list nat) : list nat :=
  match l with
  | [] => []
  | x :: l' => (acc + x) :: cumsum_from (acc + x) l'
  end.

Definition cumsum (l : list nat) : list nat := cumsum_from 0 l.

(** ** Non-vectorized methods *)

Section NonVectorized.
Context {C : Type} `{Scalar C}.

Variable ham : nat -> nat -> Matrix C.
Variable gr : CGraph.
Variable diag : nat -> Matrix C.
Variables to_norb to_off from_norb from_off : list nat.

Definition at_ (l : list nat) (i : nat) : nat := nth i l 0.

(** *** make_sparse_full *)

(** "Calculate the data size." *)
Definition count_nbrs (fs : nat) (nbors : list nat) (num_entries : nat)
  : nat :=
  fold_left
    (fun acc ts =>
       if fs <? ts then acc + 2 * at_ to_norb ts * at_ from_norb fs
       else acc)
    nbors num_entries.

Definition count_entries : nat :=
  fold_left
    (fun acc fs =>
       count_nbrs fs (out_neighbors gr fs)
                  (acc + at_ from_norb fs * at_ from_norb fs))
    (range (num_nodes gr)) 0.

(** The filled prefix of [data] and [rows_cols]: the triplets written
    so far, so that [k] is the length of the list.  A write at index
    [k] is inside the buffers when [k < num_entries]. *)
Definition put (num_entries : nat) (t : nat * nat * C)
           (T : list (nat * nat * C)) : result (list (nat * nat * C)) :=
  if length T <? num_entries then Ok (T ++ [t]) else Raise BufferOverrun.

(** The two inner loops over the entries of an onsite block. *)
Definition sparse_onsite (num_entries fs : nat) (h : Matrix C)
  : list (nat * nat * C) -> result (list (nat * nat * C)) :=
  for_each
    (fun i =>
       for_each
         (fun j T =>
            let value := entry h i j in
            if negb (is0 value)
            then put num_entries (i + at_ to_off fs, j + at_ from_off fs,
                                  value) T
            else Ok T)
         (range (shape1 h)))
    (range (shape0 h)).

(** The two inner loops over the entries of a hopping block: the entry
    at index [k] and its mirror at index [k + 1]. *)
Definition sparse_hop (num_entries fs ts : nat) (h : Matrix C)
  : list (nat * nat * C) -> result (list (nat * nat * C)) :=
  for_each
    (fun i =>
       for_each
         (fun j T =>
            let value := entry h i j in
            if negb (is0 value)
            then
              try T1 := put num_entries
                        (i + at_ to_off ts, j + at_ from_off fs, value) T in
              put num_entries
                  (j + at_ from_off fs, i + at_ to_off ts,
                   cconj (entry h i j)) T1
            else Ok T)
         (range (shape1 h)))
    (range (shape0 h)).

Definition sparse_nbrs (num_entries fs : nat)
  : list nat -> list (nat * nat * C) -> result (list (nat * nat * C)) :=
  for_each
    (fun ts T =>
       if ts <? fs then Ok T
       else
         let h := ham ts fs in
         if negb (shape0 h =? at_ to_norb ts)
            || negb (shape1 h =? at_ from_norb fs)
         then Raise (ValueError_msg fs ts)
         else sparse_hop num_entries fs ts h T).

Definition sparse_sites (num_entries : nat)
  : list nat -> list (nat * nat * C) -> result (list (nat * nat * C)) :=
  for_each
    (fun fs T =>
       let h := diag fs in
       if negb ((shape0 h =? shape1 h) && (shape1 h =? at_ from_norb fs))
       then Raise (ValueError_msg fs fs)
       else
         try T1 := sparse_onsite num_entries fs h T in
         sparse_nbrs num_entries fs (out_neighbors gr fs) T1).

Definition make_sparse_full : result (Coo C) :=
  let n := num_nodes gr in
  let num_entries := count_entries in
  try T := sparse_sites num_entries (range n) [] in
  Ok {| coo_shape0 := List.last to_off 0; coo_shape1 := List.last from_off 0;
        coo_data := T |}.

(** *** make_sparse_full, with its counters as [gint] *)

(** "Calculate the data size." as the C code computes it: [num_entries]
    and the norbs are [gint], so every product and every sum keeps its
    low 32 bits. *)
Definition count_nbrs_gint (fs : nat) (nbors : list nat) (num_entries : Z)
  : Z :=
  fold_left
    (fun acc ts =>
       if fs <? ts
       then gint_wrap
              (acc + gint_wrap (gint_wrap (2 * Z.of_nat (at_ to_norb ts))
                                * Z.of_nat (at_ from_norb fs)))
       else acc)
    nbors num_entries.

Definition count_entries_gint : Z :=
  fold_left
    (fun acc fs =>
       count_nbrs_gint fs (out_neighbors gr fs)
         (gint_wrap (acc + gint_wrap (Z.of_nat (at_ from_norb fs)
                                      * Z.of_nat (at_ from_norb fs)))))
    (range (num_nodes gr)) 0%Z.

(** [np.empty] refuses a negative size; otherwise the buffers have
    [num_entries] slots and the write pass is [sparse_sites]. *)
Definition make_sparse_full_gint : result (Coo C) :=
  let n := num_nodes gr in
  let num_entries := count_entries_gint in
  if (num_entries <? 0)%Z then Raise ValueError_dimensions
  else
    try T := sparse_sites (Z.to_nat num_entries) (range n) [] in
    Ok {| coo_shape0 := List.last to_off 0;
          coo_shape1 := List.last from_off 0;
          coo_data := T |}.

(** *** make_dense_full *)

Definition dense_nbrs (fs : nat)
  : list nat -> Matrix C -> result (Matrix C) :=
  for_each
    (fun ts M =>
       if ts <? fs then Ok M
       else
         let h := ham ts fs in
         let h_herm := conj_transpose h in
         if negb (shape0 h =? at_ to_norb ts)
            || negb (shape1 h =? at_ from_norb fs)
         then Raise (ValueError_msg fs ts)
         else
           try M1 := assign_block M (at_ to_off ts) (at_ to_off (ts + 1))
                              (at_ from_off fs) (at_ from_off (fs + 1)) h in
           assign_block M1 (at_ from_off fs) (at_ from_off (fs + 1))
                        (at_ to_off ts) (at_ to_off (ts + 1)) h_herm).

Definition dense_sites : list nat -> Matrix C -> result (Matrix C) :=
  for_each
    (fun fs M =>
       let h := diag fs in
       if negb ((shape0 h =? shape1 h) && (shape1 h =? at_ from_norb fs))
       then Raise (ValueError_msg fs fs)
       else
         try M1 := assign_block M (at_ to_off fs) (at_ to_off (fs + 1))
                            (at_ from_off fs) (at_ from_off (fs + 1)) h in
         dense_nbrs fs (out_neighbors gr fs) M1).

Definition make_dense_full : result (Matrix C) :=
  let n := num_nodes gr in
  dense_sites (range n) (zeros (List.last to_off 0) (List.last from_off 0)).
End NonVectorized.

(** *** hamiltonian_submatrix, with [to_sites] and [from_sites] both [None] *)

Section HamiltonianSubmatrix.
Context {C : Type} `{Scalar C}.

Variable ham : nat -> nat -> Matrix C.
Variable gr : CGraph.

(** [from_norb[site] = h.shape[0]] for [h = ham(site, site)] *)
Definition site_norbs : list nat :=
  map (fun site => shape0 (ham site site)) (range (num_nodes gr)).

(** [from_off[0] = 0; from_off[1:] = np.cumsum(from_norb)] *)
Definition offsets (norb : list nat) : list nat := 0 :: cumsum norb.

(** [to_sites is from_sites is None]: [to_norb] and [to_off] are
    [from_norb] and [from_off], and [func] is [make_sparse_full] or
    [make_dense_full]. *)
Definition hamiltonian_submatrix (sparse : bool) : result (Assembled C) :=
  let diag := fun site => ham site site in
  let from_norb := site_norbs in
  let from_off := offsets from_norb in
  let to_norb := from_norb in
  let to_off := from_off in
  if sparse
  then try mat := make_sparse_full ham gr diag to_norb to_off
                                   from_norb from_off in
       Ok (Sparse mat)
  else try mat := make_dense_full ham gr diag to_norb to_off
                                  from_norb from_off in
       Ok (Dense mat).
End HamiltonianSubmatrix.

(** ** Vectorized methods *)

(** A stacked array of blocks, of shape [(N, M, P)]. *)
Record Block3 (C : Type) := {
  b_N : nat;
  b_M : nat;
  b_P : nat;
  b_at : nat -> nat -> nat -> C
}.

(** [((to_array, from_array), (to_local_offsets, from_local_offsets))] *)
Definition Subgraph : Type := (nat * nat) * (list nat * list nat).

Definition _reverse_subgraph (subgraph : Subgraph) : Subgraph :=
  let '((to_sa, from_sa), (to_off, from_off)) := subgraph in
  ((from_sa, to_sa), (from_off, to_off)).

(** CPython's [bisect.bisect] (bisect_right) on a list of integers. *)
Fixpoint bisect_loop (fuel : nat) (a : list nat) (x lo hi : nat) : nat :=
  match fuel with
  | 0 => lo
  | S fuel' =>
      if lo <? hi then
        let mid := (lo + hi) / 2 in
        if x <? nth mid a 0 then bisect_loop fuel' a x lo mid
        else bisect_loop fuel' a x (mid + 1) hi
      else lo
  end.

Definition bisect (a : list nat) (x : nat) : nat :=
  bisect_loop (length a) a x 0 (length a).

Section VectorizedAssemblers.
Context {C : Type} `{Scalar C}.

(** [ham.conjugate().transpose(0, 2, 1)] *)
Definition conj_transpose3 (h : Block3 C) : Block3 C :=
  {| b_N := b_N h; b_M := b_P h; b_P := b_M h;
     b_at := fun i j k => cconj (b_at h i k j) |}.

(** [ham.transpose(0, 2, 1)] *)
Definition transpose3 (h : Block3 C) : Block3 C :=
  {| b_N := b_N h; b_M := b_P h; b_P := b_M h;
     b_at := fun i j k => b_at h i k j |}.

(** The array [hops] of the shape error: row [i] is
    [(site_offsets[ta] + ts_offs[i], site_offsets[fa] + fs_offs[i])]. *)
Definition hops_of (site_offsets : list nat) (sg : Subgraph)
  : list (nat * nat) :=
  let '((ta, fa), (ts_offs, fs_offs)) := sg in
  let to_sites := map (fun o => at_ site_offsets ta + o) ts_offs in
  let from_sites := map (fun o => at_ site_offsets fa + o) fs_offs in
  combine to_sites from_sites.

(** [str(hops)], which [_shape_error_msg.format(hops)] puts into the
    message.  With numpy's print options ([threshold=1000],
    [edgeitems=3]) an array of more than 1000 elements is summarised: of
    the rows of [hops], two elements each, only the first three and the
    last three are printed. *)
Definition array_str (hops : list (nat * nat)) : ArrayStr :=
  if 1000 <? 2 * length hops
  then Summarized (firstn 3 hops) (skipn (length hops - 3) hops)
  else AllRows hops.

Variables norbs orb_offsets site_offsets : list nat.

(** The default of the [shape] argument. *)
Definition shape_or_default (shape : option (nat * nat)) : nat * nat :=
  match shape with
  | Some s => s
  | None => (List.last orb_offsets 0, List.last orb_offsets 0)
  end.

(** *** _vectorized_make_sparse *)

Definition vms_instance (ndata : nat) (sg : Subgraph) (h : Block3 C)
           (i : nat)
  : list (nat * nat * C) -> result (list (nat * nat * C)) :=
  let '((ta, fa), (ts_offs, fs_offs)) := sg in
  let to_off := at_ orb_offsets ta + at_ norbs ta * at_ ts_offs i in
  let from_off := at_ orb_offsets fa + at_ norbs fa * at_ fs_offs i in
  for_each
    (fun j =>
       for_each
         (fun k => put ndata (to_off + j, from_off + k, b_at h i j k))
         (range (b_P h)))
    (range (b_M h)).

Definition vms_pair (ndata : nat) (p : Subgraph * Block3 C)
           (T : list (nat * nat * C)) : result (list (nat * nat * C)) :=
  let '(sg, h) := p in
  let '((ta, fa), _) := sg in
  if negb (at_ norbs ta =? b_M h) || negb (at_ norbs fa =? b_P h)
  then Raise (ValueError_shape (array_str (hops_of site_offsets sg)))
  else for_each (vms_instance ndata sg h) (range (b_N h)) T.

(** The buffers have [ndata] slots and all of them go to [coo_matrix];
    slots never written hold whatever [np.empty] left there. *)
Definition _vectorized_make_sparse (subgraphs : list Subgraph)
           (hams : list (Block3 C)) (shape : option (nat * nat))
  : result (Coo C) :=
  let ndata := list_sum (map (fun h => b_N h * b_M h * b_P h) hams) in
  try T := for_each (vms_pair ndata) (combine subgraphs hams) [] in
  let shape := shape_or_default shape in
  if length T =? ndata
  then Ok {| coo_shape0 := fst shape; coo_shape1 := snd shape;
             coo_data := T |}
  else Raise UninitialisedData.

(** *** _vectorized_make_dense *)

(** [mat_view[r, c] = v] *)
Definition set_entry (r c : nat) (v : C) (M : Matrix C)
  : result (Matrix C) :=
  if (r <? shape0 M) && (c <? shape1 M)
  then Ok {| shape0 := shape0 M; shape1 := shape1 M;
             entry := fun r' c' =>
               if (r' =? r) && (c' =? c) then v else entry M r' c' |}
  else Raise OutOfBounds.

Definition vmd_instance (sg : Subgraph) (h : Block3 C) (i : nat)
  : Matrix C -> result (Matrix C) :=
  let '((ta, fa), (ts_offs, fs_offs)) := sg in
  let to_off := at_ orb_offsets ta + at_ norbs ta * at_ ts_offs i in
  let from_off := at_ orb_offsets fa + at_ norbs fa * at_ fs_offs i in
  for_each
    (fun j =>
       for_each
         (fun k => set_entry (to_off + j) (from_off + k) (b_at h i j k))
         (range (b_P h)))
    (range (b_M h)).

Definition vmd_pair (p : Subgraph * Block3 C) (M : Matrix C)
  : result (Matrix C) :=
  let '(sg, h) := p in
  let '((ta, fa), _) := sg in
  if negb (at_ norbs ta =? b_M h) || negb (at_ norbs fa =? b_P h)
  then Raise (ValueError_shape (array_str (hops_of site_offsets sg)))
  else for_each (vmd_instance sg h) (range (b_N h)) M.

Definition _vectorized_make_dense (subgraphs : list Subgraph)
           (hams : list (Block3 C)) (shape : option (nat * nat))
  : result (Matrix C) :=
  let shape := shape_or_default shape in
  for_each vmd_pair (combine subgraphs hams) (zeros (fst shape) (snd shape)).
End VectorizedAssemblers.

(** ** The vectorized system *)

(** A site array: its family and [len(site_array)]. *)
Record SiteArray := {
  family : nat;
  sa_len : nat
}.

Record Term := {
  subgraph : nat;      (* index into [syst.subgraphs] *)
  hermitian : bool
}.

Record System (C : Type) := {
  site_arrays : list SiteArray;
  subgraphs : list Subgraph;
  terms : list Term;
  hamiltonian_term : nat -> Block3 C;
  cell_size : nat;
  (* [None], or rows [(start_site, norbs, orb_offset)] *)
  site_ranges : option (list (nat * nat * nat))
}.

(** [l[i]] on a Python list. *)
Definition index {A} (l : list A) (i : nat) : result A :=
  match nth_error l i with
  | Some a => Ok a
  | None => Raise IndexError
  end.

(** A list comprehension whose element expression may raise. *)
Fixpoint comprehension {A B} (f : A -> result B) (l : list A)
  : result (list B) :=
  match l with
  | [] => Ok []
  | a :: l' =>
      try b := f a in
      try bs := comprehension f l' in
      Ok (b :: bs)
  end.

(** [x is None] *)
Definition is_none {A} (x : option A) : bool :=
  match x with
  | Some _ => false
  | None => true
  end.

(** [enumerate(l)] *)
Definition enumerate {A} (l : list A) : list (nat * A) :=
  combine (seq 0 (length l)) l.

Section VectorizedSystem.
Context {C : Type} `{Scalar C}.

Variable syst : System C.

(** [np.cumsum([0] + [len(arr) for arr in self.site_arrays])] *)
Definition site_offsets_of : list nat :=
  cumsum (0 :: map sa_len (site_arrays syst)).

(** [self.subgraphs[t.subgraph]] *)
Definition subgraph_of (t : Term) : result Subgraph :=
  index (subgraphs syst) (subgraph t).

(** *** _count_norbs *)

(** [family_norbs[fam]]; every family read is a key of the dictionary,
    which is created with all families of [site_arrays]. *)
Definition norb_of (family_norbs : gmap nat (option nat)) (fam : nat)
  : option nat :=
  match family_norbs !! fam with
  | Some v => v
  | None => None
  end.

(** "Compute the norbs per site family using already evaluated
    Hamiltonian terms where possible" *)
Definition seed_step (p : option (Block3 C) * Term)
           (family_norbs : gmap nat (option nat))
  : result (gmap nat (option nat)) :=
  let '(ham, t) := p in
  try sg := subgraph_of t in
  let '((to_w, from_w), _) := sg in
  match ham with
  | Some ham =>
      try to_sa := index (site_arrays syst) to_w in
      let family_norbs := <[family to_sa := Some (b_M ham)]> family_norbs in
      try from_sa := index (site_arrays syst) from_w in
      Ok (<[family from_sa := Some (b_P ham)]> family_norbs)
  | None => Ok family_norbs
  end.

Definition seed_norbs (hams : list (option (Block3 C)))
  : gmap nat (option nat) -> result (gmap nat (option nat)) :=
  for_each seed_step (combine hams (terms syst)).

(** "Evaluate Hamiltonian terms where we do not already have them" *)
Definition eval_step (p : nat * Term) (family_norbs : gmap nat (option nat))
  : result (gmap nat (option nat)) :=
  let '(n, t) := p in
  try sg := subgraph_of t in
  let '((to_w, from_w), _) := sg in
  try to_sa := index (site_arrays syst) to_w in
  let to_fam := family to_sa in
  try from_sa := index (site_arrays syst) from_w in
  let from_fam := family from_sa in
  if is_none (norb_of family_norbs to_fam)
     || is_none (norb_of family_norbs from_fam)
  then
    let ham := hamiltonian_term syst n in
    Ok (<[from_fam := Some (b_P ham)]>
          (<[to_fam := Some (b_M ham)]> family_norbs))
  else Ok family_norbs.

Definition eval_norbs
  : gmap nat (option nat) -> result (gmap nat (option nat)) :=
  for_each eval_step (enumerate (terms syst)).

(** The loop that fills [site_ranges]; the state is
    [(site_ranges, orb_offset)]. *)
Definition build_ranges (family_norbs : gmap nat (option nat))
           (site_offsets : list nat)
  : list (nat * nat * nat) * nat :=
  fold_left
    (fun (st : list (nat * nat * nat) * nat) (p : nat * SiteArray) =>
       let '(ranges, orb_offset) := st in
       let '(start, site_array) := p in
       let norbs := default 0 (norb_of family_norbs (family site_array)) in
       (ranges ++ [(start, norbs, orb_offset)],
        orb_offset + sa_len site_array * norbs))
    (combine site_offsets (site_arrays syst))
    ([], 0).

(** [family_norbs] after the two loops. *)
Definition resolve_family_norbs (hams : list (option (Block3 C)))
  : result (gmap nat (option nat)) :=
  let family_norbs : gmap nat (option nat) :=
    list_to_map (map (fun s => (family s, None)) (site_arrays syst)) in
  try family_norbs := seed_norbs hams family_norbs in
  eval_norbs family_norbs.

Definition _count_norbs (site_offsets : list nat)
           (hams : list (option (Block3 C)))
  : result (list nat * list nat) :=
  try site_ranges :=
    match site_ranges syst with
    | Some site_ranges => Ok site_ranges
    | None =>
        try family_norbs := resolve_family_norbs hams in
        if existsb is_none (map snd (map_to_list family_norbs))
        then Raise ValueError_norbs
        else
          let '(site_ranges, orb_offset) :=
            build_ranges family_norbs site_offsets in
          Ok (site_ranges ++ [(List.last site_offsets 0, 0, orb_offset)])
    end in
  let norbs := map (fun r => snd (fst r)) site_ranges in
  let orb_offsets := map snd site_ranges in
  if length orb_offsets =? length (site_arrays syst) + 1
  then Ok (norbs, orb_offsets)
  else Raise AssertionError.
End VectorizedSystem.

(** A comprehension with a condition that may raise. *)
Fixpoint comprehension_if {A} (p : A -> result bool) (l : list A)
  : result (list A) :=
  match l with
  | [] => Ok []
  | a :: l' =>
      try b := p a in
      try rest := comprehension_if p l' in
      Ok (if b then a :: rest else rest)
  end.

Section EntryPoints.
Context {C : Type} `{Scalar C}.

Variable syst : System C.

(** [func(subgraphs, hams, norbs, orb_offsets, site_offsets, shape)] *)
Definition call_assembler (sparse : bool) (subgraphs : list Subgraph)
           (hams : list (Block3 C)) (norbs orb_offsets site_offsets : list nat)
           (shape : option (nat * nat)) : result (Assembled C) :=
  if sparse
  then try mat := _vectorized_make_sparse norbs orb_offsets site_offsets
                                          subgraphs hams shape in
       Ok (Sparse mat)
  else try mat := _vectorized_make_dense norbs orb_offsets site_offsets
                                         subgraphs hams shape in
       Ok (Dense mat).

(** *** vectorized_hamiltonian_submatrix *)

(** The two lists handed to the assembler. *)
Definition hermitian_expansion : result (list Subgraph * list (Block3 C)) :=
  try subgraphs := comprehension (subgraph_of syst) (terms syst) in
  (* Add Hermitian conjugates *)
  try reversed :=
    comprehension
      (fun t => try sg := subgraph_of syst t in Ok (_reverse_subgraph sg))
      (List.filter hermitian (terms syst)) in
  let subgraphs := subgraphs ++ reversed in
  let hams :=
    map (fun p : nat * Term => hamiltonian_term syst (fst p))
        (enumerate (terms syst)) in
  (* Add Hermitian conjugates *)
  let hams :=
    hams ++
    map (fun p : Block3 C * Term => conj_transpose3 (fst p))
        (List.filter (fun p : Block3 C * Term => hermitian (snd p))
                (combine hams (terms syst))) in
  Ok (subgraphs, hams).

Definition vectorized_hamiltonian_submatrix (sparse : bool)
  : result (Assembled C) :=
  let site_offsets := site_offsets_of syst in
  try sh := hermitian_expansion in
  let '(subgraphs, hams) := sh in
  try no := _count_norbs syst site_offsets (map Some hams) in
  let '(norbs, orb_offsets) := no in
  call_assembler sparse subgraphs hams norbs orb_offsets site_offsets None.

(** *** vectorized_cell_hamiltonian *)

(** "Site array where next cell starts" *)
Definition next_cell_of : nat :=
  bisect (site_offsets_of syst) (cell_size syst) - 1.

(** [self.terms[n]] *)
Definition term_at (n : nat) : result Term := index (terms syst) n.

(** [all_hams = [None] * len(self.terms)] followed by the assignments
    [all_hams[n] = ham]. *)
Definition fill_hams (updates : list (nat * Block3 C))
           (all_hams : list (option (Block3 C)))
  : list (option (Block3 C)) :=
  fold_left (fun acc (p : nat * Block3 C) => <[fst p := Some (snd p)]> acc)
            updates all_hams.

Definition vectorized_cell_hamiltonian (sparse : bool)
  : result (Assembled C) :=
  let site_offsets := site_offsets_of syst in
  let next_cell := next_cell_of in
  let inside_cell (term : Term) : result bool :=
    try sg := subgraph_of syst term in
    let '((to_which, from_which), _) := sg in
    Ok ((to_which <? next_cell) && (from_which <? next_cell)) in
  try cell_terms :=
    comprehension_if (fun p : nat * Term => inside_cell (snd p))
                     (enumerate (terms syst)) in
  let cell_terms := map fst cell_terms in
  try subgraphs :=
    comprehension
      (fun n => try t := term_at n in subgraph_of syst t) cell_terms in
  try herm_terms :=
    comprehension_if
      (fun n => try t := term_at n in Ok (hermitian t)) cell_terms in
  try reversed :=
    comprehension
      (fun n => try t := term_at n in
                try sg := subgraph_of syst t in
                Ok (_reverse_subgraph sg))
      herm_terms in
  let subgraphs := subgraphs ++ reversed in
  let hams := map (hamiltonian_term syst) cell_terms in
  try herm_hams :=
    comprehension_if
      (fun p : Block3 C * nat =>
         try t := term_at (snd p) in Ok (hermitian t))
      (combine hams cell_terms) in
  let hams := hams ++ map (fun p => conj_transpose3 (fst p)) herm_hams in
  let all_hams :=
    fill_hams (combine cell_terms hams)
              (repeat None (length (terms syst))) in
  try no := _count_norbs syst site_offsets all_hams in
  let '(norbs, orb_offsets) := no in
  try s0 := index orb_offsets next_cell in
  let shape := (s0, s0) in
  call_assembler sparse subgraphs hams norbs orb_offsets site_offsets
                 (Some shape).

(** *** vectorized_inter_cell_hopping *)

Definition vectorized_inter_cell_hopping (sparse : bool)
  : result (Assembled C) :=
  let site_offsets := site_offsets_of syst in
  let next_cell := next_cell_of in
  try inter_cell_hopping_terms :=
    comprehension_if
      (fun p : nat * Term =>
         try sg := subgraph_of syst (snd p) in
         (* *from* site is in interface *)
         Ok ((next_cell <=? snd (fst sg)) && (fst (fst sg) <? next_cell)))
      (enumerate (terms syst)) in
  let inter_cell_hopping_terms := map fst inter_cell_hopping_terms in
  try reversed_inter_cell_hopping_terms :=
    comprehension_if
      (fun p : nat * Term =>
         try sg := subgraph_of syst (snd p) in
         (* *to* site is in interface *)
         Ok ((next_cell <=? fst (fst sg)) && (snd (fst sg) <? next_cell)))
      (enumerate (terms syst)) in
  let reversed_inter_cell_hopping_terms :=
    map fst reversed_inter_cell_hopping_terms in
  (* Evaluate inter-cell hoppings only *)
  let inter_cell_hams :=
    map (hamiltonian_term syst) inter_cell_hopping_terms in
  let reversed_inter_cell_hams :=
    map (fun n => conj_transpose3 (hamiltonian_term syst n))
        reversed_inter_cell_hopping_terms in
  let hams := inter_cell_hams ++ reversed_inter_cell_hams in
  try subgraphs :=
    comprehension
      (fun n => try t := term_at n in subgraph_of syst t)
      inter_cell_hopping_terms in
  try reversed :=
    comprehension
      (fun n => try t := term_at n in
                try sg := subgraph_of syst t in
                Ok (_reverse_subgraph sg))
      reversed_inter_cell_hopping_terms in
  let subgraphs := subgraphs ++ reversed in
  (* the 'from' site array becomes the one of the fundamental domain *)
  let subgraphs :=
    map (fun sg : Subgraph =>
           let '((to_sa, from_sa), (to_off, from_off)) := sg in
           ((to_sa, from_sa - next_cell), (to_off, from_off)))
        subgraphs in
  let all_hams :=
    fill_hams (combine inter_cell_hopping_terms inter_cell_hams)
              (repeat None (length (terms syst))) in
  let all_hams :=
    fill_hams (map (fun p : nat * Block3 C => (fst p, transpose3 (snd p)))
                   (combine reversed_inter_cell_hopping_terms
                            reversed_inter_cell_hams))
              all_hams in
  try no := _count_norbs syst site_offsets all_hams in
  let '(norbs, orb_offsets) := no in
  try s0 := index orb_offsets next_cell in
  try s1 := index orb_offsets (length (site_arrays syst) - next_cell) in
  let shape := (s0, s1) in
  call_assembler sparse subgraphs hams norbs orb_offsets site_offsets
                 (Some shape).
End EntryPoints.

(** ** A concrete scalar domain: Gaussian integers *)

#[export] Instance gauss_scalar : Scalar (Z * Z)%type := {|
  c0 := (0, 0)%Z;
  cadd := fun u v => (fst u + fst v, snd u + snd v)%Z;
  cconj := fun v => (fst v, - snd v)%Z;
  is0 := fun v => (fst v =? 0)%Z && (snd v =? 0)%Z
|}.

Lemma gauss_laws : ScalarLaws (Z * Z)%type.
Proof.
  split; simpl.
  - intros [a b]; reflexivity.
  - intros [a b]; simpl; intros Hz.
    apply andb_true_iff in Hz as [Ha Hb].
    apply Z.eqb_eq in Ha, Hb; subst; reflexivity.
  - intros [a b]; simpl; f_equal; lia.
  - reflexivity.
  - intros [a b] [c d]; simpl; f_equal; lia.
  - intros [a b]; simpl; f_equal.
    destruct b; reflexivity.
Defined.

(** A block given by its rows. *)
Definition matrix_of_rows {C} (d : C) (rows : list (list C)) : Matrix C :=
  {| shape0 := length rows;
     shape1 := match rows with [] => 0 | r :: _ => length r end;
     entry := fun i j => nth j (nth i rows []) d |}.

(** A stacked block array given by its blocks. *)
Definition block3_of {C} (d : C) (m p : nat) (blocks : list (list (list C)))
  : Block3 C :=
  {| b_N := length blocks; b_M := m; b_P := p;
     b_at := fun i j k => nth k (nth j (nth i blocks []) []) d |}.

(** The entries of a matrix, row by row. *)
Definition rows_of {C} (M : Matrix C) : list (list C) :=
  map (fun r => map (fun c => entry M r c) (range (shape1 M)))
      (range (shape0 M)).

(** ** Non-vectorized methods on a selection of sites *)

(** [make_sparse] and [make_dense]: the assemblers behind
    [hamiltonian_submatrix] when [to_sites] or [from_sites] is given.
    [from_sites] holds the column sites, [n_by_to_site] maps a row site to
    its index in [to_sites], and [diag[n_fs]] is the onsite block of
    [from_sites[n_fs]]. *)

Section SiteSelection.
Context {C : Type} `{Scalar C}.

Variable ham : nat -> nat -> Matrix C.
Variable gr : CGraph.
Variable diag : list (Matrix C).
Variable from_sites : list nat.
Variable n_by_to_site : gmap nat nat.
Variables to_norb to_off from_norb from_off : list nat.

(** [diag[n_fs]] *)
Definition diag_at (n_fs : nat) : Matrix C := nth n_fs diag (zeros 0 0).

(** *** make_sparse *)

(** "Calculate the data size." *)
Definition sel_count_nbrs (n_fs : nat) (nbors : list nat) (num_entries : nat)
  : nat :=
  fold_left
    (fun acc ts =>
       match n_by_to_site !! ts with
       | Some n_ts => acc + at_ to_norb n_ts * at_ from_norb n_fs
       | None => acc
       end)
    nbors num_entries.

Definition sel_count_entries : nat :=
  fold_left
    (fun acc (p : nat * nat) =>
       let '(n_fs, fs) := p in
       let acc :=
         match n_by_to_site !! fs with
         | Some _ => acc + at_ from_norb n_fs * at_ from_norb n_fs
         | None => acc
         end in
       sel_count_nbrs n_fs (out_neighbors gr fs) acc)
    (enumerate from_sites) 0.

(** The two inner loops over the entries of a block [h] that goes to the
    rows of [to_sites[n_ts]] and the columns of [from_sites[n_fs]]. *)
Definition sel_entries (num_entries n_ts n_fs : nat) (h : Matrix C)
  : list (nat * nat * C) -> result (list (nat * nat * C)) :=
  for_each
    (fun i =>
       for_each
         (fun j T =>
            let value := entry h i j in
            if negb (is0 value)
            then put num_entries
                     (i + at_ to_off n_ts, j + at_ from_off n_fs, value) T
            else Ok T)
         (range (shape1 h)))
    (range (shape0 h)).

Definition sel_sparse_nbrs (num_entries n_fs fs : nat)
  : list nat -> list (nat * nat * C) -> result (list (nat * nat * C)) :=
  for_each
    (fun ts T =>
       match n_by_to_site !! ts with
       | None => Ok T
       | Some n_ts =>
           let h := ham ts fs in
           if negb (shape0 h =? at_ to_norb n_ts)
              || negb (shape1 h =? at_ from_norb n_fs)
           then Raise (ValueError_msg fs ts)
           else sel_entries num_entries n_ts n_fs h T
       end).

Definition sel_sparse_sites (num_entries : nat)
  : list (nat * nat) -> list (nat * nat * C)
    -> result (list (nat * nat * C)) :=
  for_each
    (fun (p : nat * nat) T =>
       let '(n_fs, fs) := p in
       try T1 :=
         match n_by_to_site !! fs with
         | Some n_ts =>
             let h := diag_at n_fs in
             if negb ((shape0 h =? shape1 h)
                      && (shape1 h =? at_ from_norb n_fs))
             then Raise (ValueError_msg fs fs)
             else sel_entries num_entries n_ts n_fs h T
         | None => Ok T
         end in
       sel_sparse_nbrs num_entries n_fs fs (out_neighbors gr fs) T1).

Definition make_sparse : result (Coo C) :=
  let num_entries := sel_count_entries in
  try T := sel_sparse_sites num_entries (enumerate from_sites) [] in
  Ok {| coo_shape0 := List.last to_off 0; coo_shape1 := List.last from_off 0;
        coo_data := T |}.

(** *** make_sparse, with its counters as [gint] *)

(** "Calculate the data size." as the C code computes it: [num_entries]
    and the norbs are [gint], so every product and every sum keeps its
    low 32 bits. *)
Definition sel_count_nbrs_gint (n_fs : nat) (nbors : list nat)
           (num_entries : Z) : Z :=
  fold_left
    (fun acc ts =>
       match n_by_to_site !! ts with
       | Some n_ts =>
           gint_wrap (acc + gint_wrap (Z.of_nat (at_ to_norb n_ts)
                                       * Z.of_nat (at_ from_norb n_fs)))
       | None => acc
       end)
    nbors num_entries.

Definition sel_count_entries_gint : Z :=
  fold_left
    (fun acc (p : nat * nat) =>
       let '(n_fs, fs) := p in
       let acc :=
         match n_by_to_site !! fs with
         | Some _ =>
             gint_wrap (acc + gint_wrap (Z.of_nat (at_ from_norb n_fs)
                                         * Z.of_nat (at_ from_norb n_fs)))
         | None => acc
         end in
       sel_count_nbrs_gint n_fs (out_neighbors gr fs) acc)
    (enumerate from_sites) 0%Z.

(** [np.empty] refuses a negative size; otherwise the buffers have
    [num_entries] slots and the write pass is [sel_sparse_sites]. *)
Definition make_sparse_gint : result (Coo C) :=
  let num_entries := sel_count_entries_gint in
  if (num_entries <? 0)%Z then Raise ValueError_dimensions
  else
    try T := sel_sparse_sites (Z.to_nat num_entries)
                              (enumerate from_sites) [] in
    Ok {| coo_shape0 := List.last to_off 0;
          coo_shape1 := List.last from_off 0;
          coo_data := T |}.

(** *** make_dense *)

(** [h_sub_view[to_off[n_ts] : to_off[n_ts + 1],
                from_off[n_fs] : from_off[n_fs + 1]] = h] *)
Definition sel_assign (n_ts n_fs : nat) (h : Matrix C) (M : Matrix C)
  : result (Matrix C) :=
  assign_block M (at_ to_off n_ts) (at_ to_off (n_ts + 1))
               (at_ from_off n_fs) (at_ from_off (n_fs + 1)) h.

Definition sel_dense_nbrs (n_fs fs : nat)
  : list nat -> Matrix C -> result (Matrix C) :=
  for_each
    (fun ts M =>
       match n_by_to_site !! ts with
       | None => Ok M
       | Some n_ts =>
           let h := ham ts fs in
           if negb (shape0 h =? at_ to_norb n_ts)
              || negb (shape1 h =? at_ from_norb n_fs)
           then Raise (ValueError_msg fs ts)
           else sel_assign n_ts n_fs h M
       end).

Definition sel_dense_sites
  : list (nat * nat) -> Matrix C -> result (Matrix C) :=
  for_each
    (fun (p : nat * nat) M =>
       let '(n_fs, fs) := p in
       try M1 :=
         match n_by_to_site !! fs with
         | Some n_ts =>
             let h := diag_at n_fs in
             if negb ((shape0 h =? shape1 h)
                      && (shape1 h =? at_ from_norb n_fs))
             then Raise (ValueError_msg fs fs)
             else sel_assign n_ts n_fs h M
         | None => Ok M
         end in
       sel_dense_nbrs n_fs fs (out_neighbors gr fs) M1).

Definition make_dense : result (Matrix C) :=
  sel_dense_sites (enumerate from_sites)
                  (zeros (List.last to_off 0) (List.last from_off 0)).
End SiteSelection.

(** *** hamiltonian_submatrix, with all its arguments *)

(** A sequence of site numbers passed by the caller: the object (its
    identity, for [to_sites is from_sites]) and its items.  The items are
    Python integers, checked against [0 <= site < n] before use. *)
Record SiteSeq := {
  seq_id : nat;
  seq_items : list Z
}.

(** [a is b] for two arguments that are [None] or a sequence. *)
Definition is_ (a b : option SiteSeq) : bool :=
  match a, b with
  | None, None => true
  | Some x, Some y => seq_id x =? seq_id y
  | _, _ => false
  end.

(** What [hamiltonian_submatrix] returns: [mat], or with [return_norb] the
    tuple [(mat, to_norb, from_norb)]. *)
Inductive Returned (C : Type) : Type :=
| Mat (mat : Assembled C)
| MatNorb (mat : Assembled C) (to_norb from_norb : list nat).
Arguments Mat {C} mat.
Arguments MatNorb {C} mat to_norb from_norb.

Definition returned_mat {C} (r : Returned C) : Assembled C :=
  match r with
  | Mat mat => mat
  | MatNorb mat _ _ => mat
  end.

Section HamiltonianSubmatrixSites.
Context {C : Type} `{Scalar C}.

Variable ham : nat -> nat -> Matrix C.
Variable gr : CGraph.

(** One turn of the loop over the given sites: the item is assigned to
    the [gint] variable [site], then comes the range check, then the
    onsite block. *)
Definition checked_onsite (site : Z) : result (Matrix C) :=
  if negb (fits_gint site) then Raise OverflowError
  else if (site <? 0)%Z || (Z.of_nat (num_nodes gr) <=? site)%Z
  then Raise IndexError
  else Ok (ham (Z.to_nat site) (Z.to_nat site)).

(** The onsite blocks of the selected sites, in order: the loop that fills
    [diag] (and [from_norb], [to_norb] with [h.shape[0]]). *)
Definition onsite_blocks (sites : option SiteSeq)
  : result (list (Matrix C)) :=
  match sites with
  | None => Ok (map (fun site => ham site site) (range (num_nodes gr)))
  | Some s => comprehension checked_onsite (seq_items s)
  end.

(** [dict((site, n_site) for n_site, site in enumerate(to_sites))]; a site
    listed twice keeps its last index. *)
Definition index_by_site (to_sites : list nat) : gmap nat nat :=
  fold_left (fun (m : gmap nat nat) (p : nat * nat) => <[snd p := fst p]> m)
            (enumerate to_sites) empty.

(** [dict((site, site) for site in to_sites)] with
    [to_sites = np.arange(n)] *)
Definition index_all_sites (n : nat) : gmap nat nat :=
  fold_left (fun (m : gmap nat nat) (site : nat) => <[site := site]> m)
            (range n) empty.

(** The sites of a sequence that passed the range check, as [gint]. *)
Definition site_numbers (s : SiteSeq) : list nat :=
  map Z.to_nat (seq_items s).

Definition hamiltonian_submatrix_sites
           (to_sites from_sites : option SiteSeq) (sparse return_norb : bool)
  : result (Returned C) :=
  let n := num_nodes gr in
  try diag := onsite_blocks from_sites in
  let from_norb := map (fun h : Matrix C => shape0 h) diag in
  let from_off := offsets from_norb in
  try to :=
    if is_ to_sites from_sites
    then Ok (from_norb, from_off)
    else
      try blocks := onsite_blocks to_sites in
      let to_norb := map (fun h : Matrix C => shape0 h) blocks in
      Ok (to_norb, offsets to_norb) in
  let '(to_norb, to_off) := to in
  try mat :=
    match to_sites, from_sites with
    | None, None =>
        let diag := fun site => nth site diag (zeros 0 0) in
        if sparse
        then try mat := make_sparse_full ham gr diag to_norb to_off
                                         from_norb from_off in
             Ok (Sparse mat)
        else try mat := make_dense_full ham gr diag to_norb to_off
                                        from_norb from_off in
             Ok (Dense mat)
    | _, _ =>
        let n_by_to_site :=
          match to_sites with
          | None => index_all_sites n
          | Some s => index_by_site (site_numbers s)
          end in
        let from_sites :=
          match from_sites with
          | None => range n
          | Some s => site_numbers s
          end in
        if sparse
        then try mat := make_sparse ham gr diag from_sites n_by_to_site
                                    to_norb to_off from_norb from_off in
             Ok (Sparse mat)
        else try mat := make_dense ham gr diag from_sites n_by_to_site
                                   to_norb to_off from_norb from_off in
             Ok (Dense mat)
    end in
  Ok (if return_norb then MatNorb mat to_norb from_norb else Mat mat).
End HamiltonianSubmatrixSites.

(** ** The norbs returned with the vectorized Hamiltonian *)

(** *** _expand_norbs *)

(** [a[start:stop] = v] on a one-dimensional array whose first element
    has index [i]; the slice is clipped to the array. *)
Fixpoint fill_from {A} (i start stop : nat) (v : A) (a : list A) : list A :=
  match a with
  | [] => []
  | x :: a' =>
      (if (start <=? i) && (i <? stop) then v else x)
        :: fill_from (S i) start stop v a'
  end.

Definition fill_slice {A} (start stop : nat) (v : A) (a : list A) : list A :=
  fill_from 0 start stop v a.

(** The array starts as [np.empty(site_offsets[-1], int)]: a cell that is
    never assigned is [None]. *)
Definition _expand_norbs (compressed_norbs site_offsets : list nat)
  : result (list (option nat)) :=
  match site_offsets with
  | [] => Raise IndexError
  | _ :: _ =>
      let norbs := repeat None (List.last site_offsets 0) in
      Ok (fold_left
            (fun norbs (p : nat * (nat * nat)) =>
               let '(start, (stop, norb)) := p in
               fill_slice start stop (Some norb) norbs)
            (combine site_offsets
                     (combine (tl site_offsets) compressed_norbs))
            norbs)
  end.

(** *** vectorized_hamiltonian_submatrix, with return_norb *)

(** What [vectorized_hamiltonian_submatrix] returns: [mat], or with
    [return_norb] the tuple [(mat, norb)]. *)
Inductive VReturned (C : Type) : Type :=
| VMat (mat : Assembled C)
| VMatNorb (mat : Assembled C) (norb : list (option nat)).
Arguments VMat {C} mat.
Arguments VMatNorb {C} mat norb.

Section ReturnNorb.
Context {C : Type} `{Scalar C}.

Variable syst : System C.

Definition vectorized_hamiltonian_submatrix_norb (sparse return_norb : bool)
  : result (VReturned C) :=
  let site_offsets := site_offsets_of syst in
  try sh := hermitian_expansion syst in
  let '(subgraphs, hams) := sh in
  try no := _count_norbs syst site_offsets (map Some hams) in
  let '(norbs, orb_offsets) := no in
  try mat := call_assembler sparse subgraphs hams norbs orb_offsets
                            site_offsets None in
  if return_norb
  then try norb := _expand_norbs norbs site_offsets in
       Ok (VMatNorb mat norb)
  else Ok (VMat mat).
End ReturnNorb.

(** * Properties *)

(** ** Loops in the exception monad *)

(** A loop invariant: it holds on entry and every iteration that does not
    raise keeps it. *)
Lemma for_each_invariant {X S} (body : X -> S -> result S) (I : S -> Prop)
      (l : list X) :
  (forall x s s', In x l -> I s -> body x s = Ok s' -> I s') ->
  forall s s', I s -> for_each body l s = Ok s' -> I s'.
Proof.
  induction l as [|x l IH]; intros Hstep s s' Hs Hrun; simpl in Hrun.
  - injection Hrun as <-; exact Hs.
  - destruct (body x s) as [s1|e] eqn:Hb; simpl in Hrun; [|discriminate].
    apply (IH (fun y t t' Hy => Hstep y t t' (or_intror Hy)) s1 s');
      [|exact Hrun].
    apply (Hstep x s s1); [left; reflexivity | exact Hs | exact Hb].
Qed.

(** ** The write index of make_sparse_full stays inside the buffers *)

Section WriteIndex.
Context {C : Type} `{Scalar C}.

(** The outcome of a piece of the write pass that started with [T]
    written and may add at most [c] triplets: it does not run over the
    buffers, and the triplets it adds are at most [c]. *)
Definition within (c : nat) (T : list (nat * nat * C))
           (r : result (list (nat * nat * C))) : Prop :=
  match r with
  | Ok T' => length T' <= length T + c
  | Raise e => e <> BufferOverrun
  end.

Lemma put_within N t (T : list (nat * nat * C)) :
  length T + 1 <= N -> within 1 T (put N t T).
Proof.
  intros Hle; unfold put.
  destruct (Nat.ltb_spec (length T) N) as [_|Hge]; [|lia].
  simpl; rewrite length_app; simpl; lia.
Qed.

Lemma for_each_within {X} (body : X -> list (nat * nat * C) ->
                                  result (list (nat * nat * C)))
      (cost : X -> nat) (N : nat) (l : list X) :
  (forall x T, In x l -> length T + cost x <= N ->
               within (cost x) T (body x T)) ->
  forall T, length T + list_sum (map cost l) <= N ->
            within (list_sum (map cost l)) T (for_each body l T).
Proof.
  induction l as [|x l IH]; intros Hbody T Hle; simpl in *.
  - lia.
  - pose proof (Hbody x T (or_introl eq_refl) ltac:(lia)) as Hx.
    destruct (body x T) as [T1|e]; simpl in *; [|exact Hx].
    pose proof (IH (fun y T' Hy => Hbody y T' (or_intror Hy)) T1
                   ltac:(lia)) as Hrest.
    destruct (for_each body l T1) as [T2|e]; simpl in *; [lia|exact Hrest].
Qed.

Lemma list_sum_const {X} (l : list X) (c : nat) :
  list_sum (map (fun _ => c) l) = length l * c.
Proof. induction l as [|x l IH]; simpl; [reflexivity | rewrite IH; lia]. Qed.

Lemma range_length n : length (range n) = n.
Proof. apply length_seq. Qed.

Variable ham : nat -> nat -> Matrix C.
Variable gr : CGraph.
Variable diag : nat -> Matrix C.
Variables to_norb to_off from_norb from_off : list nat.

Lemma sparse_onsite_within N fs h (T : list (nat * nat * C)) :
  length T + shape0 h * shape1 h <= N ->
  within (shape0 h * shape1 h) T (sparse_onsite to_off from_off N fs h T).
Proof.
  intros Hle; unfold sparse_onsite.
  pose proof (@for_each_within nat
    (fun i => for_each
       (fun j T0 =>
          let value := entry h i j in
          if negb (is0 value)
          then put N (i + at_ to_off fs, j + at_ from_off fs, value) T0
          else Ok T0) (range (shape1 h)))
    (fun _ => shape1 h) N (range (shape0 h))) as Houter.
  rewrite list_sum_const, range_length in Houter.
  apply Houter; [|exact Hle].
  intros i T1 _ Hle1.
  pose proof (@for_each_within nat
    (fun j T0 =>
       let value := entry h i j in
       if negb (is0 value)
       then put N (i + at_ to_off fs, j + at_ from_off fs, value) T0
       else Ok T0)
    (fun _ => 1) N (range (shape1 h))) as Hinner.
  rewrite list_sum_const, range_length, Nat.mul_1_r in Hinner.
  apply Hinner; [|exact Hle1].
  intros j T2 _ Hle2; simpl.
  destruct (is0 (entry h i j)); simpl; [lia|].
  apply put_within; exact Hle2.
Qed.

Lemma sparse_hop_within N fs ts h (T : list (nat * nat * C)) :
  length T + 2 * shape0 h * shape1 h <= N ->
  within (2 * shape0 h * shape1 h) T
         (sparse_hop to_off from_off N fs ts h T).
Proof.
  intros Hle; unfold sparse_hop.
  pose proof (@for_each_within nat
    (fun i => for_each
       (fun j T0 =>
          let value := entry h i j in
          if negb (is0 value)
          then
            try T1 := put N (i + at_ to_off ts, j + at_ from_off fs,
                             value) T0 in
            put N (j + at_ from_off fs, i + at_ to_off ts,
                   cconj (entry h i j)) T1
          else Ok T0) (range (shape1 h)))
    (fun _ => 2 * shape1 h) N (range (shape0 h))) as Houter.
  rewrite list_sum_const, range_length in Houter.
  replace (shape0 h * (2 * shape1 h)) with (2 * shape0 h * shape1 h)
    in Houter by lia.
  apply Houter; [|exact Hle].
  intros i T1 _ Hle1.
  pose proof (@for_each_within nat
    (fun j T0 =>
       let value := entry h i j in
       if negb (is0 value)
       then
         try T1 := put N (i + at_ to_off ts, j + at_ from_off fs,
                          value) T0 in
         put N (j + at_ from_off fs, i + at_ to_off ts,
                cconj (entry h i j)) T1
       else Ok T0)
    (fun _ => 2) N (range (shape1 h))) as Hinner.
  rewrite list_sum_const, range_length in Hinner.
  replace (shape1 h * 2) with (2 * shape1 h) in Hinner by lia.
  apply Hinner; [|exact Hle1].
  intros j T2 _ Hle2; simpl.
  destruct (is0 (entry h i j)); simpl; [lia|].
  pose proof (@put_within N (i + at_ to_off ts, j + at_ from_off fs,
                             entry h i j) T2 ltac:(lia)) as H1.
  destruct (put N _ T2) as [T3|e] eqn:Hput; simpl in *; [|exact H1].
  pose proof (@put_within N (j + at_ from_off fs, i + at_ to_off ts,
                             cconj (entry h i j)) T3 ltac:(lia)) as H2.
  destruct (put N _ T3) as [T4|e]; simpl in *; [lia | exact H2].
Qed.

(** What the counting pass adds for one neighbour and for one site. *)
Definition nbr_cost (fs ts : nat) : nat :=
  if fs <? ts then 2 * at_ to_norb ts * at_ from_norb fs else 0.

Definition site_cost (fs : nat) : nat :=
  at_ from_norb fs * at_ from_norb fs
  + list_sum (map (nbr_cost fs) (out_neighbors gr fs)).

Lemma count_nbrs_sum fs nbors acc :
  count_nbrs to_norb from_norb fs nbors acc =
  acc + list_sum (map (nbr_cost fs) nbors).
Proof.
  unfold count_nbrs; revert acc.
  induction nbors as [|ts nbors IH]; intros acc; simpl; [lia|].
  rewrite IH; unfold nbr_cost; destruct (fs <? ts); lia.
Qed.

Lemma count_entries_sum :
  count_entries gr to_norb from_norb =
  list_sum (map site_cost (range (num_nodes gr))).
Proof.
  unfold count_entries.
  enough (Hgen : forall l acc,
    fold_left (fun acc fs =>
                 count_nbrs to_norb from_norb fs (out_neighbors gr fs)
                   (acc + at_ from_norb fs * at_ from_norb fs)) l acc =
    acc + list_sum (map site_cost l)) by apply Hgen.
  induction l as [|fs l IH]; intros acc; simpl; [lia|].
  rewrite IH, count_nbrs_sum; unfold site_cost; lia.
Qed.

(** No site is listed among its own out-neighbours. *)
Definition no_self_loop : Prop :=
  forall fs, fs < num_nodes gr -> ~ In fs (out_neighbors gr fs).

Lemma sparse_nbrs_within N fs nbors (T : list (nat * nat * C)) :
  ~ In fs nbors ->
  length T + list_sum (map (nbr_cost fs) nbors) <= N ->
  within (list_sum (map (nbr_cost fs) nbors)) T
         (sparse_nbrs ham to_norb to_off from_norb from_off N fs nbors T).
Proof.
  intros Hself Hle; unfold sparse_nbrs.
  apply for_each_within with (N := N); [|exact Hle].
  intros ts T1 Hin Hle1; simpl.
  destruct (Nat.ltb_spec ts fs) as [Hlt|Hge]; [simpl; lia|].
  assert (Hne : ts <> fs) by (intros ->; exact (Hself Hin)).
  unfold nbr_cost in *.
  destruct (Nat.ltb_spec fs ts) as [_|Hle2]; [|lia].
  destruct (Nat.eqb_spec (shape0 (ham ts fs)) (at_ to_norb ts)) as [E0|_];
    [|simpl; discriminate].
  destruct (Nat.eqb_spec (shape1 (ham ts fs)) (at_ from_norb fs)) as [E1|_];
    [|simpl; discriminate].
  simpl; rewrite <- E0, <- E1 in *.
  apply sparse_hop_within; exact Hle1.
Qed.

Lemma sparse_sites_within N sites (T : list (nat * nat * C)) :
  (forall fs, In fs sites -> ~ In fs (out_neighbors gr fs)) ->
  length T + list_sum (map site_cost sites) <= N ->
  within (list_sum (map site_cost sites)) T
         (sparse_sites ham gr diag to_norb to_off from_norb from_off
                       N sites T).
Proof.
  intros Hself Hle; unfold sparse_sites.
  apply for_each_within with (N := N); [|exact Hle].
  intros fs T1 Hin Hle1; simpl.
  unfold site_cost in *.
  destruct (Nat.eqb_spec (shape0 (diag fs)) (shape1 (diag fs))) as [E0|_];
    [|simpl; discriminate].
  destruct (Nat.eqb_spec (shape1 (diag fs)) (at_ from_norb fs)) as [E1|_];
    [|simpl; discriminate].
  simpl.
  pose proof (@sparse_onsite_within N fs (diag fs) T1) as Hon.
  rewrite E0, E1 in Hon; specialize (Hon ltac:(lia)).
  destruct (sparse_onsite to_off from_off N fs (diag fs) T1) as [T2|e];
    simpl in *; [|exact Hon].
  pose proof (@sparse_nbrs_within N fs (out_neighbors gr fs) T2
                (Hself fs Hin) ltac:(lia)) as Hnb.
  destruct (sparse_nbrs _ _ _ _ _ _ _ _ T2) as [T3|e]; simpl in *;
    [lia | exact Hnb].
Qed.
End WriteIndex.

(** ** Offsets: running sums of the orbital counts *)

Section Offsets.
Variable norb : list nat.

Lemma cumsum_from_length acc l : length (cumsum_from acc l) = length l.
Proof.
  revert acc; induction l as [|x l IH]; intros acc; simpl;
    [reflexivity | rewrite IH; reflexivity].
Qed.

Lemma cumsum_from_nth acc l k :
  k < length l ->
  nth k (cumsum_from acc l) 0 = acc + list_sum (firstn (S k) l).
Proof.
  revert acc k; induction l as [|x l IH]; intros acc k Hk; simpl in *;
    [lia|].
  destruct k as [|k]; simpl.
  - lia.
  - rewrite IH by lia; simpl; lia.
Qed.

Lemma offsets_length : length (offsets norb) = length norb + 1.
Proof. unfold offsets, cumsum; simpl; rewrite cumsum_from_length; lia. Qed.

(** [off[k]] is the sum of the first [k] orbital counts. *)
Lemma offsets_at k :
  k <= length norb -> at_ (offsets norb) k = list_sum (firstn k norb).
Proof.
  intros Hk; unfold at_, offsets, cumsum.
  destruct k as [|k]; simpl; [reflexivity|].
  rewrite cumsum_from_nth by lia; reflexivity.
Qed.

Lemma firstn_S_sum (l : list nat) k :
  list_sum (firstn (S k) l) = list_sum (firstn k l) + nth k l 0.
Proof.
  revert k; induction l as [|x l IH]; intros k.
  - destruct k; reflexivity.
  - destruct k as [|k]; [simpl; lia|].
    change (firstn (S (S k)) (x :: l)) with (x :: firstn (S k) l).
    change (firstn (S k) (x :: l)) with (x :: firstn k l).
    simpl list_sum; rewrite IH; simpl; lia.
Qed.

Lemma firstn_sum_mono (l : list nat) k1 k2 :
  k1 <= k2 -> list_sum (firstn k1 l) <= list_sum (firstn k2 l).
Proof.
  induction 1 as [|k2 _ IH]; [lia|].
  rewrite firstn_S_sum; lia.
Qed.

(** [off[fs + 1] = off[fs] + norb[fs]] *)
Lemma offsets_succ fs :
  fs < length norb ->
  at_ (offsets norb) (fs + 1) = at_ (offsets norb) fs + at_ norb fs.
Proof.
  intros Hfs; rewrite !offsets_at by lia.
  rewrite Nat.add_1_r, firstn_S_sum; reflexivity.
Qed.

Lemma offsets_mono a b :
  a <= b -> b <= length norb ->
  at_ (offsets norb) a <= at_ (offsets norb) b.
Proof.
  intros Hab Hb; rewrite !offsets_at by lia; apply firstn_sum_mono, Hab.
Qed.

Lemma last_as_nth (l : list nat) :
  List.last l 0 = nth (length l - 1) l 0.
Proof.
  induction l as [|x l IH]; [reflexivity|].
  destruct l as [|y l]; [reflexivity|].
  change (List.last (x :: y :: l) 0) with (List.last (y :: l) 0).
  rewrite IH; simpl; rewrite Nat.sub_0_r; reflexivity.
Qed.

(** [off[-1]] is the total number of orbitals. *)
Lemma offsets_last :
  List.last (offsets norb) 0 = at_ (offsets norb) (length norb).
Proof.
  unfold at_; rewrite last_as_nth, offsets_length; f_equal; lia.
Qed.

Lemma offsets_le_last k :
  k <= length norb -> at_ (offsets norb) k <= List.last (offsets norb) 0.
Proof. intros Hk; rewrite offsets_last; apply offsets_mono; lia. Qed.

(** Row (or column) [r] lies in the range of site [fs]. *)
Definition in_site (fs r : nat) : Prop :=
  at_ (offsets norb) fs <= r < at_ (offsets norb) fs + at_ norb fs.

Lemma in_site_lt fs r : in_site fs r -> fs < length norb.
Proof.
  unfold in_site, at_ at 3; intros Hr.
  destruct (Nat.lt_ge_cases fs (length norb)) as [Hlt|Hge]; [exact Hlt|].
  rewrite (nth_overflow norb 0 Hge) in Hr; lia.
Qed.

(** The ranges of two different sites do not meet. *)
Lemma in_site_unique a b r : in_site a r -> in_site b r -> a = b.
Proof.
  intros Ha Hb.
  pose proof (in_site_lt Ha) as La; pose proof (in_site_lt Hb) as Lb.
  unfold in_site in *.
  destruct (Nat.lt_trichotomy a b) as [Hlt|[Heq|Hgt]]; [|exact Heq|].
  - pose proof (@offsets_mono (a + 1) b ltac:(lia) ltac:(lia)) as Hm.
    rewrite offsets_succ in Hm by lia; lia.
  - pose proof (@offsets_mono (b + 1) a ltac:(lia) ltac:(lia)) as Hm.
    rewrite offsets_succ in Hm by lia; lia.
Qed.

(** The slice [off[fs] : off[fs + 1]] of an axis of the output has
    [norb[fs]] elements. *)
Lemma slice_len_site fs :
  fs < length norb ->
  slice_len (at_ (offsets norb) fs) (at_ (offsets norb) (fs + 1))
            (List.last (offsets norb) 0) = at_ norb fs.
Proof.
  intros Hfs; unfold slice_len.
  pose proof (@offsets_le_last fs ltac:(lia)).
  pose proof (@offsets_le_last (fs + 1) ltac:(lia)).
  rewrite offsets_succ in * by lia; lia.
Qed.
End Offsets.

(** ** Block writes of the dense assembler *)

Section BlockWrites.
Context {C : Type} `{Scalar C}.

Lemma in_block_spec a c (h : Matrix C) r col :
  in_block a c h r col = true <->
  (a <= r < a + shape0 h) /\ (c <= col < c + shape1 h).
Proof.
  unfold in_block; rewrite !andb_true_iff, !Nat.leb_le, !Nat.ltb_lt; lia.
Qed.

Lemma in_block_conj_transpose a c (h : Matrix C) r col :
  in_block a c (conj_transpose h) r col = in_block c a h col r.
Proof.
  unfold in_block; simpl.
  destruct (a <=? r), (r <? a + shape1 h), (c <=? col),
    (col <? c + shape0 h); reflexivity.
Qed.

Lemma assign_block_ok (M : Matrix C) a b c d h M' :
  assign_block M a b c d h = Ok M' ->
  shape0 M' = shape0 M /\ shape1 M' = shape1 M /\
  forall r col, entry M' r col =
                if in_block a c h r col
                then entry h (r - a) (col - c) else entry M r col.
Proof.
  unfold assign_block; intros Hrun.
  destruct (_ && _); [|discriminate].
  injection Hrun as <-; simpl; auto.
Qed.

(** With equal extents the assignment goes through. *)
Lemma assign_block_extents (M : Matrix C) a b c d h :
  slice_len a b (shape0 M) = shape0 h ->
  slice_len c d (shape1 M) = shape1 h ->
  exists M', assign_block M a b c d h = Ok M'.
Proof.
  intros E0 E1; unfold assign_block.
  rewrite E0, E1, !Nat.eqb_refl; simpl; eauto.
Qed.

(** The blocks of [tinyarray]: equal to their own conjugate transpose. *)
Definition hermitian_block (h : Matrix C) : Prop :=
  shape0 h = shape1 h /\
  forall i j, i < shape0 h -> j < shape0 h ->
              entry h i j = cconj (entry h j i).

(** [M == M.conjugate().transpose()], entry by entry. *)
Definition hermitian_entries (M : nat -> nat -> C) : Prop :=
  forall r c, M r c = cconj (M c r).
End BlockWrites.

(** ** The full system: what the caller hands to the assemblers *)

Section FullSystemDense.
Context {C : Type} `{ScalarLaws C}.

Variable ham : nat -> nat -> Matrix C.
Variable gr : CGraph.

Let norb := site_norbs ham gr.
Let off := offsets norb.

Lemma site_norbs_length : length norb = num_nodes gr.
Proof.
  unfold norb, site_norbs; rewrite length_map; apply range_length.
Qed.

Hypothesis onsite_hermitian :
  forall fs, fs < num_nodes gr -> hermitian_block (ham fs fs).

(** Writing a hopping block and then its conjugate transpose keeps the
    output equal to its own conjugate transpose. *)
Lemma dense_hop_hermitian fs ts (M M' : Matrix C) :
  fs < num_nodes gr ->
  hermitian_entries (entry M) ->
  (if ts <? fs then Ok M
   else
     let h := ham ts fs in
     let h_herm := conj_transpose h in
     if negb (shape0 h =? at_ norb ts) || negb (shape1 h =? at_ norb fs)
     then Raise (ValueError_msg fs ts)
     else
       try M1 := assign_block M (at_ off ts) (at_ off (ts + 1))
                              (at_ off fs) (at_ off (fs + 1)) h in
       assign_block M1 (at_ off fs) (at_ off (fs + 1))
                    (at_ off ts) (at_ off (ts + 1)) h_herm) = Ok M' ->
  hermitian_entries (entry M').
Proof.
  intros Hfs HM Hrun.
  destruct (ts <? fs); [injection Hrun as <-; exact HM|].
  cbv zeta in Hrun.
  destruct (Nat.eqb_spec (shape0 (ham ts fs)) (at_ norb ts)) as [E0|_];
    [|discriminate].
  destruct (Nat.eqb_spec (shape1 (ham ts fs)) (at_ norb fs)) as [E1|_];
    [|discriminate].
  simpl in Hrun.
  destruct (assign_block M _ _ _ _ (ham ts fs)) as [M1|e] eqn:H1;
    [|discriminate].
  simpl in Hrun.
  apply assign_block_ok in H1 as (_ & _ & HM1).
  apply assign_block_ok in Hrun as (_ & _ & HM').
  intros r c; rewrite !HM', !HM1, !in_block_conj_transpose.
  destruct (in_block (at_ off ts) (at_ off fs) (ham ts fs) c r) eqn:Bcr,
           (in_block (at_ off ts) (at_ off fs) (ham ts fs) r c) eqn:Brc;
    simpl.
  - (* both blocks cover the position: a self-loop *)
    apply in_block_spec in Bcr, Brc.
    rewrite E0, E1 in Bcr, Brc.
    assert (Hts : ts = fs).
    { apply (@in_site_unique norb ts fs r); unfold in_site; fold off; lia. }
    subst ts.
    destruct (onsite_hermitian Hfs) as [Hsq Hherm].
    rewrite cconj_invol.
    rewrite <- E0 in *.
    symmetry; apply Hherm; lia.
  - reflexivity.
  - rewrite cconj_invol; reflexivity.
  - apply HM.
Qed.

Lemma dense_nbrs_hermitian fs nbors (M M' : Matrix C) :
  fs < num_nodes gr ->
  hermitian_entries (entry M) ->
  dense_nbrs ham norb off norb off fs nbors M = Ok M' ->
  hermitian_entries (entry M').
Proof.
  intros Hfs HM Hrun.
  refine (@for_each_invariant _ _ _ (fun M => hermitian_entries (entry M))
                              _ _ _ _ HM Hrun).
  intros ts M0 M1 _ HM0 Hstep.
  eapply dense_hop_hermitian; eassumption.
Qed.

Lemma dense_sites_hermitian sites (M M' : Matrix C) :
  (forall fs, In fs sites -> fs < num_nodes gr) ->
  hermitian_entries (entry M) ->
  dense_sites ham gr (fun site => ham site site) norb off norb off sites M
  = Ok M' ->
  hermitian_entries (entry M').
Proof.
  intros Hsites HM Hrun.
  refine (@for_each_invariant _ _ _ (fun M => hermitian_entries (entry M))
                              _ _ _ _ HM Hrun).
  intros fs M0 M2 Hin HM0 Hstep; cbv beta zeta in Hstep.
  pose proof (Hsites fs Hin) as Hfs.
  destruct (negb _); [discriminate|].
  destruct (assign_block M0 _ _ _ _ (ham fs fs)) as [M1|e] eqn:H1;
    [|discriminate].
  simpl in Hstep.
  apply assign_block_ok in H1 as (_ & _ & HM1).
  eapply dense_nbrs_hermitian; [exact Hfs | | exact Hstep].
  destruct (onsite_hermitian Hfs) as [Hsq Hherm].
  intros r c; rewrite !HM1.
  destruct (in_block (at_ off fs) (at_ off fs) (ham fs fs) r c) eqn:Brc.
  - assert (Bcr : in_block (at_ off fs) (at_ off fs) (ham fs fs) c r = true).
    { apply in_block_spec in Brc; apply in_block_spec; lia. }
    rewrite Bcr; apply in_block_spec in Brc.
    apply Hherm; lia.
  - assert (Bcr : in_block (at_ off fs) (at_ off fs) (ham fs fs) c r = false).
    { apply not_true_is_false; intros Bcr; apply in_block_spec in Bcr.
      apply not_true_iff_false in Brc; apply Brc, in_block_spec; lia. }
    rewrite Bcr; apply HM0.
Qed.

Lemma dense_shape sites (M M' : Matrix C) :
  dense_sites ham gr (fun site => ham site site) norb off norb off sites M
  = Ok M' ->
  shape0 M' = shape0 M /\ shape1 M' = shape1 M.
Proof.
  intros Hrun.
  refine (@for_each_invariant _ _ _
            (fun M1 => shape0 M1 = shape0 M /\ shape1 M1 = shape1 M)
            _ _ _ _ (conj eq_refl eq_refl) Hrun).
  intros fs M0 M2 _ [S0 S1] Hstep; cbv beta zeta in Hstep.
  destruct (negb _); [discriminate|].
  destruct (assign_block M0 _ _ _ _ (ham fs fs)) as [M1|e] eqn:H1;
    [|discriminate].
  simpl in Hstep.
  apply assign_block_ok in H1 as (S0' & S1' & _).
  refine (@for_each_invariant _ _ _
            (fun M3 => shape0 M3 = shape0 M /\ shape1 M3 = shape1 M)
            _ _ _ _ _ Hstep); [|split; congruence].
  intros ts Ma Mb _ [Sa0 Sa1] Hhop; cbv beta zeta in Hhop.
  destruct (ts <? fs); [injection Hhop as <-; auto|].
  destruct (_ || _); [discriminate|].
  destruct (assign_block Ma _ _ _ _ (ham ts fs)) as [Mc|e] eqn:H2;
    [|discriminate].
  simpl in Hhop.
  apply assign_block_ok in H2 as (Sc0 & Sc1 & _).
  apply assign_block_ok in Hhop as (Sb0 & Sb1 & _).
  split; congruence.
Qed.

Lemma make_dense_full_hermitian (M : Matrix C) :
  make_dense_full ham gr (fun site => ham site site) norb off norb off
  = Ok M ->
  shape0 M = shape1 M /\ hermitian_entries (entry M).
Proof.
  unfold make_dense_full; intros Hrun; split.
  - apply dense_shape in Hrun as [S0 S1]; simpl in *; congruence.
  - eapply dense_sites_hermitian; [ | | exact Hrun].
    + intros fs Hin; apply in_seq in Hin; lia.
    + intros r c; simpl; symmetry; apply cconj_0.
Qed.
End FullSystemDense.

(** ** The triplets of the sparse assembler *)

Section Triplets.
Context {C : Type} `{Scalar C}.

(** The values stored at position [(r, c)], in storage order. *)
Definition vals_at (r c : nat) (l : list (nat * nat * C)) : list C :=
  flat_map
    (fun t : nat * nat * C =>
       let '(r', c', v) := t in
       if (r =? r') && (c =? c') then [v] else [])
    l.

Lemma vals_at_app r c l1 l2 :
  vals_at r c (l1 ++ l2) = vals_at r c l1 ++ vals_at r c l2.
Proof. apply flat_map_app. Qed.

Lemma vals_at_flat_map {X} r c (f : X -> list (nat * nat * C)) l :
  vals_at r c (flat_map f l) = flat_map (fun x => vals_at r c (f x)) l.
Proof.
  induction l as [|x l IH]; simpl; [reflexivity|].
  rewrite vals_at_app, IH; reflexivity.
Qed.

(** [todense] sums, at each position, the values stored there. *)
Lemma coo_sum_vals l (S : nat -> nat -> C) r c :
  coo_sum l S r c = fold_left cadd (vals_at r c l) (S r c).
Proof.
  unfold coo_sum; revert S; induction l as [|[[r' c'] v] l IH]; intros S;
    simpl; [reflexivity|].
  rewrite IH; simpl.
  destruct ((r =? r') && (c =? c')); reflexivity.
Qed.

Lemma flat_map_range_single {B} (g : nat -> list B) n x0 :
  (forall x, x < n -> x <> x0 -> g x = []) ->
  flat_map g (range n) = if x0 <? n then g x0 else [].
Proof.
  unfold range; induction n as [|n IH]; intros Hg; [reflexivity|].
  rewrite seq_S, flat_map_app; simpl; rewrite app_nil_r.
  rewrite IH by (intros x Hx; apply Hg; lia).
  destruct (Nat.ltb_spec x0 n) as [Hlt|Hge].
  - rewrite (Hg n) by lia.
    destruct (Nat.ltb_spec x0 (S n)); [apply app_nil_r | lia].
  - destruct (Nat.ltb_spec x0 (S n)) as [Hlt|Hge']; simpl.
    + replace x0 with n by lia; reflexivity.
    + apply Hg; lia.
Qed.

(** The entries of block [h] that are not zero, placed at offset
    [(o_r, o_c)], row by row. *)
Definition block_entries (o_r o_c : nat) (h : Matrix C)
  : list (nat * nat * C) :=
  flat_map
    (fun i =>
       flat_map
         (fun j =>
            if negb (is0 (entry h i j))
            then [(i + o_r, j + o_c, entry h i j)] else [])
         (range (shape1 h)))
    (range (shape0 h)).

Lemma vals_at_block_entries o_r o_c h r c :
  vals_at r c (block_entries o_r o_c h) =
  if in_block o_r o_c h r c && negb (is0 (entry h (r - o_r) (c - o_c)))
  then [entry h (r - o_r) (c - o_c)] else [].
Proof.
  unfold block_entries.
  rewrite vals_at_flat_map.
  rewrite (@flat_map_range_single _ _ (shape0 h) (r - o_r)).
  2:{ intros i Hi Hne; rewrite vals_at_flat_map.
      rewrite (@flat_map_range_single _ _ (shape1 h) 0).
      2:{ intros j _ _; destruct (negb _); [|reflexivity].
          simpl; destruct (Nat.eqb_spec r (i + o_r)); [lia|reflexivity]. }
      destruct (0 <? shape1 h); [|reflexivity].
      destruct (negb _); [|reflexivity].
      simpl; destruct (Nat.eqb_spec r (i + o_r)); [lia|reflexivity]. }
  destruct (Nat.ltb_spec (r - o_r) (shape0 h)) as [Hr|Hr].
  - rewrite vals_at_flat_map.
    rewrite (@flat_map_range_single _ _ (shape1 h) (c - o_c)).
    2:{ intros j Hj Hne; destruct (negb _); [|reflexivity].
        simpl; destruct (Nat.eqb_spec c (j + o_c)); [lia|].
        rewrite andb_false_r; reflexivity. }
    destruct (Nat.ltb_spec (c - o_c) (shape1 h)) as [Hc|Hc].
    + destruct (negb (is0 (entry h (r - o_r) (c - o_c)))) eqn:Hnz.
      * simpl.
        destruct (Nat.eqb_spec r (r - o_r + o_r)) as [Er|Er],
                 (Nat.eqb_spec c (c - o_c + o_c)) as [Ec|Ec]; simpl.
        -- replace (in_block o_r o_c h r c) with true; [reflexivity|].
           symmetry; apply in_block_spec; lia.
        -- replace (in_block o_r o_c h r c) with false; [reflexivity|].
           symmetry; apply not_true_is_false; rewrite in_block_spec; lia.
        -- replace (in_block o_r o_c h r c) with false; [reflexivity|].
           symmetry; apply not_true_is_false; rewrite in_block_spec; lia.
        -- replace (in_block o_r o_c h r c) with false; [reflexivity|].
           symmetry; apply not_true_is_false; rewrite in_block_spec; lia.
      * rewrite andb_false_r; reflexivity.
    + replace (in_block o_r o_c h r c) with false; [reflexivity|].
      symmetry; apply not_true_is_false; rewrite in_block_spec; lia.
  - replace (in_block o_r o_c h r c) with false; [reflexivity|].
    symmetry; apply not_true_is_false; rewrite in_block_spec; lia.
Qed.

Lemma block_entries_in o_r o_c h r c v :
  In (r, c, v) (block_entries o_r o_c h) ->
  in_block o_r o_c h r c = true /\ v = entry h (r - o_r) (c - o_c).
Proof.
  unfold block_entries; intros Hin.
  apply in_flat_map in Hin as (i & Hi & Hin).
  apply in_flat_map in Hin as (j & Hj & Hin).
  apply in_seq in Hi, Hj.
  destruct (negb _); [|destruct Hin].
  destruct Hin as [Heq|[]]; injection Heq as <- <- <-.
  split; [apply in_block_spec; lia|].
  f_equal; lia.
Qed.

(** The mirror of a triplet, and a list of triplets each followed by
    its mirror. *)
Definition mirror (t : nat * nat * C) : nat * nat * C :=
  let '(r, c, v) := t in (c, r, cconj v).

Definition sym_pairs (l : list (nat * nat * C)) : list (nat * nat * C) :=
  flat_map (fun t => [t; mirror t]) l.

Lemma vals_at_sym_pairs_direct r c l :
  (forall r' c' v, In (r', c', v) l -> ~ (r = c' /\ c = r')) ->
  vals_at r c (sym_pairs l) = vals_at r c l.
Proof.
  induction l as [|[[r' c'] v] l IH]; intros Hno; [reflexivity|].
  simpl; rewrite IH by (intros; eapply Hno; right; eassumption).
  destruct (Nat.eqb_spec r c') as [E1|N1], (Nat.eqb_spec c r') as [E2|N2];
    simpl; try reflexivity.
  exfalso; apply (Hno r' c' v); [left; reflexivity | auto].
Qed.

Lemma vals_at_sym_pairs_mirror r c l :
  (forall r' c' v, In (r', c', v) l -> ~ (r = r' /\ c = c')) ->
  vals_at r c (sym_pairs l) = map cconj (vals_at c r l).
Proof.
  induction l as [|[[r' c'] v] l IH]; intros Hno; [reflexivity|].
  simpl; rewrite IH by (intros; eapply Hno; right; eassumption).
  rewrite map_app.
  assert (Hd : (r =? r') && (c =? c') = false).
  { apply not_true_is_false; intros Hd.
    apply andb_true_iff in Hd as [E1 E2].
    apply Nat.eqb_eq in E1, E2.
    apply (Hno r' c' v); [left; reflexivity | auto]. }
  rewrite Hd; simpl.
  destruct (r =? c'), (c =? r'); reflexivity.
Qed.
End Triplets.

(** ** What the write pass of the sparse assembler stores *)

Section SparseContent.
Context {C : Type} `{Scalar C}.

(** A piece of the write pass that stores the triplets [es] after [T],
    unless it runs over the buffers. *)
Definition appends (es T : list (nat * nat * C))
           (r : result (list (nat * nat * C))) : Prop :=
  r = Ok (T ++ es) \/ r = Raise BufferOverrun.

Lemma appends_ok es T r T' : appends es T r -> r = Ok T' -> T' = T ++ es.
Proof. intros [-> | ->] Heq; [injection Heq as <-; reflexivity | discriminate]. Qed.

Lemma put_appends N t (T : list (nat * nat * C)) :
  appends [t] T (put N t T).
Proof. unfold put, appends; destruct (_ <? _); auto. Qed.

Lemma for_each_appends {X} (body : X -> list (nat * nat * C) ->
                                   result (list (nat * nat * C)))
      (f : X -> list (nat * nat * C)) (l : list X) :
  (forall x T, appends (f x) T (body x T)) ->
  forall T, appends (flat_map f l) T (for_each body l T).
Proof.
  intros Hbody; induction l as [|x l IH]; intros T; simpl.
  - left; rewrite app_nil_r; reflexivity.
  - destruct (Hbody x T) as [-> | ->]; simpl; [|right; reflexivity].
    destruct (IH (T ++ f x)) as [-> | ->]; [left|right; reflexivity].
    rewrite app_assoc; reflexivity.
Qed.

Lemma sym_pairs_flat_map {X} (f : X -> list (nat * nat * C)) l :
  sym_pairs (flat_map f l) = flat_map (fun x => sym_pairs (f x)) l.
Proof.
  unfold sym_pairs; induction l as [|x l IH]; simpl; [reflexivity|].
  rewrite flat_map_app, IH; reflexivity.
Qed.

Variables to_off from_off : list nat.

Lemma sparse_onsite_appends N fs h T :
  appends (block_entries (at_ to_off fs) (at_ from_off fs) h) T
          (sparse_onsite to_off from_off N fs h T).
Proof.
  unfold sparse_onsite, block_entries.
  apply for_each_appends; intros i T1.
  apply for_each_appends; intros j T2; simpl.
  destruct (negb _); [apply put_appends|].
  left; rewrite app_nil_r; reflexivity.
Qed.

Lemma sparse_hop_appends N fs ts h T :
  appends (sym_pairs (block_entries (at_ to_off ts) (at_ from_off fs) h)) T
          (sparse_hop to_off from_off N fs ts h T).
Proof.
  unfold sparse_hop, block_entries.
  rewrite sym_pairs_flat_map.
  apply for_each_appends; intros i T1.
  rewrite sym_pairs_flat_map.
  apply for_each_appends; intros j T2; simpl.
  destruct (negb _); simpl.
  - destruct (put_appends N (i + at_ to_off ts, j + at_ from_off fs,
                             entry h i j) T2) as [-> | ->]; simpl;
      [|right; reflexivity].
    destruct (put_appends N (j + at_ from_off fs, i + at_ to_off ts,
                             cconj (entry h i j))
                          (T2 ++ [(i + at_ to_off ts, j + at_ from_off fs,
                                   entry h i j)])) as [-> | ->];
      [left|right; reflexivity].
    rewrite <- app_assoc; reflexivity.
  - left; rewrite app_nil_r; reflexivity.
Qed.
End SparseContent.

(** ** The sparse output is equal to its own conjugate transpose *)

Section FullSystemSparse.
Context {C : Type} `{ScalarLaws C}.

(** Position by position, the stored values are the conjugates of the
    values stored at the mirrored position, in the same order. *)
Definition self_mirrored (T : list (nat * nat * C)) : Prop :=
  forall r c, vals_at r c T = map cconj (vals_at c r T).

Lemma cconj_fold (l : list C) (a : C) :
  cconj (fold_left cadd l a) = fold_left cadd (map cconj l) (cconj a).
Proof.
  revert a; induction l as [|v l IH]; intros a; simpl; [reflexivity|].
  rewrite IH, cconj_add; reflexivity.
Qed.

Lemma self_mirrored_hermitian T :
  self_mirrored T -> hermitian_entries (coo_sum T (fun _ _ => c0)).
Proof.
  intros HT r c; rewrite !coo_sum_vals, cconj_fold, cconj_0, <- HT.
  reflexivity.
Qed.

Lemma self_mirrored_app T1 T2 :
  self_mirrored T1 -> self_mirrored T2 -> self_mirrored (T1 ++ T2).
Proof.
  intros H1 H2 r c; rewrite !vals_at_app, map_app, H1, H2; reflexivity.
Qed.

(** The stored entries of a block equal to its own conjugate transpose,
    placed on the diagonal. *)
Lemma self_mirrored_onsite o (d : Matrix C) :
  hermitian_block d -> self_mirrored (block_entries o o d).
Proof.
  intros [Hsq Hherm] r c; rewrite !vals_at_block_entries.
  destruct (in_block o o d r c) eqn:Brc.
  - assert (Bcr : in_block o o d c r = true).
    { apply in_block_spec in Brc; apply in_block_spec; lia. }
    rewrite Bcr; apply in_block_spec in Brc; simpl.
    rewrite (Hherm (r - o) (c - o)) by lia.
    rewrite is0_cconj.
    destruct (negb _); reflexivity.
  - assert (Bcr : in_block o o d c r = false).
    { apply not_true_is_false; intros Bcr; apply in_block_spec in Bcr.
      apply not_true_iff_false in Brc; apply Brc, in_block_spec; lia. }
    rewrite Bcr; reflexivity.
Qed.

(** Triplets stored together with their mirrors. *)
Lemma self_mirrored_sym_pairs (L : list (nat * nat * C)) :
  (forall r c v, In (r, c, v) L -> r = c -> v = cconj v) ->
  self_mirrored (sym_pairs L).
Proof.
  induction L as [|[[a b] v] L IH]; intros Hdiag r c; [reflexivity|].
  change (sym_pairs ((a, b, v) :: L))
    with ([(a, b, v); (b, a, cconj v)] ++ sym_pairs L).
  rewrite !vals_at_app, map_app.
  rewrite (IH (fun r' c' v' Hin => Hdiag r' c' v' (or_intror Hin)) r c).
  f_equal; simpl.
  destruct (Nat.eqb_spec r a) as [Ea|Na], (Nat.eqb_spec c b) as [Eb|Nb],
           (Nat.eqb_spec r b) as [Eb'|Nb'], (Nat.eqb_spec c a) as [Ea'|Na'];
    simpl; rewrite ?cconj_invol; try reflexivity; try lia.
  assert (Hv : v = cconj v)
    by (apply (Hdiag a b v); [left; reflexivity | lia]).
  rewrite <- Hv; reflexivity.
Qed.

Variable ham : nat -> nat -> Matrix C.
Variable gr : CGraph.

Let norb := site_norbs ham gr.
Let off := offsets norb.

Hypothesis onsite_hermitian :
  forall fs, fs < num_nodes gr -> hermitian_block (ham fs fs).

Lemma hop_entries_diagonal fs ts r c v :
  fs < num_nodes gr ->
  shape0 (ham ts fs) = at_ norb ts ->
  shape1 (ham ts fs) = at_ norb fs ->
  In (r, c, v) (block_entries (at_ off ts) (at_ off fs) (ham ts fs)) ->
  r = c -> v = cconj v.
Proof.
  intros Hfs E0 E1 Hin <-.
  apply block_entries_in in Hin as [Hb ->].
  apply in_block_spec in Hb; rewrite E0, E1 in Hb.
  assert (Hts : ts = fs).
  { apply (@in_site_unique norb ts fs r); unfold in_site; fold off; lia. }
  subst ts.
  destruct (onsite_hermitian Hfs) as [Hsq Hherm].
  apply Hherm; lia.
Qed.

Lemma sparse_nbrs_self_mirrored N fs nbors T T' :
  fs < num_nodes gr ->
  self_mirrored T ->
  sparse_nbrs ham norb off norb off N fs nbors T = Ok T' ->
  self_mirrored T'.
Proof.
  intros Hfs HT Hrun.
  refine (@for_each_invariant _ _ _ self_mirrored _ _ _ _ HT Hrun).
  intros ts T0 T1 _ HT0 Hstep; cbv beta zeta in Hstep.
  destruct (ts <? fs); [injection Hstep as <-; exact HT0|].
  destruct (Nat.eqb_spec (shape0 (ham ts fs)) (at_ norb ts)) as [E0|_];
    [|discriminate].
  destruct (Nat.eqb_spec (shape1 (ham ts fs)) (at_ norb fs)) as [E1|_];
    [|discriminate].
  simpl in Hstep.
  rewrite (appends_ok (sparse_hop_appends off off N fs ts _ T0) Hstep).
  apply self_mirrored_app; [exact HT0|].
  apply self_mirrored_sym_pairs.
  intros r c v; eapply hop_entries_diagonal; eassumption.
Qed.

Lemma sparse_sites_self_mirrored N sites T T' :
  (forall fs, In fs sites -> fs < num_nodes gr) ->
  self_mirrored T ->
  sparse_sites ham gr (fun site => ham site site) norb off norb off
               N sites T = Ok T' ->
  self_mirrored T'.
Proof.
  intros Hsites HT Hrun.
  refine (@for_each_invariant _ _ _ self_mirrored _ _ _ _ HT Hrun).
  intros fs T0 T2 Hin HT0 Hstep; cbv beta zeta in Hstep.
  pose proof (Hsites fs Hin) as Hfs.
  destruct (negb _); [discriminate|].
  destruct (sparse_onsite off off N fs (ham fs fs) T0) as [T1|e] eqn:H1;
    [|discriminate].
  simpl in Hstep.
  eapply sparse_nbrs_self_mirrored; [exact Hfs | | exact Hstep].
  rewrite (appends_ok (sparse_onsite_appends off off N fs _ T0) H1).
  apply self_mirrored_app; [exact HT0|].
  apply self_mirrored_onsite, onsite_hermitian, Hfs.
Qed.

Lemma make_sparse_full_hermitian (A : Coo C) :
  make_sparse_full ham gr (fun site => ham site site) norb off norb off
  = Ok A ->
  coo_shape0 A = coo_shape1 A /\ hermitian_entries (entry (todense A)).
Proof.
  unfold make_sparse_full; intros Hrun.
  destruct (sparse_sites _ _ _ _ _ _ _ _ _ _) as [T|e] eqn:Hsites;
    [|discriminate].
  injection Hrun as <-; simpl; split; [reflexivity|].
  apply self_mirrored_hermitian.
  eapply sparse_sites_self_mirrored; [ | | exact Hsites].
  - intros fs Hin; apply in_seq in Hin; lia.
  - intros r c; reflexivity.
Qed.
End FullSystemSparse.

(** ** The sparse and the dense assembler side by side *)

Section SideBySide.
Context {C : Type} `{ScalarLaws C}.

(** The dense output [M] holds what the stored triplets [T] sum to. *)
Definition same_entries (T : list (nat * nat * C)) (M : Matrix C) : Prop :=
  forall r c, entry M r c = coo_sum T (fun _ _ => c0) r c.

Lemma coo_sum_app (T es : list (nat * nat * C)) S r c :
  coo_sum (T ++ es) S r c = fold_left cadd (vals_at r c es) (coo_sum T S r c).
Proof.
  rewrite !coo_sum_vals, vals_at_app, fold_left_app; reflexivity.
Qed.

(** Writing a block where the output is still zero: the dense assembler
    copies the block, the sparse one stores its non-zero entries. *)
Lemma block_write_same o_r o_c (h : Matrix C) T (M M1 : Matrix C) :
  same_entries T M ->
  (forall r c, in_block o_r o_c h r c = true -> entry M r c = c0) ->
  (forall r c, entry M1 r c =
               if in_block o_r o_c h r c
               then entry h (r - o_r) (c - o_c) else entry M r c) ->
  same_entries (T ++ block_entries o_r o_c h) M1.
Proof.
  intros HTM Hzero HM1 r c.
  rewrite coo_sum_app, vals_at_block_entries, HM1, <- HTM.
  destruct (in_block o_r o_c h r c) eqn:B; simpl; [|reflexivity].
  rewrite (Hzero r c B).
  destruct (is0 (entry h (r - o_r) (c - o_c))) eqn:Hz; simpl.
  - apply is0_true, Hz.
  - symmetry; apply cadd_0_l.
Qed.

(** Writing a block and its conjugate transpose, where the two do not
    meet and the output is still zero. *)
Lemma pair_write_same o_r o_c (h : Matrix C) T (M M2 : Matrix C) :
  same_entries T M ->
  (forall r c, in_block o_r o_c h r c = true -> entry M r c = c0) ->
  (forall r c, in_block o_r o_c h c r = true -> entry M r c = c0) ->
  (forall r c, in_block o_r o_c h r c = true ->
               in_block o_r o_c h c r = true -> False) ->
  (forall r c, entry M2 r c =
               if in_block o_r o_c h c r
               then cconj (entry h (c - o_r) (r - o_c))
               else if in_block o_r o_c h r c
                    then entry h (r - o_r) (c - o_c) else entry M r c) ->
  same_entries (T ++ sym_pairs (block_entries o_r o_c h)) M2.
Proof.
  intros HTM Hz1 Hz2 Hdisj HM2 r c.
  rewrite coo_sum_app, HM2, <- HTM.
  destruct (in_block o_r o_c h c r) eqn:Bcr.
  - (* the mirrored block *)
    rewrite vals_at_sym_pairs_mirror.
    2:{ intros r' c' v Hin [-> ->].
        apply block_entries_in in Hin as [Brc _].
        exact (Hdisj _ _ Brc Bcr). }
    rewrite vals_at_block_entries, Bcr, (Hz2 r c Bcr); simpl.
    destruct (is0 (entry h (c - o_r) (r - o_c))) eqn:Hz; simpl.
    + rewrite (is0_true _ Hz); apply cconj_0.
    + symmetry; apply cadd_0_l.
  - rewrite vals_at_sym_pairs_direct.
    2:{ intros r' c' v Hin [-> ->].
        apply block_entries_in in Hin as [Brc _].
        rewrite Brc in Bcr; discriminate. }
    rewrite vals_at_block_entries.
    destruct (in_block o_r o_c h r c) eqn:Brc; simpl; [|reflexivity].
    rewrite (Hz1 r c Brc).
    destruct (is0 (entry h (r - o_r) (c - o_c))) eqn:Hz; simpl.
    + apply is0_true, Hz.
    + symmetry; apply cadd_0_l.
Qed.

(** The two runs agree: the same exception, or outputs related by [P].
    Nothing is said of a sparse run that leaves its buffers. *)
Definition agree (P : list (nat * nat * C) -> Matrix C -> Prop)
           (rs : result (list (nat * nat * C))) (rd : result (Matrix C))
  : Prop :=
  match rs, rd with
  | Raise BufferOverrun, _ => True
  | Ok T, Ok M => P T M
  | Raise e1, Raise e2 => e1 = e2
  | _, _ => False
  end.

Lemma agree_raise P e : agree P (Raise e) (Raise e).
Proof. destruct e; simpl; auto. Qed.

Lemma agree_bind (P Q : list (nat * nat * C) -> Matrix C -> Prop)
      rs rd fs fd :
  agree P rs rd ->
  (forall T M, P T M -> agree Q (fs T) (fd M)) ->
  agree Q (bind rs fs) (bind rd fd).
Proof.
  intros Hag Hnext.
  destruct rs as [T|e1], rd as [M|e2]; simpl in *.
  - apply Hnext, Hag.
  - destruct Hag.
  - destruct e1; try destruct Hag; exact I.
  - destruct e1; try (rewrite <- Hag; simpl; reflexivity); exact I.
Qed.

Variable ham : nat -> nat -> Matrix C.
Variable gr : CGraph.

Let norb := site_norbs ham gr.
Let off := offsets norb.
Let n := num_nodes gr.
Let total := List.last off 0.

Lemma in_block_sites ts fs (h : Matrix C) r c :
  shape0 h = at_ norb ts -> shape1 h = at_ norb fs ->
  (in_block (at_ off ts) (at_ off fs) h r c = true <->
   in_site norb ts r /\ in_site norb fs c).
Proof.
  intros E0 E1; rewrite in_block_spec, E0, E1; unfold in_site; fold off.
  tauto.
Qed.

(** Blocks that the neighbour loop of site [k] has not written yet,
    when the neighbours [nb] are still to come. *)
Definition fresh_nb (k : nat) (nb : list nat) (a b : nat) : Prop :=
  (k < a /\ k < b) \/ (b = k /\ k < a /\ In a nb)
  \/ (a = k /\ k < b /\ In b nb).

Definition related_nb (k : nat) (nb : list nat)
           (T : list (nat * nat * C)) (M : Matrix C) : Prop :=
  same_entries T M /\ (shape0 M = total /\ shape1 M = total) /\
  forall a b r c, fresh_nb k nb a b -> in_site norb a r ->
                  in_site norb b c -> entry M r c = c0.

(** Before site [k]: no block of sites [k] and later is written. *)
Definition related (k : nat) (T : list (nat * nat * C)) (M : Matrix C)
  : Prop :=
  same_entries T M /\ (shape0 M = total /\ shape1 M = total) /\
  forall a b r c, k <= a -> k <= b -> in_site norb a r ->
                  in_site norb b c -> entry M r c = c0.

Lemma nbrs_agree N k nb T M :
  k < n -> List.NoDup nb -> ~ In k nb -> (forall ts, In ts nb -> ts < n) ->
  related_nb k nb T M ->
  agree (related_nb k [])
        (sparse_nbrs ham norb off norb off N k nb T)
        (dense_nbrs ham norb off norb off k nb M).
Proof.
  intros Hk; revert T M.
  induction nb as [|ts nb IH]; intros T M Hnd Hself Hwf Hrel.
  - exact Hrel.
  - pose proof (Hwf ts (or_introl eq_refl)) as Hts.
    assert (Hne : ts <> k) by (intros ->; apply Hself; left; reflexivity).
    apply NoDup_cons_iff in Hnd as [Hnotin Hnd].
    assert (Hself' : ~ In k nb) by (intros Hin; apply Hself; right; exact Hin).
    assert (Hwf' : forall ts', In ts' nb -> ts' < n)
      by (intros ts' Hin; apply Hwf; right; exact Hin).
    assert (Hweak : forall T' M', related_nb k (ts :: nb) T' M' ->
                                  related_nb k nb T' M').
    { intros T' M' (Hs & Hsh & Hz); split; [exact Hs|split; [exact Hsh|]].
      intros a b r c Hf; apply Hz.
      destruct Hf as [Hf|[(? & ? & ?)|(? & ? & ?)]];
        [left; exact Hf | right; left | right; right];
        (split; [assumption|split; [assumption|right; assumption]]). }
    unfold sparse_nbrs, dense_nbrs; simpl for_each.
    destruct (Nat.ltb_spec ts k) as [Hlt|Hge]; simpl.
    { apply IH; auto. }
    destruct (Nat.eqb_spec (shape0 (ham ts k)) (at_ norb ts)) as [E0|_];
      [|apply agree_raise].
    destruct (Nat.eqb_spec (shape1 (ham ts k)) (at_ norb k)) as [E1|_];
      [|apply agree_raise].
    simpl.
    destruct Hrel as (Hsame & [Hs0 Hs1] & Hzero).
    destruct (sparse_hop_appends off off N k ts (ham ts k) T) as [-> | ->];
      [|exact I].
    assert (Lts : ts < length norb)
      by (unfold norb; rewrite site_norbs_length; exact Hts).
    assert (Lk : k < length norb)
      by (unfold norb; rewrite site_norbs_length; exact Hk).
    destruct (@assign_block_extents _ M (at_ off ts) (at_ off (ts + 1))
                (at_ off k) (at_ off (k + 1)) (ham ts k)) as [M1 HM1].
    { rewrite Hs0, E0; apply slice_len_site, Lts. }
    { rewrite Hs1, E1; apply slice_len_site, Lk. }
    rewrite HM1; simpl.
    apply assign_block_ok in HM1 as (S10 & S11 & HM1).
    destruct (@assign_block_extents _ M1 (at_ off k) (at_ off (k + 1))
                (at_ off ts) (at_ off (ts + 1))
                (conj_transpose (ham ts k))) as [M2 HM2].
    { rewrite S10, Hs0; simpl; rewrite E1; apply slice_len_site, Lk. }
    { rewrite S11, Hs1; simpl; rewrite E0; apply slice_len_site, Lts. }
    rewrite HM2; simpl.
    apply assign_block_ok in HM2 as (S20 & S21 & HM2).
    assert (HM2' : forall r c, entry M2 r c =
               if in_block (at_ off ts) (at_ off k) (ham ts k) c r
               then cconj (entry (ham ts k) (c - at_ off ts) (r - at_ off k))
               else if in_block (at_ off ts) (at_ off k) (ham ts k) r c
                    then entry (ham ts k) (r - at_ off ts) (c - at_ off k)
                    else entry M r c).
    { intros r c; rewrite HM2, in_block_conj_transpose, HM1; reflexivity. }
    apply IH; auto.
    split; [|split; [split; congruence|]].
    + apply pair_write_same with (M := M); auto.
      * intros r c B; apply (in_block_sites _ _ _ _ _ E0 E1) in B as [Ba Bb].
        apply (Hzero ts k r c); auto.
        right; left; repeat split; [lia | left; reflexivity].
      * intros r c B; apply (in_block_sites _ _ _ _ _ E0 E1) in B as [Ba Bb].
        apply (Hzero k ts r c); auto.
        right; right; repeat split; [lia | left; reflexivity].
      * intros r c B1 B2.
        apply (in_block_sites _ _ _ _ _ E0 E1) in B1 as [Ba _].
        apply (in_block_sites _ _ _ _ _ E0 E1) in B2 as [_ Bb].
        apply Hne, (in_site_unique Ba Bb).
    + intros a b r c Hf Ha Hb; rewrite HM2'.
      destruct (in_block (at_ off ts) (at_ off k) (ham ts k) c r) eqn:Bcr.
      { exfalso.
        apply (in_block_sites _ _ _ _ _ E0 E1) in Bcr as [Bc Br].
        pose proof (in_site_unique Ha Br); pose proof (in_site_unique Hb Bc).
        subst a b.
        destruct Hf as [[? ?]|[(? & ? & ?)|(? & ? & ?)]];
          [lia | lia | contradiction]. }
      destruct (in_block (at_ off ts) (at_ off k) (ham ts k) r c) eqn:Brc.
      { exfalso.
        apply (in_block_sites _ _ _ _ _ E0 E1) in Brc as [Br Bc].
        pose proof (in_site_unique Ha Br); pose proof (in_site_unique Hb Bc).
        subst a b.
        destruct Hf as [[? ?]|[(? & ? & ?)|(? & ? & ?)]];
          [lia | contradiction | lia]. }
      apply (Hzero a b r c); auto.
      destruct Hf as [Hf|[(? & ? & ?)|(? & ? & ?)]];
        [left; exact Hf | right; left | right; right];
        (split; [assumption|split; [assumption|right; assumption]]).
Qed.

Lemma sites_agree N m k T M :
  k + m = n ->
  (forall fs, fs < n -> List.NoDup (out_neighbors gr fs)) ->
  (forall fs, fs < n -> ~ In fs (out_neighbors gr fs)) ->
  graph_wf gr ->
  related k T M ->
  agree (related n)
        (sparse_sites ham gr (fun site => ham site site) norb off norb off
                      N (seq k m) T)
        (dense_sites ham gr (fun site => ham site site) norb off norb off
                     (seq k m) M).
Proof.
  intros Hkm Hnodup Hnoself Hwf; revert k T M Hkm.
  induction m as [|m IH]; intros k T M Hkm Hrel.
  - simpl; replace n with k by lia; exact Hrel.
  - assert (Hk : k < n) by lia.
    assert (Lk : k < length norb)
      by (unfold norb; rewrite site_norbs_length; exact Hk).
    unfold sparse_sites, dense_sites; simpl for_each.
    destruct (Nat.eqb_spec (shape0 (ham k k)) (shape1 (ham k k))) as [E0|_];
      [|apply agree_raise].
    destruct (Nat.eqb_spec (shape1 (ham k k)) (at_ norb k)) as [E1|_];
      [|apply agree_raise].
    simpl.
    destruct Hrel as (Hsame & [Hs0 Hs1] & Hzero).
    destruct (sparse_onsite_appends off off N k (ham k k) T) as [-> | ->];
      [|exact I].
    destruct (@assign_block_extents _ M (at_ off k) (at_ off (k + 1))
                (at_ off k) (at_ off (k + 1)) (ham k k)) as [M1 HM1].
    { rewrite Hs0, E0, E1; apply slice_len_site, Lk. }
    { rewrite Hs1, E1; apply slice_len_site, Lk. }
    rewrite HM1; simpl.
    apply assign_block_ok in HM1 as (S10 & S11 & HM1).
    assert (E0' : shape0 (ham k k) = at_ norb k) by congruence.
    apply agree_bind with (P := related_nb k []).
    + apply nbrs_agree; auto.
      { intros ts Hin; exact (Hwf k ts Hk Hin). }
      split; [|split; [split; congruence|]].
      * apply block_write_same with (M := M); auto.
        intros r c B; apply (in_block_sites _ _ _ _ _ E0' E1) in B as [Ba Bb].
        apply (Hzero k k r c); auto.
      * intros a b r c Hf Ha Hb; rewrite HM1.
        destruct (in_block (at_ off k) (at_ off k) (ham k k) r c) eqn:B.
        { exfalso.
          apply (in_block_sites _ _ _ _ _ E0' E1) in B as [Br Bc].
          pose proof (in_site_unique Ha Br);
            pose proof (in_site_unique Hb Bc).
          subst a b.
          destruct Hf as [[? ?]|[(? & ? & ?)|(? & ? & ?)]]; lia. }
        apply (Hzero a b r c); auto;
          destruct Hf as [[? ?]|[(? & ? & ?)|(? & ? & ?)]]; lia.
    + intros T' M' (Hsame' & Hsh' & Hzero').
      apply IH; [lia|].
      split; [exact Hsame'|split; [exact Hsh'|]].
      intros a b r c Ha Hb; apply Hzero'; left; lia.
Qed.
End SideBySide.


(** ** Worked inputs *)

Definition gz (a b : Z) : Z * Z := (a, b).

(** Two sites with one and two orbitals, joined by one edge stored in
    both directions. *)
Definition two_sites : CGraph :=
  {| num_nodes := 2;
     out_neighbors := fun fs =>
       match fs with 0 => [1] | 1 => [0] | _ => [] end |}.

Definition two_sites_ham (ts fs : nat) : Matrix (Z * Z) :=
  match ts, fs with
  | 0, 0 => matrix_of_rows (gz 0 0) [[gz 3 0]]
  | 1, 1 => matrix_of_rows (gz 0 0) [[gz 1 0; gz 0 1]; [gz 0 (-1); gz 2 0]]
  | 1, 0 => matrix_of_rows (gz 0 0) [[gz 1 2]; [gz 0 0]]
  | _, _ => matrix_of_rows (gz 0 0) [[gz 1 (-2); gz 0 0]]
  end.


(** One site that is its own neighbour. *)
Definition self_loop : CGraph :=
  {| num_nodes := 1;
     out_neighbors := fun fs => match fs with 0 => [0] | _ => [] end |}.

Definition self_loop_ham (ts fs : nat) : Matrix (Z * Z) :=
  matrix_of_rows (gz 0 0) [[gz 1 1]].

Lemma two_sites_wf : graph_wf two_sites.
Proof.
  intros fs ts Hfs Hin; simpl in *.
  destruct fs as [|[|fs]]; simpl in Hin; [| |lia];
    destruct Hin as [<-|[]]; lia.
Qed.

Lemma two_sites_no_self_loop : no_self_loop two_sites.
Proof.
  intros fs Hfs Hin; simpl in *.
  destruct fs as [|[|fs]]; simpl in Hin; [| |lia];
    destruct Hin as [Heq|[]]; discriminate.
Qed.

Lemma two_sites_no_repeat fs :
  fs < num_nodes two_sites -> List.NoDup (out_neighbors two_sites fs).
Proof.
  intros Hfs; simpl in *.
  destruct fs as [|[|fs]]; simpl; [| |lia];
    (constructor; [intros [] | constructor]).
Qed.

Lemma two_sites_hermitian fs :
  fs < num_nodes two_sites -> hermitian_block (two_sites_ham fs fs).
Proof.
  intros Hfs; simpl in Hfs.
  destruct fs as [|[|fs]]; [| |lia]; (split; [reflexivity|]);
    simpl; intros i j Hi Hj.
  - destruct i as [|i], j as [|j]; try lia; reflexivity.
  - destruct i as [|[|i]], j as [|[|j]]; try lia; reflexivity.
Qed.

(** ** The [gint] counters of the sparse assemblers *)

Lemma gint_wrap_fits z : fits_gint z = true -> gint_wrap z = z.
Proof.
  unfold fits_gint, gint_wrap; intros Hz.
  apply andb_true_iff in Hz as [Hlo Hhi].
  apply Z.leb_le in Hlo; apply Z.ltb_lt in Hhi.
  rewrite Z.mod_small by lia; lia.
Qed.

Lemma gint_wrap_add_l a b : gint_wrap (gint_wrap a + b) = gint_wrap (a + b).
Proof.
  unfold gint_wrap; f_equal.
  replace ((a + 2 ^ 31) mod 2 ^ 32 - 2 ^ 31 + b + 2 ^ 31)%Z
    with ((a + 2 ^ 31) mod 2 ^ 32 + b)%Z by lia.
  rewrite Z.add_mod_idemp_l by lia; f_equal; lia.
Qed.

Lemma gint_wrap_add_r a b : gint_wrap (a + gint_wrap b) = gint_wrap (a + b).
Proof. rewrite Z.add_comm, gint_wrap_add_l, Z.add_comm; reflexivity. Qed.

Lemma gint_wrap_mul_l a b : gint_wrap (gint_wrap a * b) = gint_wrap (a * b).
Proof.
  unfold gint_wrap; f_equal.
  replace (((a + 2 ^ 31) mod 2 ^ 32 - 2 ^ 31) * b + 2 ^ 31)%Z
    with ((a + 2 ^ 31) mod 2 ^ 32 * b + (2 ^ 31 - 2 ^ 31 * b))%Z by lia.
  rewrite <- Z.add_mod_idemp_l, Z.mul_mod_idemp_l, Z.add_mod_idemp_l by lia.
  f_equal; lia.
Qed.

(** The counting pass of [make_sparse_full] in [gint] arithmetic gives
    the low 32 bits of the number of entries. *)
Lemma count_nbrs_gint_wrap (to_norb from_norb : list nat) fs nbors acc :
  count_nbrs_gint to_norb from_norb fs nbors (gint_wrap (Z.of_nat acc))
  = gint_wrap (Z.of_nat (count_nbrs to_norb from_norb fs nbors acc)).
Proof.
  unfold count_nbrs_gint, count_nbrs; revert acc.
  induction nbors as [|ts nbors IH]; intros acc; simpl; [reflexivity|].
  destruct (fs <? ts); [|apply IH].
  rewrite <- IH; f_equal.
  rewrite gint_wrap_mul_l, gint_wrap_add_l, gint_wrap_add_r.
  f_equal; lia.
Qed.

Lemma count_entries_gint_wrap (gr : CGraph) (to_norb from_norb : list nat) :
  count_entries_gint gr to_norb from_norb
  = gint_wrap (Z.of_nat (count_entries gr to_norb from_norb)).
Proof.
  unfold count_entries_gint, count_entries.
  enough (Hgen : forall l acc,
    fold_left
      (fun acc fs =>
         count_nbrs_gint to_norb from_norb fs (out_neighbors gr fs)
           (gint_wrap (acc + gint_wrap (Z.of_nat (at_ from_norb fs)
                                        * Z.of_nat (at_ from_norb fs)))))
      l (gint_wrap (Z.of_nat acc))
    = gint_wrap
        (Z.of_nat
           (fold_left
              (fun acc fs =>
                 count_nbrs to_norb from_norb fs (out_neighbors gr fs)
                            (acc + at_ from_norb fs * at_ from_norb fs))
              l acc))) by apply (Hgen _ 0).
  induction l as [|fs l IH]; intros acc; simpl; [reflexivity|].
  rewrite <- IH; f_equal.
  rewrite <- count_nbrs_gint_wrap; f_equal.
  rewrite gint_wrap_add_l, gint_wrap_add_r; f_equal; lia.
Qed.

(** When the number of entries fits a [gint], the run with [gint]
    counters is the run studied above. *)
Lemma make_sparse_full_gint_fits
      {C : Type} `{Scalar C} (ham : nat -> nat -> Matrix C) (gr : CGraph)
      (diag : nat -> Matrix C) (to_norb to_off from_norb from_off : list nat) :
  (Z.of_nat (count_entries gr to_norb from_norb) < 2 ^ 31)%Z ->
  count_entries_gint gr to_norb from_norb
  = Z.of_nat (count_entries gr to_norb from_norb) /\
  make_sparse_full_gint ham gr diag to_norb to_off from_norb from_off
  = make_sparse_full ham gr diag to_norb to_off from_norb from_off.
Proof.
  intros Hfit.
  assert (Hcount : count_entries_gint gr to_norb from_norb
                   = Z.of_nat (count_entries gr to_norb from_norb)).
  { rewrite count_entries_gint_wrap; apply gint_wrap_fits.
    unfold fits_gint; apply andb_true_iff; split;
      [apply Z.leb_le | apply Z.ltb_lt]; lia. }
  split; [exact Hcount|].
  unfold make_sparse_full_gint, make_sparse_full; rewrite Hcount.
  destruct (Z.ltb_spec (Z.of_nat (count_entries gr to_norb from_norb)) 0);
    [lia|].
  rewrite Nat2Z.id; reflexivity.
Qed.

(** ** The full-system assemblers: main results *)

(** The complete graph on [n] sites, and a square block of ones. *)
Definition complete_graph (n : nat) : CGraph :=
  {| num_nodes := n;
     out_neighbors := fun fs =>
       List.filter (fun ts => negb (ts =? fs)) (range n) |}.

Definition ones_block (m : nat) : Matrix (Z * Z) :=
  {| shape0 := m; shape1 := m; entry := fun _ _ => gz 1 0 |}.

Lemma complete_graph_simple n :
  no_self_loop (complete_graph n) /\
  forall fs, List.NoDup (out_neighbors (complete_graph n) fs).
Proof.
  split.
  - intros fs _ Hin; simpl in Hin.
    apply filter_In in Hin as [_ Hne].
    rewrite Nat.eqb_refl in Hne; discriminate.
  - intros fs; simpl; apply List.NoDup_filter, seq_NoDup.
Qed.

(** C10, as stated, fails: [num_entries] is a [gint].  The complete graph
    on 64 sites of 1024 orbitals each, with blocks of ones, has no
    self-loop and no repeated neighbour and [1024 * 1024 * 64 * 64 =
    2 ^ 32] entries; the counting pass ends with [num_entries = 0], the
    buffers are empty, and the first write of the write pass is outside
    them. *)
Lemma entry_count_wraps :
  let gr := complete_graph 64 in
  let norb := repeat 1024 64 in
  let off := map (fun site => 1024 * site) (range 65) in
  no_self_loop gr /\
  (forall fs, List.NoDup (out_neighbors gr fs)) /\
  count_entries_gint gr norb norb = 0%Z /\
  make_sparse_full_gint (fun _ _ => ones_block 1024) gr
                        (fun _ => ones_block 1024) norb off norb off
  = Raise BufferOverrun.
Proof.
  intros gr norb off.
  split; [apply complete_graph_simple|].
  split; [apply complete_graph_simple|].
  split; vm_compute; reflexivity.
Qed.

(** C10, amended.  In [make_sparse_full] the counting pass counts the
    neighbours with [fs < ts] and the write pass skips those with
    [ts < fs]; when no site is listed among its own out-neighbours and
    the number of entries is below [2 ^ 31], so that the [gint]
    [num_entries] holds it, no write of the write pass falls outside the
    buffers of [num_entries] slots, and the final write index [k] is at
    most [num_entries].  (That no neighbour is listed twice is not
    needed: the counting pass counts a repeated neighbour as often as the
    write pass writes it.) *)
Theorem write_index_within_buffers
        {C : Type} `{Scalar C} (ham : nat -> nat -> Matrix C) (gr : CGraph)
        (diag : nat -> Matrix C) (to_norb to_off from_norb from_off : list nat) :
  no_self_loop gr ->
  (Z.of_nat (count_entries gr to_norb from_norb) < 2 ^ 31)%Z ->
  let num_entries := count_entries_gint gr to_norb from_norb in
  num_entries = Z.of_nat (count_entries gr to_norb from_norb) /\
  match make_sparse_full_gint ham gr diag to_norb to_off from_norb
                              from_off with
  | Ok A => (Z.of_nat (length (coo_data A)) <= num_entries)%Z
  | Raise e => e <> BufferOverrun
  end.
Proof.
  intros Hself Hfit num_entries.
  destruct (@make_sparse_full_gint_fits _ _ ham gr diag to_norb to_off
              from_norb from_off Hfit) as [Hcount Hrun].
  split; [exact Hcount|].
  unfold num_entries; rewrite Hrun, Hcount; unfold make_sparse_full.
  pose proof (@sparse_sites_within _ _ ham gr diag to_norb to_off from_norb
                from_off (count_entries gr to_norb from_norb)
                (range (num_nodes gr)) []) as Hw.
  rewrite <- count_entries_sum in Hw.
  specialize (Hw ltac:(intros fs Hin; apply Hself; apply in_seq in Hin; lia)
                 ltac:(simpl; lia)).
  destruct (sparse_sites _ _ _ _ _ _ _ _ _ _) as [T|e]; simpl in *;
    [lia | exact Hw].
Qed.

Lemma write_index_within_buffers_witness :
  count_entries_gint two_sites [1; 2] [1; 2]
  = Z.of_nat (count_entries two_sites [1; 2] [1; 2]) /\
  match make_sparse_full_gint two_sites_ham two_sites
          (fun site => two_sites_ham site site) [1; 2] [0; 1; 3] [1; 2]
          [0; 1; 3] with
  | Ok A => Z.le (Z.of_nat (length (coo_data A)))
                 (count_entries_gint two_sites [1; 2] [1; 2])
  | Raise e => e <> BufferOverrun
  end.
Proof.
  apply (@write_index_within_buffers _ _ two_sites_ham two_sites
           (fun site => two_sites_ham site site) [1; 2] [0; 1; 3] [1; 2]
           [0; 1; 3]).
  - exact two_sites_no_self_loop.
  - vm_compute; reflexivity.
Defined.





(** C2.  When every onsite block equals its own conjugate transpose, the
    matrix of a full-system assembly, sparse or dense, is square and
    equals its own conjugate transpose entry by entry, exactly. *)
Theorem full_system_hermitian
        {C : Type} `{ScalarLaws C} (ham : nat -> nat -> Matrix C)
        (gr : CGraph) (sparse : bool) (A : Assembled C) :
  (forall fs, fs < num_nodes gr -> hermitian_block (ham fs fs)) ->
  hamiltonian_submatrix ham gr sparse = Ok A ->
  shape0 (as_dense A) = shape1 (as_dense A) /\
  forall r c, entry (as_dense A) r c = cconj (entry (as_dense A) c r).
Proof.
  intros Hherm Hrun; unfold hamiltonian_submatrix in Hrun.
  destruct sparse.
  - destruct (make_sparse_full _ _ _ _ _ _ _) as [S|e] eqn:Hs;
      [|discriminate].
    injection Hrun as <-.
    eapply make_sparse_full_hermitian; eassumption.
  - destruct (make_dense_full _ _ _ _ _ _ _) as [M|e] eqn:Hd;
      [|discriminate].
    injection Hrun as <-.
    eapply make_dense_full_hermitian; eassumption.
Qed.

Lemma full_system_hermitian_witness :
  exists A, hamiltonian_submatrix two_sites_ham two_sites true = Ok A /\
            shape0 (as_dense A) = shape1 (as_dense A) /\
            forall r c, entry (as_dense A) r c = cconj (entry (as_dense A) c r).
Proof.
  destruct (hamiltonian_submatrix two_sites_ham two_sites true) as [A|e]
    eqn:Hrun; [|vm_compute in Hrun; discriminate Hrun].
  exists A; split; [reflexivity|].
  apply (@full_system_hermitian _ _ gauss_laws two_sites_ham two_sites true A).
  - exact two_sites_hermitian.
  - exact Hrun.
Defined.

(** C3 at a graph with a self-loop.  The only neighbour of site 0 is
    site 0 itself, so no neighbour has [fs < ts]; the write passes skip
    only [ts < fs] and process it all the same: the dense assembler
    evaluates [H(0, 0)] as a hopping and leaves its conjugate transpose
    on the onsite block, and the sparse assembler, whose counting pass
    did not count the pair, writes past its buffers. *)
Theorem self_loop_processed_as_hopping :
  count_entries self_loop [1] [1] = 1 /\
  hamiltonian_submatrix self_loop_ham self_loop true = Raise BufferOverrun /\
  match hamiltonian_submatrix self_loop_ham self_loop false with
  | Ok A => entry (self_loop_ham 0 0) 0 0 = gz 1 1 /\
            entry (as_dense A) 0 0 = gz 1 (-1)
  | Raise _ => False
  end.
Proof.
  vm_compute; repeat split; reflexivity.
Qed.

(** ** The vectorized assemblers *)

Section VectorizedFacts.
Context {C : Type} `{Scalar C}.

Variables norbs orb_offsets site_offsets : list nat.

(** The test that raises the shape error. *)
Definition shape_mismatch (p : Subgraph * Block3 C) : bool :=
  let '(sg, h) := p in
  negb (at_ norbs (fst (fst sg)) =? b_M h)
  || negb (at_ norbs (snd (fst sg)) =? b_P h).

(** Global orbital offsets of instance [i] of a subgraph. *)
Definition to_off_of (sg : Subgraph) (i : nat) : nat :=
  at_ orb_offsets (fst (fst sg))
  + at_ norbs (fst (fst sg)) * at_ (fst (snd sg)) i.

Definition from_off_of (sg : Subgraph) (i : nat) : nat :=
  at_ orb_offsets (snd (fst sg))
  + at_ norbs (snd (fst sg)) * at_ (snd (snd sg)) i.

(** The triplets of instance [i], and of a whole pair, in the order of
    the loops. *)
Definition instance_entries (sg : Subgraph) (h : Block3 C) (i : nat)
  : list (nat * nat * C) :=
  flat_map
    (fun j =>
       flat_map
         (fun k => [(to_off_of sg i + j, from_off_of sg i + k, b_at h i j k)])
         (range (b_P h)))
    (range (b_M h)).

Definition pair_entries (p : Subgraph * Block3 C) : list (nat * nat * C) :=
  flat_map (instance_entries (fst p) (snd p)) (range (b_N (snd p))).

Lemma flat_map_length_const {X Y} (f : X -> list Y) (l : list X) (c : nat) :
  (forall x, In x l -> length (f x) = c) ->
  length (flat_map f l) = length l * c.
Proof.
  induction l as [|x l IH]; intros Hf; simpl; [reflexivity|].
  rewrite length_app, (Hf x (or_introl eq_refl)).
  rewrite IH by (intros y Hy; apply Hf; right; exact Hy); lia.
Qed.

Lemma instance_entries_length sg h i :
  length (instance_entries sg h i) = b_M h * b_P h.
Proof.
  unfold instance_entries.
  rewrite (@flat_map_length_const _ _ _ _ (b_P h)), range_length;
    [reflexivity|].
  intros j _.
  rewrite (@flat_map_length_const _ _ _ _ 1), range_length; [lia|].
  reflexivity.
Qed.

Lemma pair_entries_length p :
  length (pair_entries p) = b_N (snd p) * b_M (snd p) * b_P (snd p).
Proof.
  unfold pair_entries.
  rewrite (@flat_map_length_const _ _ _ _ (b_M (snd p) * b_P (snd p))),
    range_length; [lia|].
  intros i _; apply instance_entries_length.
Qed.

(** A loop that stores [f x] for every [x], with room for all of it. *)
Lemma for_each_stores {X} (body : X -> list (nat * nat * C) ->
                                  result (list (nat * nat * C)))
      (f : X -> list (nat * nat * C)) (N : nat) (l : list X) :
  (forall x T, length T + length (f x) <= N -> body x T = Ok (T ++ f x)) ->
  forall T, length T + length (flat_map f l) <= N ->
            for_each body l T = Ok (T ++ flat_map f l).
Proof.
  intros Hbody; induction l as [|x l IH]; intros T Hle; simpl in *.
  - rewrite app_nil_r; reflexivity.
  - rewrite length_app in Hle.
    rewrite Hbody by lia; simpl.
    rewrite IH by (rewrite length_app; lia).
    rewrite app_assoc; reflexivity.
Qed.

Lemma vms_instance_stores ndata sg h i T :
  length T + length (instance_entries sg h i) <= ndata ->
  vms_instance norbs orb_offsets ndata sg h i T
  = Ok (T ++ instance_entries sg h i).
Proof.
  destruct sg as [[ta fa] [ts_offs fs_offs]].
  unfold vms_instance, instance_entries, to_off_of, from_off_of; simpl.
  apply for_each_stores with (N := ndata); intros j T1.
  apply for_each_stores with (N := ndata); intros k T2 Hle; simpl in Hle.
  unfold put.
  destruct (Nat.ltb_spec (length T2) ndata); [reflexivity | lia].
Qed.

Lemma vms_pair_stores ndata p T :
  shape_mismatch p = false ->
  length T + length (pair_entries p) <= ndata ->
  vms_pair norbs orb_offsets site_offsets ndata p T
  = Ok (T ++ pair_entries p).
Proof.
  destruct p as [sg h]; intros Hok Hle.
  unfold vms_pair.
  destruct sg as [[ta fa] [ts_offs fs_offs]].
  unfold shape_mismatch in Hok; simpl in Hok; rewrite Hok.
  apply for_each_stores with (N := ndata);
    [intros i T1; apply vms_instance_stores | exact Hle].
Qed.

Lemma vms_pair_mismatch ndata p T :
  shape_mismatch p = true ->
  vms_pair norbs orb_offsets site_offsets ndata p T
  = Raise (ValueError_shape (array_str (hops_of site_offsets (fst p)))).
Proof.
  destruct p as [[[ta fa] [ts_offs fs_offs]] h]; intros Hbad.
  unfold vms_pair, shape_mismatch in *; simpl in *; rewrite Hbad.
  reflexivity.
Qed.

(** The write loop of the sparse assembler: it stops at the first pair
    whose block array has the wrong trailing dimensions, and otherwise
    stores the triplets of all pairs. *)
Lemma vms_loop ndata pairs T :
  length T + length (flat_map pair_entries pairs) <= ndata ->
  for_each (vms_pair norbs orb_offsets site_offsets ndata) pairs T =
  match find shape_mismatch pairs with
  | Some p => Raise (ValueError_shape (array_str (hops_of site_offsets (fst p))))
  | None => Ok (T ++ flat_map pair_entries pairs)
  end.
Proof.
  revert T; induction pairs as [|p pairs IH]; intros T Hle; simpl in *.
  - rewrite app_nil_r; reflexivity.
  - rewrite length_app in Hle.
    destruct (shape_mismatch p) eqn:Hp.
    + rewrite vms_pair_mismatch by exact Hp; reflexivity.
    + rewrite vms_pair_stores by (auto; lia); simpl.
      rewrite IH by (rewrite length_app; lia).
      destruct (find shape_mismatch pairs); [reflexivity|].
      rewrite app_assoc; reflexivity.
Qed.

Lemma pairs_entries_length (subgraphs : list Subgraph) (hams : list (Block3 C)) :
  length (flat_map pair_entries (combine subgraphs hams))
  <= list_sum (map (fun h => b_N h * b_M h * b_P h) hams).
Proof.
  revert hams; induction subgraphs as [|sg sgs IH]; intros [|h hams];
    simpl; try lia.
  rewrite length_app, pair_entries_length; simpl.
  specialize (IH hams); lia.
Qed.

End VectorizedFacts.

(** ** The dense vectorized assembler overwrites *)

Section Replay.
Context {C : Type} `{Scalar C}.

(** Writing triplets one after the other into a dense array: a later
    write to a position replaces an earlier one. *)
Definition overwrite (S : nat -> nat -> C) (t : nat * nat * C)
  : nat -> nat -> C :=
  let '(r, c, v) := t in
  fun r' c' => if (r' =? r) && (c' =? c) then v else S r' c'.

Definition replay (l : list (nat * nat * C)) (S : nat -> nat -> C)
  : nat -> nat -> C :=
  fold_left overwrite l S.

(** All triplets of [l] lie inside an array of the given shape. *)
Definition inside (shape : nat * nat) (l : list (nat * nat * C)) : Prop :=
  forall r c v, In (r, c, v) l -> r < fst shape /\ c < snd shape.

Lemma replay_app l1 l2 S : replay (l1 ++ l2) S = replay l2 (replay l1 S).
Proof. apply fold_left_app. Qed.

Lemma replay_ext l S S' r c :
  (forall r' c', S r' c' = S' r' c') -> replay l S r c = replay l S' r c.
Proof.
  unfold replay; revert S S'; induction l as [|[[r0 c0'] v] l IH];
    intros S S' Hext; simpl; [apply Hext|].
  apply IH; intros r' c'; simpl.
  destruct ((r' =? r0) && (c' =? c0')); [reflexivity | apply Hext].
Qed.

Lemma last_cons_default (x : C) (l : list C) (d d' : C) :
  List.last (x :: l) d = List.last (x :: l) d'.
Proof.
  revert x; induction l as [|y l IH]; intros x; [reflexivity|].
  change (List.last (y :: l) d = List.last (y :: l) d'); apply IH.
Qed.

(** At each position, [replay] leaves the last value stored there. *)
Lemma replay_vals l S r c :
  replay l S r c = List.last (vals_at r c l) (S r c).
Proof.
  unfold replay; revert S; induction l as [|[[r0 c0'] v] l IH]; intros S;
    simpl; [reflexivity|].
  rewrite IH; simpl.
  destruct ((r =? r0) && (c =? c0')); simpl; [|reflexivity].
  destruct (vals_at r c l) as [|x l0]; [reflexivity|].
  apply last_cons_default.
Qed.

(** A piece of the dense assembler that writes the triplets [es]: it
    returns when all of them are inside the output, and raises
    [OutOfBounds] otherwise. *)
Definition writes (es : list (nat * nat * C)) (M : Matrix C)
           (res : result (Matrix C)) : Prop :=
  match res with
  | Ok M' =>
      inside (shape0 M, shape1 M) es /\
      shape0 M' = shape0 M /\ shape1 M' = shape1 M /\
      forall r c, entry M' r c = replay es (entry M) r c
  | Raise e => e = OutOfBounds /\ ~ inside (shape0 M, shape1 M) es
  end.

Lemma writes_total es (M : Matrix C) res :
  writes es M res -> inside (shape0 M, shape1 M) es ->
  exists M', res = Ok M' /\ shape0 M' = shape0 M /\ shape1 M' = shape1 M /\
             forall r c, entry M' r c = replay es (entry M) r c.
Proof.
  destruct res as [M'|e]; simpl.
  - intros (_ & S0 & S1 & HM) _; exists M'; auto.
  - intros [_ Hout] Hin; contradiction.
Qed.

Lemma inside_app shape (l1 l2 : list (nat * nat * C)) :
  inside shape (l1 ++ l2) <-> inside shape l1 /\ inside shape l2.
Proof.
  unfold inside; split.
  - intros Hin; split; intros r c v Hv; apply (Hin r c v), in_or_app; auto.
  - intros [H1 H2] r c v Hv; apply in_app_or in Hv as [Hv|Hv]; eauto.
Qed.

Lemma set_entry_writes r c v (M : Matrix C) :
  writes [(r, c, v)] M (set_entry r c v M).
Proof.
  unfold set_entry, writes.
  destruct (Nat.ltb_spec r (shape0 M)) as [Hr|Hr],
           (Nat.ltb_spec c (shape1 M)) as [Hc|Hc]; simpl.
  - split; [|split; [reflexivity|split; [reflexivity|reflexivity]]].
    intros r' c' v' [Heq|[]]; injection Heq as <- <- <-; simpl; auto.
  - split; [reflexivity|]; intros Hin.
    destruct (Hin r c v (or_introl eq_refl)); simpl in *; lia.
  - split; [reflexivity|]; intros Hin.
    destruct (Hin r c v (or_introl eq_refl)); simpl in *; lia.
  - split; [reflexivity|]; intros Hin.
    destruct (Hin r c v (or_introl eq_refl)); simpl in *; lia.
Qed.

Lemma for_each_writes {X} (body : X -> Matrix C -> result (Matrix C))
      (f : X -> list (nat * nat * C)) (l : list X) :
  (forall x M, In x l -> writes (f x) M (body x M)) ->
  forall M, writes (flat_map f l) M (for_each body l M).
Proof.
  induction l as [|x l IH]; intros Hbody M; simpl.
  - split; [intros r c v []|split; [reflexivity|split; reflexivity]].
  - pose proof (Hbody x M (or_introl eq_refl)) as Hx.
    specialize (IH (fun y M' Hy => Hbody y M' (or_intror Hy))).
    destruct (body x M) as [M1|e]; simpl in *.
    + destruct Hx as (Hin1 & S0 & S1 & HM1).
      pose proof (IH M1) as Hrest.
      destruct (for_each body l M1) as [M2|e]; simpl in *.
      * destruct Hrest as (Hin2 & S0' & S1' & HM2).
        rewrite S0, S1 in Hin2.
        split; [apply inside_app; auto|].
        split; [congruence|split; [congruence|]].
        intros r c; rewrite HM2, replay_app.
        apply replay_ext, HM1.
      * destruct Hrest as [-> Hout]; split; [reflexivity|].
        rewrite S0, S1 in Hout.
        intros Hin; apply inside_app in Hin as [_ Hin]; auto.
    + destruct Hx as [-> Hout]; split; [reflexivity|].
      intros Hin; apply inside_app in Hin as [Hin _]; auto.
Qed.

Variables norbs orb_offsets site_offsets : list nat.

Lemma vmd_instance_writes sg h i (M : Matrix C) :
  writes (instance_entries norbs orb_offsets sg h i) M
         (vmd_instance norbs orb_offsets sg h i M).
Proof.
  destruct sg as [[ta fa] [ts_offs fs_offs]].
  unfold vmd_instance, instance_entries, to_off_of, from_off_of; simpl.
  apply for_each_writes; intros j M1 _.
  apply for_each_writes; intros k M2 _.
  apply set_entry_writes.
Qed.

Lemma vmd_pair_writes p (M : Matrix C) :
  shape_mismatch norbs p = false ->
  writes (pair_entries norbs orb_offsets p) M
         (vmd_pair norbs orb_offsets site_offsets p M).
Proof.
  destruct p as [[[ta fa] [ts_offs fs_offs]] h]; intros Hok.
  unfold vmd_pair, shape_mismatch in *; simpl in Hok; rewrite Hok.
  unfold pair_entries; simpl.
  apply for_each_writes; intros i M1 _.
  apply vmd_instance_writes.
Qed.

Lemma vmd_pair_mismatch p (M : Matrix C) :
  shape_mismatch norbs p = true ->
  vmd_pair norbs orb_offsets site_offsets p M
  = Raise (ValueError_shape (array_str (hops_of site_offsets (fst p)))).
Proof.
  destruct p as [[[ta fa] [ts_offs fs_offs]] h]; intros Hbad.
  unfold vmd_pair, shape_mismatch in *; simpl in *; rewrite Hbad.
  reflexivity.
Qed.

(** The loop of the dense assembler: it stops at the first pair whose
    block array has the wrong trailing dimensions, and otherwise replays
    the triplets that the sparse assembler stores. *)
Lemma vmd_loop pairs (M : Matrix C) :
  (forall p, In p pairs -> shape_mismatch norbs p = false ->
             inside (shape0 M, shape1 M) (pair_entries norbs orb_offsets p)) ->
  match find (shape_mismatch norbs) pairs with
  | Some p =>
      for_each (vmd_pair norbs orb_offsets site_offsets) pairs M
      = Raise (ValueError_shape (array_str (hops_of site_offsets (fst p))))
  | None =>
      exists M',
        for_each (vmd_pair norbs orb_offsets site_offsets) pairs M = Ok M' /\
        shape0 M' = shape0 M /\ shape1 M' = shape1 M /\
        forall r c, entry M' r c =
                    replay (flat_map (pair_entries norbs orb_offsets) pairs)
                           (entry M) r c
  end.
Proof.
  revert M; induction pairs as [|p pairs IH]; intros M Hin; simpl.
  - exists M; auto.
  - destruct (shape_mismatch norbs p) eqn:Hp.
    + rewrite vmd_pair_mismatch by exact Hp; reflexivity.
    + destruct (@writes_total _ _ _ (@vmd_pair_writes p M Hp))
        as (M1 & -> & S0 & S1 & HM1).
      { apply Hin; [left; reflexivity | exact Hp]. }
      simpl.
      specialize (IH M1).
      rewrite S0, S1 in IH.
      specialize (IH (fun q Hq => Hin q (or_intror Hq))).
      destruct (find (shape_mismatch norbs) pairs) as [q|]; [exact IH|].
      destruct IH as (M2 & -> & S0' & S1' & HM2).
      exists M2; split; [reflexivity|].
      split; [congruence|split; [congruence|]].
      intros r c; rewrite HM2, replay_app.
      apply replay_ext, HM1.
Qed.
End Replay.

Section VectorizedPlacement.
Context {C : Type} `{Scalar C}.

Variables norbs orb_offsets site_offsets : list nat.

Lemma in_instance_entries sg (h : Block3 C) i j k :
  j < b_M h -> k < b_P h ->
  In (to_off_of norbs orb_offsets sg i + j,
      from_off_of norbs orb_offsets sg i + k, b_at h i j k)
     (instance_entries norbs orb_offsets sg h i).
Proof.
  intros Hj Hk; unfold instance_entries.
  apply in_flat_map; exists j; split; [apply in_seq; lia|].
  apply in_flat_map; exists k; split; [apply in_seq; lia|].
  left; reflexivity.
Qed.

Lemma vals_at_instance_entries sg (h : Block3 C) i r c :
  let to_off := to_off_of norbs orb_offsets sg i in
  let from_off := from_off_of norbs orb_offsets sg i in
  vals_at r c (instance_entries norbs orb_offsets sg h i) =
  if (to_off <=? r) && (r <? to_off + b_M h)
     && (from_off <=? c) && (c <? from_off + b_P h)
  then [b_at h i (r - to_off) (c - from_off)] else [].
Proof.
  intros to_off from_off; unfold instance_entries.
  fold to_off from_off.
  rewrite vals_at_flat_map.
  rewrite (@flat_map_range_single _ _ (b_M h) (r - to_off)).
  2:{ intros j Hj Hne; rewrite vals_at_flat_map.
      rewrite (@flat_map_range_single _ _ (b_P h) 0).
      2:{ intros k _ _; simpl.
          destruct (Nat.eqb_spec r (to_off + j)); [lia|reflexivity]. }
      destruct (0 <? b_P h); [|reflexivity].
      simpl; destruct (Nat.eqb_spec r (to_off + j)); [lia|reflexivity]. }
  destruct (Nat.leb_spec to_off r) as [Hlo|Hlo];
    destruct (Nat.ltb_spec r (to_off + b_M h)) as [Hhi|Hhi];
    destruct (Nat.ltb_spec (r - to_off) (b_M h)) as [Hr|Hr];
    try lia; simpl; try reflexivity.
  - rewrite vals_at_flat_map.
    rewrite (@flat_map_range_single _ _ (b_P h) (c - from_off)).
    2:{ intros k Hk Hne; simpl.
        destruct (Nat.eqb_spec c (from_off + k)); [lia|].
        rewrite andb_false_r; reflexivity. }
    destruct (Nat.leb_spec from_off c) as [Hclo|Hclo];
      destruct (Nat.ltb_spec c (from_off + b_P h)) as [Hchi|Hchi];
      destruct (Nat.ltb_spec (c - from_off) (b_P h)) as [Hc|Hc];
      try lia; simpl; try reflexivity.
    + destruct (Nat.eqb_spec r (to_off + (r - to_off))); [|lia].
      destruct (Nat.eqb_spec c (from_off + (c - from_off))); [|lia].
      reflexivity.
    + destruct (Nat.eqb_spec c (from_off + (c - from_off))); [lia|].
      rewrite andb_false_r; reflexivity.
  - rewrite vals_at_flat_map.
    rewrite (@flat_map_range_single _ _ (b_P h) 0).
    2:{ intros k _ _; simpl.
        destruct (Nat.eqb_spec r (to_off + (r - to_off))); [lia|reflexivity]. }
    destruct (0 <? b_P h); [|reflexivity].
    simpl.
    destruct (Nat.eqb_spec r (to_off + (r - to_off))); [lia|reflexivity].
Qed.

Lemma hops_of_nth (ta fa : nat) (ts_offs fs_offs : list nat) :
  length ts_offs = length fs_offs ->
  length (hops_of site_offsets ((ta, fa), (ts_offs, fs_offs)))
  = length ts_offs /\
  forall i, i < length ts_offs ->
            nth i (hops_of site_offsets ((ta, fa), (ts_offs, fs_offs))) (0, 0)
            = (at_ site_offsets ta + at_ ts_offs i,
               at_ site_offsets fa + at_ fs_offs i).
Proof.
  intros Hlen; unfold hops_of; split.
  - rewrite length_combine, !length_map; lia.
  - intros i Hi.
    rewrite combine_nth by (rewrite !length_map; exact Hlen).
    unfold at_.
    rewrite (nth_indep _ 0 (at_ site_offsets ta + 0))
      by (rewrite length_map; lia).
    rewrite (nth_indep (map _ fs_offs) 0 (at_ site_offsets fa + 0))
      by (rewrite length_map; lia).
    rewrite (map_nth (fun o => at_ site_offsets ta + o)).
    rewrite (map_nth (fun o => at_ site_offsets fa + o)).
    reflexivity.
Qed.

(** Without a mismatching pair the dense assembler replays, with
    overwriting, the triplets of all pairs. *)
Lemma vmd_loop_writes pairs (M : Matrix C) :
  (forall p, In p pairs -> shape_mismatch norbs p = false) ->
  writes (flat_map (pair_entries norbs orb_offsets) pairs) M
         (for_each (vmd_pair norbs orb_offsets site_offsets) pairs M).
Proof.
  intros Hok; apply for_each_writes.
  intros p M1 Hp; apply vmd_pair_writes, Hok, Hp.
Qed.

Lemma vms_result subgraphs (hams : list (Block3 C)) shape :
  match find (shape_mismatch norbs) (combine subgraphs hams) with
  | Some p =>
      _vectorized_make_sparse norbs orb_offsets site_offsets subgraphs hams
                              shape
      = Raise (ValueError_shape (array_str (hops_of site_offsets (fst p))))
  | None =>
      forall A,
        _vectorized_make_sparse norbs orb_offsets site_offsets subgraphs hams
                                shape = Ok A ->
        coo_data A
        = flat_map (pair_entries norbs orb_offsets) (combine subgraphs hams)
        /\ (coo_shape0 A, coo_shape1 A) = shape_or_default orb_offsets shape
  end.
Proof.
  unfold _vectorized_make_sparse.
  rewrite vms_loop by (simpl; apply pairs_entries_length).
  destruct (find (shape_mismatch norbs) (combine subgraphs hams));
    [reflexivity|].
  intros A; simpl.
  destruct (_ =? _); [|discriminate].
  intros Heq; injection Heq as <-; simpl.
  destruct (shape_or_default orb_offsets shape); auto.
Qed.
End VectorizedPlacement.

(** ** Worked inputs for the vectorized assemblers *)

(** Two site arrays: two sites with two orbitals each, then one site with
    one orbital. *)
Definition ex_norbs : list nat := [2; 1].
Definition ex_orb_offsets : list nat := [0; 4; 5].
Definition ex_site_offsets : list nat := [0; 2; 3].

(** An onsite term on the first array. *)
Definition ex_onsite : Subgraph * Block3 (Z * Z) :=
  (((0, 0), ([0; 1], [0; 1])),
   block3_of (gz 0 0) 2 2
     [[[gz 1 0; gz 0 1]; [gz 0 (-1); gz 2 0]];
      [[gz 3 0; gz 0 0]; [gz 0 0; gz 4 0]]]).

(** A hopping term from the second array to the first, whose blocks are
    [2 x 2] where [2 x 1] is expected. *)
Definition ex_bad_hopping : Subgraph * Block3 (Z * Z) :=
  (((0, 1), ([0; 1], [0; 0])),
   block3_of (gz 0 0) 2 2
     [[[gz 5 0; gz 6 0]; [gz 7 0; gz 8 0]];
      [[gz 5 1; gz 6 1]; [gz 7 1; gz 8 1]]]).

(** One site with one orbital and two terms on the same subgraph. *)
Definition overlapping_terms : System (Z * Z) :=
  {| site_arrays := [{| family := 0; sa_len := 1 |}];
     subgraphs := [((0, 0), ([0], [0]))];
     terms := [{| subgraph := 0; hermitian := false |};
               {| subgraph := 0; hermitian := false |}];
     hamiltonian_term := fun _ => block3_of (gz 0 0) 1 1 [[[gz 1 0]]];
     cell_size := 1;
     site_ranges := None |}.

Lemma find_none_all {A} (f : A -> bool) (l : list A) :
  (forall x, In x l -> f x = false) -> find f l = None.
Proof.
  induction l as [|x l IH]; intros Hall; simpl; [reflexivity|].
  rewrite (Hall x (or_introl eq_refl)).
  apply IH; intros y Hy; apply Hall; right; exact Hy.
Qed.

(** A hopping term from the second array to the first, with blocks of
    the expected shape [2 x 1]. *)
Definition ex_hopping : Subgraph * Block3 (Z * Z) :=
  (((0, 1), ([0; 1], [0; 0])),
   block3_of (gz 0 0) 2 1 [[[gz 5 1]; [gz 6 0]]; [[gz 0 0]; [gz 7 2]]]).

Section BlockPlacement.
Context {C : Type} `{Scalar C}.

Variables norbs orb_offsets : list nat.

(** The triplets of a pair are the entries of the blocks of its
    instances, each at its offset. *)
Lemma in_pair_entries (p : Subgraph * Block3 C) r c v :
  In (r, c, v) (pair_entries norbs orb_offsets p) <->
  exists i j k,
    i < b_N (snd p) /\ j < b_M (snd p) /\ k < b_P (snd p) /\
    r = to_off_of norbs orb_offsets (fst p) i + j /\
    c = from_off_of norbs orb_offsets (fst p) i + k /\
    v = b_at (snd p) i j k.
Proof.
  unfold pair_entries, instance_entries, range; split.
  - intros Hin.
    apply in_flat_map in Hin as (i & Hi & Hin).
    apply in_flat_map in Hin as (j & Hj & Hin).
    apply in_flat_map in Hin as (k & Hk & [Heq|[]]).
    apply in_seq in Hi, Hj, Hk.
    injection Heq as <- <- <-.
    exists i, j, k; repeat split; lia.
  - intros (i & j & k & Hi & Hj & Hk & -> & -> & ->).
    apply in_flat_map; exists i; split; [apply in_seq; lia|].
    apply in_flat_map; exists j; split; [apply in_seq; lia|].
    apply in_flat_map; exists k; split; [apply in_seq; lia|].
    left; reflexivity.
Qed.

(** With a subgraph for every block array, the buffers are filled. *)
Lemma pairs_entries_length_all (subgraphs : list Subgraph)
      (hams : list (Block3 C)) :
  length hams <= length subgraphs ->
  length (flat_map (pair_entries norbs orb_offsets) (combine subgraphs hams))
  = list_sum (map (fun h => b_N h * b_M h * b_P h) hams).
Proof.
  revert hams; induction subgraphs as [|sg sgs IH]; intros [|h hams] Hlen;
    simpl in *; try lia.
  rewrite length_app, pair_entries_length; simpl.
  rewrite IH by lia; reflexivity.
Qed.

Lemma in_vals_at r c v (l : list (nat * nat * C)) :
  In v (vals_at r c l) <-> In (r, c, v) l.
Proof.
  unfold vals_at; rewrite in_flat_map; split.
  - intros ([[r' c'] v'] & Hin & Hv).
    destruct (Nat.eqb_spec r r') as [->|_]; [|destruct Hv].
    destruct (Nat.eqb_spec c c') as [->|_]; [|destruct Hv].
    destruct Hv as [->|[]]; exact Hin.
  - intros Hin; exists (r, c, v); split; [exact Hin|].
    rewrite !Nat.eqb_refl; left; reflexivity.
Qed.
End BlockPlacement.

(** ** The vectorized assemblers: main results *)

(** C5.  When every pair [(subgraph, block_array)] passes the shape
    validation (and there is a subgraph for every block array, and the
    blocks lie inside the output), both vectorized assemblers return.
    The sparse one stores, for every pair and every instance [i] of it,
    every entry [(j, k)] of the [norb(to_array) x norb(from_array)] block
    [block_array[i]] at row
    [orb_offsets[to_array] + norb(to_array) * to_local_offsets[i] + j]
    and column
    [orb_offsets[from_array] + norb(from_array) * from_local_offsets[i]
    + k], in the order of the loops, and nothing else.  The dense one
    starts from zeros and assigns the same triplets in the same order:
    each position holds the value last written to it, so the entry of a
    block that no other write hits is there in the output. *)
Theorem instance_block_placement
        {C : Type} `{Scalar C} (norbs orb_offsets site_offsets : list nat)
        (subgraphs : list Subgraph) (hams : list (Block3 C))
        (shape : option (nat * nat)) :
  let pairs := combine subgraphs hams in
  let out := shape_or_default orb_offsets shape in
  let to_off := fun ta (ts_offs : list nat) i =>
                  at_ orb_offsets ta + at_ norbs ta * at_ ts_offs i in
  let from_off := fun fa (fs_offs : list nat) i =>
                    at_ orb_offsets fa + at_ norbs fa * at_ fs_offs i in
  length hams <= length subgraphs ->
  (forall ta fa ts_offs fs_offs h,
      In (((ta, fa), (ts_offs, fs_offs)), h) pairs ->
      b_M h = at_ norbs ta /\ b_P h = at_ norbs fa) ->
  (forall ta fa ts_offs fs_offs h i j k,
      In (((ta, fa), (ts_offs, fs_offs)), h) pairs ->
      i < b_N h -> j < at_ norbs ta -> k < at_ norbs fa ->
      to_off ta ts_offs i + j < fst out /\
      from_off fa fs_offs i + k < snd out) ->
  exists A M,
    _vectorized_make_sparse norbs orb_offsets site_offsets subgraphs hams
                            shape = Ok A /\
    _vectorized_make_dense norbs orb_offsets site_offsets subgraphs hams
                           shape = Ok M /\
    (coo_shape0 A, coo_shape1 A) = out /\
    (shape0 M, shape1 M) = out /\
    coo_data A = flat_map (pair_entries norbs orb_offsets) pairs /\
    length (coo_data A)
    = list_sum (map (fun h => b_N h * b_M h * b_P h) hams) /\
    (forall r c v,
        In (r, c, v) (coo_data A) <->
        exists ta fa ts_offs fs_offs h i j k,
          In (((ta, fa), (ts_offs, fs_offs)), h) pairs /\
          i < b_N h /\ j < at_ norbs ta /\ k < at_ norbs fa /\
          r = to_off ta ts_offs i + j /\
          c = from_off fa fs_offs i + k /\
          v = b_at h i j k) /\
    (forall r c, entry M r c = List.last (vals_at r c (coo_data A)) c0) /\
    (forall ta fa ts_offs fs_offs h i j k,
        In (((ta, fa), (ts_offs, fs_offs)), h) pairs ->
        i < b_N h -> j < at_ norbs ta -> k < at_ norbs fa ->
        length (vals_at (to_off ta ts_offs i + j) (from_off fa fs_offs i + k)
                        (coo_data A)) <= 1 ->
        entry M (to_off ta ts_offs i + j) (from_off fa fs_offs i + k)
        = b_at h i j k).
Proof.
  intros pairs out to_off from_off Hlen Hshape Hfit.
  assert (Hmem : forall r c v,
             In (r, c, v) (flat_map (pair_entries norbs orb_offsets) pairs) <->
             exists ta fa ts_offs fs_offs h i j k,
               In (((ta, fa), (ts_offs, fs_offs)), h) pairs /\
               i < b_N h /\ j < at_ norbs ta /\ k < at_ norbs fa /\
               r = to_off ta ts_offs i + j /\
               c = from_off fa fs_offs i + k /\
               v = b_at h i j k).
  { intros r c v; rewrite in_flat_map; split.
    - intros ([[[ta fa] [ts_offs fs_offs]] h] & Hp & Hin).
      apply in_pair_entries in Hin
        as (i & j & k & Hi & Hj & Hk & -> & -> & ->).
      destruct (Hshape _ _ _ _ _ Hp) as [EM EP]; simpl in *.
      exists ta, fa, ts_offs, fs_offs, h, i, j, k.
      repeat split; try assumption; lia.
    - intros (ta & fa & ts_offs & fs_offs & h & i & j & k
              & Hp & Hi & Hj & Hk & -> & -> & ->).
      destruct (Hshape _ _ _ _ _ Hp) as [EM EP].
      exists (((ta, fa), (ts_offs, fs_offs)), h); split; [exact Hp|].
      apply in_pair_entries; exists i, j, k; simpl.
      repeat split; try assumption; lia. }
  assert (Hfind : find (shape_mismatch norbs) pairs = None).
  { apply find_none_all; intros [[[ta fa] offs] h] Hp.
    destruct offs as [ts_offs fs_offs].
    destruct (Hshape _ _ _ _ _ Hp) as [EM EP].
    unfold shape_mismatch; simpl.
    rewrite EM, EP, !Nat.eqb_refl; reflexivity. }
  assert (Hcount : length (flat_map (pair_entries norbs orb_offsets) pairs)
                   = list_sum (map (fun h => b_N h * b_M h * b_P h) hams))
    by (apply pairs_entries_length_all, Hlen).
  assert (Hsparse :
            _vectorized_make_sparse norbs orb_offsets site_offsets subgraphs
                                    hams shape
            = Ok {| coo_shape0 := fst out; coo_shape1 := snd out;
                    coo_data := flat_map (pair_entries norbs orb_offsets)
                                         pairs |}).
  { unfold _vectorized_make_sparse.
    rewrite vms_loop by (simpl; apply pairs_entries_length).
    fold pairs; rewrite Hfind; cbn [bind app].
    rewrite Hcount, Nat.eqb_refl; reflexivity. }
  assert (Hdense : exists M,
             _vectorized_make_dense norbs orb_offsets site_offsets subgraphs
                                    hams shape = Ok M /\
             shape0 M = fst out /\ shape1 M = snd out /\
             forall r c,
               entry M r c
               = List.last
                   (vals_at r c (flat_map (pair_entries norbs orb_offsets)
                                          pairs)) c0).
  { unfold _vectorized_make_dense; fold pairs out.
    pose proof (@vmd_loop _ norbs orb_offsets site_offsets pairs
                  (zeros (fst out) (snd out))) as Hloop.
    rewrite Hfind in Hloop.
    destruct Hloop as (M & HM & S0 & S1 & Hentry).
    { intros p Hp _ r c v Hin; simpl.
      assert (Hall : In (r, c, v)
                        (flat_map (pair_entries norbs orb_offsets) pairs))
        by (apply in_flat_map; exists p; split; assumption).
      apply Hmem in Hall
        as (ta & fa & ts_offs & fs_offs & h & i & j & k
            & Hq & Hi & Hj & Hk & -> & -> & _).
      exact (Hfit _ _ _ _ _ _ _ _ Hq Hi Hj Hk). }
    exists M; split; [exact HM|split; [exact S0|split; [exact S1|]]].
    intros r c; rewrite Hentry, replay_vals; reflexivity. }
  destruct Hdense as (M & HM & S0 & S1 & Hentry).
  eexists; exists M; split; [exact Hsparse|]; split; [exact HM|].
  cbn [coo_shape0 coo_shape1 coo_data].
  split; [destruct out; reflexivity|].
  split; [rewrite S0, S1; destruct out; reflexivity|].
  split; [reflexivity|]; split; [exact Hcount|].
  split; [exact Hmem|]; split; [exact Hentry|].
  intros ta fa ts_offs fs_offs h i j k Hp Hi Hj Hk Hone.
  rewrite Hentry.
  assert (Hin : In (b_at h i j k)
                   (vals_at (to_off ta ts_offs i + j)
                            (from_off fa fs_offs i + k)
                            (flat_map (pair_entries norbs orb_offsets)
                                      pairs))).
  { apply in_vals_at, Hmem.
    exists ta, fa, ts_offs, fs_offs, h, i, j, k; auto 10. }
  destruct (vals_at _ _ _) as [|x [|y l]]; simpl in *.
  - destruct Hin.
  - destruct Hin as [->|[]]; reflexivity.
  - lia.
Qed.

Lemma instance_block_placement_witness :
  exists A M,
    _vectorized_make_sparse ex_norbs ex_orb_offsets ex_site_offsets
                            [fst ex_onsite; fst ex_hopping]
                            [snd ex_onsite; snd ex_hopping] None = Ok A /\
    _vectorized_make_dense ex_norbs ex_orb_offsets ex_site_offsets
                           [fst ex_onsite; fst ex_hopping]
                           [snd ex_onsite; snd ex_hopping] None = Ok M /\
    coo_data A
    = [(0, 0, gz 1 0); (0, 1, gz 0 1); (1, 0, gz 0 (-1)); (1, 1, gz 2 0);
       (2, 2, gz 3 0); (2, 3, gz 0 0); (3, 2, gz 0 0); (3, 3, gz 4 0);
       (0, 4, gz 5 1); (1, 4, gz 6 0); (2, 4, gz 0 0); (3, 4, gz 7 2)] /\
    (forall r c, entry M r c = List.last (vals_at r c (coo_data A)) c0) /\
    entry M 3 4 = gz 7 2.
Proof.
  destruct (@instance_block_placement
              _ _ ex_norbs ex_orb_offsets ex_site_offsets
              [fst ex_onsite; fst ex_hopping]
              [snd ex_onsite; snd ex_hopping] None)
    as (A & M & Hs & Hd & _ & _ & Hdata & _ & _ & Hentry & Hblock).
  - simpl; lia.
  - intros ta fa ts_offs fs_offs h [Heq|[Heq|[]]];
      inversion Heq; subst; split; reflexivity.
  - intros ta fa ts_offs fs_offs h i j k [Heq|[Heq|[]]] Hi Hj Hk;
      inversion Heq; subst; clear Heq;
      change (i < 2) in Hi; cbn in Hj, Hk;
      destruct i as [|[|i]]; cbn; lia.
  - exists A, M.
    split; [exact Hs|]; split; [exact Hd|].
    split; [rewrite Hdata; vm_compute; reflexivity|].
    split; [exact Hentry|].
    apply (Hblock 0 1 [0; 1] [0; 0] (snd ex_hopping) 1 1 0).
    + right; left; reflexivity.
    + vm_compute; lia.
    + vm_compute; lia.
    + vm_compute; lia.
    + rewrite Hdata; vm_compute; lia.
Defined.

(** A row that the message shows. *)
Definition listed (m : ArrayStr) (row : nat * nat) : Prop :=
  match m with
  | AllRows rows => In row rows
  | Summarized leading trailing => In row leading \/ In row trailing
  end.

(** A term with 501 instances on one site array of 501 sites with one
    orbital each, whose blocks are [2 x 2]. *)
Definition ex_long_sites : list nat := range 501.

Definition ex_long_term : Subgraph * Block3 (Z * Z) :=
  (((0, 0), (ex_long_sites, ex_long_sites)),
   {| b_N := 501; b_M := 2; b_P := 2; b_at := fun _ _ _ => gz 1 0 |}).

(** C7, as stated, fails: the message of the shape error is made with
    [str(hops)], and numpy prints an array of more than 1000 elements in
    summary.  For the term with 501 instances both assemblers raise the
    error whose message shows the pairs of the first three and of the
    last three instances only; the offending pair [(3, 3)] is not in
    it. *)
Lemma shape_error_message_abbreviated :
  let m := Summarized [(0, 0); (1, 1); (2, 2)]
                      [(498, 498); (499, 499); (500, 500)] in
  _vectorized_make_sparse [1] [0; 501] [0; 501]
    [fst ex_long_term] [snd ex_long_term] None = Raise (ValueError_shape m) /\
  _vectorized_make_dense [1] [0; 501] [0; 501]
    [fst ex_long_term] [snd ex_long_term] None = Raise (ValueError_shape m) /\
  In (3, 3) (hops_of [0; 501] (fst ex_long_term)) /\
  ~ listed m (3, 3).
Proof.
  intros m; split; [|split; [|split]].
  - vm_compute; reflexivity.
  - vm_compute; reflexivity.
  - apply (nth_error_In _ 3); vm_compute; reflexivity.
  - simpl; intros [Hin|Hin];
      repeat (destruct Hin as [Heq|Hin]; [discriminate Heq|]);
      destruct Hin.
Qed.

(** C7, amended.  When some pair's block array has trailing dimensions
    other than [(norb(to_array), norb(from_array))], both vectorized
    assemblers raise the shape error for such a pair (the first in the
    list).  Its message is made from the array [hops], which has one
    [(to_site, from_site)] row for every instance of that term:
    [site_offsets[to_array] + to_local_offsets[i]] and
    [site_offsets[from_array] + from_local_offsets[i]].  The message
    shows every row when the term has at most 500 instances, and the
    first three and the last three rows when it has more.  When all pairs
    match, neither assembler raises the shape error.  (For the dense
    assembler the pairs written before the error are taken to lie inside
    the output; a write outside it is undefined in the source.) *)
Theorem shape_mismatch_reported
        {C : Type} `{Scalar C} (norbs orb_offsets site_offsets : list nat)
        (subgraphs : list Subgraph) (hams : list (Block3 C))
        (shape : option (nat * nat)) :
  let pairs := combine subgraphs hams in
  let sparse :=
    _vectorized_make_sparse norbs orb_offsets site_offsets subgraphs hams
                            shape in
  let dense :=
    _vectorized_make_dense norbs orb_offsets site_offsets subgraphs hams
                           shape in
  ((exists p, In p pairs /\ shape_mismatch norbs p = true) ->
   exists ta fa ts_offs fs_offs h,
     In (((ta, fa), (ts_offs, fs_offs)), h) pairs /\
     (at_ norbs ta <> b_M h \/ at_ norbs fa <> b_P h) /\
     let hops :=
       combine (map (fun o => at_ site_offsets ta + o) ts_offs)
               (map (fun o => at_ site_offsets fa + o) fs_offs) in
     sparse = Raise (ValueError_shape (array_str hops)) /\
     ((forall p, In p pairs -> shape_mismatch norbs p = false ->
                 inside (shape_or_default orb_offsets shape)
                        (pair_entries norbs orb_offsets p)) ->
      dense = Raise (ValueError_shape (array_str hops))) /\
     (length ts_offs = length fs_offs ->
      length hops = length ts_offs /\
      (forall i, i < length ts_offs ->
                 nth i hops (0, 0) = (at_ site_offsets ta + at_ ts_offs i,
                                      at_ site_offsets fa + at_ fs_offs i)) /\
      (length ts_offs <= 500 -> array_str hops = AllRows hops) /\
      (500 < length ts_offs ->
       array_str hops
       = Summarized (firstn 3 hops) (skipn (length ts_offs - 3) hops))))
  /\
  ((forall p, In p pairs -> shape_mismatch norbs p = false) ->
   forall m, sparse <> Raise (ValueError_shape m) /\
             dense <> Raise (ValueError_shape m)).
Proof.
  intros pairs sparse dense; split.
  - intros (p & Hp & Hbad).
    pose proof (@vms_result _ norbs orb_offsets site_offsets subgraphs hams
                  shape) as Hs.
    pose proof (@vmd_loop _ norbs orb_offsets site_offsets pairs
                  (zeros (fst (shape_or_default orb_offsets shape))
                         (snd (shape_or_default orb_offsets shape)))) as Hd.
    simpl in Hd.
    rewrite <- surjective_pairing in Hd.
    fold pairs in Hs.
    destruct (find (shape_mismatch norbs) pairs) as [q|] eqn:Hfind.
    + apply find_some in Hfind as [Hq Hqbad].
      destruct q as [[[ta fa] [ts_offs fs_offs]] h].
      exists ta, fa, ts_offs, fs_offs, h.
      split; [exact Hq|split].
      * unfold shape_mismatch in Hqbad; simpl in Hqbad.
        apply orb_true_iff in Hqbad as [E|E];
          apply negb_true_iff, Nat.eqb_neq in E; auto.
      * split; [exact Hs|split; [exact Hd|]].
        intros Hlen.
        destruct (hops_of_nth site_offsets ta fa ts_offs fs_offs Hlen)
          as [Hl Hnth].
        unfold hops_of in Hl, Hnth.
        split; [exact Hl|split; [exact Hnth|]].
        unfold array_str; rewrite Hl; split; intros Hn.
        -- destruct (Nat.ltb_spec 1000 (2 * length ts_offs));
             [lia | reflexivity].
        -- destruct (Nat.ltb_spec 1000 (2 * length ts_offs));
             [reflexivity | lia].
    + rewrite (find_none _ _ Hfind p Hp) in Hbad; discriminate.
  - intros Hok m.
    assert (Hfind : find (shape_mismatch norbs) pairs = None).
    { destruct (find (shape_mismatch norbs) pairs) as [q|] eqn:Hfind;
        [|reflexivity].
      apply find_some in Hfind as [Hq Hqbad].
      rewrite (Hok q Hq) in Hqbad; discriminate. }
    split.
    + unfold sparse, _vectorized_make_sparse.
      rewrite vms_loop by (simpl; apply pairs_entries_length).
      fold pairs; rewrite Hfind; simpl.
      destruct (_ =? _); discriminate.
    + unfold dense, _vectorized_make_dense; fold pairs.
      pose proof (@vmd_loop_writes _ norbs orb_offsets site_offsets pairs
                    (zeros (fst (shape_or_default orb_offsets shape))
                           (snd (shape_or_default orb_offsets shape))) Hok)
        as Hw.
      destruct (for_each _ pairs _) as [M|e]; [discriminate|].
      destruct Hw as [-> _]; discriminate.
Qed.

Lemma ex_pairs_inside :
  forall p, In p (combine [fst ex_onsite; fst ex_bad_hopping]
                          [snd ex_onsite; snd ex_bad_hopping]) ->
            shape_mismatch ex_norbs p = false ->
            inside (shape_or_default ex_orb_offsets None)
                   (pair_entries ex_norbs ex_orb_offsets p).
Proof.
  intros p [<-|[<-|[]]] Hok; [|vm_compute in Hok; discriminate Hok].
  intros r c v Hin; vm_compute in Hin.
  repeat (destruct Hin as [Heq|Hin];
          [injection Heq as <- <- <-; simpl; lia|]).
  destruct Hin.
Defined.

Lemma shape_mismatch_reported_witness :
  exists ta fa ts_offs fs_offs h,
    In (((ta, fa), (ts_offs, fs_offs)), h) [ex_onsite; ex_bad_hopping] /\
    (at_ ex_norbs ta <> b_M h \/ at_ ex_norbs fa <> b_P h) /\
    let hops :=
      combine (map (fun o => at_ ex_site_offsets ta + o) ts_offs)
              (map (fun o => at_ ex_site_offsets fa + o) fs_offs) in
    _vectorized_make_sparse ex_norbs ex_orb_offsets ex_site_offsets
      [fst ex_onsite; fst ex_bad_hopping] [snd ex_onsite; snd ex_bad_hopping]
      None = Raise (ValueError_shape (array_str hops)) /\
    _vectorized_make_dense ex_norbs ex_orb_offsets ex_site_offsets
      [fst ex_onsite; fst ex_bad_hopping] [snd ex_onsite; snd ex_bad_hopping]
      None = Raise (ValueError_shape (array_str hops)) /\
    (length ts_offs = length fs_offs ->
     length hops = length ts_offs /\
     (forall i, i < length ts_offs ->
                nth i hops (0, 0) = (at_ ex_site_offsets ta + at_ ts_offs i,
                                     at_ ex_site_offsets fa + at_ fs_offs i)) /\
     (length ts_offs <= 500 -> array_str hops = AllRows hops) /\
     (500 < length ts_offs ->
      array_str hops
      = Summarized (firstn 3 hops) (skipn (length ts_offs - 3) hops))).
Proof.
  destruct (proj1 (@shape_mismatch_reported _ _ ex_norbs ex_orb_offsets
                     ex_site_offsets [fst ex_onsite; fst ex_bad_hopping]
                     [snd ex_onsite; snd ex_bad_hopping] None))
    as (ta & fa & ts_offs & fs_offs & h & Hin & Hdim & Hs & Hd & Hhops).
  { exists ex_bad_hopping; split; [right; left; reflexivity | reflexivity]. }
  exists ta, fa, ts_offs, fs_offs, h.
  split; [exact Hin|split; [exact Hdim|]].
  split; [exact Hs|split; [exact (Hd ex_pairs_inside) | exact Hhops]].
Defined.

(** The shape error of the worked input names both instances of the
    hopping term: sites [(0, 2)] and [(1, 2)]. *)
Example ex_bad_hopping_error :
  _vectorized_make_dense ex_norbs ex_orb_offsets ex_site_offsets
    [fst ex_onsite; fst ex_bad_hopping] [snd ex_onsite; snd ex_bad_hopping]
    None = Raise (ValueError_shape (AllRows [(0, 2); (1, 2)])).
Proof. reflexivity. Qed.

(** What the two vectorized outputs hold at a position: the sparse one
    sums the values written there, the dense one keeps the last. *)
Lemma vectorized_sum_and_last
      {C : Type} `{Scalar C} (norbs orb_offsets site_offsets : list nat)
      (subgraphs : list Subgraph) (hams : list (Block3 C))
      (shape : option (nat * nat)) (A : Coo C) (M : Matrix C) :
  _vectorized_make_sparse norbs orb_offsets site_offsets subgraphs hams shape
  = Ok A ->
  _vectorized_make_dense norbs orb_offsets site_offsets subgraphs hams shape
  = Ok M ->
  (shape0 M, shape1 M) = (coo_shape0 A, coo_shape1 A) /\
  forall r c,
    entry (todense A) r c = fold_left cadd (vals_at r c (coo_data A)) c0 /\
    entry M r c = List.last (vals_at r c (coo_data A)) c0.
Proof.
  intros Hs Hd.
  pose proof (@vms_result _ norbs orb_offsets site_offsets subgraphs hams
                shape) as Hres.
  destruct (find (shape_mismatch norbs) (combine subgraphs hams)) as [p|]
    eqn:Hfind; [rewrite Hres in Hs; discriminate|].
  destruct (Hres A Hs) as [Hdata Hshape].
  unfold _vectorized_make_dense in Hd.
  pose proof (@vmd_loop_writes _ norbs orb_offsets site_offsets
                (combine subgraphs hams)
                (zeros (fst (shape_or_default orb_offsets shape))
                       (snd (shape_or_default orb_offsets shape)))
                (find_none _ _ Hfind)) as Hw.
  rewrite Hd in Hw; destruct Hw as (_ & S0 & S1 & HM).
  split.
  - rewrite S0, S1; simpl; rewrite Hshape.
    destruct (shape_or_default orb_offsets shape); reflexivity.
  - intros r c; split.
    + simpl; rewrite coo_sum_vals; reflexivity.
    + rewrite HM, replay_vals, Hdata; reflexivity.
Qed.

(** C9 at two terms on the same site.  Both terms contribute the block
    [[1]] at position [(0, 0)]: the sparse output holds it twice, which
    [todense] sums to 2, and the dense output holds 1, the second write
    having replaced the first. *)
Theorem overlapping_terms_sum_and_overwrite :
  match vectorized_hamiltonian_submatrix overlapping_terms true,
        vectorized_hamiltonian_submatrix overlapping_terms false with
  | Ok (Sparse A), Ok (Dense M) =>
      coo_data A = [(0, 0, gz 1 0); (0, 0, gz 1 0)] /\
      entry (todense A) 0 0 = gz 2 0 /\
      entry M 0 0 = gz 1 0
  | _, _ => False
  end.
Proof.
  vm_compute; repeat split; reflexivity.
Qed.

Lemma in_enumerate_nth {A} (l : list A) (n : nat) (a : A) :
  In (n, a) (enumerate l) <-> nth_error l n = Some a.
Proof.
  unfold enumerate.
  assert (Hgen : forall start,
             In (n, a) (combine (seq start (length l)) l) <->
             start <= n /\ nth_error l (n - start) = Some a).
  { induction l as [|x l IH]; intros start; simpl.
    - split; [intros [] | intros [_ Hn]].
      destruct (n - start); discriminate.
    - rewrite IH; split.
      + intros [Heq|[Hle Hn]].
        * injection Heq as -> ->; rewrite Nat.sub_diag; auto.
        * split; [lia|].
          replace (n - start) with (S (n - S start)) by lia; exact Hn.
      + intros [Hle Hn].
        destruct (n - start) as [|k] eqn:Ek.
        * left; injection Hn as ->; f_equal; lia.
        * right; split; [lia|].
          replace (n - S start) with k by lia; exact Hn. }
  rewrite Hgen, Nat.sub_0_r; split; [tauto | split; [lia | assumption]].
Qed.

Lemma in_combine_nth {A B} (l1 : list A) (l2 : list B) (a : A) (b : B) :
  In (a, b) (combine l1 l2) ->
  exists k, nth_error l1 k = Some a /\ nth_error l2 k = Some b.
Proof.
  revert l2; induction l1 as [|x l1 IH]; intros [|y l2] Hin;
    simpl in Hin; try contradiction.
  destruct Hin as [Heq|Hin].
  - injection Heq as -> ->; exists 0; auto.
  - destruct (IH l2 Hin) as (k & H1 & H2); exists (S k); auto.
Qed.

(** ** The norb resolver *)

Section NorbResolver.
Context {C : Type} `{Scalar C}.

Variable syst : System C.

(** The subgraph of a term exists and names site arrays of the system. *)
Definition term_wf (t : Term) : bool :=
  match nth_error (subgraphs syst) (subgraph t) with
  | Some ((to_w, from_w), _) =>
      (to_w <? length (site_arrays syst))
      && (from_w <? length (site_arrays syst))
  | None => false
  end.

Definition system_wf : bool := forallb term_wf (terms syst).

(** The families of the two site arrays that a term connects. *)
Definition term_families (t : Term) : list nat :=
  match nth_error (subgraphs syst) (subgraph t) with
  | Some ((to_w, from_w), _) =>
      match nth_error (site_arrays syst) to_w,
            nth_error (site_arrays syst) from_w with
      | Some to_sa, Some from_sa => [family to_sa; family from_sa]
      | _, _ => []
      end
  | None => []
  end.

(** Some term touches family [f]. *)
Definition touched (f : nat) : bool :=
  existsb (fun t => existsb (Nat.eqb f) (term_families t)) (terms syst).

Lemma touched_spec f :
  touched f = true <-> exists t, In t (terms syst) /\ In f (term_families t).
Proof.
  unfold touched; rewrite existsb_exists; split.
  - intros (t & Ht & Hf); exists t; split; [exact Ht|].
    apply existsb_exists in Hf as (g & Hg & Heq).
    apply Nat.eqb_eq in Heq; subst g; exact Hg.
  - intros (t & Ht & Hf); exists t; split; [exact Ht|].
    apply existsb_exists; exists f; split; [exact Hf | apply Nat.eqb_refl].
Qed.

Definition known (m : gmap nat (option nat)) (f : nat) : Prop :=
  exists v, m !! f = Some (Some v).

Lemma known_insert (m : gmap nat (option nat)) f g v :
  known m f -> known (<[g := Some v]> m) f.
Proof.
  intros [w Hw]; destruct (decide (g = f)) as [->|Hne].
  - exists v; apply lookup_insert_eq.
  - exists w; rewrite lookup_insert_ne by exact Hne; exact Hw.
Qed.

Lemma known_insert_eq (m : gmap nat (option nat)) f v :
  known (<[f := Some v]> m) f.
Proof. exists v; apply lookup_insert_eq. Qed.

Lemma known_norb_of (m : gmap nat (option nat)) f :
  is_none (norb_of m f) = false -> known m f.
Proof.
  unfold norb_of, known; destruct (m !! f) as [[v|]|]; simpl;
    [eauto | discriminate | discriminate].
Qed.

(** One step of either loop leaves the known families known and changes
    the table at the families of its term only. *)
Definition step_ok (t : Term) (m : gmap nat (option nat))
           (r : result (gmap nat (option nat))) : Prop :=
  exists m', r = Ok m' /\
             (forall f, known m f -> known m' f) /\
             (forall f, ~ In f (term_families t) -> m' !! f = m !! f).

Lemma seed_step_ok (p : option (Block3 C) * Term) m :
  term_wf (snd p) = true -> step_ok (snd p) m (seed_step syst p m).
Proof.
  destruct p as [ham t]; simpl.
  unfold term_wf, step_ok, term_families, seed_step, subgraph_of, index.
  destruct (nth_error (subgraphs syst) (subgraph t))
    as [[[to_w from_w] offs]|]; [|discriminate].
  intros Hwf; apply andb_true_iff in Hwf as [Hto Hfrom].
  apply Nat.ltb_lt in Hto, Hfrom.
  destruct (nth_error (site_arrays syst) to_w) as [to_sa|] eqn:Eto;
    [|apply nth_error_None in Eto; lia].
  destruct (nth_error (site_arrays syst) from_w) as [from_sa|] eqn:Efrom;
    [|apply nth_error_None in Efrom; lia].
  simpl; destruct ham as [ham|]; simpl.
  - rewrite Eto; simpl; rewrite Efrom; simpl.
    eexists; split; [reflexivity|split].
    + intros f Hf; apply known_insert, known_insert, Hf.
    + intros f Hnot; simpl in Hnot.
      rewrite !lookup_insert_ne by tauto; reflexivity.
  - exists m; auto.
Qed.

Lemma eval_step_ok (p : nat * Term) m :
  term_wf (snd p) = true ->
  step_ok (snd p) m (eval_step syst p m)
  /\ forall m', eval_step syst p m = Ok m' ->
                forall f, In f (term_families (snd p)) -> known m' f.
Proof.
  destruct p as [n t]; simpl.
  unfold term_wf, step_ok, term_families, eval_step, subgraph_of, index.
  destruct (nth_error (subgraphs syst) (subgraph t))
    as [[[to_w from_w] offs]|]; [|discriminate].
  intros Hwf; apply andb_true_iff in Hwf as [Hto Hfrom].
  apply Nat.ltb_lt in Hto, Hfrom.
  destruct (nth_error (site_arrays syst) to_w) as [to_sa|] eqn:Eto;
    [|apply nth_error_None in Eto; lia].
  destruct (nth_error (site_arrays syst) from_w) as [from_sa|] eqn:Efrom;
    [|apply nth_error_None in Efrom; lia].
  simpl; rewrite Eto; simpl; rewrite Efrom; simpl.
  destruct (is_none (norb_of m (family to_sa))) eqn:Kto; simpl.
  - split.
    + eexists; split; [reflexivity|split].
      * intros f Hf; apply known_insert, known_insert, Hf.
      * intros f Hnot; simpl in Hnot.
        rewrite !lookup_insert_ne by tauto; reflexivity.
    + intros m' Heq f Hf; injection Heq as <-.
      destruct Hf as [<-|[<-|[]]];
        [apply known_insert, known_insert_eq | apply known_insert_eq].
  - destruct (is_none (norb_of m (family from_sa))) eqn:Kfrom; simpl.
    + split.
      * eexists; split; [reflexivity|split].
        -- intros f Hf; apply known_insert, known_insert, Hf.
        -- intros f Hnot; simpl in Hnot.
           rewrite !lookup_insert_ne by tauto; reflexivity.
      * intros m' Heq f Hf; injection Heq as <-.
        destruct Hf as [<-|[<-|[]]];
          [apply known_insert, known_insert_eq | apply known_insert_eq].
    + split; [exists m; auto|].
      intros m' Heq f Hf; injection Heq as <-.
      destruct Hf as [<-|[<-|[]]]; apply known_norb_of; assumption.
Qed.

(** A loop of such steps. *)
Lemma steps_ok {X} (tm : X -> Term)
      (body : X -> gmap nat (option nat) -> result (gmap nat (option nat)))
      (l : list X) :
  (forall x m, In x l -> step_ok (tm x) m (body x m)) ->
  forall m, exists m',
      for_each body l m = Ok m' /\
      (forall f, known m f -> known m' f) /\
      (forall f, (forall x, In x l -> ~ In f (term_families (tm x))) ->
                 m' !! f = m !! f).
Proof.
  induction l as [|x l IH]; intros Hbody m; simpl.
  - exists m; auto.
  - destruct (Hbody x m (or_introl eq_refl)) as (m1 & -> & K1 & U1); simpl.
    destruct (IH (fun y m' Hy => Hbody y m' (or_intror Hy)) m1)
      as (m2 & -> & K2 & U2).
    exists m2; split; [reflexivity|split].
    + intros f Hf; apply K2, K1, Hf.
    + intros f Hnot.
      rewrite U2 by (intros y Hy; apply Hnot; right; exact Hy).
      apply U1, Hnot; left; reflexivity.
Qed.

(** The "evaluate" loop leaves the families of every term known. *)
Lemma eval_steps_learn (l : list (nat * Term)) :
  (forall p, In p l -> term_wf (snd p) = true) ->
  forall m m',
    for_each (eval_step syst) l m = Ok m' ->
    forall p f, In p l -> In f (term_families (snd p)) -> known m' f.
Proof.
  induction l as [|q l IH]; intros Hwf m m' Hrun p f Hp Hf;
    [destruct Hp|].
  simpl in Hrun.
  destruct (@eval_step_ok q m (Hwf q (or_introl eq_refl)))
    as [(m1 & E1 & K1 & U1) L1].
  rewrite E1 in Hrun; simpl in Hrun.
  destruct Hp as [<-|Hp].
  - pose proof (L1 m1 E1 f Hf) as Hk.
    destruct (@steps_ok _ snd (eval_step syst) l
                (fun x m0 Hx =>
                   proj1 (@eval_step_ok x m0 (Hwf x (or_intror Hx)))) m1)
      as (m2 & E2 & K2 & _).
    rewrite E2 in Hrun; injection Hrun as <-.
    apply K2, Hk.
  - exact (IH (fun x Hx => Hwf x (or_intror Hx)) m1 m' Hrun p f Hp Hf).
Qed.

(** The table before the loops: every family of a site array is a key,
    with value [None]. *)
Lemma initial_table (arrays : list SiteArray) f :
  (list_to_map (map (fun s => (family s, None)) arrays)
     : gmap nat (option nat)) !! f
  = if existsb (fun s => family s =? f) arrays then Some None else None.
Proof.
  induction arrays as [|s arrays IH]; simpl; [apply lookup_empty|].
  destruct (Nat.eqb_spec (family s) f) as [->|Hne]; simpl.
  - apply lookup_insert_eq.
  - rewrite lookup_insert_ne by exact Hne; exact IH.
Qed.

Lemma in_enumerate {A} (l : list A) (a : A) :
  In a l -> exists n, In (n, a) (enumerate l).
Proof.
  unfold enumerate; generalize 0.
  induction l as [|x l IH]; intros start Hin; [destruct Hin|].
  destruct Hin as [->|Hin].
  - exists start; left; reflexivity.
  - destruct (IH (S start) Hin) as [n Hn]; exists n; right; exact Hn.
Qed.

(** After the two loops, the families that some term touches are known
    and the others are as at the start. *)
Lemma resolve_family_norbs_table (hams : list (option (Block3 C))) :
  system_wf = true ->
  exists m,
    resolve_family_norbs syst hams = Ok m /\
    forall f,
      if touched f then known m f
      else m !! f = if existsb (fun s => family s =? f) (site_arrays syst)
                    then Some None else None.
Proof.
  intros Hwf; unfold system_wf in Hwf.
  pose proof (proj1 (forallb_forall _ _) Hwf) as Hterm.
  unfold resolve_family_norbs, seed_norbs, eval_norbs.
  destruct (@steps_ok _ snd (seed_step syst) (combine hams (terms syst))
              (fun x m Hx =>
                 @seed_step_ok x m
                   (Hterm (snd x)
                      (in_combine_r hams (terms syst) (fst x) (snd x)
                         (eq_ind _ (fun y => In y _) Hx _
                                 (surjective_pairing x)))))
              (list_to_map
                 (map (fun s => (family s, None)) (site_arrays syst))))
    as (m1 & -> & K1 & U1).
  simpl.
  assert (Hwf_enum : forall p, In p (enumerate (terms syst)) ->
                               term_wf (snd p) = true).
  { intros [n t] Hp; apply Hterm.
    exact (in_combine_r _ _ _ _ Hp). }
  destruct (@steps_ok _ snd (eval_step syst) (enumerate (terms syst))
              (fun x m Hx => proj1 (@eval_step_ok x m (Hwf_enum x Hx))) m1)
    as (m2 & E2 & K2 & U2).
  exists m2; split; [exact E2|].
  intros f; destruct (touched f) eqn:Ht.
  - apply touched_spec in Ht as (t & Hin & Hf).
    destruct (in_enumerate _ _ Hin) as [n Hn].
    exact (@eval_steps_learn _ Hwf_enum _ _ E2 (n, t) f Hn Hf).
  - assert (Hnot : forall t, In t (terms syst) -> ~ In f (term_families t)).
    { intros t Hin Hf.
      assert (touched f = true) by (apply touched_spec; eauto).
      congruence. }
    rewrite U2, U1, initial_table; [reflexivity| |].
    + intros [ham t] Hx; apply Hnot.
      exact (in_combine_r _ _ _ _ Hx).
    + intros [n t] Hx; apply Hnot.
      exact (in_combine_r _ _ _ _ Hx).
Qed.

(** [any(norbs is None for norbs in family_norbs.values())] *)
Lemma any_none_spec (m : gmap nat (option nat)) :
  existsb is_none (map snd (map_to_list m)) = true <->
  exists f, m !! f = Some None.
Proof.
  rewrite existsb_exists; split.
  - intros (v & Hin & Hv).
    apply in_map_iff in Hin as ([f w] & <- & Hin); simpl in Hv.
    destruct w; [discriminate|].
    exists f; apply elem_of_map_to_list, list_elem_of_In, Hin.
  - intros (f & Hf).
    exists None; split; [|reflexivity].
    apply in_map_iff; exists (f, None); split; [reflexivity|].
    apply list_elem_of_In, elem_of_map_to_list, Hf.
Qed.

(** The starts of the blocks of sizes [l], from offset [o] on. *)
Fixpoint prefix_offsets (o : nat) (l : list nat) : list nat :=
  match l with
  | [] => []
  | x :: l' => o :: prefix_offsets (o + x) l'
  end.

Lemma prefix_offsets_total o l :
  prefix_offsets o l ++ [o + list_sum l] = o :: cumsum_from o l.
Proof.
  revert o; induction l as [|x l IH]; intros o; simpl.
  - rewrite Nat.add_0_r; reflexivity.
  - f_equal; rewrite Nat.add_assoc; apply IH.
Qed.

Lemma build_ranges_fold (m : gmap nat (option nat)) (arrays : list SiteArray) :
  forall (site_offsets : list nat) (R : list (nat * nat * nat)) (o : nat),
    length arrays <= length site_offsets ->
    let norb := fun s => default 0 (norb_of m (family s)) in
    let sizes := map (fun s => sa_len s * norb s) arrays in
    let st :=
      fold_left
        (fun (st : list (nat * nat * nat) * nat) (p : nat * SiteArray) =>
           let '(ranges, orb_offset) := st in
           let '(start, site_array) := p in
           let norbs := default 0 (norb_of m (family site_array)) in
           (ranges ++ [(start, norbs, orb_offset)],
            orb_offset + sa_len site_array * norbs))
        (combine site_offsets arrays) (R, o) in
    map (fun r => snd (fst r)) (fst st)
    = map (fun r => snd (fst r)) R ++ map norb arrays /\
    map snd (fst st) = map snd R ++ prefix_offsets o sizes /\
    snd st = o + list_sum sizes.
Proof.
  induction arrays as [|s arrays IH]; intros so R o Hlen; simpl.
  - destruct so; simpl; rewrite !app_nil_r; auto.
  - destruct so as [|start so]; simpl in *; [lia|].
    destruct (IH so (R ++ [(start, default 0 (norb_of m (family s)), o)])
                 (o + sa_len s * default 0 (norb_of m (family s)))
                 ltac:(lia)) as (E1 & E2 & E3).
    rewrite E1, E2, E3, !map_app; simpl.
    rewrite <- !app_assoc; simpl.
    repeat split; lia.
Qed.
(** *** Where the resolved norbs come from *)

(** The block of term [n] that [_count_norbs] reads: the one handed to
    it in [hams], or else the one it evaluates. *)
Definition block_of (hams : list (option (Block3 C))) (n : nat) : Block3 C :=
  match nth_error hams n with
  | Some (Some ham) => ham
  | _ => hamiltonian_term syst n
  end.

(** [v] is what block [h] of term [t] gives for family [f]: [h.shape[1]]
    when [f] is the family of the 'to' array of the term, [h.shape[2]]
    when it is the family of its 'from' array. *)
Definition read_from (t : Term) (h : Block3 C) (f v : nat) : Prop :=
  exists to_w from_w offs to_sa from_sa,
    nth_error (subgraphs syst) (subgraph t) = Some ((to_w, from_w), offs) /\
    nth_error (site_arrays syst) to_w = Some to_sa /\
    nth_error (site_arrays syst) from_w = Some from_sa /\
    ((family to_sa = f /\ v = b_M h) \/ (family from_sa = f /\ v = b_P h)).

(** Every norb of the table is read from the block of a term. *)
Definition tied (hams : list (option (Block3 C)))
           (m : gmap nat (option nat)) : Prop :=
  forall f v, m !! f = Some (Some v) ->
              exists n t, nth_error (terms syst) n = Some t /\
                          read_from t (block_of hams n) f v.

(** The families of the terms whose block was handed over are known. *)
Definition given_known (hams : list (option (Block3 C)))
           (m : gmap nat (option nat)) : Prop :=
  forall n t h, nth_error hams n = Some (Some h) ->
                nth_error (terms syst) n = Some t ->
                forall f, In f (term_families t) -> known m f.

Lemma tied_insert hams m n t to_w from_w offs to_sa from_sa :
  nth_error (terms syst) n = Some t ->
  nth_error (subgraphs syst) (subgraph t) = Some ((to_w, from_w), offs) ->
  nth_error (site_arrays syst) to_w = Some to_sa ->
  nth_error (site_arrays syst) from_w = Some from_sa ->
  tied hams m ->
  tied hams (<[family from_sa := Some (b_P (block_of hams n))]>
               (<[family to_sa := Some (b_M (block_of hams n))]> m)).
Proof.
  intros Ht Esg Eto Efrom Hm f v.
  destruct (Nat.eq_dec (family from_sa) f) as [Ef|Ef].
  - rewrite <- Ef, lookup_insert_eq; intros [= <-].
    exists n, t; split; [exact Ht|].
    exists to_w, from_w, offs, to_sa, from_sa; auto 6.
  - rewrite lookup_insert_ne by exact Ef.
    destruct (Nat.eq_dec (family to_sa) f) as [Et|Et].
    + rewrite <- Et, lookup_insert_eq; intros [= <-].
      exists n, t; split; [exact Ht|].
      exists to_w, from_w, offs, to_sa, from_sa; auto 6.
    + rewrite lookup_insert_ne by exact Et; apply Hm.
Qed.

Lemma seed_step_tied hams n ho t m m' :
  nth_error hams n = Some ho -> nth_error (terms syst) n = Some t ->
  tied hams m -> seed_step syst (ho, t) m = Ok m' -> tied hams m'.
Proof.
  intros Hn Ht Hm; unfold seed_step, subgraph_of, index.
  destruct (nth_error (subgraphs syst) (subgraph t))
    as [[[to_w from_w] offs]|] eqn:Esg; [|discriminate].
  simpl; destruct ho as [ham|]; [|intros [= <-]; exact Hm].
  destruct (nth_error (site_arrays syst) to_w) as [to_sa|] eqn:Eto;
    [|discriminate].
  simpl.
  destruct (nth_error (site_arrays syst) from_w) as [from_sa|] eqn:Efrom;
    [|discriminate].
  simpl; intros [= <-].
  assert (Hb : block_of hams n = ham) by (unfold block_of; rewrite Hn; auto).
  rewrite <- Hb; apply tied_insert with (t := t) (to_w := to_w)
                                        (from_w := from_w) (offs := offs);
    assumption.
Qed.

Lemma seed_step_known (p : option (Block3 C) * Term) m m' :
  seed_step syst p m = Ok m' ->
  (forall f, known m f -> known m' f) /\
  (forall h, fst p = Some h ->
             forall f, In f (term_families (snd p)) -> known m' f).
Proof.
  destruct p as [ho t]; unfold seed_step, subgraph_of, index, term_families.
  cbn [fst snd].
  destruct (nth_error (subgraphs syst) (subgraph t))
    as [[[to_w from_w] offs]|] eqn:Esg; [|discriminate].
  simpl; destruct ho as [ham|];
    [|intros [= <-]; split; [auto | discriminate]].
  destruct (nth_error (site_arrays syst) to_w) as [to_sa|] eqn:Eto;
    [|discriminate].
  simpl.
  destruct (nth_error (site_arrays syst) from_w) as [from_sa|] eqn:Efrom;
    [|discriminate].
  simpl; intros [= <-]; split.
  - intros f Hf; apply known_insert, known_insert, Hf.
  - intros h _ f [<-|[<-|[]]];
      [apply known_insert, known_insert_eq | apply known_insert_eq].
Qed.

Lemma eval_step_known (p : nat * Term) m m' :
  eval_step syst p m = Ok m' -> forall f, known m f -> known m' f.
Proof.
  destruct p as [n t]; unfold eval_step, subgraph_of, index.
  destruct (nth_error (subgraphs syst) (subgraph t))
    as [[[to_w from_w] offs]|]; [|discriminate].
  simpl.
  destruct (nth_error (site_arrays syst) to_w) as [to_sa|]; [|discriminate].
  simpl.
  destruct (nth_error (site_arrays syst) from_w) as [from_sa|];
    [|discriminate].
  simpl; destruct (_ || _); intros [= <-] f Hf;
    [apply known_insert, known_insert, Hf | exact Hf].
Qed.

Lemma eval_step_tied hams n t m m' :
  nth_error (terms syst) n = Some t ->
  given_known hams m -> tied hams m ->
  eval_step syst (n, t) m = Ok m' -> tied hams m'.
Proof.
  intros Ht Hgiven Hm; unfold eval_step, subgraph_of, index.
  destruct (nth_error (subgraphs syst) (subgraph t))
    as [[[to_w from_w] offs]|] eqn:Esg; [|discriminate].
  simpl.
  destruct (nth_error (site_arrays syst) to_w) as [to_sa|] eqn:Eto;
    [|discriminate].
  simpl.
  destruct (nth_error (site_arrays syst) from_w) as [from_sa|] eqn:Efrom;
    [|discriminate].
  simpl.
  destruct (is_none (norb_of m (family to_sa))
            || is_none (norb_of m (family from_sa))) eqn:Hunknown;
    intros [= <-]; [|exact Hm].
  assert (Hb : block_of hams n = hamiltonian_term syst n).
  { unfold block_of.
    destruct (nth_error hams n) as [[h|]|] eqn:Hn; try reflexivity.
    exfalso.
    assert (Hfam : forall f, In f [family to_sa; family from_sa] ->
                             known m f).
    { intros f Hf; apply (Hgiven n t h Hn Ht).
      unfold term_families; rewrite Esg, Eto, Efrom; exact Hf. }
    destruct (Hfam (family to_sa) (or_introl eq_refl)) as [v1 H1].
    destruct (Hfam (family from_sa) (or_intror (or_introl eq_refl)))
      as [v2 H2].
    unfold norb_of in Hunknown; rewrite H1, H2 in Hunknown.
    discriminate. }
  rewrite <- Hb; apply tied_insert with (t := t) (to_w := to_w)
                                        (from_w := from_w) (offs := offs);
    assumption.
Qed.

Lemma nth_error_combine {A B} (l1 : list A) (l2 : list B) n a b :
  nth_error l1 n = Some a -> nth_error l2 n = Some b ->
  nth_error (combine l1 l2) n = Some (a, b).
Proof.
  revert l1 l2; induction n as [|n IH]; intros [|x l1] [|y l2];
    simpl; try discriminate.
  - intros [= ->] [= ->]; reflexivity.
  - apply IH.
Qed.

(** After the seeding loop. *)
Lemma seed_norbs_tied hams m0 m1 :
  tied hams m0 ->
  seed_norbs syst hams m0 = Ok m1 ->
  tied hams m1 /\ given_known hams m1.
Proof.
  unfold seed_norbs; intros H0 Hrun; split.
  - refine (@for_each_invariant _ _ _ (tied hams) _ _ _ _ _ Hrun);
      [|exact H0].
    intros [ho t] s s' Hin Hs Hstep.
    apply in_combine_nth in Hin as (n & Hn & Ht).
    exact (seed_step_tied _ Hn Ht Hs Hstep).
  - intros n t h Hn Ht f Hf.
    pose proof (nth_error_In _ _ (nth_error_combine _ _ _ Hn Ht)) as Hin.
    clear Hn Ht H0; revert m0 Hrun.
    induction (combine hams (terms syst)) as [|q l IH]; intros m0 Hrun;
      [destruct Hin|].
    simpl in Hrun.
    destruct (seed_step syst q m0) as [m'|e] eqn:Hstep; [|discriminate].
    simpl in Hrun; destruct Hin as [->|Hin]; [|exact (IH Hin m' Hrun)].
    destruct (seed_step_known _ _ Hstep) as [_ Hlearn].
    specialize (Hlearn h eq_refl f Hf).
    clear IH Hstep; revert m' Hrun Hlearn.
    induction l as [|q l IH]; intros m' Hrun Hk; simpl in Hrun.
    + injection Hrun as <-; exact Hk.
    + destruct (seed_step syst q m') as [m''|e] eqn:Hstep; [|discriminate].
      simpl in Hrun.
      apply (IH m'' Hrun), (proj1 (seed_step_known _ _ Hstep)), Hk.
Qed.

(** After both loops. *)
Lemma resolve_family_norbs_tied hams m :
  resolve_family_norbs syst hams = Ok m -> tied hams m.
Proof.
  unfold resolve_family_norbs.
  destruct (seed_norbs syst hams _) as [m1|e] eqn:Hseed; [|discriminate].
  simpl; unfold eval_norbs; intros Heval.
  apply seed_norbs_tied in Hseed as [Ht Hg].
  2:{ intros f v; rewrite initial_table.
      destruct (existsb _ _); discriminate. }
  refine (proj1 (@for_each_invariant _ _ _
                   (fun m => tied hams m /\ given_known hams m)
                   _ _ _ _ _ Heval)); [|split; assumption].
  intros [n t] s s' Hin [Hs Hk] Hstep; split.
  - apply in_enumerate_nth in Hin.
    eapply eval_step_tied; eassumption.
  - intros n' t' h Hn' Ht' f Hf.
    eapply eval_step_known; [exact Hstep|].
    exact (Hk n' t' h Hn' Ht' f Hf).
Qed.
End NorbResolver.


(** Two site arrays of different families and one onsite term on the
    first: no term touches the family of the second. *)
Definition untouched_family : System (Z * Z) :=
  {| site_arrays := [{| family := 0; sa_len := 2 |};
                     {| family := 1; sa_len := 1 |}];
     subgraphs := [((0, 0), ([0; 1], [0; 1]))];
     terms := [{| subgraph := 0; hermitian := false |}];
     hamiltonian_term := fun _ => snd ex_onsite;
     cell_size := 3;
     site_ranges := None |}.

(** Two site arrays (two sites with two orbitals, one site with one
    orbital), an onsite term on the first and a Hermitian hopping term
    from the second to the first. *)
Definition hopping_system : System (Z * Z) :=
  {| site_arrays := [{| family := 0; sa_len := 2 |};
                     {| family := 1; sa_len := 1 |}];
     subgraphs := [((0, 0), ([0; 1], [0; 1])); ((0, 1), ([0; 1], [0; 0]))];
     terms := [{| subgraph := 0; hermitian := false |};
               {| subgraph := 1; hermitian := true |}];
     hamiltonian_term := fun n =>
       match n with
       | 0 => snd ex_onsite
       | _ => block3_of (gz 0 0) 2 1
                [[[gz 5 1]; [gz 6 0]]; [[gz 0 0]; [gz 7 2]]]
       end;
     cell_size := 2;
     site_ranges := None |}.

(** C8.  For a system without precomputed site ranges (and whose terms
    name subgraphs and site arrays that exist), let [family_norbs] be the
    table after seeding it from the evaluated term blocks and evaluating
    the terms that touch a family still unknown.  A family is still
    unknown there exactly when it is the family of a site array that no
    term touches; [_count_norbs] raises "Cannot determine the number of
    orbitals for some site families" exactly when some family is still
    unknown, and otherwise returns the norbs of the site arrays (followed
    by the 0 of the closing row) together with the orbital offsets: the
    running sums of [len(site_array) * norb(site_array)], starting at 0
    and ending with the total.  Every norb of the table, and so every
    norb returned for a site array, is [ham.shape[1]] or [ham.shape[2]]
    of the block array [ham] of a term whose 'to' or 'from' site array
    has that family, where [ham] is the block array handed over for that
    term or, if none was, the one [hamiltonian_term] evaluates. *)
Theorem norb_resolver_outcome
        {C : Type} (syst : System C) (site_offsets : list nat)
        (hams : list (option (Block3 C))) :
  site_ranges syst = None ->
  system_wf syst = true ->
  length site_offsets = length (site_arrays syst) + 1 ->
  exists family_norbs : gmap nat (option nat),
    resolve_family_norbs syst hams = Ok family_norbs /\
    (forall f, family_norbs !! f = Some None <->
               In f (map family (site_arrays syst)) /\ touched syst f = false)
    /\
    (_count_norbs syst site_offsets hams = Raise ValueError_norbs <->
     exists f, family_norbs !! f = Some None) /\
    ((forall f, family_norbs !! f <> Some None) ->
     let norb := fun s => default 0 (norb_of family_norbs (family s)) in
     _count_norbs syst site_offsets hams
     = Ok (map norb (site_arrays syst) ++ [0],
           offsets (map (fun s => sa_len s * norb s) (site_arrays syst)))) /\
    (forall f v, family_norbs !! f = Some (Some v) ->
                 exists n t, nth_error (terms syst) n = Some t /\
                             read_from syst t (block_of syst hams n) f v) /\
    (forall norbs orb_offsets,
        _count_norbs syst site_offsets hams = Ok (norbs, orb_offsets) ->
        forall w sa,
          nth_error (site_arrays syst) w = Some sa ->
          exists n t, nth_error (terms syst) n = Some t /\
                      read_from syst t (block_of syst hams n)
                                (family sa) (at_ norbs w)).
Proof.
  intros Hsr Hwf Hlen.
  destruct (@resolve_family_norbs_table _ syst hams Hwf) as (m & Em & Hm).
  exists m; split; [exact Em|].
  assert (Hunknown : forall f, m !! f = Some None <->
            In f (map family (site_arrays syst)) /\ touched syst f = false).
  { intros f; specialize (Hm f).
    destruct (touched syst f).
    - destruct Hm as [v Hv]; rewrite Hv; split;
        [discriminate | intros [_ ?]; discriminate].
    - rewrite Hm.
      destruct (existsb (fun s => family s =? f) (site_arrays syst)) eqn:Hex.
      + apply existsb_exists in Hex as (s & Hs & Heq).
        apply Nat.eqb_eq in Heq; subst f.
        split; [intros _; split; [apply in_map, Hs | reflexivity] | auto].
      + split; [discriminate|].
        intros [Hin _]; apply in_map_iff in Hin as (s & <- & Hs).
        assert (Htrue : existsb (fun s0 => family s0 =? family s)
                                (site_arrays syst) = true)
          by (apply existsb_exists; exists s; split;
              [exact Hs | apply Nat.eqb_refl]).
        congruence. }
  split; [exact Hunknown|].
  pose proof (resolve_family_norbs_tied _ _ Em) as Htied.
  unfold _count_norbs; rewrite Hsr, Em; simpl.
  destruct (existsb is_none (map snd (map_to_list m))) eqn:Hany.
  - simpl; split; [|split; [|split]].
    + split; [intros _; apply any_none_spec, Hany | reflexivity].
    + intros Hall; apply any_none_spec in Hany as [f Hf].
      destruct (Hall f Hf).
    + exact Htied.
    + discriminate.
  - assert (Hnone : ~ exists f, m !! f = Some None).
    { intros Hex; apply any_none_spec in Hex; congruence. }
    unfold build_ranges.
    pose proof (@build_ranges_fold m (site_arrays syst) site_offsets [] 0
                  ltac:(lia)) as Hfold.
    cbv zeta in Hfold.
    destruct (fold_left _ (combine site_offsets (site_arrays syst)) ([], 0))
      as [R o] eqn:Efold.
    simpl in Hfold; destruct Hfold as (E1 & E2 & E3).
    assert (Hres :
      (try site_ranges0 := Ok (R ++ [(List.last site_offsets 0, 0, o)]) in
       if length (map snd site_ranges0) =? length (site_arrays syst) + 1
       then Ok (map (fun r => snd (fst r)) site_ranges0, map snd site_ranges0)
       else Raise AssertionError)
      = Ok (map (fun s => default 0 (norb_of m (family s))) (site_arrays syst)
              ++ [0],
            offsets (map (fun s => sa_len s
                                   * default 0 (norb_of m (family s)))
                         (site_arrays syst)))).
    { simpl; rewrite !map_app, E1, E2, E3; simpl.
      rewrite prefix_offsets_total.
      change (0 :: cumsum_from 0 ?l) with (offsets l).
      rewrite offsets_length, length_map, Nat.eqb_refl; reflexivity. }
    rewrite Hres; split; [|split; [|split]].
    + split; [discriminate | intros Hex; destruct (Hnone Hex)].
    + intros _; reflexivity.
    + exact Htied.
    + intros norbs orb_offsets [= <- _] w sa Hw.
      assert (Hlt : w < length (site_arrays syst))
        by (apply nth_error_Some; congruence).
      assert (Hat : at_ (map (fun s => default 0 (norb_of m (family s)))
                             (site_arrays syst) ++ [0]) w
                    = default 0 (norb_of m (family sa))).
      { unfold at_; rewrite app_nth1 by (rewrite length_map; exact Hlt).
        apply nth_error_nth.
        rewrite nth_error_map, Hw; reflexivity. }
      rewrite Hat.
      assert (Hin : In (family sa) (map family (site_arrays syst)))
        by (apply in_map, (nth_error_In _ _ Hw)).
      destruct (m !! family sa) as [[v|]|] eqn:Hv.
      * unfold norb_of; rewrite Hv; simpl; apply Htied, Hv.
      * destruct Hnone; eauto.
      * pose proof (Hm (family sa)) as Hf.
        destruct (touched syst (family sa)).
        -- destruct Hf as [v Hf]; congruence.
        -- assert (Htrue : existsb (fun s0 => family s0 =? family sa)
                                   (site_arrays syst) = true)
             by (apply existsb_exists; exists sa; split;
                 [exact (nth_error_In _ _ Hw) | apply Nat.eqb_refl]).
           rewrite Htrue in Hf; congruence.
Qed.

Lemma norb_resolver_outcome_witness :
  _count_norbs hopping_system [0; 2; 3] [Some (snd ex_onsite); None]
  = Ok ([2; 1; 0], [0; 4; 5]) /\
  exists family_norbs : gmap nat (option nat),
    resolve_family_norbs hopping_system [Some (snd ex_onsite); None]
    = Ok family_norbs /\
    (forall f, family_norbs !! f = Some None <->
               In f (map family (site_arrays hopping_system))
               /\ touched hopping_system f = false)
    /\
    (_count_norbs hopping_system [0; 2; 3] [Some (snd ex_onsite); None]
     = Raise ValueError_norbs
     <-> exists f, family_norbs !! f = Some None) /\
    ((forall f, family_norbs !! f <> Some None) ->
     let norb := fun s => default 0 (norb_of family_norbs (family s)) in
     _count_norbs hopping_system [0; 2; 3] [Some (snd ex_onsite); None]
     = Ok (map norb (site_arrays hopping_system) ++ [0],
           offsets (map (fun s => sa_len s * norb s)
                        (site_arrays hopping_system)))) /\
    (forall f v, family_norbs !! f = Some (Some v) ->
                 exists n t,
                   nth_error (terms hopping_system) n = Some t /\
                   read_from hopping_system t
                             (block_of hopping_system
                                       [Some (snd ex_onsite); None] n) f v) /\
    (forall norbs orb_offsets,
        _count_norbs hopping_system [0; 2; 3] [Some (snd ex_onsite); None]
        = Ok (norbs, orb_offsets) ->
        forall w sa,
          nth_error (site_arrays hopping_system) w = Some sa ->
          exists n t,
            nth_error (terms hopping_system) n = Some t /\
            read_from hopping_system t
                      (block_of hopping_system
                                [Some (snd ex_onsite); None] n)
                      (family sa) (at_ norbs w)).
Proof.
  split; [vm_compute; reflexivity|].
  apply (@norb_resolver_outcome _ hopping_system [0; 2; 3]
                                [Some (snd ex_onsite); None]);
    reflexivity.
Defined.

(** The two outcomes on worked inputs. *)
Example untouched_family_raises :
  _count_norbs untouched_family [0; 2; 3] [None] = Raise ValueError_norbs.
Proof. vm_compute; reflexivity. Qed.

Example overlapping_terms_norbs :
  _count_norbs overlapping_terms [0; 1] [None; None] = Ok ([1; 0], [0; 1]).
Proof. vm_compute; reflexivity. Qed.

(** ** Hermitian conjugates are added before the assembler runs *)

Lemma comprehension_ok {A B} (f : A -> result B) (g : A -> B) (l : list A) :
  (forall a, In a l -> f a = Ok (g a)) -> comprehension f l = Ok (map g l).
Proof.
  induction l as [|a l IH]; intros Hf; simpl; [reflexivity|].
  rewrite (Hf a (or_introl eq_refl)); simpl.
  rewrite IH by (intros b Hb; apply Hf; right; exact Hb); reflexivity.
Qed.

Lemma combine_app_same {A B} (a1 a2 : list A) (b1 b2 : list B) :
  length a1 = length b1 ->
  combine (a1 ++ a2) (b1 ++ b2) = combine a1 b1 ++ combine a2 b2.
Proof.
  revert b1; induction a1 as [|x a1 IH]; intros [|y b1] Hlen;
    simpl in *; try lia; [reflexivity|].
  rewrite IH by lia; reflexivity.
Qed.

Section HermitianExpansion.
Context {C : Type} `{Scalar C}.

Variable syst : System C.

(** Every term names a subgraph of the system. *)
Definition subgraphs_exist : bool :=
  forallb (fun t => subgraph t <? length (subgraphs syst)) (terms syst).

(** The subgraph and the evaluated block array of term [n]. *)
Definition term_pair (p : nat * Term) : Subgraph * Block3 C :=
  (nth (subgraph (snd p)) (subgraphs syst) ((0, 0), ([], [])),
   hamiltonian_term syst (fst p)).

(** The Hermitian conjugate of a pair, in the words of the
    specification: site-array endpoints swapped, local-offset arrays
    swapped, axes 1 and 2 of the block array swapped and its values
    conjugated. *)
Definition conjugate_pair (p : Subgraph * Block3 C) : Subgraph * Block3 C :=
  let '(((to_array, from_array), (to_offsets, from_offsets)), h) := p in
  (((from_array, to_array), (from_offsets, to_offsets)),
   {| b_N := b_N h; b_M := b_P h; b_P := b_M h;
      b_at := fun i j k => cconj (b_at h i k j) |}).

Lemma subgraph_of_nth t :
  subgraph t < length (subgraphs syst) ->
  subgraph_of syst t
  = Ok (nth (subgraph t) (subgraphs syst) ((0, 0), ([], []))).
Proof.
  intros Hlt; unfold subgraph_of, index.
  destruct (nth_error (subgraphs syst) (subgraph t)) as [sg|] eqn:E.
  - rewrite (nth_error_nth _ _ _ E); reflexivity.
  - apply nth_error_None in E; lia.
Qed.

Lemma direct_pairs (l : list Term) (start : nat) :
  combine
    (map (fun t => nth (subgraph t) (subgraphs syst) ((0, 0), ([], []))) l)
    (map (fun p : nat * Term => hamiltonian_term syst (fst p))
         (combine (seq start (length l)) l))
  = map term_pair (combine (seq start (length l)) l).
Proof.
  revert start; induction l as [|t l IH]; intros start; simpl;
    [reflexivity|].
  rewrite IH; reflexivity.
Qed.

Lemma conjugate_pairs (l : list Term) (start : nat) :
  combine
    (map (fun t => _reverse_subgraph
                     (nth (subgraph t) (subgraphs syst) ((0, 0), ([], []))))
         (List.filter hermitian l))
    (map (fun p : Block3 C * Term => conj_transpose3 (fst p))
         (List.filter (fun p : Block3 C * Term => hermitian (snd p))
                 (combine
                    (map (fun p : nat * Term => hamiltonian_term syst (fst p))
                         (combine (seq start (length l)) l))
                    l)))
  = map (fun p => conjugate_pair (term_pair p))
        (List.filter (fun p : nat * Term => hermitian (snd p))
                (combine (seq start (length l)) l)).
Proof.
  revert start; induction l as [|t l IH]; intros start; [reflexivity|].
  cbn [length seq combine map List.filter snd fst].
  destruct (hermitian t) eqn:Ht; cbn [map combine fst snd]; rewrite IH;
    [|reflexivity].
  f_equal.
  unfold term_pair, conjugate_pair, _reverse_subgraph, conj_transpose3; simpl.
  destruct (nth (subgraph t) (subgraphs syst) ((0, 0), ([], [])))
    as [[to_sa from_sa] [to_off from_off]]; reflexivity.
Qed.

Lemma hermitian_expansion_pairs :
  subgraphs_exist = true ->
  exists subgraphs hams,
    hermitian_expansion syst = Ok (subgraphs, hams) /\
    length subgraphs = length hams /\
    combine subgraphs hams
    = map term_pair (enumerate (terms syst))
      ++ map (fun p => conjugate_pair (term_pair p))
             (List.filter (fun p : nat * Term => hermitian (snd p))
                     (enumerate (terms syst))).
Proof.
  intros Hex; unfold subgraphs_exist in Hex.
  pose proof (proj1 (forallb_forall _ _) Hex) as Hlt.
  unfold hermitian_expansion.
  rewrite (@comprehension_ok _ _ (subgraph_of syst)
             (fun t => nth (subgraph t) (subgraphs syst) ((0, 0), ([], [])))).
  2:{ intros t Ht; apply subgraph_of_nth, Nat.ltb_lt, Hlt, Ht. }
  simpl.
  rewrite (@comprehension_ok _ _ _
             (fun t => _reverse_subgraph
                         (nth (subgraph t) (subgraphs syst)
                              ((0, 0), ([], []))))).
  2:{ intros t Ht; apply filter_In in Ht as [Ht _].
      rewrite subgraph_of_nth by (apply Nat.ltb_lt, Hlt, Ht); reflexivity. }
  simpl.
  eexists; eexists; split; [reflexivity|].
  assert (Hlen1 : length (map (fun t => nth (subgraph t) (subgraphs syst)
                                            ((0, 0), ([], [])))
                              (terms syst))
                  = length (map (fun p : nat * Term =>
                                   hamiltonian_term syst (fst p))
                                (enumerate (terms syst)))).
  { unfold enumerate.
    rewrite !length_map, length_combine, length_seq; lia. }
  split.
  - rewrite !length_app, Hlen1; f_equal.
    pose proof (f_equal (@length _) (conjugate_pairs (terms syst) 0)) as Hl.
    rewrite length_combine, !length_map in Hl.
    unfold enumerate.
    rewrite !length_map.
    pose proof (f_equal (@length _) (direct_pairs (terms syst) 0)) as Hd.
    clear Hd.
    assert (Hcount : forall (l : list Term) start,
      length (List.filter hermitian l)
      = length (List.filter (fun p : Block3 C * Term => hermitian (snd p))
                  (combine
                     (map (fun p : nat * Term => hamiltonian_term syst (fst p))
                          (combine (seq start (length l)) l)) l))).
    { induction l as [|t l IH]; intros start; [reflexivity|].
      cbn [length seq combine map List.filter snd fst].
      destruct (hermitian t); cbn [length]; rewrite <- IH; reflexivity. }
    apply Hcount.
  - unfold enumerate.
    rewrite combine_app_same by exact Hlen1.
    rewrite direct_pairs, conjugate_pairs; reflexivity.
Qed.
End HermitianExpansion.

(** ** The assemblers do not look into the values they place *)

(** Two runs that raise the same exception or return related results. *)
Definition rel_result {A B} (R : A -> B -> Prop) (ra : result A)
           (rb : result B) : Prop :=
  match ra, rb with
  | Ok a, Ok b => R a b
  | Raise e1, Raise e2 => e1 = e2
  | _, _ => False
  end.

Lemma for_each_rel {X S S'} (R : S -> S' -> Prop)
      (body : X -> S -> result S) (body' : X -> S' -> result S')
      (l : list X) :
  (forall x s s', In x l -> R s s' -> rel_result R (body x s) (body' x s')) ->
  forall s s', R s s' -> rel_result R (for_each body l s) (for_each body' l s').
Proof.
  induction l as [|x l IH]; intros Hbody s s' Hs; simpl; [exact Hs|].
  pose proof (Hbody x s s' (or_introl eq_refl) Hs) as Hx.
  destruct (body x s) as [s1|e1], (body' x s') as [s1'|e1']; simpl in *;
    try contradiction; [|exact Hx].
  apply IH; [|exact Hx].
  intros y t t' Hy; apply Hbody; right; exact Hy.
Qed.

Lemma for_each_map {X Y S} (g : X -> Y) (body : Y -> S -> result S)
      (l : list X) (s : S) :
  for_each body (map g l) s = for_each (fun x => body (g x)) l s.
Proof.
  revert s; induction l as [|x l IH]; intros s; simpl; [reflexivity|].
  destruct (body (g x) s); simpl; [apply IH | reflexivity].
Qed.

Lemma combine_map_r {A B B'} (g : B -> B') (l : list A) (l' : list B) :
  combine l (map g l') = map (fun p => (fst p, g (snd p))) (combine l l').
Proof.
  revert l'; induction l as [|a l IH]; intros [|b l']; simpl;
    try reflexivity.
  rewrite IH; reflexivity.
Qed.

Section Naturality.
Context {C C' : Type} `{Scalar C} `{Scalar C'}.

Variable f : C -> C'.

Definition map_block3 (h : Block3 C) : Block3 C' :=
  {| b_N := b_N h; b_M := b_M h; b_P := b_P h;
     b_at := fun i j k => f (b_at h i j k) |}.

Definition map_triplet (t : nat * nat * C) : nat * nat * C' :=
  (fst t, f (snd t)).

Definition map_coo (A : Coo C) : Coo C' :=
  {| coo_shape0 := coo_shape0 A; coo_shape1 := coo_shape1 A;
     coo_data := map map_triplet (coo_data A) |}.

Variables norbs orb_offsets site_offsets : list nat.

Lemma put_natural ndata t T :
  rel_result (fun T0 T0' => T0' = map map_triplet T0)
             (put ndata t T) (put ndata (map_triplet t) (map map_triplet T)).
Proof.
  unfold put; rewrite length_map.
  destruct (_ <? _); simpl; [|reflexivity].
  rewrite map_app; reflexivity.
Qed.

Lemma vms_pair_natural ndata sg h T :
  rel_result (fun T0 T0' => T0' = map map_triplet T0)
             (vms_pair norbs orb_offsets site_offsets ndata (sg, h) T)
             (vms_pair norbs orb_offsets site_offsets ndata
                       (sg, map_block3 h) (map map_triplet T)).
Proof.
  unfold vms_pair; destruct sg as [[ta fa] [ts_offs fs_offs]]; simpl.
  destruct (_ || _); [reflexivity|].
  apply for_each_rel; [|reflexivity].
  intros i T1 T1' _ ->; unfold vms_instance; simpl.
  apply for_each_rel; [|reflexivity].
  intros j T2 T2' _ ->.
  apply for_each_rel; [|reflexivity].
  intros k T3 T3' _ ->.
  apply (put_natural ndata (_, _, b_at h i j k)).
Qed.

(** Applying [f] to the values of all block arrays before the sparse
    assembler runs is applying it to the values it stores. *)
Lemma _vectorized_make_sparse_natural subgraphs hams shape :
  rel_result (fun A A' => A' = map_coo A)
    (_vectorized_make_sparse norbs orb_offsets site_offsets subgraphs hams
                             shape)
    (_vectorized_make_sparse norbs orb_offsets site_offsets subgraphs
                             (map map_block3 hams) shape).
Proof.
  unfold _vectorized_make_sparse.
  rewrite map_map; simpl.
  rewrite combine_map_r, for_each_map.
  assert (Hrel :
    rel_result (fun T0 T0' => T0' = map map_triplet T0)
      (for_each
         (vms_pair norbs orb_offsets site_offsets
            (list_sum (map (fun h => b_N h * b_M h * b_P h) hams)))
         (combine subgraphs hams) [])
      (for_each
         (fun x => vms_pair norbs orb_offsets site_offsets
            (list_sum (map (fun h => b_N h * b_M h * b_P h) hams))
            (fst x, map_block3 (snd x)))
         (combine subgraphs hams) [])).
  { apply for_each_rel; [|reflexivity].
    intros [sg h] T T' _ ->; apply vms_pair_natural. }
  destruct (for_each _ (combine subgraphs hams) []) as [T|e];
    destruct (for_each _ (combine subgraphs hams) []) as [T'|e'];
    simpl in *; try contradiction; [|exact Hrel].
  subst T'; rewrite length_map.
  destruct (_ =? _); simpl; reflexivity.
Qed.

Hypothesis f_zero : f c0 = c0.

Lemma vmd_pair_natural sg h (M : Matrix C) (M' : Matrix C') :
  (shape0 M' = shape0 M /\ shape1 M' = shape1 M /\
   forall r c, entry M' r c = f (entry M r c)) ->
  rel_result (fun M0 M0' =>
                shape0 M0' = shape0 M0 /\ shape1 M0' = shape1 M0 /\
                forall r c, entry M0' r c = f (entry M0 r c))
             (vmd_pair norbs orb_offsets site_offsets (sg, h) M)
             (vmd_pair norbs orb_offsets site_offsets (sg, map_block3 h) M').
Proof.
  intros HM.
  unfold vmd_pair; destruct sg as [[ta fa] [ts_offs fs_offs]]; simpl.
  destruct (_ || _); [reflexivity|].
  apply for_each_rel; [|exact HM].
  intros i M1 M1' _ HM1; unfold vmd_instance; simpl.
  apply for_each_rel; [|exact HM1].
  intros j M2 M2' _ HM2.
  apply for_each_rel; [|exact HM2].
  intros k M3 M3' _ (S0 & S1 & HM3).
  unfold set_entry; rewrite S0, S1.
  destruct (_ && _); simpl; [|reflexivity].
  repeat split.
  intros r c; destruct (_ && _); [reflexivity | apply HM3].
Qed.

(** The same for the dense assembler, when [f] maps zero to zero. *)
Lemma _vectorized_make_dense_natural subgraphs hams shape :
  rel_result (fun M M' =>
                shape0 M' = shape0 M /\ shape1 M' = shape1 M /\
                forall r c, entry M' r c = f (entry M r c))
    (_vectorized_make_dense norbs orb_offsets site_offsets subgraphs hams
                            shape)
    (_vectorized_make_dense norbs orb_offsets site_offsets subgraphs
                            (map map_block3 hams) shape).
Proof.
  unfold _vectorized_make_dense.
  rewrite combine_map_r, for_each_map.
  apply for_each_rel.
  - intros [sg h] M M' _ HM; simpl.
    apply vmd_pair_natural, HM.
  - simpl; repeat split; intros; symmetry; apply f_zero.
Qed.
End Naturality.

(** C4.  In [vectorized_hamiltonian_submatrix] the pairs handed to the
    assembler are the pairs of all terms followed, for every term whose
    [hermitian] flag is set, by its reversed subgraph (site-array
    endpoints swapped, local-offset arrays swapped) paired with the
    conjugate transpose of its block array (axes 1 and 2 swapped, values
    conjugated); the assembler is called on exactly these lists, and it
    applies nothing to the values it places: applying any function [f]
    (conjugation, say) to the values of all block arrays beforehand is
    the same as applying it to the values of the output. *)
Theorem hermitian_conjugates_added_before_assembly
        {C : Type} `{Scalar C} (syst : System C) :
  subgraphs_exist syst = true ->
  exists subgraphs hams,
    hermitian_expansion syst = Ok (subgraphs, hams) /\
    combine subgraphs hams
    = map (term_pair syst) (enumerate (terms syst))
      ++ map (fun p => conjugate_pair (term_pair syst p))
             (List.filter (fun p : nat * Term => hermitian (snd p))
                          (enumerate (terms syst))) /\
    (forall sparse,
        vectorized_hamiltonian_submatrix syst sparse
        = try no := _count_norbs syst (site_offsets_of syst)
                                 (map Some hams) in
          call_assembler sparse subgraphs hams (fst no) (snd no)
                         (site_offsets_of syst) None) /\
    (forall (f : C -> C) norbs orb_offsets site_offsets shape,
        f c0 = c0 ->
        rel_result (fun A A' => A' = map_coo f A)
          (_vectorized_make_sparse norbs orb_offsets site_offsets subgraphs
                                   hams shape)
          (_vectorized_make_sparse norbs orb_offsets site_offsets subgraphs
                                   (map (map_block3 f) hams) shape) /\
        rel_result (fun M M' =>
                      shape0 M' = shape0 M /\ shape1 M' = shape1 M /\
                      forall r c, entry M' r c = f (entry M r c))
          (_vectorized_make_dense norbs orb_offsets site_offsets subgraphs
                                  hams shape)
          (_vectorized_make_dense norbs orb_offsets site_offsets subgraphs
                                  (map (map_block3 f) hams) shape)).
Proof.
  intros Hex.
  destruct (hermitian_expansion_pairs syst Hex)
    as (subgraphs & hams & Eexp & _ & Epairs).
  exists subgraphs, hams; split; [exact Eexp|split; [exact Epairs|split]].
  - intros sparse; unfold vectorized_hamiltonian_submatrix.
    rewrite Eexp; simpl.
    destruct (_count_norbs syst (site_offsets_of syst) (map Some hams))
      as [[norbs orb_offsets]|e]; reflexivity.
  - intros f norbs orb_offsets site_offsets shape Hf; split.
    + apply _vectorized_make_sparse_natural.
    + apply _vectorized_make_dense_natural, Hf.
Qed.

Lemma hermitian_conjugates_added_before_assembly_witness :
  exists subgraphs hams,
    hermitian_expansion hopping_system = Ok (subgraphs, hams) /\
    combine subgraphs hams
    = map (term_pair hopping_system) (enumerate (terms hopping_system))
      ++ map (fun p => conjugate_pair (term_pair hopping_system p))
             (List.filter (fun p : nat * Term => hermitian (snd p))
                          (enumerate (terms hopping_system))) /\
    (forall sparse,
        vectorized_hamiltonian_submatrix hopping_system sparse
        = try no := _count_norbs hopping_system
                                 (site_offsets_of hopping_system)
                                 (map Some hams) in
          call_assembler sparse subgraphs hams (fst no) (snd no)
                         (site_offsets_of hopping_system) None) /\
    (forall (f : Z * Z -> Z * Z) norbs orb_offsets site_offsets shape,
        f c0 = c0 ->
        rel_result (fun A A' => A' = map_coo f A)
          (_vectorized_make_sparse norbs orb_offsets site_offsets subgraphs
                                   hams shape)
          (_vectorized_make_sparse norbs orb_offsets site_offsets subgraphs
                                   (map (map_block3 f) hams) shape) /\
        rel_result (fun M M' =>
                      shape0 M' = shape0 M /\ shape1 M' = shape1 M /\
                      forall r c, entry M' r c = f (entry M r c))
          (_vectorized_make_dense norbs orb_offsets site_offsets subgraphs
                                  hams shape)
          (_vectorized_make_dense norbs orb_offsets site_offsets subgraphs
                                  (map (map_block3 f) hams) shape)).
Proof.
  apply (@hermitian_conjugates_added_before_assembly _ _ hopping_system).
  reflexivity.
Defined.

(** The Hermitian hopping of the worked system appears on both sides of
    the diagonal of the assembled matrix. *)
Example hopping_system_dense :
  match vectorized_hamiltonian_submatrix hopping_system false with
  | Ok A =>
      rows_of (as_dense A)
      = [[gz 1 0; gz 0 1; gz 0 0; gz 0 0; gz 5 1];
         [gz 0 (-1); gz 2 0; gz 0 0; gz 0 0; gz 6 0];
         [gz 0 0; gz 0 0; gz 3 0; gz 0 0; gz 0 0];
         [gz 0 0; gz 0 0; gz 0 0; gz 4 0; gz 7 2];
         [gz 5 (-1); gz 6 0; gz 0 0; gz 7 (-2); gz 0 0]]
  | Raise _ => False
  end.
Proof. vm_compute; reflexivity. Qed.

(** ** Cell restriction *)

(** [a] is in non-decreasing order. *)
Definition sorted (a : list nat) : Prop :=
  forall i j, i <= j -> j < length a -> nth i a 0 <= nth j a 0.

Lemma bisect_loop_spec (a : list nat) (x : nat) :
  sorted a ->
  forall fuel lo hi,
    hi - lo <= fuel -> lo <= hi -> hi <= length a ->
    (forall i, i < lo -> nth i a 0 <= x) ->
    (forall i, hi <= i -> i < length a -> x < nth i a 0) ->
    let r := bisect_loop fuel a x lo hi in
    r <= length a /\
    (forall i, i < r -> nth i a 0 <= x) /\
    (forall i, r <= i -> i < length a -> x < nth i a 0).
Proof.
  intros Hsorted; induction fuel as [|fuel IH]; intros lo hi Hfuel Hle Hhi
    Hlow Hhigh; cbv zeta; cbn [bisect_loop].
  - replace hi with lo in * by lia; auto with arith.
  - destruct (Nat.ltb_spec lo hi) as [Hlt|Hge].
    + assert (Hmid : lo <= (lo + hi) / 2 < hi).
      { split.
        - apply Nat.div_le_lower_bound; lia.
        - apply Nat.Div0.div_lt_upper_bound; lia. }
      set (mid := (lo + hi) / 2) in *.
      destruct (Nat.ltb_spec x (nth mid a 0)) as [Hx|Hx].
      * apply IH; try lia; [exact Hlow|].
        intros i Hi Hlen.
        pose proof (Hsorted mid i Hi Hlen); lia.
      * apply IH; try lia; [|exact Hhigh].
        intros i Hi.
        pose proof (Hsorted i mid ltac:(lia) ltac:(lia)); lia.
    + replace hi with lo in * by lia; auto with arith.
Qed.

(** [bisect.bisect(a, x)] on a sorted list: the number of elements that
    are at most [x]. *)
Lemma bisect_spec (a : list nat) (x : nat) :
  sorted a ->
  bisect a x <= length a /\
  (forall i, i < bisect a x -> nth i a 0 <= x) /\
  (forall i, bisect a x <= i -> i < length a -> x < nth i a 0).
Proof.
  intros Hsorted; unfold bisect.
  apply bisect_loop_spec; auto with arith; lia.
Qed.

Lemma site_offsets_of_offsets {C} (syst : System C) :
  site_offsets_of syst = offsets (map sa_len (site_arrays syst)).
Proof. reflexivity. Qed.

Lemma offsets_sorted (l : list nat) : sorted (offsets l).
Proof.
  intros i j Hij Hj; rewrite offsets_length in Hj.
  apply (@offsets_mono l i j); lia.
Qed.

(** The boundary array [b]: the arrays before [b] end inside the cell,
    and array [b], when there is one, ends outside. *)
Lemma next_cell_of_spec {C} (syst : System C) :
  let b := next_cell_of syst in
  let site_offsets := site_offsets_of syst in
  b <= length (site_arrays syst) /\
  at_ site_offsets b <= cell_size syst /\
  (b < length (site_arrays syst) ->
   cell_size syst < at_ site_offsets (b + 1)).
Proof.
  intros b so; unfold b, next_cell_of; fold so.
  destruct (@bisect_spec so (cell_size syst)) as (Hlen & Hlow & Hhigh).
  { unfold so; rewrite site_offsets_of_offsets; apply offsets_sorted. }
  assert (Lso : length so = length (site_arrays syst) + 1).
  { unfold so; rewrite site_offsets_of_offsets, offsets_length, length_map.
    reflexivity. }
  assert (Hpos : 1 <= bisect so (cell_size syst)).
  { destruct (bisect so (cell_size syst)) as [|r] eqn:Hr; [|lia].
    assert (H0 : cell_size syst < nth 0 so 0) by (apply Hhigh; lia).
    unfold so in H0; rewrite site_offsets_of_offsets in H0.
    simpl in H0; lia. }
  split; [lia|split].
  - apply Hlow; lia.
  - intros Hb; unfold at_; apply Hhigh; lia.
Qed.

Lemma _vectorized_make_dense_shape
      {C : Type} `{Scalar C} (norbs orb_offsets site_offsets : list nat)
      (subgraphs : list Subgraph) (hams : list (Block3 C))
      (shape : option (nat * nat)) (M : Matrix C) :
  _vectorized_make_dense norbs orb_offsets site_offsets subgraphs hams shape
  = Ok M ->
  shape0 M = fst (shape_or_default orb_offsets shape) /\
  shape1 M = snd (shape_or_default orb_offsets shape).
Proof.
  unfold _vectorized_make_dense; intros Hrun.
  refine (@for_each_invariant _ _ _
            (fun M0 => shape0 M0 = fst (shape_or_default orb_offsets shape) /\
                       shape1 M0 = snd (shape_or_default orb_offsets shape))
            _ _ _ _ _ Hrun); [|split; reflexivity].
  intros p M0 M1 _ [S0 S1] Hstep.
  destruct (shape_mismatch norbs p) eqn:Hp.
  - rewrite vmd_pair_mismatch in Hstep by exact Hp; discriminate.
  - pose proof (@vmd_pair_writes _ norbs orb_offsets site_offsets p M0 Hp)
      as Hw.
    rewrite Hstep in Hw; destruct Hw as (_ & S0' & S1' & _).
    split; congruence.
Qed.

Lemma call_assembler_shape
      {C : Type} `{Scalar C} (sparse : bool) (subgraphs : list Subgraph)
      (hams : list (Block3 C)) (norbs orb_offsets site_offsets : list nat)
      (s0 s1 : nat) (A : Assembled C) :
  call_assembler sparse subgraphs hams norbs orb_offsets site_offsets
                 (Some (s0, s1)) = Ok A ->
  shape0 (as_dense A) = s0 /\ shape1 (as_dense A) = s1.
Proof.
  unfold call_assembler; destruct sparse.
  - unfold _vectorized_make_sparse.
    destruct (for_each _ _ _) as [T|e]; [|discriminate].
    cbn [bind]; destruct (_ =? _); [|discriminate].
    cbn [bind]; intros Heq; injection Heq as <-; simpl; auto.
  - destruct (_vectorized_make_dense _ _ _ _ _ _) as [M|e] eqn:Hd;
      [|discriminate].
    cbn [bind]; intros Heq; injection Heq as <-.
    apply _vectorized_make_dense_shape in Hd; exact Hd.
Qed.

Lemma index_at (l : list nat) (i x : nat) : index l i = Ok x -> at_ l i = x.
Proof.
  unfold index, at_.
  destruct (nth_error l i) as [y|] eqn:E; [|discriminate].
  intros Heq; injection Heq as <-; apply nth_error_nth, E.
Qed.

(** When the arrays from [b] on repeat the sizes of the first
    [n - b] arrays, the orbitals after offset [b] are as many as the
    orbitals before offset [n - b]. *)
Lemma replicated_interface (sizes : list nat) (b : nat) :
  b <= length sizes ->
  skipn b sizes = firstn (length sizes - b) sizes ->
  at_ (offsets sizes) (length sizes - b)
  = List.last (offsets sizes) 0 - at_ (offsets sizes) b.
Proof.
  intros Hb Hrep.
  rewrite offsets_last, !offsets_at by lia.
  rewrite <- Hrep, firstn_all.
  rewrite <- (firstn_skipn b sizes) at 2.
  rewrite list_sum_app; lia.
Qed.

(** Unfolding an entry point along a successful run. *)
Ltac bind_ok H :=
  match type of H with
  | bind ?r _ = Ok _ =>
      let E := fresh "E" in
      destruct r eqn:E; cbn [bind] in H; [|discriminate H]
  end.

(** The site arrays have 2, 3 and 1 sites of one orbital each and the
    cell has 5 sites: the interface array has fewer sites than the first
    array of the cell. *)
Definition irregular_interface : System (Z * Z) :=
  {| site_arrays := [{| family := 0; sa_len := 2 |};
                     {| family := 0; sa_len := 3 |};
                     {| family := 0; sa_len := 1 |}];
     subgraphs := [((0, 0), ([0; 1], [0; 1])); ((0, 2), ([0], [0]))];
     terms := [{| subgraph := 0; hermitian := false |};
               {| subgraph := 1; hermitian := false |}];
     hamiltonian_term := fun n =>
       match n with
       | 0 => block3_of (gz 0 0) 1 1 [[[gz 1 0]]; [[gz 2 0]]]
       | _ => block3_of (gz 0 0) 1 1 [[[gz 3 1]]]
       end;
     cell_size := 5;
     site_ranges := None |}.

(** C6, as stated, fails: here [b = 2], the orbital offsets are
    [0, 2, 5, 6], and the inter-cell hopping has 2 columns
    ([orb_offsets[3 - 2]]) where [total_orbitals - orb_offsets[b]] is 1. *)
Lemma inter_cell_shape_differs :
  next_cell_of irregular_interface = 2 /\
  _count_norbs irregular_interface (site_offsets_of irregular_interface)
               [None; None] = Ok ([1; 1; 1; 0], [0; 2; 5; 6]) /\
  match vectorized_inter_cell_hopping irregular_interface false with
  | Ok A =>
      (shape0 (as_dense A), shape1 (as_dense A)) = (5, 2) /\
      (shape0 (as_dense A), shape1 (as_dense A)) <> (5, 6 - 5)
  | Raise _ => False
  end.
Proof.
  vm_compute; repeat split; intros E; discriminate E.
Qed.

(** C6, amended.  Let [b] be the boundary array of a periodic system: the
    first site array not fully inside the declared cell size, found by
    bisection over the cumulative site-array sizes.  The cell Hamiltonian
    has shape [(orb_offsets[b], orb_offsets[b])] and the inter-cell
    hopping matrix has shape
    [(orb_offsets[b], orb_offsets[len(site_arrays) - b])]; the latter is
    [(orb_offsets[b], total_orbitals - orb_offsets[b])] when the site
    arrays from [b] on repeat, one by one, the sizes in orbitals of the
    first [len(site_arrays) - b] site arrays. *)
Theorem cell_restriction_shapes
        {C : Type} `{Scalar C} (syst : System C) (sparse : bool)
        (A : Assembled C) :
  let b := next_cell_of syst in
  let site_offsets := site_offsets_of syst in
  let n := length (site_arrays syst) in
  (b <= n /\ at_ site_offsets b <= cell_size syst /\
   (b < n -> cell_size syst < at_ site_offsets (b + 1))) /\
  (vectorized_cell_hamiltonian syst sparse = Ok A ->
   exists hams norbs orb_offsets,
     _count_norbs syst site_offsets hams = Ok (norbs, orb_offsets) /\
     shape0 (as_dense A) = at_ orb_offsets b /\
     shape1 (as_dense A) = at_ orb_offsets b) /\
  (vectorized_inter_cell_hopping syst sparse = Ok A ->
   exists hams norbs orb_offsets,
     _count_norbs syst site_offsets hams = Ok (norbs, orb_offsets) /\
     shape0 (as_dense A) = at_ orb_offsets b /\
     shape1 (as_dense A) = at_ orb_offsets (n - b) /\
     forall sizes,
       orb_offsets = offsets sizes -> length sizes = n ->
       skipn b sizes = firstn (n - b) sizes ->
       shape1 (as_dense A) = List.last orb_offsets 0 - at_ orb_offsets b).
Proof.
  intros b so n.
  split; [apply next_cell_of_spec|split].
  - unfold vectorized_cell_hamiltonian; intros Hrun.
    fold so b in Hrun.
    do 5 bind_ok Hrun.
    match type of Hrun with
    | bind (_count_norbs syst so ?hams) _ = _ =>
        destruct (_count_norbs syst so hams) as [[norbs orb_offsets]|e]
          eqn:Ecount; cbn [bind] in Hrun; [|discriminate Hrun];
        exists hams, norbs, orb_offsets
    end.
    split; [exact Ecount|].
    bind_ok Hrun.
    apply call_assembler_shape in Hrun as [S0 S1].
    apply index_at in E4; subst; auto.
  - unfold vectorized_inter_cell_hopping; intros Hrun.
    fold so b n in Hrun.
    do 4 bind_ok Hrun.
    match type of Hrun with
    | bind (_count_norbs syst so ?hams) _ = _ =>
        destruct (_count_norbs syst so hams) as [[norbs orb_offsets]|e]
          eqn:Ecount; cbn [bind] in Hrun; [|discriminate Hrun];
        exists hams, norbs, orb_offsets
    end.
    split; [exact Ecount|].
    do 2 bind_ok Hrun.
    apply call_assembler_shape in Hrun as [S0 S1].
    apply index_at in E3, E4; rewrite S0, S1, <- E3, <- E4.
    split; [reflexivity|split; [reflexivity|]].
    intros sizes -> Hlen Hrep.
    pose proof (next_cell_of_spec syst) as [Hb _].
    fold b n in Hb; rewrite <- Hlen in *.
    apply replicated_interface; [lia | exact Hrep].
Qed.

(** A chain with two sites of one orbital per cell: the second site
    array is the copy of the first in the previous cell, and the hopping
    term connects the two cells. *)
Definition periodic_chain : System (Z * Z) :=
  {| site_arrays := [{| family := 0; sa_len := 2 |};
                     {| family := 0; sa_len := 2 |}];
     subgraphs := [((0, 0), ([0; 1], [0; 1])); ((0, 1), ([0; 1], [1; 0]))];
     terms := [{| subgraph := 0; hermitian := false |};
               {| subgraph := 1; hermitian := true |}];
     hamiltonian_term := fun n =>
       match n with
       | 0 => block3_of (gz 0 0) 1 1 [[[gz 1 0]]; [[gz 2 0]]]
       | _ => block3_of (gz 0 0) 1 1 [[[gz 3 1]]; [[gz 4 0]]]
       end;
     cell_size := 2;
     site_ranges := None |}.

Lemma cell_restriction_shapes_witness :
  exists A,
    vectorized_inter_cell_hopping periodic_chain false = Ok A /\
    exists hams norbs orb_offsets,
      _count_norbs periodic_chain (site_offsets_of periodic_chain) hams
      = Ok (norbs, orb_offsets) /\
      shape0 (as_dense A) = at_ orb_offsets (next_cell_of periodic_chain) /\
      shape1 (as_dense A)
      = at_ orb_offsets (length (site_arrays periodic_chain)
                         - next_cell_of periodic_chain) /\
      forall sizes,
        orb_offsets = offsets sizes ->
        length sizes = length (site_arrays periodic_chain) ->
        skipn (next_cell_of periodic_chain) sizes
        = firstn (length (site_arrays periodic_chain)
                  - next_cell_of periodic_chain) sizes ->
        shape1 (as_dense A)
        = List.last orb_offsets 0
          - at_ orb_offsets (next_cell_of periodic_chain).
Proof.
  destruct (vectorized_inter_cell_hopping periodic_chain false) as [A|e]
    eqn:Hrun; [|vm_compute in Hrun; discriminate Hrun].
  exists A; split; [reflexivity|].
  exact (proj2 (proj2 (@cell_restriction_shapes _ _ periodic_chain false A))
               Hrun).
Defined.

(** The two views of the chain: the cell Hamiltonian holds the two
    onsite values, the inter-cell hopping the two hoppings from the
    previous cell; both are [2 x 2], and 2 is also the number of
    orbitals after the boundary. *)
Example periodic_chain_views :
  match vectorized_cell_hamiltonian periodic_chain false,
        vectorized_inter_cell_hopping periodic_chain false with
  | Ok A, Ok B =>
      rows_of (as_dense A) = [[gz 1 0; gz 0 0]; [gz 0 0; gz 2 0]] /\
      rows_of (as_dense B) = [[gz 0 0; gz 3 1]; [gz 4 0; gz 0 0]]
  | _, _ => False
  end.
Proof. vm_compute; repeat split; reflexivity. Qed.
(** * The assemblers on a selection of sites *)

(** ** Exceptions of a loop *)

(** Every exception of a loop is an exception of one of its turns. *)
Lemma for_each_raises {X S} (body : X -> S -> result S) (P : Error -> Prop)
      (l : list X) :
  (forall x s e, In x l -> body x s = Raise e -> P e) ->
  forall s e, for_each body l s = Raise e -> P e.
Proof.
  induction l as [|x l IH]; intros Hbody s e Hrun; simpl in Hrun.
  - discriminate.
  - destruct (body x s) as [s1|e1] eqn:Hb; simpl in Hrun.
    + apply (IH (fun y t e' Hy => Hbody y t e' (or_intror Hy)) s1 e Hrun).
    + injection Hrun as <-.
      apply (Hbody x s e1 (or_introl eq_refl) Hb).
Qed.

(** ** make_sparse stays inside its buffers *)

Section SelectionBuffers.
Context {C : Type} `{Scalar C}.

Variable ham : nat -> nat -> Matrix C.
Variable gr : CGraph.
Variable diag : list (Matrix C).
Variable from_sites : list nat.
Variable n_by_to_site : gmap nat nat.
Variables to_norb to_off from_norb from_off : list nat.

Lemma sel_entries_within N n_ts n_fs h (T : list (nat * nat * C)) :
  length T + shape0 h * shape1 h <= N ->
  within (shape0 h * shape1 h) T (sel_entries to_off from_off N n_ts n_fs h T).
Proof.
  intros Hle; unfold sel_entries.
  pose proof (@for_each_within _ nat
    (fun i => for_each
       (fun j T0 =>
          let value := entry h i j in
          if negb (is0 value)
          then put N (i + at_ to_off n_ts, j + at_ from_off n_fs, value) T0
          else Ok T0) (range (shape1 h)))
    (fun _ => shape1 h) N (range (shape0 h))) as Houter.
  rewrite list_sum_const, range_length in Houter.
  apply Houter; [|exact Hle].
  intros i T1 _ Hle1.
  pose proof (@for_each_within _ nat
    (fun j T0 =>
       let value := entry h i j in
       if negb (is0 value)
       then put N (i + at_ to_off n_ts, j + at_ from_off n_fs, value) T0
       else Ok T0)
    (fun _ => 1) N (range (shape1 h))) as Hinner.
  rewrite list_sum_const, range_length, Nat.mul_1_r in Hinner.
  apply Hinner; [|exact Hle1].
  intros j T2 _ Hle2; simpl.
  destruct (is0 (entry h i j)); simpl; [lia|].
  apply put_within; exact Hle2.
Qed.

(** What the counting pass adds for one neighbour and for one column
    site. *)
Definition sel_nbr_cost (n_fs ts : nat) : nat :=
  match n_by_to_site !! ts with
  | Some n_ts => at_ to_norb n_ts * at_ from_norb n_fs
  | None => 0
  end.

Definition sel_site_cost (p : nat * nat) : nat :=
  match n_by_to_site !! snd p with
  | Some _ => at_ from_norb (fst p) * at_ from_norb (fst p)
  | None => 0
  end
  + list_sum (map (sel_nbr_cost (fst p)) (out_neighbors gr (snd p))).

Lemma sel_count_nbrs_sum n_fs nbors acc :
  sel_count_nbrs n_by_to_site to_norb from_norb n_fs nbors acc =
  acc + list_sum (map (sel_nbr_cost n_fs) nbors).
Proof.
  unfold sel_count_nbrs; revert acc.
  induction nbors as [|ts nbors IH]; intros acc; simpl; [lia|].
  rewrite IH; unfold sel_nbr_cost; destruct (n_by_to_site !! ts); lia.
Qed.

Lemma sel_count_entries_sum :
  sel_count_entries gr from_sites n_by_to_site to_norb from_norb =
  list_sum (map sel_site_cost (enumerate from_sites)).
Proof.
  unfold sel_count_entries.
  enough (Hgen : forall (l : list (nat * nat)) acc,
    fold_left
      (fun acc (p : nat * nat) =>
         let '(n_fs, fs) := p in
         let acc :=
           match n_by_to_site !! fs with
           | Some _ => acc + at_ from_norb n_fs * at_ from_norb n_fs
           | None => acc
           end in
         sel_count_nbrs n_by_to_site to_norb from_norb n_fs
                        (out_neighbors gr fs) acc) l acc =
    acc + list_sum (map sel_site_cost l)) by apply Hgen.
  induction l as [|[n_fs fs] l IH]; intros acc; simpl; [lia|].
  rewrite IH, sel_count_nbrs_sum; unfold sel_site_cost; simpl.
  destruct (n_by_to_site !! fs); lia.
Qed.

Lemma sel_sparse_nbrs_within N n_fs fs nbors (T : list (nat * nat * C)) :
  length T + list_sum (map (sel_nbr_cost n_fs) nbors) <= N ->
  within (list_sum (map (sel_nbr_cost n_fs) nbors)) T
         (sel_sparse_nbrs ham n_by_to_site to_norb to_off from_norb from_off
                          N n_fs fs nbors T).
Proof.
  intros Hle; unfold sel_sparse_nbrs.
  apply for_each_within with (N := N); [|exact Hle].
  intros ts T1 _ Hle1; unfold sel_nbr_cost in *.
  destruct (n_by_to_site !! ts) as [n_ts|]; [|simpl; lia].
  destruct (Nat.eqb_spec (shape0 (ham ts fs)) (at_ to_norb n_ts)) as [E0|_];
    [|simpl; discriminate].
  destruct (Nat.eqb_spec (shape1 (ham ts fs)) (at_ from_norb n_fs)) as [E1|_];
    [|simpl; discriminate].
  simpl; rewrite <- E0, <- E1 in *.
  apply sel_entries_within; exact Hle1.
Qed.

Lemma sel_sparse_sites_within N sites (T : list (nat * nat * C)) :
  length T + list_sum (map sel_site_cost sites) <= N ->
  within (list_sum (map sel_site_cost sites)) T
         (sel_sparse_sites ham gr diag n_by_to_site to_norb to_off
                           from_norb from_off N sites T).
Proof.
  intros Hle; unfold sel_sparse_sites.
  apply for_each_within with (N := N); [|exact Hle].
  intros [n_fs fs] T1 _ Hle1; unfold sel_site_cost in *; simpl in *.
  set (nb := list_sum (map (sel_nbr_cost n_fs) (out_neighbors gr fs))) in *.
  assert (Hnb : forall T2, length T2 <= length T1 + (sel_site_cost (n_fs, fs) - nb) ->
                           within (sel_site_cost (n_fs, fs)) T1
                             (sel_sparse_nbrs ham n_by_to_site to_norb to_off
                                from_norb from_off N n_fs fs
                                (out_neighbors gr fs) T2)).
  { intros T2 HT2.
    unfold sel_site_cost in *; simpl in *; fold nb in HT2 |- *.
    pose proof (@sel_sparse_nbrs_within N n_fs fs (out_neighbors gr fs) T2)
      as Hw.
    fold nb in Hw.
    destruct (n_by_to_site !! fs);
      (specialize (Hw ltac:(lia));
       destruct (sel_sparse_nbrs _ _ _ _ _ _ _ _ _ _ T2) as [T3|e];
       simpl in *; [lia | exact Hw]). }
  unfold sel_site_cost in Hnb; simpl in Hnb; fold nb in Hnb.
  destruct (n_by_to_site !! fs) as [n_ts|]; simpl.
  - destruct (Nat.eqb_spec (shape0 (diag_at diag n_fs))
                           (shape1 (diag_at diag n_fs))) as [E0|_];
      [|simpl; discriminate].
    destruct (Nat.eqb_spec (shape1 (diag_at diag n_fs)) (at_ from_norb n_fs))
      as [E1|_]; [|simpl; discriminate].
    simpl.
    pose proof (@sel_entries_within N n_ts n_fs (diag_at diag n_fs) T1) as Hon.
    rewrite E0, E1 in Hon; specialize (Hon ltac:(lia)).
    destruct (sel_entries to_off from_off N n_ts n_fs (diag_at diag n_fs) T1)
      as [T2|e]; simpl in *; [|exact Hon].
    apply Hnb; lia.
  - apply Hnb; lia.
Qed.

(** The exceptions of the write pass. *)
Lemma sel_entries_raises N n_ts n_fs h (T : list (nat * nat * C)) e :
  sel_entries to_off from_off N n_ts n_fs h T = Raise e -> e = BufferOverrun.
Proof.
  unfold sel_entries; revert T e.
  apply (@for_each_raises _ _ _ (fun e => e = BufferOverrun)).
  intros i T1 e1 _; revert T1 e1.
  apply (@for_each_raises _ _ _ (fun e => e = BufferOverrun)).
  intros j T2 e2 _; simpl.
  destruct (is0 (entry h i j)); simpl; [discriminate|].
  unfold put; destruct (_ <? _); [discriminate|].
  intros [= <-]; reflexivity.
Qed.

Lemma sel_sparse_sites_raises N sites (T : list (nat * nat * C)) e :
  sel_sparse_sites ham gr diag n_by_to_site to_norb to_off from_norb from_off
                   N sites T = Raise e ->
  e = BufferOverrun \/
  exists n_fs fs ts, In (n_fs, fs) sites /\ e = ValueError_msg fs ts /\
    (ts = fs \/ In ts (out_neighbors gr fs)).
Proof.
  unfold sel_sparse_sites; revert T e.
  apply (@for_each_raises _ _ _
           (fun e => e = BufferOverrun \/
              exists n_fs fs ts, In (n_fs, fs) sites /\ e = ValueError_msg fs ts /\
                (ts = fs \/ In ts (out_neighbors gr fs)))).
  intros [n_fs fs] T1 e1 Hin.
  assert (Hnbrs : forall T2,
    sel_sparse_nbrs ham n_by_to_site to_norb to_off from_norb from_off
                    N n_fs fs (out_neighbors gr fs) T2 = Raise e1 ->
    e1 = BufferOverrun \/
    exists n_fs fs ts, In (n_fs, fs) sites /\ e1 = ValueError_msg fs ts /\
      (ts = fs \/ In ts (out_neighbors gr fs))).
  { intros T2; unfold sel_sparse_nbrs; revert T2 e1.
    apply (@for_each_raises _ _ _
             (fun e => e = BufferOverrun \/
                exists n_fs fs ts, In (n_fs, fs) sites /\
                  e = ValueError_msg fs ts /\
                  (ts = fs \/ In ts (out_neighbors gr fs)))).
    intros ts T3 e3 Hts.
    destruct (n_by_to_site !! ts) as [n_ts'|]; [|discriminate].
    simpl; destruct (_ || _).
    - intros [= <-]; right; exists n_fs, fs, ts; auto.
    - intros Hr; left; exact (sel_entries_raises _ _ _ _ _ Hr). }
  destruct (n_by_to_site !! fs) as [n_ts|] eqn:Hk; simpl.
  - destruct (negb _) eqn:Hsq; simpl.
    + intros [= <-]; right; exists n_fs, fs, fs; auto.
    + destruct (sel_entries _ _ _ _ _ _ T1) as [T2|e2] eqn:Hon; simpl.
      * apply Hnbrs.
      * intros [= <-]; left; exact (sel_entries_raises _ _ _ _ _ Hon).
  - apply Hnbrs.
Qed.
End SelectionBuffers.

(** ** The dictionary of row indices *)

Lemma enumerate_snoc {A} (l : list A) (x : A) :
  enumerate (l ++ [x]) = enumerate l ++ [(length l, x)].
Proof.
  unfold enumerate.
  rewrite length_app; simpl length.
  rewrite Nat.add_1_r, seq_S; simpl.
  rewrite combine_app_same by apply length_seq.
  reflexivity.
Qed.

Lemma index_by_site_snoc (l : list nat) (x : nat) :
  index_by_site (l ++ [x]) = <[x := length l]> (index_by_site l).
Proof.
  unfold index_by_site; rewrite enumerate_snoc, fold_left_app; reflexivity.
Qed.

(** A site is mapped to its last index in [to_sites]. *)
Lemma index_by_site_spec (l : list nat) (ts a : nat) :
  index_by_site l !! ts = Some a <->
  nth_error l a = Some ts /\
  forall a', a < a' -> nth_error l a' <> Some ts.
Proof.
  revert a; induction l as [|x l IH] using rev_ind; intros a.
  - unfold index_by_site; simpl; rewrite lookup_empty.
    split; [discriminate|].
    intros [Hn _]; destruct a; discriminate.
  - rewrite index_by_site_snoc.
    destruct (Nat.eq_dec x ts) as [->|Hne].
    + rewrite lookup_insert_eq; split.
      * intros [= <-]; split.
        -- rewrite nth_error_app2 by lia.
           rewrite Nat.sub_diag; reflexivity.
        -- intros a' Ha'.
           rewrite (proj2 (nth_error_None (l ++ [ts]) a'));
             [discriminate|].
           rewrite length_app; simpl; lia.
      * intros [Hn Hlast].
        assert (Ha : a < length (l ++ [ts]))
          by (apply nth_error_Some; rewrite Hn; discriminate).
        rewrite length_app in Ha; simpl in Ha.
        destruct (Nat.eq_dec a (length l)) as [->|Hne]; [reflexivity|].
        exfalso; apply (Hlast (length l)); [lia|].
        rewrite nth_error_app2 by lia.
        rewrite Nat.sub_diag; reflexivity.
    + rewrite lookup_insert_ne by exact Hne.
      rewrite IH; split.
      * intros [Hn Hlast]; split.
        -- rewrite nth_error_app1; [exact Hn|].
           apply nth_error_Some; rewrite Hn; discriminate.
        -- intros a' Ha'.
           destruct (Nat.lt_ge_cases a' (length l)) as [Hlt|Hge].
           ++ rewrite nth_error_app1 by exact Hlt; apply Hlast, Ha'.
           ++ rewrite nth_error_app2 by exact Hge.
              destruct (a' - length l) as [|d]; simpl.
              ** intros [= E]; exact (Hne E).
              ** destruct d; discriminate.
      * intros [Hn Hlast].
        assert (Ha : a < length l).
        { assert (Ha : a < length (l ++ [x]))
            by (apply nth_error_Some; rewrite Hn; discriminate).
          rewrite length_app in Ha; simpl in Ha.
          destruct (Nat.eq_dec a (length l)) as [->|Hne']; [|lia].
          rewrite nth_error_app2, Nat.sub_diag in Hn by lia.
          injection Hn as E; contradiction. }
        rewrite nth_error_app1 in Hn by exact Ha.
        split; [exact Hn|].
        intros a' Ha' Hn'.
        apply (Hlast a' Ha').
        rewrite nth_error_app1; [exact Hn'|].
        apply nth_error_Some; rewrite Hn'; discriminate.
Qed.

Lemma index_by_site_inj (l : list nat) (a b i : nat) :
  index_by_site l !! a = Some i -> index_by_site l !! b = Some i -> a = b.
Proof.
  rewrite !index_by_site_spec; intros [Ha _] [Hb _]; congruence.
Qed.

Lemma index_by_site_lt (l : list nat) (ts a : nat) :
  index_by_site l !! ts = Some a -> a < length l.
Proof.
  rewrite index_by_site_spec; intros [Ha _].
  apply nth_error_Some; rewrite Ha; discriminate.
Qed.

Lemma index_all_sites_range (n : nat) :
  index_all_sites n = index_by_site (range n).
Proof.
  induction n as [|n IH]; [reflexivity|].
  unfold range in *; rewrite seq_S; simpl.
  rewrite index_by_site_snoc, length_seq, <- IH.
  unfold index_all_sites, range.
  rewrite seq_S, fold_left_app; reflexivity.
Qed.

(** ** What make_dense writes *)

Lemma assign_block_extents_inv {C} `{Scalar C} (M : Matrix C) a b c d h M' :
  assign_block M a b c d h = Ok M' ->
  slice_len a b (shape0 M) = shape0 h /\ slice_len c d (shape1 M) = shape1 h.
Proof.
  unfold assign_block; intros Hrun.
  destruct (Nat.eqb_spec (slice_len a b (shape0 M)) (shape0 h)) as [E0|_];
    [|discriminate].
  destruct (Nat.eqb_spec (slice_len c d (shape1 M)) (shape1 h)) as [E1|_];
    [|discriminate].
  auto.
Qed.

Section SelectionContent.
Context {C : Type} `{Scalar C}.

Variable ham : nat -> nat -> Matrix C.
Variable gr : CGraph.
Variable diag : list (Matrix C).
Variable from_sites : list nat.
Variable n_by_to_site : gmap nat nat.
Variables to_norb from_norb : list nat.

Let to_off := offsets to_norb.
Let from_off := offsets from_norb.

(** The dictionary comes from [enumerate(to_sites)] and the arrays from
    the onsite blocks of the selected sites. *)
Hypothesis index_inj :
  forall a b i, n_by_to_site !! a = Some i -> n_by_to_site !! b = Some i ->
                a = b.
Hypothesis index_lt :
  forall ts a, n_by_to_site !! ts = Some a -> a < length to_norb.
Hypothesis diag_onsite :
  forall b fs, nth_error from_sites b = Some fs -> diag_at diag b = ham fs fs.

Lemma in_block_sel a b (h : Matrix C) r c :
  shape0 h = at_ to_norb a -> shape1 h = at_ from_norb b ->
  (in_block (at_ to_off a) (at_ from_off b) h r c = true <->
   in_site to_norb a r /\ in_site from_norb b c).
Proof.
  intros E0 E1; rewrite in_block_spec, E0, E1; unfold in_site.
  fold to_off from_off; tauto.
Qed.

(** [ts] is [fs] or one of its out-neighbours. *)
Definition linked (ts fs : nat) : bool :=
  (ts =? fs) || existsb (Nat.eqb ts) (out_neighbors gr fs).

(** The output when the blocks [W b ts] (column index [b], row site [ts])
    are written and the others are not. *)
Definition holds (W : nat -> nat -> bool) (M : Matrix C) : Prop :=
  (shape0 M = List.last to_off 0 /\ shape1 M = List.last from_off 0) /\
  (forall ts a b fs r c,
      n_by_to_site !! ts = Some a -> nth_error from_sites b = Some fs ->
      in_site to_norb a r -> in_site from_norb b c ->
      entry M r c =
      if W b ts
      then entry (ham ts fs) (r - at_ to_off a) (c - at_ from_off b)
      else c0) /\
  (forall a r c,
      (forall ts, n_by_to_site !! ts <> Some a) ->
      in_site to_norb a r -> entry M r c = c0).

Lemma holds_ext (W W' : nat -> nat -> bool) (M : Matrix C) :
  (forall b ts a, n_by_to_site !! ts = Some a -> W b ts = W' b ts) ->
  holds W M -> holds W' M.
Proof.
  intros Hext (Hsh & Hval & Hrows); split; [exact Hsh|split; [|exact Hrows]].
  intros ts a b fs r c Hk Hfs Ha Hb.
  rewrite <- (Hext b ts a Hk); apply Hval; assumption.
Qed.

Lemma sel_assign_holds W a k ts fs (M M' : Matrix C) :
  n_by_to_site !! ts = Some a -> nth_error from_sites k = Some fs ->
  shape1 (ham ts fs) = at_ from_norb k ->
  holds W M ->
  sel_assign to_off from_off a k (ham ts fs) M = Ok M' ->
  holds (fun b ts' => W b ts' || ((b =? k) && (ts' =? ts))) M'.
Proof.
  intros Hk Hfs E1 (Hsh & Hval & Hrows) Hrun; unfold sel_assign in Hrun.
  pose proof (assign_block_extents_inv _ _ _ _ _ _ Hrun) as [X0 _].
  destruct Hsh as [S0 S1].
  rewrite S0 in X0; unfold to_off in X0.
  rewrite slice_len_site in X0 by (eapply index_lt; eassumption).
  symmetry in X0.
  apply assign_block_ok in Hrun as (S0' & S1' & HM').
  split; [split; congruence|split].
  - intros ts' a' b fs' r c Hk' Hfs' Ha Hb; rewrite HM'.
    destruct (in_block (at_ to_off a) (at_ from_off k) (ham ts fs) r c) eqn:B.
    + apply (in_block_sel _ _ _ _ _ X0 E1) in B as [Br Bc].
      pose proof (in_site_unique Ha Br); pose proof (in_site_unique Hb Bc).
      subst a' b.
      assert (ts' = ts) by (eapply index_inj; eassumption); subst ts'.
      assert (fs' = fs) by congruence; subst fs'.
      rewrite !Nat.eqb_refl, orb_true_r; reflexivity.
    + rewrite (Hval ts' a' b fs' r c Hk' Hfs' Ha Hb).
      destruct (Nat.eqb_spec b k) as [->|_]; [|rewrite orb_false_r; reflexivity].
      destruct (Nat.eqb_spec ts' ts) as [->|_];
        [|rewrite orb_false_r; reflexivity].
      exfalso.
      assert (a' = a) by congruence; subst a'.
      assert (B' : in_block (at_ to_off a) (at_ from_off k) (ham ts fs) r c
                   = true)
        by (apply (in_block_sel _ _ _ _ _ X0 E1); split; assumption).
      rewrite B in B'; discriminate.
  - intros a' r c Hno Ha; rewrite HM'.
    destruct (in_block (at_ to_off a) (at_ from_off k) (ham ts fs) r c) eqn:B.
    + apply (in_block_sel _ _ _ _ _ X0 E1) in B as [Br _].
      pose proof (in_site_unique Ha Br); subst a'.
      exfalso; exact (Hno ts Hk).
    + apply (Hrows a' r c); assumption.
Qed.

Lemma sel_dense_nbrs_holds k fs nbors :
  nth_error from_sites k = Some fs ->
  forall W (M M' : Matrix C),
    holds W M ->
    sel_dense_nbrs ham n_by_to_site to_norb to_off from_norb from_off
                   k fs nbors M = Ok M' ->
    holds (fun b ts' => W b ts' || ((b =? k) && existsb (Nat.eqb ts') nbors))
          M'.
Proof.
  intros Hfs; induction nbors as [|ts nbors IH]; intros W M M' HW Hrun.
  - injection Hrun as <-.
    apply holds_ext with (W := W); [|exact HW].
    intros b ts a _; simpl; rewrite andb_false_r, orb_false_r; reflexivity.
  - unfold sel_dense_nbrs in Hrun; simpl for_each in Hrun.
    destruct (n_by_to_site !! ts) as [a|] eqn:Hk.
    + destruct (Nat.eqb_spec (shape0 (ham ts fs)) (at_ to_norb a)) as [E0|_];
        [|discriminate].
      destruct (Nat.eqb_spec (shape1 (ham ts fs)) (at_ from_norb k)) as [E1|_];
        [|discriminate].
      simpl in Hrun.
      destruct (sel_assign to_off from_off a k (ham ts fs) M) as [M1|e] eqn:HM1;
        [|discriminate].
      simpl in Hrun.
      assert (HW1 : holds (fun b ts' => W b ts' || ((b =? k) && (ts' =? ts)))
                          M1)
        by (eapply sel_assign_holds; eassumption).
      pose proof (IH _ _ _ HW1 Hrun) as HW2.
      apply holds_ext with (2 := HW2).
      intros b ts' a' _; simpl.
      destruct (W b ts'), (b =? k), (ts' =? ts), (existsb _ nbors);
        reflexivity.
    + simpl in Hrun.
      pose proof (IH _ _ _ HW Hrun) as HW2.
      apply holds_ext with (2 := HW2).
      intros b ts' a' Hk'; simpl.
      destruct (Nat.eqb_spec ts' ts) as [->|_]; [congruence|].
      reflexivity.
Qed.

(** The blocks written once the first [k] column sites are done. *)
Definition written_upto (k b ts : nat) : bool :=
  (b <? k) && linked ts (nth b from_sites 0).

Lemma sel_dense_sites_holds (l : list nat) :
  forall k (M M' : Matrix C),
    skipn k from_sites = l -> k + length l = length from_sites ->
    holds (written_upto k) M ->
    sel_dense_sites ham gr diag n_by_to_site to_norb to_off from_norb from_off
                    (combine (seq k (length l)) l) M = Ok M' ->
    holds (written_upto (length from_sites)) M'.
Proof.
  induction l as [|fs l IH]; intros k M M' Hskip Hlen HW Hrun.
  - injection Hrun as <-; simpl in Hlen.
    replace (length from_sites) with k by lia; exact HW.
  - simpl length in *; simpl seq in Hrun; simpl combine in Hrun.
    unfold sel_dense_sites in Hrun; simpl for_each in Hrun.
    assert (Hfs : nth_error from_sites k = Some fs).
    { rewrite <- (firstn_skipn k from_sites), Hskip.
      rewrite nth_error_app2; rewrite length_firstn; [|lia].
      replace (k - Nat.min k (length from_sites)) with 0 by lia.
      reflexivity. }
    assert (Hnth : nth k from_sites 0 = fs)
      by (apply nth_error_nth; exact Hfs).
    match type of Hrun with
    | (try T := (try M1 := ?on in ?nb) in ?rest) = _ =>
        destruct on as [M1|e] eqn:Hon; [|discriminate]
    end.
    simpl in Hrun.
    destruct (sel_dense_nbrs ham n_by_to_site to_norb to_off from_norb from_off
                k fs (out_neighbors gr fs) M1) as [M2|e] eqn:Hnb;
      [|discriminate].
    simpl in Hrun.
    apply (IH (S k) M2 M'); try assumption; try lia.
    { change (S k) with (1 + k).
      rewrite <- skipn_skipn, Hskip; reflexivity. }
    assert (HW1 : holds (fun b ts' => written_upto k b ts'
                                      || ((b =? k) && (ts' =? fs))) M1).
    { destruct (n_by_to_site !! fs) as [a|] eqn:Hk.
      - destruct (Nat.eqb_spec (shape0 (diag_at diag k))
                               (shape1 (diag_at diag k))) as [E0|_];
          [|discriminate].
        destruct (Nat.eqb_spec (shape1 (diag_at diag k)) (at_ from_norb k))
          as [E1|_]; [|discriminate].
        simpl in Hon.
        rewrite (diag_onsite _ Hfs) in *.
        eapply sel_assign_holds; eassumption.
      - injection Hon as <-.
        apply holds_ext with (W := written_upto k); [|exact HW].
        intros b ts' a' Hk'.
        destruct (Nat.eqb_spec ts' fs) as [->|_]; [congruence|].
        rewrite andb_false_r, orb_false_r; reflexivity. }
    pose proof (@sel_dense_nbrs_holds k fs (out_neighbors gr fs) Hfs _ _ _
                  HW1 Hnb) as HW2.
    apply holds_ext with (2 := HW2).
    intros b ts' a' _; unfold written_upto, linked.
    destruct (Nat.ltb_spec b k) as [Hlt|Hge];
      destruct (Nat.eqb_spec b k) as [Heq|Hne];
      destruct (Nat.ltb_spec b (S k)) as [Hlt'|Hge']; try lia; simpl.
    + rewrite !orb_false_r; reflexivity.
    + subst b; rewrite Hnth; reflexivity.
Qed.

Lemma zeros_holds :
  holds (written_upto 0) (zeros (List.last to_off 0) (List.last from_off 0)).
Proof.
  split; [split; reflexivity|split]; intros; reflexivity.
Qed.

Lemma make_dense_holds (M : Matrix C) :
  make_dense ham gr diag from_sites n_by_to_site to_norb to_off
             from_norb from_off = Ok M ->
  holds (written_upto (length from_sites)) M.
Proof.
  intros Hrun; unfold make_dense, enumerate in Hrun.
  eapply (@sel_dense_sites_holds from_sites 0); eauto using zeros_holds.
Qed.
End SelectionContent.

(** ** make_sparse and make_dense side by side *)

Section SelectionSideBySide.
Context {C : Type} `{ScalarLaws C}.

Variable ham : nat -> nat -> Matrix C.
Variable gr : CGraph.
Variable diag : list (Matrix C).
Variable from_sites : list nat.
Variable n_by_to_site : gmap nat nat.
Variables to_norb from_norb : list nat.

Let to_off := offsets to_norb.
Let from_off := offsets from_norb.

Hypothesis index_inj :
  forall a b i, n_by_to_site !! a = Some i -> n_by_to_site !! b = Some i ->
                a = b.
Hypothesis index_lt :
  forall ts a, n_by_to_site !! ts = Some a -> a < length to_norb.
Hypothesis norb_length : length from_norb = length from_sites.
(** A site selected as a row and as a column has one orbital count. *)
Hypothesis same_norb :
  forall b fs a, nth_error from_sites b = Some fs ->
                 n_by_to_site !! fs = Some a ->
                 at_ to_norb a = at_ from_norb b.

Lemma sel_entries_appends N n_ts n_fs h T :
  appends (block_entries (at_ to_off n_ts) (at_ from_off n_fs) h) T
          (sel_entries to_off from_off N n_ts n_fs h T).
Proof.
  unfold sel_entries, block_entries.
  apply for_each_appends; intros i T1.
  apply for_each_appends; intros j T2; simpl.
  destruct (negb _); [apply put_appends|].
  left; rewrite app_nil_r; reflexivity.
Qed.

(** The output holds what the stored triplets sum to, and the blocks in
    [F] (row index, column index) are still zero. *)
Definition sel_related (F : nat -> nat -> Prop)
           (T : list (nat * nat * C)) (M : Matrix C) : Prop :=
  same_entries T M /\
  (shape0 M = List.last to_off 0 /\ shape1 M = List.last from_off 0) /\
  forall a b r c, F a b -> in_site to_norb a r -> in_site from_norb b c ->
                  entry M r c = c0.

(** Blocks not written yet while the neighbours [nb] of column site [k]
    are still to come. *)
Definition sel_fresh (k : nat) (nb : list nat) (a b : nat) : Prop :=
  k < b \/ (b = k /\ exists ts, In ts nb /\ n_by_to_site !! ts = Some a).

(** One block, written by both assemblers where the output is still
    zero. *)
Lemma sel_block_agree N (F F' : nat -> nat -> Prop) a k (h : Matrix C) T M :
  a < length to_norb -> k < length from_norb ->
  shape0 h = at_ to_norb a -> shape1 h = at_ from_norb k ->
  F a k ->
  (forall a' b', F' a' b' -> F a' b' /\ ~ (a' = a /\ b' = k)) ->
  sel_related F T M ->
  agree (sel_related F')
        (sel_entries to_off from_off N a k h T)
        (sel_assign to_off from_off a k h M).
Proof.
  intros La Lk E0 E1 Hfresh Hsub (Hsame & [S0 S1] & Hzero).
  destruct (sel_entries_appends N a k h T) as [-> | ->]; [|exact I].
  unfold sel_assign.
  destruct (@assign_block_extents _ M (at_ to_off a) (at_ to_off (a + 1))
              (at_ from_off k) (at_ from_off (k + 1)) h) as [M1 HM1].
  { rewrite S0, E0; apply slice_len_site, La. }
  { rewrite S1, E1; apply slice_len_site, Lk. }
  rewrite HM1; simpl.
  apply assign_block_ok in HM1 as (S10 & S11 & HM1).
  assert (Hin : forall r c,
             in_block (at_ to_off a) (at_ from_off k) h r c = true <->
             in_site to_norb a r /\ in_site from_norb k c).
  { intros r c; rewrite in_block_spec, E0, E1; unfold in_site.
    fold to_off from_off; tauto. }
  split; [|split; [split; congruence|]].
  - apply block_write_same with (M := M); auto.
    intros r c B; apply Hin in B as [Br Bc].
    apply (Hzero a k r c); auto.
  - intros a' b' r c Hf Ha Hb; rewrite HM1.
    destruct (Hsub a' b' Hf) as [HF Hne].
    destruct (in_block (at_ to_off a) (at_ from_off k) h r c) eqn:B.
    + exfalso; apply Hne.
      apply Hin in B as [Br Bc].
      split; [exact (in_site_unique Ha Br) | exact (in_site_unique Hb Bc)].
    + apply (Hzero a' b' r c); auto.
Qed.

Lemma sel_nbrs_agree N k fs nb T M :
  k < length from_norb -> List.NoDup nb ->
  sel_related (sel_fresh k nb) T M ->
  agree (sel_related (sel_fresh k []))
        (sel_sparse_nbrs ham n_by_to_site to_norb to_off from_norb from_off
                         N k fs nb T)
        (sel_dense_nbrs ham n_by_to_site to_norb to_off from_norb from_off
                        k fs nb M).
Proof.
  intros Lk; revert T M.
  induction nb as [|ts nb IH]; intros T M Hnd Hrel.
  - exact Hrel.
  - apply NoDup_cons_iff in Hnd as [Hnotin Hnd].
    unfold sel_sparse_nbrs, sel_dense_nbrs; simpl for_each.
    destruct (n_by_to_site !! ts) as [a|] eqn:Hk.
    + destruct (Nat.eqb_spec (shape0 (ham ts fs)) (at_ to_norb a)) as [E0|_];
        [|apply agree_raise].
      destruct (Nat.eqb_spec (shape1 (ham ts fs)) (at_ from_norb k)) as [E1|_];
        [|apply agree_raise].
      simpl.
      apply agree_bind with (P := sel_related (sel_fresh k nb)).
      * apply sel_block_agree with (F := sel_fresh k (ts :: nb)); auto.
        -- eapply index_lt; eassumption.
        -- right; split; [reflexivity|].
           exists ts; split; [left; reflexivity | exact Hk].
        -- intros a' b' Hf; split.
           ++ destruct Hf as [Hf|[-> (ts' & Hin & Hk')]]; [left; exact Hf|].
              right; split; [reflexivity|].
              exists ts'; split; [right; exact Hin | exact Hk'].
           ++ intros [-> ->].
              destruct Hf as [Hf|[_ (ts' & Hin & Hk')]]; [lia|].
              assert (ts' = ts) by (eapply index_inj; eassumption).
              subst ts'; contradiction.
      * intros T' M' Hrel'; apply IH; assumption.
    + simpl; apply IH; [exact Hnd|].
      destruct Hrel as (Hsame & Hsh & Hzero).
      split; [exact Hsame|split; [exact Hsh|]].
      intros a' b' r c Hf; apply Hzero.
      destruct Hf as [Hf|[-> (ts' & Hin & Hk')]]; [left; exact Hf|].
      right; split; [reflexivity|].
      exists ts'; split; [right; exact Hin | exact Hk'].
Qed.

Lemma sel_sites_agree N (l : list nat) :
  (forall fs, In fs l -> List.NoDup (out_neighbors gr fs)) ->
  (forall fs, In fs l -> ~ In fs (out_neighbors gr fs)) ->
  forall k T M,
    skipn k from_sites = l -> k + length l = length from_sites ->
    sel_related (fun _ b => k <= b) T M ->
    agree (sel_related (fun _ b => length from_sites <= b))
          (sel_sparse_sites ham gr diag n_by_to_site to_norb to_off
                            from_norb from_off N
                            (combine (seq k (length l)) l) T)
          (sel_dense_sites ham gr diag n_by_to_site to_norb to_off
                           from_norb from_off
                           (combine (seq k (length l)) l) M).
Proof.
  induction l as [|fs l IH]; intros Hnodup Hnoself k T M Hskip Hlen Hrel.
  - simpl in *; replace (length from_sites) with k by lia; exact Hrel.
  - simpl length in *; simpl seq; simpl combine.
    assert (Hfs : nth_error from_sites k = Some fs).
    { rewrite <- (firstn_skipn k from_sites), Hskip.
      rewrite nth_error_app2; rewrite length_firstn; [|lia].
      replace (k - Nat.min k (length from_sites)) with 0 by lia.
      reflexivity. }
    assert (Lk : k < length from_norb) by lia.
    unfold sel_sparse_sites, sel_dense_sites; simpl for_each.
    apply agree_bind with (P := sel_related (fun _ b => S k <= b)).
    2:{ intros T' M' Hrel'.
        apply IH; auto; try lia.
        - intros fs' Hin; apply Hnodup; right; exact Hin.
        - intros fs' Hin; apply Hnoself; right; exact Hin.
        - change (S k) with (1 + k).
          rewrite <- skipn_skipn, Hskip; reflexivity. }
    assert (Hweak : forall T' M',
               sel_related (sel_fresh k []) T' M' ->
               sel_related (fun _ b => S k <= b) T' M').
    { intros T' M' (Hsame & Hsh & Hzero).
      split; [exact Hsame|split; [exact Hsh|]].
      intros a b r c Hb; apply Hzero; left; lia. }
    assert (Hnb : forall T1 M1,
               sel_related (sel_fresh k (out_neighbors gr fs)) T1 M1 ->
               agree (sel_related (fun _ b => S k <= b))
                 (sel_sparse_nbrs ham n_by_to_site to_norb to_off from_norb
                                  from_off N k fs (out_neighbors gr fs) T1)
                 (sel_dense_nbrs ham n_by_to_site to_norb to_off from_norb
                                 from_off k fs (out_neighbors gr fs) M1)).
    { intros T1 M1 Hrel1.
      pose proof (@sel_nbrs_agree N k fs (out_neighbors gr fs) T1 M1 Lk
                    (Hnodup fs (or_introl eq_refl)) Hrel1) as Hag.
      destruct (sel_sparse_nbrs _ _ _ _ _ _ _ _ _ _ T1) as [T2|e1];
        destruct (sel_dense_nbrs _ _ _ _ _ _ _ _ _ M1) as [M2|e2];
        simpl in *; auto. }
    destruct (n_by_to_site !! fs) as [a|] eqn:Hk.
    + destruct (Nat.eqb_spec (shape0 (diag_at diag k))
                             (shape1 (diag_at diag k))) as [E0|_];
        [|apply agree_raise].
      destruct (Nat.eqb_spec (shape1 (diag_at diag k)) (at_ from_norb k))
        as [E1|_]; [|apply agree_raise].
      simpl.
      apply agree_bind
        with (P := sel_related (sel_fresh k (out_neighbors gr fs)));
        [|exact Hnb].
      apply sel_block_agree with (F := fun _ b => k <= b); auto.
      * eapply index_lt; eassumption.
      * rewrite (same_norb _ Hfs Hk); congruence.
      * intros a' b' Hf; split.
        -- destruct Hf as [Hf|[-> _]]; lia.
        -- intros [-> ->].
           destruct Hf as [Hf|[_ (ts' & Hin & Hk')]]; [lia|].
           assert (ts' = fs) by (eapply index_inj; eassumption).
           subst ts'.
           exact (Hnoself fs (or_introl eq_refl) Hin).
    + simpl; apply Hnb.
      destruct Hrel as (Hsame & Hsh & Hzero).
      split; [exact Hsame|split; [exact Hsh|]].
      intros a' b' r c Hf; apply Hzero.
      destruct Hf as [Hf|[-> _]]; lia.
Qed.
End SelectionSideBySide.

(** ** hamiltonian_submatrix with a selection of sites *)

Lemma for_each_ext {X S} (body body' : X -> S -> result S) (l : list X) :
  (forall x s, In x l -> body x s = body' x s) ->
  forall s, for_each body l s = for_each body' l s.
Proof.
  induction l as [|x l IH]; intros Hext s; simpl; [reflexivity|].
  rewrite (Hext x s (or_introl eq_refl)).
  destruct (body' x s) as [s1|e]; simpl; [|reflexivity].
  apply IH; intros y t Hy; apply Hext; right; exact Hy.
Qed.

(** The exceptions of the four assemblers: the shape error, or one of
    the two failures of a write. *)
Definition assembler_error (e : Error) : Prop :=
  e = BufferOverrun \/ e = SliceExtentMismatch \/
  exists fs ts, e = ValueError_msg fs ts.

Section AssemblerExceptions.
Context {C : Type} `{Scalar C}.

Variable ham : nat -> nat -> Matrix C.
Variable gr : CGraph.

Lemma assign_block_raises (M : Matrix C) a b c d h e :
  assign_block M a b c d h = Raise e -> e = SliceExtentMismatch.
Proof.
  unfold assign_block; destruct (_ && _); [discriminate|].
  intros [= <-]; reflexivity.
Qed.

Lemma make_sparse_raises diag from_sites n_by_to_site
      to_norb to_off from_norb from_off e :
  make_sparse ham gr diag from_sites n_by_to_site to_norb to_off
              from_norb from_off = Raise e ->
  assembler_error e.
Proof.
  unfold make_sparse; intros Hrun.
  destruct (sel_sparse_sites _ _ _ _ _ _ _ _ _ _ _) as [T|e1] eqn:Hs;
    simpl in Hrun; [discriminate|].
  injection Hrun as <-.
  apply sel_sparse_sites_raises in Hs as [->|(n_fs & fs & ts & _ & -> & _)].
  - left; reflexivity.
  - right; right; eauto.
Qed.

Lemma make_dense_raises diag from_sites n_by_to_site
      to_norb to_off from_norb from_off e :
  make_dense ham gr diag from_sites n_by_to_site to_norb to_off
             from_norb from_off = Raise e ->
  assembler_error e.
Proof.
  unfold make_dense, sel_dense_sites.
  generalize (zeros (C := C) (List.last to_off 0) (List.last from_off 0)).
  intros M; revert M e.
  apply (@for_each_raises _ _ _ assembler_error).
  intros [n_fs fs] M e _.
  assert (Hnb : forall M1,
    sel_dense_nbrs ham n_by_to_site to_norb to_off from_norb from_off
                   n_fs fs (out_neighbors gr fs) M1 = Raise e ->
    assembler_error e).
  { intros M1; unfold sel_dense_nbrs; revert M1 e.
    apply (@for_each_raises _ _ _ assembler_error).
    intros ts M2 e2 _.
    destruct (n_by_to_site !! ts) as [n_ts|]; [|discriminate].
    simpl; destruct (_ || _).
    - intros [= <-]; right; right; eauto.
    - unfold sel_assign; intros Hr.
      apply assign_block_raises in Hr; right; left; exact Hr. }
  destruct (n_by_to_site !! fs) as [n_ts|]; simpl; [|apply Hnb].
  destruct (negb _); simpl.
  - intros [= <-]; right; right; eauto.
  - destruct (sel_assign _ _ _ _ _ M) as [M1|e1] eqn:Hon; simpl.
    + apply Hnb.
    + intros [= <-]; unfold sel_assign in Hon.
      apply assign_block_raises in Hon; right; left; exact Hon.
Qed.

Lemma make_sparse_full_raises diag to_norb to_off from_norb from_off e :
  make_sparse_full ham gr diag to_norb to_off from_norb from_off = Raise e ->
  assembler_error e.
Proof.
  unfold make_sparse_full; intros Hrun.
  destruct (sparse_sites _ _ _ _ _ _ _ _ _ _) as [T|e1] eqn:Hs;
    simpl in Hrun; [discriminate|].
  injection Hrun as <-; revert Hs.
  unfold sparse_sites.
  generalize (@nil (nat * nat * C)); intros T; revert T e1.
  apply (@for_each_raises _ _ _ assembler_error).
  intros fs T e _.
  assert (Hput : forall N t (T0 : list (nat * nat * C)) e0,
             put N t T0 = Raise e0 -> assembler_error e0).
  { intros N t T0 e0; unfold put; destruct (_ <? _); [discriminate|].
    intros [= <-]; left; reflexivity. }
  destruct (negb _); simpl.
  { intros [= <-]; right; right; eauto. }
  destruct (sparse_onsite _ _ _ _ _ T) as [T1|e1] eqn:Hon; simpl.
  - clear Hon; unfold sparse_nbrs; revert T1 e.
    apply (@for_each_raises _ _ _ assembler_error).
    intros ts T2 e2 _.
    destruct (ts <? fs); [discriminate|].
    destruct (_ || _); [intros [= <-]; right; right; eauto|].
    unfold sparse_hop; revert T2 e2.
    apply (@for_each_raises _ _ _ assembler_error); intros i T3 e3 _.
    revert T3 e3.
    apply (@for_each_raises _ _ _ assembler_error); intros j T4 e4 _.
    simpl; destruct (negb _); [|discriminate].
    destruct (put _ _ T4) as [T5|e5] eqn:Hp; simpl.
    + apply Hput.
    + intros [= <-]; exact (Hput _ _ _ _ Hp).
  - intros [= <-]; revert Hon; unfold sparse_onsite; revert T e1.
    apply (@for_each_raises _ _ _ assembler_error); intros i T3 e3 _.
    revert T3 e3.
    apply (@for_each_raises _ _ _ assembler_error); intros j T4 e4 _.
    simpl; destruct (negb _); [|discriminate].
    apply Hput.
Qed.

Lemma make_dense_full_raises diag to_norb to_off from_norb from_off e :
  make_dense_full ham gr diag to_norb to_off from_norb from_off = Raise e ->
  assembler_error e.
Proof.
  unfold make_dense_full, dense_sites.
  generalize (zeros (C := C) (List.last to_off 0) (List.last from_off 0)).
  intros M; revert M e.
  apply (@for_each_raises _ _ _ assembler_error).
  intros fs M e _.
  destruct (negb _); simpl.
  { intros [= <-]; right; right; eauto. }
  destruct (assign_block M _ _ _ _ _) as [M1|e1] eqn:Hon; simpl.
  - clear Hon; unfold dense_nbrs; revert M1 e.
    apply (@for_each_raises _ _ _ assembler_error).
    intros ts M2 e2 _.
    destruct (ts <? fs); [discriminate|].
    destruct (_ || _); [intros [= <-]; right; right; eauto|].
    destruct (assign_block M2 _ _ _ _ _) as [M3|e3] eqn:H1; simpl.
    + intros Hr; apply assign_block_raises in Hr; right; left; exact Hr.
    + intros [= <-]; apply assign_block_raises in H1; right; left; exact H1.
  - intros [= <-]; apply assign_block_raises in Hon; right; left; exact Hon.
Qed.
End AssemblerExceptions.

Section SelectionEntryPoint.
Context {C : Type} `{Scalar C}.

Variable ham : nat -> nat -> Matrix C.
Variable gr : CGraph.

(** The item passes the loop over the given sites: it fits the [gint]
    variable [site] and [0 <= site < n]. *)
Definition site_ok (z : Z) : bool :=
  fits_gint z && (0 <=? z)%Z && (z <? Z.of_nat (num_nodes gr))%Z.

(** The items of an argument, none for [None]. *)
Definition given (sites : option SiteSeq) : list Z :=
  match sites with
  | None => []
  | Some s => seq_items s
  end.

Definition valid_sites (sites : option SiteSeq) : bool :=
  forallb site_ok (given sites).

(** The sites an argument stands for: all sites for [None]. *)
Definition selection (sites : option SiteSeq) : list nat :=
  match sites with
  | None => range (num_nodes gr)
  | Some s => site_numbers s
  end.

(** [h.shape[0]] of the onsite block of each site of a list. *)
Definition norbs_of (l : list nat) : list nat :=
  map (fun site => shape0 (ham site site)) l.

(** The exception raised for the first item that does not pass. *)
Definition first_bad (l : list Z) : option Z :=
  find (fun z => negb (site_ok z)) l.

Definition site_error (l : list Z) : Error :=
  match first_bad l with
  | Some z => if fits_gint z then IndexError else OverflowError
  | None => IndexError
  end.

Lemma site_ok_spec z :
  site_ok z = true <->
  fits_gint z = true /\ (0 <= z < Z.of_nat (num_nodes gr))%Z.
Proof.
  unfold site_ok; rewrite !andb_true_iff, Z.leb_le, Z.ltb_lt; tauto.
Qed.

Lemma checked_onsite_spec z :
  checked_onsite ham gr z =
  if site_ok z then Ok (ham (Z.to_nat z) (Z.to_nat z))
  else Raise (if fits_gint z then IndexError else OverflowError).
Proof.
  unfold checked_onsite, site_ok.
  destruct (fits_gint z); simpl; [|reflexivity].
  destruct (Z.ltb_spec z 0), (Z.leb_spec 0 z),
    (Z.leb_spec (Z.of_nat (num_nodes gr)) z),
    (Z.ltb_spec z (Z.of_nat (num_nodes gr))); simpl; try reflexivity; lia.
Qed.

Lemma first_bad_none l : first_bad l = None <-> forallb site_ok l = true.
Proof.
  unfold first_bad; induction l as [|z l IH]; simpl; [tauto|].
  destruct (site_ok z); simpl; [exact IH | split; discriminate].
Qed.

Lemma first_bad_app l1 l2 :
  first_bad (l1 ++ l2)
  = match first_bad l1 with
    | Some z => Some z
    | None => first_bad l2
    end.
Proof.
  unfold first_bad; induction l1 as [|z l1 IH]; simpl; [reflexivity|].
  destruct (site_ok z); simpl; [exact IH | reflexivity].
Qed.

Lemma onsite_blocks_spec sites :
  onsite_blocks ham gr sites =
  if valid_sites sites
  then Ok (map (fun site => ham site site) (selection sites))
  else Raise (site_error (given sites)).
Proof.
  destruct sites as [[id items]|]; [|reflexivity].
  unfold onsite_blocks, valid_sites, selection, site_numbers, given,
    site_error, first_bad; simpl.
  induction items as [|z items IH]; simpl; [reflexivity|].
  rewrite checked_onsite_spec.
  destruct (site_ok z); simpl; [|reflexivity].
  rewrite IH; destruct (forallb site_ok items); reflexivity.
Qed.

Lemma valid_sites_first_bad sites :
  valid_sites sites = true <-> first_bad (given sites) = None.
Proof. unfold valid_sites; symmetry; apply first_bad_none. Qed.

Lemma valid_selection_lt sites site :
  valid_sites sites = true -> In site (selection sites) ->
  site < num_nodes gr.
Proof.
  destruct sites as [[id items]|]; simpl.
  - unfold valid_sites, site_numbers; simpl; intros Hv Hin.
    apply in_map_iff in Hin as (z & <- & Hz).
    rewrite forallb_forall in Hv; specialize (Hv z Hz).
    apply site_ok_spec in Hv; lia.
  - intros _ Hin; apply in_seq in Hin; lia.
Qed.

(** The call of [make_sparse] or [make_dense] for a selection. *)
Definition selected_call (to_sites from_sites : option SiteSeq)
           (sparse : bool) : result (Assembled C) :=
  let F := selection from_sites in
  let T := selection to_sites in
  let diag := map (fun site => ham site site) F in
  let from_norb := norbs_of F in
  let to_norb := norbs_of T in
  if sparse
  then try mat := make_sparse ham gr diag F (index_by_site T)
                              to_norb (offsets to_norb)
                              from_norb (offsets from_norb) in
       Ok (Sparse mat)
  else try mat := make_dense ham gr diag F (index_by_site T)
                             to_norb (offsets to_norb)
                             from_norb (offsets from_norb) in
       Ok (Dense mat).

(** The same object: the same sequence. *)
Definition same_object_same_items (a b : option SiteSeq) : Prop :=
  is_ a b = true -> a = b.

Lemma hamiltonian_submatrix_sites_selected to_sites from_sites sparse
      return_norb :
  to_sites <> None \/ from_sites <> None ->
  same_object_same_items to_sites from_sites ->
  hamiltonian_submatrix_sites ham gr to_sites from_sites sparse return_norb =
  if valid_sites from_sites && valid_sites to_sites
  then try mat := selected_call to_sites from_sites sparse in
       Ok (if return_norb
           then MatNorb mat (norbs_of (selection to_sites))
                        (norbs_of (selection from_sites))
           else Mat mat)
  else Raise (site_error (given from_sites ++ given to_sites)).
Proof.
  intros Hsome Hobj; unfold hamiltonian_submatrix_sites.
  rewrite onsite_blocks_spec.
  unfold site_error at 2; rewrite first_bad_app.
  destruct (valid_sites from_sites) eqn:Vf; simpl.
  2:{ unfold site_error.
      destruct (first_bad (given from_sites)) eqn:Ef; [reflexivity|].
      apply valid_sites_first_bad in Ef; congruence. }
  rewrite (proj1 (valid_sites_first_bad from_sites) Vf).
  rewrite map_map; fold (norbs_of (selection from_sites)).
  destruct (is_ to_sites from_sites) eqn:His.
  - rewrite (Hobj His) in *; rewrite Vf; simpl.
    destruct from_sites as [s|]; [|destruct Hsome; congruence].
    unfold selected_call; simpl.
    destruct sparse; reflexivity.
  - rewrite onsite_blocks_spec.
    destruct (valid_sites to_sites) eqn:Vt; simpl; [|reflexivity].
    rewrite map_map; fold (norbs_of (selection to_sites)).
    unfold selected_call.
    destruct to_sites as [t|], from_sites as [f|]; simpl;
      try rewrite index_all_sites_range;
      try (destruct sparse; reflexivity).
    destruct Hsome; congruence.
Qed.

Lemma classic_none (a b : option SiteSeq) :
  (a = None /\ b = None) \/ (a <> None \/ b <> None).
Proof.
  destruct a, b; auto; right; (left; discriminate) || (right; discriminate).
Qed.

Lemma nth_onsite_blocks site :
  site < num_nodes gr ->
  nth site (map (fun site => ham site site) (range (num_nodes gr)))
      (zeros 0 0)
  = ham site site.
Proof.
  intros Hlt.
  rewrite (nth_indep _ _ (ham 0 0))
    by (rewrite length_map, range_length; exact Hlt).
  rewrite (map_nth (fun site => ham site site)).
  unfold range; rewrite seq_nth by exact Hlt; reflexivity.
Qed.

(** With both arguments [None], the call is the one of the full
    system. *)
Lemma hamiltonian_submatrix_sites_default sparse return_norb :
  hamiltonian_submatrix_sites ham gr None None sparse return_norb =
  try mat := hamiltonian_submatrix ham gr sparse in
  Ok (if return_norb
      then MatNorb mat (site_norbs ham gr) (site_norbs ham gr)
      else Mat mat).
Proof.
  unfold hamiltonian_submatrix_sites, hamiltonian_submatrix; simpl.
  rewrite map_map; fold (site_norbs ham gr).
  set (norb := site_norbs ham gr).
  set (diag := fun site =>
                 nth site (map (fun site => ham site site)
                               (range (num_nodes gr))) (zeros 0 0)).
  assert (Hs : make_sparse_full ham gr diag norb (offsets norb) norb
                                (offsets norb)
               = make_sparse_full ham gr (fun site => ham site site) norb
                                  (offsets norb) norb (offsets norb)).
  { unfold make_sparse_full, sparse_sites.
    rewrite (for_each_ext _
      (fun fs T =>
         let h := ham fs fs in
         if negb ((shape0 h =? shape1 h) && (shape1 h =? at_ norb fs))
         then Raise (ValueError_msg fs fs)
         else
           try T1 := sparse_onsite (offsets norb) (offsets norb)
                       (count_entries gr norb norb) fs h T in
           sparse_nbrs ham norb (offsets norb) norb (offsets norb)
                       (count_entries gr norb norb) fs
                       (out_neighbors gr fs) T1)); [reflexivity|].
    intros fs T Hin; apply in_seq in Hin.
    unfold diag; rewrite nth_onsite_blocks by lia; reflexivity. }
  assert (Hd : make_dense_full ham gr diag norb (offsets norb) norb
                               (offsets norb)
               = make_dense_full ham gr (fun site => ham site site) norb
                                 (offsets norb) norb (offsets norb)).
  { unfold make_dense_full, dense_sites.
    apply for_each_ext.
    intros fs M Hin; apply in_seq in Hin.
    unfold diag; rewrite nth_onsite_blocks by lia; reflexivity. }
  rewrite Hs, Hd.
  destruct sparse.
  - destruct (make_sparse_full _ _ _ _ _ _ _); reflexivity.
  - destruct (make_dense_full _ _ _ _ _ _ _); reflexivity.
Qed.

Lemma at_norbs_of (l : list nat) a site :
  nth_error l a = Some site -> at_ (norbs_of l) a = shape0 (ham site site).
Proof.
  intros Hn; unfold at_, norbs_of.
  rewrite (nth_indep _ _ (shape0 (ham 0 0))).
  - rewrite (map_nth (fun site => shape0 (ham site site))).
    rewrite (nth_error_nth _ _ _ Hn); reflexivity.
  - rewrite length_map; apply nth_error_Some; rewrite Hn; discriminate.
Qed.

Lemma offsets_last_sum (l : list nat) :
  List.last (offsets l) 0 = list_sum l.
Proof.
  rewrite offsets_last, offsets_at by lia.
  rewrite firstn_all; reflexivity.
Qed.
End SelectionEntryPoint.

(** ** Main results on a selection of sites *)

(** Worked input: the rows of sites 1 and 0, the columns of site 0, on the
    two-site graph. *)
Definition rows_1_0 : option SiteSeq :=
  Some {| seq_id := 1; seq_items := [1; 0]%Z |}.

Definition cols_0 : option SiteSeq :=
  Some {| seq_id := 2; seq_items := [0]%Z |}.

(** X1. [hamiltonian_submatrix] assigns every given site to the [gint]
    variable [site] and checks it, the items of [from_sites] first and
    then those of [to_sites]: the first item that does not pass decides
    the exception, [OverflowError] when it does not fit in 32 bits and
    [IndexError] when it fits but is negative or not below the number of
    sites of the graph.  When every item passes, neither exception is
    raised. *)
Theorem out_of_range_site_raises
        {C : Type} `{Scalar C} (ham : nat -> nat -> Matrix C) (gr : CGraph)
        (to_sites from_sites : option SiteSeq) (sparse return_norb : bool) :
  same_object_same_items to_sites from_sites ->
  let r := hamiltonian_submatrix_sites ham gr to_sites from_sites sparse
                                       return_norb in
  match first_bad gr (given from_sites ++ given to_sites) with
  | Some site =>
      In site (given from_sites ++ given to_sites) /\
      r = Raise (if fits_gint site then IndexError else OverflowError) /\
      (fits_gint site = true ->
       (site < 0)%Z \/ (Z.of_nat (num_nodes gr) <= site)%Z)
  | None => r <> Raise IndexError /\ r <> Raise OverflowError
  end.
Proof.
  intros Hobj r.
  assert (Hno : forall e, assembler_error e ->
                          e <> IndexError /\ e <> OverflowError).
  { intros e [->|[->|(a & b & ->)]]; split; discriminate. }
  destruct (classic_none to_sites from_sites) as [[-> ->]|Hsome].
  - simpl; unfold r; rewrite hamiltonian_submatrix_sites_default.
    unfold hamiltonian_submatrix.
    destruct sparse.
    + destruct (make_sparse_full _ _ _ _ _ _ _) as [A|e] eqn:Hm; simpl;
        [split; destruct return_norb; discriminate|].
      destruct (Hno _ (make_sparse_full_raises _ _ _ _ _ _ _ Hm)).
      split; congruence.
    + destruct (make_dense_full _ _ _ _ _ _ _) as [A|e] eqn:Hm; simpl;
        [split; destruct return_norb; discriminate|].
      destruct (Hno _ (make_dense_full_raises _ _ _ _ _ _ _ Hm)).
      split; congruence.
  - unfold r; rewrite hamiltonian_submatrix_sites_selected by assumption.
    destruct (first_bad gr (given from_sites ++ given to_sites)) as [z|]
      eqn:Hbad.
    + assert (Hv : valid_sites gr from_sites && valid_sites gr to_sites
                   = false).
      { destruct (valid_sites gr from_sites) eqn:Vf,
          (valid_sites gr to_sites) eqn:Vt; try reflexivity.
        apply valid_sites_first_bad in Vf, Vt.
        rewrite first_bad_app, Vf, Vt in Hbad; discriminate. }
      rewrite Hv; unfold site_error; rewrite Hbad.
      apply find_some in Hbad as [Hin Hz].
      split; [exact Hin|split; [reflexivity|]].
      intros Hfit; apply negb_true_iff in Hz.
      unfold site_ok in Hz; rewrite Hfit in Hz; simpl in Hz.
      destruct (Z.leb_spec 0 z), (Z.ltb_spec z (Z.of_nat (num_nodes gr)));
        simpl in Hz; try discriminate; lia.
    + rewrite first_bad_app in Hbad.
      destruct (first_bad gr (given from_sites)) eqn:Ef; [discriminate|].
      apply valid_sites_first_bad in Ef, Hbad.
      rewrite Ef, Hbad; simpl; unfold selected_call.
      destruct sparse;
        [destruct (make_sparse _ _ _ _ _ _ _ _ _) as [A|e] eqn:Hm
        |destruct (make_dense _ _ _ _ _ _ _ _ _) as [A|e] eqn:Hm];
        simpl; try (split; destruct return_norb; discriminate).
      * destruct (Hno _ (make_sparse_raises _ _ _ _ _ _ _ _ _ Hm)).
        split; congruence.
      * destruct (Hno _ (make_dense_raises _ _ _ _ _ _ _ _ _ Hm)).
        split; congruence.
Qed.

(** The rows of site 1 and of an item that is not a [gint]; the
    columns of site 0 and of the item 2, which is not a site of the
    two-site graph. *)
Definition rows_overflow : option SiteSeq :=
  Some {| seq_id := 6; seq_items := [1; 2147483648]%Z |}.

Definition cols_0_2 : option SiteSeq :=
  Some {| seq_id := 3; seq_items := [0; 2]%Z |}.

Lemma out_of_range_site_raises_witness :
  (In 2%Z ([0; 2] ++ [1; 2147483648])%Z /\
   hamiltonian_submatrix_sites two_sites_ham two_sites rows_overflow cols_0_2
     false true = Raise IndexError /\
   (true = true -> (2 < 0)%Z \/ (Z.of_nat 2 <= 2)%Z)) /\
  (In 2147483648%Z ([0] ++ [1; 2147483648])%Z /\
   hamiltonian_submatrix_sites two_sites_ham two_sites rows_overflow cols_0
     false true = Raise OverflowError /\
   (false = true -> (2147483648 < 0)%Z \/ (Z.of_nat 2 <= 2147483648)%Z)).
Proof.
  split.
  - apply (@out_of_range_site_raises _ _ two_sites_ham two_sites
             rows_overflow cols_0_2 false true).
    unfold same_object_same_items; simpl; discriminate.
  - apply (@out_of_range_site_raises _ _ two_sites_ham two_sites
             rows_overflow cols_0 false true).
    unfold same_object_same_items; simpl; discriminate.
Defined.

(** The counting pass of [make_sparse] in [gint] arithmetic gives the
    low 32 bits of the number of entries. *)
Lemma sel_count_nbrs_gint_wrap (n_by_to_site : gmap nat nat)
      (to_norb from_norb : list nat) n_fs nbors acc :
  sel_count_nbrs_gint n_by_to_site to_norb from_norb n_fs nbors
                      (gint_wrap (Z.of_nat acc))
  = gint_wrap (Z.of_nat (sel_count_nbrs n_by_to_site to_norb from_norb
                                        n_fs nbors acc)).
Proof.
  unfold sel_count_nbrs_gint, sel_count_nbrs; revert acc.
  induction nbors as [|ts nbors IH]; intros acc; simpl; [reflexivity|].
  destruct (n_by_to_site !! ts) as [n_ts|]; [|apply IH].
  rewrite <- IH; f_equal.
  rewrite gint_wrap_add_l, gint_wrap_add_r; f_equal; lia.
Qed.

Lemma sel_count_entries_gint_wrap (gr : CGraph) (from_sites : list nat)
      (n_by_to_site : gmap nat nat) (to_norb from_norb : list nat) :
  sel_count_entries_gint gr from_sites n_by_to_site to_norb from_norb
  = gint_wrap (Z.of_nat (sel_count_entries gr from_sites n_by_to_site
                                           to_norb from_norb)).
Proof.
  unfold sel_count_entries_gint, sel_count_entries.
  enough (Hgen : forall (l : list (nat * nat)) acc,
    fold_left
      (fun acc (p : nat * nat) =>
         let '(n_fs, fs) := p in
         let acc :=
           match n_by_to_site !! fs with
           | Some _ =>
               gint_wrap (acc + gint_wrap (Z.of_nat (at_ from_norb n_fs)
                                           * Z.of_nat (at_ from_norb n_fs)))
           | None => acc
           end in
         sel_count_nbrs_gint n_by_to_site to_norb from_norb n_fs
                             (out_neighbors gr fs) acc)
      l (gint_wrap (Z.of_nat acc))
    = gint_wrap
        (Z.of_nat
           (fold_left
              (fun acc (p : nat * nat) =>
                 let '(n_fs, fs) := p in
                 let acc :=
                   match n_by_to_site !! fs with
                   | Some _ => acc + at_ from_norb n_fs * at_ from_norb n_fs
                   | None => acc
                   end in
                 sel_count_nbrs n_by_to_site to_norb from_norb n_fs
                                (out_neighbors gr fs) acc)
              l acc))) by apply (Hgen _ 0).
  induction l as [|[n_fs fs] l IH]; intros acc; simpl; [reflexivity|].
  rewrite <- IH; f_equal.
  rewrite <- sel_count_nbrs_gint_wrap; f_equal.
  destruct (n_by_to_site !! fs); [|reflexivity].
  rewrite gint_wrap_add_l, gint_wrap_add_r; f_equal; lia.
Qed.

(** When the number of entries fits a [gint], the run of [make_sparse]
    with [gint] counters is the run studied above. *)
Lemma make_sparse_gint_fits
      {C : Type} `{Scalar C} (ham : nat -> nat -> Matrix C) (gr : CGraph)
      (diag : list (Matrix C)) (from_sites : list nat)
      (n_by_to_site : gmap nat nat)
      (to_norb to_off from_norb from_off : list nat) :
  (Z.of_nat (sel_count_entries gr from_sites n_by_to_site to_norb from_norb)
   < 2 ^ 31)%Z ->
  sel_count_entries_gint gr from_sites n_by_to_site to_norb from_norb
  = Z.of_nat (sel_count_entries gr from_sites n_by_to_site to_norb from_norb)
  /\
  make_sparse_gint ham gr diag from_sites n_by_to_site to_norb to_off
                   from_norb from_off
  = make_sparse ham gr diag from_sites n_by_to_site to_norb to_off
                from_norb from_off.
Proof.
  intros Hfit.
  assert (Hcount :
    sel_count_entries_gint gr from_sites n_by_to_site to_norb from_norb
    = Z.of_nat (sel_count_entries gr from_sites n_by_to_site to_norb
                                  from_norb)).
  { rewrite sel_count_entries_gint_wrap; apply gint_wrap_fits.
    unfold fits_gint; apply andb_true_iff; split;
      [apply Z.leb_le | apply Z.ltb_lt]; lia. }
  split; [exact Hcount|].
  unfold make_sparse_gint, make_sparse; rewrite Hcount.
  destruct (Z.ltb_spec
              (Z.of_nat (sel_count_entries gr from_sites n_by_to_site
                                           to_norb from_norb)) 0); [lia|].
  rewrite Nat2Z.id; reflexivity.
Qed.

(** X2. [make_sparse] does not write past its buffers, whatever the graph
    and the selection, when the number of entries of the selection is
    below [2 ^ 31], so that the [gint] [num_entries] holds it: the write
    pass stores at most the [num_entries] triplets that the counting pass
    allocated, and the only exception is the shape error of a column site
    [fs] and a row site [ts] that is [fs] itself or one of its
    out-neighbours. *)
Theorem make_sparse_within_buffers
        {C : Type} `{Scalar C} (ham : nat -> nat -> Matrix C) (gr : CGraph)
        (diag : list (Matrix C)) (from_sites : list nat)
        (n_by_to_site : gmap nat nat)
        (to_norb to_off from_norb from_off : list nat) :
  (Z.of_nat (sel_count_entries gr from_sites n_by_to_site to_norb from_norb)
   < 2 ^ 31)%Z ->
  let num_entries :=
    sel_count_entries_gint gr from_sites n_by_to_site to_norb from_norb in
  num_entries
  = Z.of_nat (sel_count_entries gr from_sites n_by_to_site to_norb from_norb)
  /\
  match make_sparse_gint ham gr diag from_sites n_by_to_site to_norb to_off
                         from_norb from_off with
  | Ok A => Z.le (Z.of_nat (length (coo_data A))) num_entries
  | Raise e =>
      exists fs ts, e = ValueError_msg fs ts /\ In fs from_sites /\
                    (ts = fs \/ In ts (out_neighbors gr fs))
  end.
Proof.
  intros Hfit num_entries.
  destruct (@make_sparse_gint_fits _ _ ham gr diag from_sites n_by_to_site
              to_norb to_off from_norb from_off Hfit) as [Hcount Hrun].
  split; [exact Hcount|].
  unfold num_entries; rewrite Hrun, Hcount; unfold make_sparse.
  pose proof (@sel_sparse_sites_within _ _ ham gr diag n_by_to_site
                to_norb to_off from_norb from_off
                (sel_count_entries gr from_sites n_by_to_site to_norb
                                   from_norb)
                (enumerate from_sites) []) as Hin.
  rewrite <- sel_count_entries_sum in Hin.
  specialize (Hin ltac:(simpl; lia)).
  destruct (sel_sparse_sites _ _ _ _ _ _ _ _ _ _ _) as [T|e] eqn:Hs;
    simpl in *; [lia|].
  apply sel_sparse_sites_raises in Hs
    as [->|(n_fs & fs & ts & Hfs & -> & Hts)]; [contradiction|].
  exists fs, ts; split; [reflexivity|split; [|exact Hts]].
  unfold enumerate in Hfs; apply in_combine_r in Hfs; exact Hfs.
Qed.

Lemma make_sparse_within_buffers_witness :
  sel_count_entries_gint two_sites [0] (index_by_site [1; 0]) [2; 1] [1]
  = Z.of_nat (sel_count_entries two_sites [0] (index_by_site [1; 0])
                                [2; 1] [1])
  /\
  match make_sparse_gint two_sites_ham two_sites [two_sites_ham 0 0] [0]
                         (index_by_site [1; 0]) [2; 1] [0; 2; 3] [1] [0; 1]
  with
  | Ok A =>
      Z.le (Z.of_nat (length (coo_data A)))
           (sel_count_entries_gint two_sites [0] (index_by_site [1; 0])
                                   [2; 1] [1])
  | Raise e =>
      exists fs ts, e = ValueError_msg fs ts /\ In fs [0] /\
                    (ts = fs \/ In ts (out_neighbors two_sites fs))
  end.
Proof.
  apply (@make_sparse_within_buffers _ _ two_sites_ham two_sites
           [two_sites_ham 0 0] [0] (index_by_site [1; 0]) [2; 1] [0; 2; 3]
           [1] [0; 1]).
  vm_compute; reflexivity.
Defined.


Section SelectionResults.
Context {C : Type} `{ScalarLaws C}.

Variable ham : nat -> nat -> Matrix C.
Variable gr : CGraph.

Lemma selected_calls_agree (to_sites from_sites : option SiteSeq) :
  (forall fs, In fs (selection gr from_sites) ->
              List.NoDup (out_neighbors gr fs)) ->
  (forall fs, In fs (selection gr from_sites) ->
              ~ In fs (out_neighbors gr fs)) ->
  match selected_call ham gr to_sites from_sites true,
        selected_call ham gr to_sites from_sites false with
  | Ok A, Ok B =>
      shape0 (as_dense A) = shape0 (as_dense B) /\
      shape1 (as_dense A) = shape1 (as_dense B) /\
      forall r c, entry (as_dense A) r c = entry (as_dense B) r c
  | Raise e1, Raise e2 => e1 = e2
  | _, _ => False
  end.
Proof.
  intros Hnodup Hnoself; unfold selected_call.
  set (F := selection gr from_sites).
  set (T := selection gr to_sites).
  set (diag := map (fun site => ham site site) F).
  pose proof (@sel_sparse_sites_within _ _ ham gr diag (index_by_site T)
                (norbs_of ham T) (offsets (norbs_of ham T))
                (norbs_of ham F) (offsets (norbs_of ham F))
                (sel_count_entries gr F (index_by_site T) (norbs_of ham T)
                                   (norbs_of ham F))
                (enumerate F) []) as Hbuf.
  rewrite <- sel_count_entries_sum in Hbuf.
  specialize (Hbuf ltac:(simpl; lia)).
  unfold make_sparse, make_dense in *.
  pose proof (@sel_sites_agree _ _ _ ham gr diag F (index_by_site T)
                (norbs_of ham T) (norbs_of ham F)) as Hag.
  specialize (Hag (@index_by_site_inj T)).
  specialize (Hag ltac:(intros ts a Hk; unfold norbs_of;
                        rewrite length_map;
                        exact (index_by_site_lt _ _ Hk))).
  specialize (Hag ltac:(unfold norbs_of; apply length_map)).
  specialize (Hag ltac:(intros b fs a Hfs Hk;
                        apply index_by_site_spec in Hk as [Hk _];
                        rewrite (at_norbs_of ham _ _ Hk),
                                (at_norbs_of ham _ _ Hfs); reflexivity)).
  specialize (Hag (sel_count_entries gr F (index_by_site T) (norbs_of ham T)
                                     (norbs_of ham F))
                  F Hnodup Hnoself 0 []
                  (zeros (List.last (offsets (norbs_of ham T)) 0)
                         (List.last (offsets (norbs_of ham F)) 0))
                  eq_refl ltac:(simpl; lia)).
  specialize (Hag ltac:(repeat split; intros; reflexivity)).
  unfold enumerate in *.
  destruct (sel_sparse_sites _ _ _ _ _ _ _ _ _ _ _) as [T1|e1];
    destruct (sel_dense_sites _ _ _ _ _ _ _ _ _ _) as [M1|e2];
    cbn [bind as_dense todense shape0 shape1 entry coo_shape0 coo_shape1
         coo_data agree] in *.
  - destruct Hag as (Hsame & [S0 S1] & _).
    repeat split; [congruence | congruence |].
    intros r c; symmetry; apply Hsame.
  - exact Hag.
  - destruct e1; try exact Hag; contradiction.
  - destruct e1; try exact Hag; contradiction.
Qed.
End SelectionResults.



Section SelectionDense.
Context {C : Type} `{Scalar C}.

Variable ham : nat -> nat -> Matrix C.
Variable gr : CGraph.

Lemma diag_at_onsite (F : list nat) b fs :
  nth_error F b = Some fs ->
  diag_at (map (fun site => ham site site) F) b = ham fs fs.
Proof.
  intros Hn; unfold diag_at.
  rewrite (nth_indep _ _ (ham 0 0))
    by (rewrite length_map; apply nth_error_Some; rewrite Hn; discriminate).
  rewrite (map_nth (fun site => ham site site)).
  rewrite (nth_error_nth _ _ _ Hn); reflexivity.
Qed.

(** The dense result on a selection, block by block. *)
Lemma selected_dense_holds (to_sites from_sites : option SiteSeq)
      (A : Assembled C) :
  selected_call ham gr to_sites from_sites false = Ok A ->
  holds ham (selection gr from_sites)
        (index_by_site (selection gr to_sites))
        (norbs_of ham (selection gr to_sites))
        (norbs_of ham (selection gr from_sites))
        (written_upto gr (selection gr from_sites)
                      (length (selection gr from_sites)))
        (as_dense A).
Proof.
  unfold selected_call; intros Hrun.
  destruct (make_dense _ _ _ _ _ _ _ _ _) as [M|e] eqn:Hm; [|discriminate].
  injection Hrun as <-; simpl.
  eapply make_dense_holds; [| | |exact Hm].
  - apply index_by_site_inj.
  - intros ts a Hk; unfold norbs_of; rewrite length_map.
    exact (index_by_site_lt _ _ Hk).
  - intros b fs; apply diag_at_onsite.
Qed.

Lemma selected_call_shape (to_sites from_sites : option SiteSeq)
      (sparse : bool) (A : Assembled C) :
  selected_call ham gr to_sites from_sites sparse = Ok A ->
  shape0 (as_dense A) = list_sum (norbs_of ham (selection gr to_sites)) /\
  shape1 (as_dense A) = list_sum (norbs_of ham (selection gr from_sites)).
Proof.
  destruct sparse.
  - unfold selected_call, make_sparse; intros Hrun.
    destruct (sel_sparse_sites _ _ _ _ _ _ _ _ _ _ _) as [T|e];
      [|discriminate].
    injection Hrun as <-.
    cbn [as_dense todense shape0 shape1 coo_shape0 coo_shape1].
    split; apply offsets_last_sum.
  - intros Hrun; apply selected_dense_holds in Hrun as ([S0 S1] & _).
    rewrite S0, S1, !offsets_last_sum; auto.
Qed.

Lemma dense_sites_shape diag (norb off : list nat) sites (M M' : Matrix C) :
  dense_sites ham gr diag norb off norb off sites M = Ok M' ->
  shape0 M' = shape0 M /\ shape1 M' = shape1 M.
Proof.
  unfold dense_sites.
  apply (@for_each_invariant _ _ _
           (fun M0 => shape0 M0 = shape0 M /\ shape1 M0 = shape1 M));
    [|auto].
  intros fs M0 M1 _ [I0 I1].
  destruct (negb _); [discriminate|].
  destruct (assign_block M0 _ _ _ _ _) as [M2|e] eqn:Hon; [|discriminate].
  apply assign_block_ok in Hon as (S0 & S1 & _); simpl.
  unfold dense_nbrs.
  apply (@for_each_invariant _ _ _
           (fun M3 => shape0 M3 = shape0 M /\ shape1 M3 = shape1 M));
    [|split; congruence].
  intros ts M3 M4 _ [J0 J1].
  destruct (ts <? fs); [intros [= <-]; auto|].
  destruct (_ || _); [discriminate|].
  destruct (assign_block M3 _ _ _ _ _) as [M5|e] eqn:H1; [|discriminate].
  apply assign_block_ok in H1 as (S50 & S51 & _); simpl.
  intros H2; apply assign_block_ok in H2 as (S40 & S41 & _).
  split; congruence.
Qed.

Lemma hamiltonian_submatrix_shape (sparse : bool) (A : Assembled C) :
  hamiltonian_submatrix ham gr sparse = Ok A ->
  shape0 (as_dense A) = list_sum (site_norbs ham gr) /\
  shape1 (as_dense A) = list_sum (site_norbs ham gr).
Proof.
  unfold hamiltonian_submatrix; destruct sparse.
  - unfold make_sparse_full.
    destruct (sparse_sites _ _ _ _ _ _ _ _ _ _) as [T|e]; [|discriminate].
    intros [= <-].
    cbn [bind as_dense todense shape0 shape1 coo_shape0 coo_shape1].
    split; apply offsets_last_sum.
  - unfold make_dense_full.
    destruct (dense_sites _ _ _ _ _ _ _ _ _) as [M|e] eqn:Hd; [|discriminate].
    intros [= <-].
    apply dense_sites_shape in Hd as [S0 S1].
    cbn [as_dense shape0 shape1 zeros] in *.
    rewrite S0, S1; split; apply offsets_last_sum.
Qed.
End SelectionDense.

Lemma selection_default {C : Type} (ham : nat -> nat -> Matrix C)
      (gr : CGraph) :
  norbs_of ham (selection gr None) = site_norbs ham gr.
Proof. reflexivity. Qed.

(** X4. With [return_norb], the arrays returned beside the matrix hold
    [h.shape[0]] of the onsite block of each selected site, in the order
    of the selection, and their sums are the two dimensions of the
    matrix. *)
Theorem returned_norbs_give_shape
        {C : Type} `{Scalar C} (ham : nat -> nat -> Matrix C) (gr : CGraph)
        (to_sites from_sites : option SiteSeq) (sparse : bool)
        (mat : Assembled C) (to_norb from_norb : list nat) :
  same_object_same_items to_sites from_sites ->
  hamiltonian_submatrix_sites ham gr to_sites from_sites sparse true
  = Ok (MatNorb mat to_norb from_norb) ->
  to_norb = map (fun site => shape0 (ham site site)) (selection gr to_sites)
  /\
  from_norb
  = map (fun site => shape0 (ham site site)) (selection gr from_sites) /\
  shape0 (as_dense mat) = list_sum to_norb /\
  shape1 (as_dense mat) = list_sum from_norb.
Proof.
  intros Hobj Hrun.
  destruct (classic_none to_sites from_sites) as [[-> ->]|Hsome].
  - rewrite hamiltonian_submatrix_sites_default in Hrun.
    destruct (hamiltonian_submatrix ham gr sparse) as [A|e] eqn:Hm;
      [|discriminate].
    injection Hrun as <- <- <-.
    apply hamiltonian_submatrix_shape in Hm as [S0 S1].
    repeat split; assumption.
  - rewrite hamiltonian_submatrix_sites_selected in Hrun by assumption.
    destruct (_ && _); [|discriminate].
    destruct (selected_call ham gr to_sites from_sites sparse) as [A|e] eqn:Hm;
      [|discriminate].
    injection Hrun as <- <- <-.
    apply selected_call_shape in Hm as [S0 S1].
    repeat split; assumption.
Qed.

(** The index kept for a site is its last one: no later item of
    [to_sites] is the same site. *)
Lemma index_by_site_last (l : list nat) (ts a : nat) :
  index_by_site l !! ts = Some a <->
  nth_error l a = Some ts /\ existsb (Nat.eqb ts) (skipn (S a) l) = false.
Proof.
  rewrite index_by_site_spec.
  split; intros [Hn Hlast]; (split; [exact Hn|]).
  - destruct (existsb (Nat.eqb ts) (skipn (S a) l)) eqn:Hex; [|reflexivity].
    exfalso.
    apply existsb_exists in Hex as (x & Hin & Hx).
    apply Nat.eqb_eq in Hx; subst x.
    apply In_nth_error in Hin as (d & Hd).
    rewrite nth_error_skipn in Hd.
    apply (Hlast (S a + d)); [lia | exact Hd].
  - intros a' Ha' Hn'.
    assert (Hex : existsb (Nat.eqb ts) (skipn (S a) l) = true);
      [|congruence].
    apply existsb_exists; exists ts; split; [|apply Nat.eqb_refl].
    apply (nth_error_In _ (a' - S a)).
    rewrite nth_error_skipn.
    replace (S a + (a' - S a)) with a' by lia; exact Hn'.
Qed.

Section SelectionBlocks.
Context {C : Type} `{Scalar C}.

Variable ham : nat -> nat -> Matrix C.
Variable gr : CGraph.

Lemma in_site_block (l : list nat) a site i :
  nth_error l a = Some site -> i < shape0 (ham site site) ->
  in_site (norbs_of ham l) a (at_ (offsets (norbs_of ham l)) a + i).
Proof.
  intros Hn Hi; unfold in_site.
  rewrite (at_norbs_of ham _ _ Hn); lia.
Qed.

(** The block of row index [a] and column index [b] of the dense result:
    the block of the two sites when the row site is the column site or
    one of its out-neighbours, unless the row site is listed again later
    in [to_sites]. *)
Lemma selected_dense_entry (to_sites from_sites : option SiteSeq)
      (B : Assembled C) :
  selected_call ham gr to_sites from_sites false = Ok B ->
  forall a b ts fs i j,
    nth_error (selection gr to_sites) a = Some ts ->
    nth_error (selection gr from_sites) b = Some fs ->
    i < shape0 (ham ts ts) -> j < shape0 (ham fs fs) ->
    entry (as_dense B)
          (at_ (offsets (norbs_of ham (selection gr to_sites))) a + i)
          (at_ (offsets (norbs_of ham (selection gr from_sites))) b + j)
    = if negb (existsb (Nat.eqb ts) (skipn (S a) (selection gr to_sites)))
         && linked gr ts fs
      then entry (ham ts fs) i j else c0.
Proof.
  intros Hrun a b ts fs i j Hts Hfs Hi Hj.
  apply selected_dense_holds in Hrun as (_ & Hval & Hrows).
  pose proof (in_site_block _ _ Hts Hi) as Ha.
  pose proof (in_site_block _ _ Hfs Hj) as Hb.
  destruct (existsb (Nat.eqb ts) (skipn (S a) (selection gr to_sites)))
    eqn:Hex; simpl.
  - apply (Hrows a); [|exact Ha].
    intros ts' Hk; apply index_by_site_last in Hk as [Hn Hlast].
    congruence.
  - assert (Hk : index_by_site (selection gr to_sites) !! ts = Some a)
      by (apply index_by_site_last; auto).
    rewrite (Hval ts a b fs _ _ Hk Hfs Ha Hb).
    unfold written_upto.
    assert (Lb : b < length (selection gr from_sites))
      by (apply nth_error_Some; rewrite Hfs; discriminate).
    destruct (Nat.ltb_spec b (length (selection gr from_sites))); [|lia].
    rewrite (nth_error_nth _ _ _ Hfs); simpl.
    replace (at_ (offsets (norbs_of ham (selection gr to_sites))) a + i
             - at_ (offsets (norbs_of ham (selection gr to_sites))) a)
      with i by lia.
    replace (at_ (offsets (norbs_of ham (selection gr from_sites))) b + j
             - at_ (offsets (norbs_of ham (selection gr from_sites))) b)
      with j by lia.
    reflexivity.
Qed.
End SelectionBlocks.

(** X5. The content of the matrix on a selection without repeated row
    sites: the block at the rows of [to_sites[a]] and the columns of
    [from_sites[b]] is [ham(ts, fs)] when the row site is the column site
    or one of its out-neighbours, and zero otherwise.  For the sparse
    format the graph must not repeat a neighbour or hold a self-loop at
    the selected column sites. *)
Theorem selection_block_content
        {C : Type} `{ScalarLaws C} (ham : nat -> nat -> Matrix C)
        (gr : CGraph) (to_sites from_sites : option SiteSeq)
        (sparse return_norb : bool) (R : Returned C) :
  to_sites <> None \/ from_sites <> None ->
  same_object_same_items to_sites from_sites ->
  List.NoDup (selection gr to_sites) ->
  (sparse = true ->
   forall fs, In fs (selection gr from_sites) ->
              List.NoDup (out_neighbors gr fs) /\
              ~ In fs (out_neighbors gr fs)) ->
  hamiltonian_submatrix_sites ham gr to_sites from_sites sparse return_norb
  = Ok R ->
  forall a b ts fs i j,
    nth_error (selection gr to_sites) a = Some ts ->
    nth_error (selection gr from_sites) b = Some fs ->
    i < shape0 (ham ts ts) -> j < shape0 (ham fs fs) ->
    entry (as_dense (returned_mat R))
          (at_ (offsets (norbs_of ham (selection gr to_sites))) a + i)
          (at_ (offsets (norbs_of ham (selection gr from_sites))) b + j)
    = if linked gr ts fs then entry (ham ts fs) i j else c0.
Proof.
  intros Hsome Hobj Hnd Hgraph Hrun a b ts fs i j Hts Hfs Hi Hj.
  rewrite hamiltonian_submatrix_sites_selected in Hrun by assumption.
  destruct (_ && _); [|discriminate].
  destruct (selected_call ham gr to_sites from_sites sparse) as [A|e] eqn:Hm;
    [|discriminate].
  assert (HR : returned_mat R = A)
    by (destruct return_norb; injection Hrun as <-; reflexivity).
  rewrite HR; clear Hrun HR.
  assert (Hlast : existsb (Nat.eqb ts) (skipn (S a) (selection gr to_sites))
                  = false).
  { destruct (existsb _ _) eqn:Hex; [|reflexivity].
    exfalso.
    apply existsb_exists in Hex as (x & Hin & Hx).
    apply Nat.eqb_eq in Hx; subst x.
    apply In_nth_error in Hin as (d & Hd).
    rewrite nth_error_skipn in Hd.
    assert (La : a < length (selection gr to_sites))
      by (apply nth_error_Some; rewrite Hts; discriminate).
    pose proof (proj1 (NoDup_nth_error _) Hnd a (S a + d) La
                      ltac:(congruence)).
    lia. }
  destruct sparse.
  - pose proof (@selected_calls_agree _ _ _ ham gr to_sites from_sites
                  (fun fs Hin => proj1 (Hgraph eq_refl fs Hin))
                  (fun fs Hin => proj2 (Hgraph eq_refl fs Hin))) as Hag.
    rewrite Hm in Hag.
    destruct (selected_call ham gr to_sites from_sites false) as [B|e] eqn:Hd;
      [|destruct Hag].
    destruct Hag as (_ & _ & ->).
    rewrite (@selected_dense_entry _ _ ham gr to_sites from_sites B Hd
               a b ts fs i j Hts Hfs Hi Hj), Hlast.
    reflexivity.
  - rewrite (@selected_dense_entry _ _ ham gr to_sites from_sites A Hm
               a b ts fs i j Hts Hfs Hi Hj), Hlast.
    reflexivity.
Qed.

(** X6. A site listed twice in [to_sites] keeps its last index only: in
    the dense result the rows of every earlier listing stay zero. *)
Theorem repeated_row_site_keeps_last
        {C : Type} `{Scalar C} (ham : nat -> nat -> Matrix C) (gr : CGraph)
        (to_sites from_sites : option SiteSeq) (return_norb : bool)
        (R : Returned C) :
  same_object_same_items to_sites from_sites ->
  hamiltonian_submatrix_sites ham gr to_sites from_sites false return_norb
  = Ok R ->
  forall a a' ts i c,
    a < a' ->
    nth_error (selection gr to_sites) a = Some ts ->
    nth_error (selection gr to_sites) a' = Some ts ->
    i < shape0 (ham ts ts) ->
    entry (as_dense (returned_mat R))
          (at_ (offsets (norbs_of ham (selection gr to_sites))) a + i) c
    = c0.
Proof.
  intros Hobj Hrun a a' ts i c Haa Hts Hts' Hi.
  destruct (classic_none to_sites from_sites) as [[-> ->]|Hsome].
  { exfalso; simpl in Hts, Hts'.
    assert (La : a' < num_nodes gr).
    { rewrite <- (range_length (num_nodes gr)).
      apply nth_error_Some; rewrite Hts'; discriminate. }
    unfold range in *.
    rewrite nth_error_seq in Hts, Hts'.
    destruct (Nat.ltb_spec a (num_nodes gr)), (Nat.ltb_spec a' (num_nodes gr));
      try discriminate; try lia.
    injection Hts as <-; injection Hts' as E; lia. }
  rewrite hamiltonian_submatrix_sites_selected in Hrun by assumption.
  destruct (_ && _); [|discriminate].
  destruct (selected_call ham gr to_sites from_sites false) as [A|e] eqn:Hm;
    [|discriminate].
  assert (HR : returned_mat R = A)
    by (destruct return_norb; injection Hrun as <-; reflexivity).
  rewrite HR; clear Hrun HR.
  apply selected_dense_holds in Hm as (_ & _ & Hrows).
  apply (Hrows a); [|apply in_site_block with (site := ts); assumption].
  intros ts' Hk; apply index_by_site_spec in Hk as [Hn Hlast].
  apply (Hlast a' Haa); congruence.
Qed.

Lemma rows_cols_distinct_objects : same_object_same_items rows_1_0 cols_0.
Proof. unfold same_object_same_items; simpl; discriminate. Qed.

Lemma returned_norbs_give_shape_witness :
  match hamiltonian_submatrix_sites two_sites_ham two_sites rows_1_0 cols_0
                                    false true with
  | Ok (MatNorb mat to_norb from_norb) =>
      to_norb = [2; 1] /\ from_norb = [1] /\
      shape0 (as_dense mat) = 3 /\ shape1 (as_dense mat) = 1
  | _ => False
  end.
Proof.
  destruct (hamiltonian_submatrix_sites two_sites_ham two_sites rows_1_0
              cols_0 false true) as [[mat|mat to_norb from_norb]|e] eqn:Hrun;
    try (vm_compute in Hrun; discriminate).
  destruct (@returned_norbs_give_shape _ _ two_sites_ham two_sites rows_1_0
              cols_0 false _ _ _ rows_cols_distinct_objects Hrun)
    as (E1 & E2 & E3 & E4).
  rewrite E3, E4, E1, E2; vm_compute; auto.
Defined.

Lemma selection_block_content_witness :
  match hamiltonian_submatrix_sites two_sites_ham two_sites rows_1_0 cols_0
                                    true false with
  | Ok R =>
      entry (as_dense (returned_mat R)) 0 0 = gz 1 2 /\
      entry (as_dense (returned_mat R)) 2 0 = gz 3 0
  | Raise _ => False
  end.
Proof.
  destruct (hamiltonian_submatrix_sites two_sites_ham two_sites rows_1_0
              cols_0 true false) as [R|e] eqn:Hrun;
    [|vm_compute in Hrun; discriminate].
  assert (Hnd : List.NoDup (selection two_sites rows_1_0))
    by (repeat constructor; simpl; intuition discriminate).
  assert (Hgr : true = true ->
                forall fs, In fs (selection two_sites cols_0) ->
                           List.NoDup (out_neighbors two_sites fs) /\
                           ~ In fs (out_neighbors two_sites fs)).
  { intros _ fs [<-|[]]; simpl; split.
    - repeat constructor; simpl; tauto.
    - intros [E|[]]; discriminate. }
  assert (Hsome : rows_1_0 <> None \/ cols_0 <> None)
    by (left; discriminate).
  pose proof (@selection_block_content _ _ gauss_laws two_sites_ham two_sites
                rows_1_0 cols_0 true false R Hsome
                rows_cols_distinct_objects Hnd Hgr Hrun) as Hblock.
  assert (L1 : 0 < 1) by lia.
  assert (L2 : 0 < 2) by lia.
  split.
  - exact (Hblock 0 0 1 0 0 0 eq_refl eq_refl L2 L1).
  - exact (Hblock 1 0 0 0 0 0 eq_refl eq_refl L1 L1).
Defined.

(** Worked input: site 0 listed twice among the rows. *)
Definition rows_0_1_0 : option SiteSeq :=
  Some {| seq_id := 4; seq_items := [0; 1; 0]%Z |}.

Lemma repeated_row_site_keeps_last_witness :
  match hamiltonian_submatrix_sites two_sites_ham two_sites rows_0_1_0 cols_0
                                    false false with
  | Ok R => forall c, entry (as_dense (returned_mat R)) 0 c = gz 0 0
  | Raise _ => False
  end.
Proof.
  destruct (hamiltonian_submatrix_sites two_sites_ham two_sites rows_0_1_0
              cols_0 false false) as [R|e] eqn:Hrun;
    [|vm_compute in Hrun; discriminate].
  intros c.
  assert (Hobj : same_object_same_items rows_0_1_0 cols_0)
    by (unfold same_object_same_items; simpl; discriminate).
  assert (L1 : 0 < 1) by lia.
  assert (L2 : 0 < 2) by lia.
  exact (@repeated_row_site_keeps_last _ _ two_sites_ham two_sites
           rows_0_1_0 cols_0 false R Hobj Hrun 0 2 0 0 c L2 eq_refl eq_refl
           L1).
Defined.

Example rows_0_1_0_dense :
  match hamiltonian_submatrix_sites two_sites_ham two_sites rows_0_1_0 cols_0
                                    false false with
  | Ok R => rows_of (as_dense (returned_mat R))
            = [[gz 0 0]; [gz 1 2]; [gz 0 0]; [gz 3 0]]
  | Raise _ => False
  end.
Proof. vm_compute; reflexivity. Qed.

(** ** Which call on a selection raises the shape error *)



Section SelectionOutcome.
Context {C : Type} `{Scalar C}.

Variable ham : nat -> nat -> Matrix C.
Variable gr : CGraph.
Variables T F : list nat.

Let n_by_to_site := index_by_site T.
Let to_norb := norbs_of ham T.
Let from_norb := norbs_of ham F.
Let to_off := offsets to_norb.
Let from_off := offsets from_norb.
Let diag := map (fun site => ham site site) F.













End SelectionOutcome.




(** * The full system, block by block *)

Section FullSystemContent.
Context {C : Type} `{Scalar C}.

Variable ham : nat -> nat -> Matrix C.
Variable gr : CGraph.

Let norb := site_norbs ham gr.
Let off := offsets norb.
Let total := List.last off 0.

Hypothesis self_loop_free : no_self_loop gr.

(** The entry [(i, j)] of the block of row site [a] and column site [b]
    when the neighbours [D fs] of each column site [fs] are done
    ([D fs fs] stands for the onsite block): blocks below the diagonal
    are written as they are, blocks above it as conjugate transposes. *)
Definition expected (D : nat -> nat -> bool) (a b i j : nat) : C :=
  if a =? b then (if D a a then entry (ham a a) i j else c0)
  else if b <? a then (if D b a then entry (ham a b) i j else c0)
  else (if D a b then cconj (entry (ham b a) j i) else c0).

Definition full_holds (D : nat -> nat -> bool) (M : Matrix C) : Prop :=
  (shape0 M = total /\ shape1 M = total) /\
  forall a b r c,
    in_site norb a r -> in_site norb b c ->
    entry M r c = expected D a b (r - at_ off a) (c - at_ off b).

Lemma full_holds_ext (D D' : nat -> nat -> bool) (M : Matrix C) :
  (forall fs ts, fs <= ts -> D fs ts = D' fs ts) ->
  full_holds D M -> full_holds D' M.
Proof.
  intros Hext (Hsh & Hval); split; [exact Hsh|].
  intros a b r c Ha Hb; rewrite (Hval a b r c Ha Hb); unfold expected.
  destruct (Nat.eqb_spec a b) as [->|Hne].
  - rewrite (Hext b b) by lia; reflexivity.
  - destruct (Nat.ltb_spec b a).
    + rewrite (Hext b a) by lia; reflexivity.
    + rewrite (Hext a b) by lia; reflexivity.
Qed.

Lemma dense_onsite_holds D k (M M' : Matrix C) :
  shape0 (ham k k) = at_ norb k -> shape1 (ham k k) = at_ norb k ->
  full_holds D M ->
  assign_block M (at_ off k) (at_ off (k + 1)) (at_ off k) (at_ off (k + 1))
               (ham k k) = Ok M' ->
  full_holds (fun fs ts => D fs ts || ((fs =? k) && (ts =? k))) M'.
Proof.
  intros E0 E1 ([S0 S1] & Hval) Hrun.
  apply assign_block_ok in Hrun as (S0' & S1' & HM').
  split; [split; congruence|].
  intros a b r c Ha Hb; rewrite HM'.
  destruct (in_block (at_ off k) (at_ off k) (ham k k) r c) eqn:B.
  - apply (in_block_sites ham gr _ _ _ _ _ E0 E1) in B as [Br Bc].
    pose proof (in_site_unique Ha Br); pose proof (in_site_unique Hb Bc).
    subst a b; unfold expected.
    rewrite !Nat.eqb_refl, orb_true_r; reflexivity.
  - rewrite (Hval a b r c Ha Hb); unfold expected.
    destruct (Nat.eqb_spec a b) as [->|Hne].
    + destruct (Nat.eqb_spec b k) as [->|_];
        [|rewrite orb_false_r; reflexivity].
      exfalso.
      assert (B' : in_block (at_ off k) (at_ off k) (ham k k) r c = true)
        by (apply (in_block_sites ham gr _ _ _ _ _ E0 E1); auto).
      rewrite B in B'; discriminate.
    + destruct (Nat.ltb_spec b a).
      * destruct (Nat.eqb_spec b k) as [->|_]; simpl;
          [|rewrite orb_false_r; reflexivity].
        destruct (Nat.eqb_spec a k) as [->|_]; [lia|].
        rewrite orb_false_r; reflexivity.
      * destruct (Nat.eqb_spec a k) as [->|_]; simpl;
          [|rewrite orb_false_r; reflexivity].
        destruct (Nat.eqb_spec b k) as [->|_]; [lia|].
        rewrite orb_false_r; reflexivity.
Qed.

Lemma dense_hop_holds D k ts (M M1 M2 : Matrix C) :
  k < ts ->
  shape0 (ham ts k) = at_ norb ts -> shape1 (ham ts k) = at_ norb k ->
  full_holds D M ->
  assign_block M (at_ off ts) (at_ off (ts + 1)) (at_ off k) (at_ off (k + 1))
               (ham ts k) = Ok M1 ->
  assign_block M1 (at_ off k) (at_ off (k + 1)) (at_ off ts)
               (at_ off (ts + 1)) (conj_transpose (ham ts k)) = Ok M2 ->
  full_holds (fun fs ts' => D fs ts' || ((fs =? k) && (ts' =? ts))) M2.
Proof.
  intros Hlt E0 E1 ([S0 S1] & Hval) H1 H2.
  apply assign_block_ok in H1 as (S10 & S11 & HM1).
  apply assign_block_ok in H2 as (S20 & S21 & HM2).
  split; [split; congruence|].
  intros a b r c Ha Hb.
  rewrite HM2, in_block_conj_transpose, HM1.
  destruct (in_block (at_ off ts) (at_ off k) (ham ts k) c r) eqn:Bcr.
  { apply (in_block_sites ham gr _ _ _ _ _ E0 E1) in Bcr as [Bc Br].
    pose proof (in_site_unique Ha Br); pose proof (in_site_unique Hb Bc).
    subst a b; unfold expected; simpl.
    destruct (Nat.eqb_spec k ts); [lia|].
    destruct (Nat.ltb_spec ts k); [lia|].
    rewrite !Nat.eqb_refl, orb_true_r; reflexivity. }
  destruct (in_block (at_ off ts) (at_ off k) (ham ts k) r c) eqn:Brc.
  { apply (in_block_sites ham gr _ _ _ _ _ E0 E1) in Brc as [Br Bc].
    pose proof (in_site_unique Ha Br); pose proof (in_site_unique Hb Bc).
    subst a b; unfold expected.
    destruct (Nat.eqb_spec ts k); [lia|].
    destruct (Nat.ltb_spec k ts); [|lia].
    rewrite !Nat.eqb_refl, orb_true_r; reflexivity. }
  rewrite (Hval a b r c Ha Hb); unfold expected.
  assert (Hin : forall x y r' c',
             in_site norb x r' -> in_site norb y c' ->
             in_block (at_ off ts) (at_ off k) (ham ts k) r' c' = false ->
             (y =? k) && (x =? ts) = false).
  { intros x y r' c' Hx Hy B.
    destruct (Nat.eqb_spec y k) as [->|_]; [|reflexivity].
    destruct (Nat.eqb_spec x ts) as [->|_]; [|reflexivity].
    assert (B' : in_block (at_ off ts) (at_ off k) (ham ts k) r' c' = true)
      by (apply (in_block_sites ham gr _ _ _ _ _ E0 E1); auto).
    rewrite B in B'; discriminate. }
  destruct (Nat.eqb_spec a b) as [->|Hne].
  - destruct (Nat.eqb_spec b k) as [->|_]; simpl;
      [|rewrite orb_false_r; reflexivity].
    destruct (Nat.eqb_spec k ts); [lia|].
    rewrite orb_false_r; reflexivity.
  - destruct (Nat.ltb_spec b a).
    + rewrite (Hin a b r c Ha Hb Brc), orb_false_r; reflexivity.
    + rewrite (Hin b a c r Hb Ha Bcr), orb_false_r; reflexivity.
Qed.

Lemma dense_nbrs_holds k nb :
  ~ In k nb ->
  forall D (M M' : Matrix C),
    full_holds D M ->
    dense_nbrs ham norb off norb off k nb M = Ok M' ->
    full_holds (fun fs ts => D fs ts || ((fs =? k) && existsb (Nat.eqb ts) nb))
               M'.
Proof.
  induction nb as [|ts nb IH]; intros Hself D M M' HD Hrun.
  - injection Hrun as <-.
    apply full_holds_ext with (D := D); [|exact HD].
    intros fs ts _; simpl; rewrite andb_false_r, orb_false_r; reflexivity.
  - assert (Hne : ts <> k) by (intros ->; apply Hself; left; reflexivity).
    assert (Hself' : ~ In k nb) by (intros Hin; apply Hself; right; exact Hin).
    unfold dense_nbrs in Hrun; simpl for_each in Hrun.
    destruct (Nat.ltb_spec ts k) as [Hlt|Hge].
    + simpl in Hrun.
      pose proof (IH Hself' _ _ _ HD Hrun) as HD2.
      apply full_holds_ext with (2 := HD2).
      intros fs ts' Hle; simpl.
      destruct (Nat.eqb_spec fs k) as [->|_]; simpl; [|reflexivity].
      destruct (Nat.eqb_spec ts' ts) as [->|_]; [lia | reflexivity].
    + destruct (Nat.eqb_spec (shape0 (ham ts k)) (at_ norb ts)) as [E0|_];
        [|discriminate].
      destruct (Nat.eqb_spec (shape1 (ham ts k)) (at_ norb k)) as [E1|_];
        [|discriminate].
      simpl in Hrun.
      destruct (assign_block M _ _ _ _ (ham ts k)) as [M1|e] eqn:H1;
        [|discriminate].
      simpl in Hrun.
      destruct (assign_block M1 _ _ _ _ (conj_transpose (ham ts k)))
        as [M2|e] eqn:H2; [|discriminate].
      simpl in Hrun.
      assert (HD1 : full_holds
                      (fun fs ts' => D fs ts' || ((fs =? k) && (ts' =? ts)))
                      M2)
        by (eapply dense_hop_holds; eauto; lia).
      pose proof (IH Hself' _ _ _ HD1 Hrun) as HD2.
      apply full_holds_ext with (2 := HD2).
      intros fs ts' _; simpl.
      destruct (D fs ts'), (fs =? k), (ts' =? ts), (existsb _ nb);
        reflexivity.
Qed.

(** The neighbours done once the first [k] sites are. *)
Definition done_upto (k fs ts : nat) : bool := (fs <? k) && linked gr ts fs.

Lemma dense_sites_holds (m : nat) :
  forall k (M M' : Matrix C),
    k + m <= num_nodes gr ->
    full_holds (done_upto k) M ->
    dense_sites ham gr (fun site => ham site site) norb off norb off
                (seq k m) M = Ok M' ->
    full_holds (done_upto (k + m)) M'.
Proof.
  induction m as [|m IH]; intros k M M' Hk HD Hrun.
  - injection Hrun as <-; rewrite Nat.add_0_r; exact HD.
  - simpl seq in Hrun; unfold dense_sites in Hrun; simpl for_each in Hrun.
    destruct (Nat.eqb_spec (shape0 (ham k k)) (shape1 (ham k k))) as [E0|_];
      [|discriminate].
    destruct (Nat.eqb_spec (shape1 (ham k k)) (at_ norb k)) as [E1|_];
      [|discriminate].
    simpl in Hrun.
    destruct (assign_block M _ _ _ _ (ham k k)) as [M1|e] eqn:Hon;
      [|discriminate].
    simpl in Hrun.
    destruct (dense_nbrs ham norb off norb off k (out_neighbors gr k) M1)
      as [M2|e] eqn:Hnb; [|discriminate].
    simpl in Hrun.
    replace (k + S m) with (S k + m) by lia.
    apply (IH (S k) M2 M'); [lia | | exact Hrun].
    assert (HD1 : full_holds
                    (fun fs ts => done_upto k fs ts
                                  || ((fs =? k) && (ts =? k))) M1)
      by (eapply dense_onsite_holds; eauto; congruence).
    assert (Hself : ~ In k (out_neighbors gr k))
      by (apply self_loop_free; lia).
    pose proof (@dense_nbrs_holds k (out_neighbors gr k) Hself _ _ _ HD1 Hnb)
      as HD2.
    apply full_holds_ext with (2 := HD2).
    intros fs ts _; unfold done_upto, linked.
    destruct (Nat.ltb_spec fs k), (Nat.eqb_spec fs k),
      (Nat.ltb_spec fs (S k)); try lia; simpl.
    + rewrite !orb_false_r; reflexivity.
    + subst fs; reflexivity.
Qed.

(** The finished blocks of the full system. *)
Definition full_block (a b i j : nat) : C :=
  if a =? b then entry (ham a a) i j
  else if b <? a
       then (if existsb (Nat.eqb a) (out_neighbors gr b)
             then entry (ham a b) i j else c0)
       else (if existsb (Nat.eqb b) (out_neighbors gr a)
             then cconj (entry (ham b a) j i) else c0).

Lemma make_dense_full_entry (M : Matrix C) :
  make_dense_full ham gr (fun site => ham site site) norb off norb off = Ok M ->
  forall a b i j,
    a < num_nodes gr -> b < num_nodes gr ->
    i < shape0 (ham a a) -> j < shape0 (ham b b) ->
    entry M (at_ off a + i) (at_ off b + j) = full_block a b i j.
Proof.
  unfold make_dense_full, range; intros Hrun a b i j La Lb Hi Hj.
  assert (Hzero : full_holds (done_upto 0) (zeros total total)).
  { split; [split; reflexivity|].
    intros x y r c _ _; unfold expected, done_upto; simpl.
    destruct (x =? y); [reflexivity|].
    destruct (y <? x); reflexivity. }
  assert (Hn : 0 + num_nodes gr <= num_nodes gr) by lia.
  pose proof (@dense_sites_holds (num_nodes gr) 0 (zeros total total) M
                Hn Hzero Hrun) as (_ & Hval).
  assert (Hnorb : forall s, s < num_nodes gr ->
                            at_ norb s = shape0 (ham s s)).
  { intros s Hs; unfold at_, norb, site_norbs.
    rewrite (nth_indep _ _ (shape0 (ham 0 0)))
      by (rewrite length_map, range_length; exact Hs).
    rewrite (map_nth (fun site => shape0 (ham site site))).
    unfold range; rewrite seq_nth by exact Hs; reflexivity. }
  rewrite (Hval a b).
  2:{ unfold in_site; fold off; rewrite (Hnorb a La); lia. }
  2:{ unfold in_site; fold off; rewrite (Hnorb b Lb); lia. }
  replace (at_ off a + i - at_ off a) with i by lia.
  replace (at_ off b + j - at_ off b) with j by lia.
  unfold expected, full_block, done_upto, linked; simpl.
  destruct (Nat.ltb_spec a (num_nodes gr)); [|lia].
  destruct (Nat.ltb_spec b (num_nodes gr)); [|lia].
  destruct (Nat.eqb_spec a b) as [->|Hne]; simpl.
  - rewrite Nat.eqb_refl; reflexivity.
  - destruct (Nat.ltb_spec b a).
    + destruct (Nat.eqb_spec a b); [lia | reflexivity].
    + destruct (Nat.eqb_spec b a); [lia | reflexivity].
Qed.
End FullSystemContent.

(** The two formats of the full system agree on a graph without
    repeated neighbours and self-loops. *)
Lemma full_calls_agree {C : Type} `{ScalarLaws C}
      (ham : nat -> nat -> Matrix C) (gr : CGraph) :
  graph_wf gr ->
  (forall fs, fs < num_nodes gr -> List.NoDup (out_neighbors gr fs)) ->
  no_self_loop gr ->
  match hamiltonian_submatrix ham gr true,
        hamiltonian_submatrix ham gr false with
  | Ok A, Ok B => forall r c, entry (as_dense A) r c = entry (as_dense B) r c
  | Raise e1, Raise e2 => e1 = e2
  | _, _ => False
  end.
Proof.
  intros Hwf Hnodup Hself; unfold hamiltonian_submatrix.
  set (norb := site_norbs ham gr).
  set (off := offsets norb).
  pose proof (@sparse_sites_within _ _ ham gr (fun site => ham site site)
                norb off norb off (count_entries gr norb norb)
                (range (num_nodes gr)) []) as Hin.
  rewrite <- count_entries_sum in Hin.
  assert (Hs : forall fs, In fs (range (num_nodes gr)) ->
                          ~ In fs (out_neighbors gr fs))
    by (intros fs Hfs; apply Hself; apply in_seq in Hfs; lia).
  specialize (Hin Hs ltac:(simpl; lia)).
  unfold make_sparse_full, make_dense_full in *.
  pose proof (@sites_agree _ _ _ ham gr (count_entries gr norb norb)
                (num_nodes gr) 0 [] (zeros (List.last off 0) (List.last off 0))
                eq_refl Hnodup Hself Hwf) as Hag.
  fold norb off in Hag.
  specialize (Hag ltac:(repeat split; intros; reflexivity)).
  unfold range in *.
  destruct (sparse_sites _ _ _ _ _ _ _ _ _ _) as [T|e1];
    destruct (dense_sites _ _ _ _ _ _ _ _ _) as [M|e2];
    cbn [bind as_dense todense shape0 shape1 entry coo_shape0 coo_shape1
         coo_data agree] in *.
  - destruct Hag as (Hsame & _).
    intros r c; symmetry; apply Hsame.
  - exact Hag.
  - destruct e1; try exact Hag; contradiction.
  - destruct e1; try exact Hag; contradiction.
Qed.

(** X8. The content of the full-system matrix on a graph without
    self-loops: the diagonal block of a site is its onsite block; below
    the diagonal the block of row site [a] and column site [b] is
    [ham(a, b)] when [a] is listed among the out-neighbours of [b]; above
    the diagonal it is the conjugate transpose of [ham(b, a)] when [b] is
    listed among the out-neighbours of [a]; every other block is zero.  So
    only the neighbour lists of the lower-numbered site of a pair are
    read.  For the sparse format the graph must also be well formed and
    list no neighbour twice. *)
Theorem full_system_block_content
        {C : Type} `{ScalarLaws C} (ham : nat -> nat -> Matrix C)
        (gr : CGraph) (sparse : bool) (A : Assembled C) :
  no_self_loop gr ->
  (sparse = true ->
   graph_wf gr /\
   forall fs, fs < num_nodes gr -> List.NoDup (out_neighbors gr fs)) ->
  hamiltonian_submatrix ham gr sparse = Ok A ->
  forall a b i j,
    a < num_nodes gr -> b < num_nodes gr ->
    i < shape0 (ham a a) -> j < shape0 (ham b b) ->
    entry (as_dense A)
          (at_ (offsets (site_norbs ham gr)) a + i)
          (at_ (offsets (site_norbs ham gr)) b + j)
    = if a =? b then entry (ham a a) i j
      else if b <? a
           then (if existsb (Nat.eqb a) (out_neighbors gr b)
                 then entry (ham a b) i j else c0)
           else (if existsb (Nat.eqb b) (out_neighbors gr a)
                 then cconj (entry (ham b a) j i) else c0).
Proof.
  intros Hself Hgraph Hrun a b i j La Lb Hi Hj.
  fold (full_block ham gr a b i j).
  assert (Hdense : forall M,
             hamiltonian_submatrix ham gr false = Ok (Dense M) ->
             entry M (at_ (offsets (site_norbs ham gr)) a + i)
                   (at_ (offsets (site_norbs ham gr)) b + j)
             = full_block ham gr a b i j).
  { intros M HM; unfold hamiltonian_submatrix in HM.
    destruct (make_dense_full _ _ _ _ _ _ _) as [M'|e] eqn:Hm;
      [|discriminate].
    injection HM as <-.
    apply (@make_dense_full_entry _ _ ham gr Hself M' Hm); assumption. }
  destruct sparse.
  - destruct (Hgraph eq_refl) as [Hwf Hnodup].
    pose proof (@full_calls_agree _ _ _ ham gr Hwf Hnodup Hself) as Hag.
    rewrite Hrun in Hag.
    destruct (hamiltonian_submatrix ham gr false) as [B|e] eqn:Hd;
      [|destruct Hag].
    rewrite Hag.
    assert (HB : exists M, B = Dense M).
    { unfold hamiltonian_submatrix in Hd.
      destruct (make_dense_full _ _ _ _ _ _ _) as [M'|e];
        [|discriminate].
      injection Hd as <-; eauto. }
    destruct HB as (M & ->); apply Hdense; reflexivity.
  - assert (HA : exists M, A = Dense M).
    { unfold hamiltonian_submatrix in Hrun.
      destruct (make_dense_full _ _ _ _ _ _ _) as [M'|e];
        [|discriminate].
      injection Hrun as <-; eauto. }
    destruct HA as (M & ->); apply Hdense; exact Hrun.
Qed.

Lemma full_system_block_content_witness :
  match hamiltonian_submatrix two_sites_ham two_sites true with
  | Ok A =>
      entry (as_dense A) 1 0 = gz 1 2 /\ entry (as_dense A) 0 1 = gz 1 (-2)
  | Raise _ => False
  end.
Proof.
  destruct (hamiltonian_submatrix two_sites_ham two_sites true) as [A|e]
    eqn:Hrun; [|vm_compute in Hrun; discriminate].
  assert (Hgraph : true = true ->
                   graph_wf two_sites /\
                   forall fs, fs < num_nodes two_sites ->
                              List.NoDup (out_neighbors two_sites fs))
    by (intros _; split; [exact two_sites_wf | exact two_sites_no_repeat]).
  pose proof (@full_system_block_content _ _ gauss_laws two_sites_ham
                two_sites true A two_sites_no_self_loop Hgraph Hrun)
    as Hblock.
  assert (L1 : 0 < 1) by lia.
  assert (L2 : 0 < 2) by lia.
  assert (L3 : 1 < 2) by lia.
  split.
  - exact (Hblock 1 0 0 0 L3 L2 L2 L1).
  - exact (Hblock 0 1 0 0 L2 L3 L1 L2).
Defined.

(** ** Which call on the full system raises the shape error *)

Section FullSystemOutcome.
Context {C : Type} `{Scalar C}.

Variable ham : nat -> nat -> Matrix C.
Variable gr : CGraph.

Let norb := site_norbs ham gr.
Let off := offsets norb.

Hypothesis wf : graph_wf gr.

Lemma at_site_norbs s :
  s < num_nodes gr -> at_ norb s = shape0 (ham s s).
Proof.
  intros Hs; unfold at_, norb, site_norbs.
  rewrite (nth_indep _ _ (shape0 (ham 0 0)))
    by (rewrite length_map, range_length; exact Hs).
  rewrite (map_nth (fun site => shape0 (ham site site))).
  unfold range; rewrite seq_nth by exact Hs; reflexivity.
Qed.











End FullSystemOutcome.



(** ** All sites given as a selection *)

Lemma offsets_cover (l : list nat) (r : nat) :
  r < List.last (offsets l) 0 ->
  exists a, a < length l /\
            at_ (offsets l) a <= r < at_ (offsets l) a + at_ l a.
Proof.
  rewrite offsets_last_sum.
  assert (Hgen : forall k, k <= length l -> r < list_sum (firstn k l) ->
                           exists a, a < k /\
                                     list_sum (firstn a l) <= r
                                     < list_sum (firstn (S a) l)).
  { induction k as [|k IH]; intros Hk Hr; [simpl in Hr; lia|].
    destruct (Nat.lt_ge_cases r (list_sum (firstn k l))) as [Hlt|Hge].
    - destruct (IH ltac:(lia) Hlt) as (a & Ha & Hin).
      exists a; split; [lia | exact Hin].
    - exists k; split; [lia | lia]. }
  intros Hr.
  destruct (Hgen (length l) (le_n _)) as (a & Ha & Hin).
  { rewrite firstn_all; exact Hr. }
  exists a; split; [exact Ha|].
  rewrite offsets_at by lia.
  rewrite firstn_S_sum in Hin; unfold at_; exact Hin.
Qed.

Lemma existsb_eqb_in (x : nat) (l : list nat) :
  existsb (Nat.eqb x) l = true <-> In x l.
Proof.
  rewrite existsb_exists; split.
  - intros (y & Hin & Hy); apply Nat.eqb_eq in Hy; subst; exact Hin.
  - intros Hin; exists x; split; [exact Hin | apply Nat.eqb_refl].
Qed.

(** X10. Giving all sites in order as [to_sites] or [from_sites] returns
    the matrix of the call without a selection, on a graph without
    self-loops that lists every hopping in both directions and whose
    blocks in the two directions are conjugate transposes of each other:
    the full-system assemblers evaluate one direction and mirror it, the
    assemblers on a selection evaluate both. *)
Theorem full_selection_equals_default
        {C : Type} `{Scalar C} (ham : nat -> nat -> Matrix C) (gr : CGraph)
        (to_sites from_sites : option SiteSeq) (return_norb : bool)
        (A : Assembled C) (R : Returned C) :
  to_sites <> None \/ from_sites <> None ->
  same_object_same_items to_sites from_sites ->
  selection gr to_sites = range (num_nodes gr) ->
  selection gr from_sites = range (num_nodes gr) ->
  no_self_loop gr ->
  (forall a b, a < num_nodes gr -> b < num_nodes gr ->
               In a (out_neighbors gr b) -> In b (out_neighbors gr a)) ->
  (forall a b i j, a < num_nodes gr -> b < num_nodes gr ->
                   In a (out_neighbors gr b) ->
                   i < shape0 (ham a a) -> j < shape0 (ham b b) ->
                   entry (ham a b) i j = cconj (entry (ham b a) j i)) ->
  hamiltonian_submatrix ham gr false = Ok A ->
  hamiltonian_submatrix_sites ham gr to_sites from_sites false return_norb
  = Ok R ->
  shape0 (as_dense (returned_mat R)) = shape0 (as_dense A) /\
  shape1 (as_dense (returned_mat R)) = shape1 (as_dense A) /\
  forall r c,
    r < shape0 (as_dense A) -> c < shape1 (as_dense A) ->
    entry (as_dense (returned_mat R)) r c = entry (as_dense A) r c.
Proof.
  intros Hsome Hobj HT HF Hself Hsym Hherm Hfull Hsel.
  rewrite hamiltonian_submatrix_sites_selected in Hsel by assumption.
  destruct (_ && _); [|discriminate].
  destruct (selected_call ham gr to_sites from_sites false) as [B|e] eqn:Hm;
    [|discriminate].
  assert (HR : returned_mat R = B)
    by (destruct return_norb; injection Hsel as <-; reflexivity).
  rewrite HR; clear Hsel HR.
  pose proof (selected_call_shape _ _ _ _ _ Hm) as [SB0 SB1].
  pose proof (hamiltonian_submatrix_shape _ _ _ Hfull) as [SA0 SA1].
  pose proof (@selected_dense_entry _ _ ham gr to_sites from_sites B Hm)
    as Hentry.
  rewrite HT, HF in *.
  change (norbs_of ham (range (num_nodes gr))) with (site_norbs ham gr) in *.
  split; [congruence|split; [congruence|]].
  intros r c Hr Hc.
  rewrite SA0, <- offsets_last_sum in Hr.
  rewrite SA1, <- offsets_last_sum in Hc.
  apply offsets_cover in Hr as (a & La & Ha).
  apply offsets_cover in Hc as (b & Lb & Hb).
  assert (Hlen : length (site_norbs ham gr) = num_nodes gr)
    by (unfold site_norbs; rewrite length_map; apply range_length).
  rewrite Hlen in La, Lb.
  rewrite (at_site_norbs ham gr La) in Ha.
  rewrite (at_site_norbs ham gr Lb) in Hb.
  set (off := offsets (site_norbs ham gr)) in *.
  replace r with (at_ off a + (r - at_ off a)) by lia.
  replace c with (at_ off b + (c - at_ off b)) by lia.
  assert (Hi : r - at_ off a < shape0 (ham a a)) by lia.
  assert (Hj : c - at_ off b < shape0 (ham b b)) by lia.
  set (i := r - at_ off a) in *; set (j := c - at_ off b) in *.
  assert (Hna : nth_error (range (num_nodes gr)) a = Some a).
  { unfold range; rewrite nth_error_seq.
    destruct (Nat.ltb_spec a (num_nodes gr)); [reflexivity | lia]. }
  assert (Hnb : nth_error (range (num_nodes gr)) b = Some b).
  { unfold range; rewrite nth_error_seq.
    destruct (Nat.ltb_spec b (num_nodes gr)); [reflexivity | lia]. }
  rewrite (Hentry a b a b i j Hna Hnb Hi Hj).
  assert (Hlast : existsb (Nat.eqb a) (skipn (S a) (range (num_nodes gr)))
                  = false).
  { destruct (existsb _ _) eqn:Hex; [|reflexivity].
    apply existsb_eqb_in in Hex.
    unfold range in Hex; rewrite skipn_seq in Hex.
    apply in_seq in Hex; lia. }
  rewrite Hlast; simpl negb; rewrite andb_true_l.
  assert (HA : exists M, A = Dense M
                         /\ make_dense_full ham gr (fun site => ham site site)
                              (site_norbs ham gr) off (site_norbs ham gr) off
                            = Ok M).
  { unfold hamiltonian_submatrix in Hfull; fold off in Hfull.
    destruct (make_dense_full _ _ _ _ _ _ _) as [M'|e'];
      [|discriminate].
    injection Hfull as <-; eauto. }
  destruct HA as (M & -> & HM).
  cbn [as_dense].
  pose proof (@make_dense_full_entry _ _ ham gr Hself M HM a b i j La Lb Hi
                Hj) as Hf.
  fold off in Hf; rewrite Hf.
  unfold full_block, linked.
  destruct (Nat.eqb_spec a b) as [->|Hne]; [reflexivity|].
  simpl orb.
  destruct (Nat.ltb_spec b a) as [Hlt|Hge]; [reflexivity|].
  destruct (existsb (Nat.eqb a) (out_neighbors gr b)) eqn:Eab.
  - apply existsb_eqb_in in Eab.
    pose proof (Hsym a b La Lb Eab) as Eba.
    apply existsb_eqb_in in Eba; rewrite Eba.
    apply Hherm; assumption.
  - destruct (existsb (Nat.eqb b) (out_neighbors gr a)) eqn:Eba;
      [|reflexivity].
    apply existsb_eqb_in in Eba.
    pose proof (Hsym b a Lb La Eba) as Eab'.
    apply existsb_eqb_in in Eab'; congruence.
Qed.

(** Worked input: both sites of the two-site graph, in order. *)
Definition both_sites : option SiteSeq :=
  Some {| seq_id := 5; seq_items := [0; 1]%Z |}.

Lemma two_sites_conjugate_blocks a b i j :
  a < num_nodes two_sites -> b < num_nodes two_sites ->
  In a (out_neighbors two_sites b) ->
  i < shape0 (two_sites_ham a a) -> j < shape0 (two_sites_ham b b) ->
  entry (two_sites_ham a b) i j = cconj (entry (two_sites_ham b a) j i).
Proof.
  intros La Lb Hin Hi Hj.
  destruct a as [|[|a]], b as [|[|b]]; simpl in *; try lia;
    try (destruct Hin as [E|[]]; discriminate).
  - destruct i as [|i]; [|lia].
    destruct j as [|[|j]]; [reflexivity | reflexivity | lia].
  - destruct j as [|j]; [|lia].
    destruct i as [|[|i]]; [reflexivity | reflexivity | lia].
Qed.

Lemma two_sites_symmetric a b :
  a < num_nodes two_sites -> b < num_nodes two_sites ->
  In a (out_neighbors two_sites b) -> In b (out_neighbors two_sites a).
Proof.
  intros La Lb Hin.
  destruct a as [|[|a]], b as [|[|b]]; simpl in *; try lia; tauto.
Qed.

Lemma full_selection_equals_default_witness :
  match hamiltonian_submatrix two_sites_ham two_sites false,
        hamiltonian_submatrix_sites two_sites_ham two_sites both_sites None
                                    false false with
  | Ok A, Ok R =>
      forall r c,
        r < shape0 (as_dense A) -> c < shape1 (as_dense A) ->
        entry (as_dense (returned_mat R)) r c = entry (as_dense A) r c
  | _, _ => False
  end.
Proof.
  destruct (hamiltonian_submatrix two_sites_ham two_sites false) as [A|e]
    eqn:Hfull; [|vm_compute in Hfull; discriminate].
  destruct (hamiltonian_submatrix_sites two_sites_ham two_sites both_sites
              None false false) as [R|e] eqn:Hsel;
    [|vm_compute in Hsel; discriminate].
  assert (Hsome : both_sites <> None \/ @None SiteSeq <> None)
    by (left; discriminate).
  assert (Hobj : same_object_same_items both_sites None)
    by (unfold same_object_same_items; simpl; discriminate).
  exact (proj2 (proj2
           (@full_selection_equals_default _ _ two_sites_ham two_sites
              both_sites None false A R Hsome Hobj eq_refl eq_refl
              two_sites_no_self_loop two_sites_symmetric
              two_sites_conjugate_blocks Hfull Hsel))).
Defined.

(** * The vectorized assemblers when no position is written twice *)

Section DistinctPositions.
Context {C : Type} `{Scalar C}.

Lemma vals_at_none r c (l : list (nat * nat * C)) :
  ~ In (r, c) (map fst l) -> vals_at r c l = [].
Proof.
  induction l as [|[[r' c'] v'] l IH]; intros Hnot; [reflexivity|].
  unfold vals_at in *; simpl in *.
  destruct (Nat.eqb_spec r r') as [->|_]; simpl.
  - destruct (Nat.eqb_spec c c') as [->|_]; simpl.
    + exfalso; apply Hnot; left; reflexivity.
    + apply IH; intros Hin; apply Hnot; right; exact Hin.
  - apply IH; intros Hin; apply Hnot; right; exact Hin.
Qed.

Lemma vals_at_single r c v (l : list (nat * nat * C)) :
  List.NoDup (map fst l) -> In (r, c, v) l -> vals_at r c l = [v].
Proof.
  induction l as [|[[r' c'] v'] l IH]; intros Hnd Hin; [destruct Hin|].
  simpl in Hnd; apply NoDup_cons_iff in Hnd as [Hnot Hnd].
  change (vals_at r c ((r', c', v') :: l))
    with ((if (r =? r') && (c =? c') then [v'] else []) ++ vals_at r c l).
  destruct Hin as [Heq|Hin].
  - injection Heq as -> -> ->.
    rewrite !Nat.eqb_refl; simpl.
    rewrite vals_at_none by exact Hnot; reflexivity.
  - destruct (Nat.eqb_spec r r') as [->|_]; simpl.
    + destruct (Nat.eqb_spec c c') as [->|_]; simpl.
      * exfalso; apply Hnot.
        apply (in_map fst) in Hin; exact Hin.
      * apply IH; assumption.
    + apply IH; assumption.
Qed.

Lemma vals_at_short r c (l : list (nat * nat * C)) :
  List.NoDup (map fst l) ->
  vals_at r c l = [] \/ exists v, In (r, c, v) l /\ vals_at r c l = [v].
Proof.
  intros Hnd.
  assert (Hdec : forall x y : nat * nat, {x = y} + {x <> y})
    by (decide equality; apply Nat.eq_dec).
  destruct (in_dec Hdec (r, c) (map fst l)) as [Hin|Hnot].
  - right; apply in_map_iff in Hin as ([[r' c'] v] & Heq & Hin).
    simpl in Heq; injection Heq as -> ->.
    exists v; split; [exact Hin | apply vals_at_single; assumption].
  - left; apply vals_at_none, Hnot.
Qed.
End DistinctPositions.

(** X11. When no position is stored twice, the sparse and the dense
    vectorized assembler produce the same matrix: the sum over the stored
    triplets of a position and the last value assigned to it are the
    same value. *)
Theorem vectorized_formats_agree_without_overlap
        {C : Type} `{ScalarLaws C} (norbs orb_offsets site_offsets : list nat)
        (subgraphs : list Subgraph) (hams : list (Block3 C))
        (shape : option (nat * nat)) (A : Coo C) (M : Matrix C) :
  _vectorized_make_sparse norbs orb_offsets site_offsets subgraphs hams shape
  = Ok A ->
  _vectorized_make_dense norbs orb_offsets site_offsets subgraphs hams shape
  = Ok M ->
  List.NoDup (map fst (coo_data A)) ->
  shape0 M = coo_shape0 A /\ shape1 M = coo_shape1 A /\
  forall r c, entry (todense A) r c = entry M r c.
Proof.
  intros Hs Hd Hnd.
  destruct (vectorized_sum_and_last _ _ _ _ _ _ Hs Hd) as [Hsh Hval].
  injection Hsh as S0 S1.
  split; [exact S0|split; [exact S1|]].
  intros r c; destruct (Hval r c) as [-> ->].
  destruct (@vals_at_short _ r c (coo_data A) Hnd) as [-> | (v & _ & ->)];
    simpl.
  - reflexivity.
  - apply cadd_0_l.
Qed.

Lemma vectorized_formats_agree_without_overlap_witness :
  match _vectorized_make_sparse ex_norbs ex_orb_offsets ex_site_offsets
          [fst ex_onsite] [snd ex_onsite] None,
        _vectorized_make_dense ex_norbs ex_orb_offsets ex_site_offsets
          [fst ex_onsite] [snd ex_onsite] None with
  | Ok A, Ok M => forall r c, entry (todense A) r c = entry M r c
  | _, _ => False
  end.
Proof.
  destruct (_vectorized_make_sparse ex_norbs ex_orb_offsets ex_site_offsets
              [fst ex_onsite] [snd ex_onsite] None) as [A|e] eqn:Hs;
    [|vm_compute in Hs; discriminate].
  destruct (_vectorized_make_dense ex_norbs ex_orb_offsets ex_site_offsets
              [fst ex_onsite] [snd ex_onsite] None) as [M|e] eqn:Hd;
    [|vm_compute in Hd; discriminate].
  assert (Hnd : List.NoDup (map fst (coo_data A))).
  { vm_compute in Hs; injection Hs as <-; simpl.
    repeat constructor; simpl; intuition congruence. }
  exact (proj2 (proj2
           (@vectorized_formats_agree_without_overlap _ _ gauss_laws _ _ _ _
              _ _ A M Hs Hd Hnd))).
Defined.

(** * The vectorized Hamiltonian is Hermitian *)

Section PairEntries.
Context {C : Type} `{Scalar C}.

Variables norbs orb_offsets : list nat.

(** The entries of the conjugate of a pair are the mirrored entries of
    the pair. *)
Lemma in_conjugate_pair_entries (p : Subgraph * Block3 C) r c v :
  In (r, c, v) (pair_entries norbs orb_offsets p) ->
  In (c, r, cconj v) (pair_entries norbs orb_offsets (conjugate_pair p)).
Proof.
  intros Hin; apply in_pair_entries in Hin
    as (i & j & k & Hi & Hj & Hk & -> & -> & ->).
  destruct p as [[[ta fa] [ts_offs fs_offs]] h]; simpl in *.
  apply in_pair_entries; exists i, k, j; simpl.
  repeat split; assumption.
Qed.
End PairEntries.

(** A term that is its own conjugate: an onsite term whose blocks are
    equal to their conjugate transposes. *)
Definition self_adjoint_pair {C : Type} `{Scalar C}
           (p : Subgraph * Block3 C) : Prop :=
  fst (fst (fst p)) = snd (fst (fst p)) /\
  fst (snd (fst p)) = snd (snd (fst p)) /\
  b_M (snd p) = b_P (snd p) /\
  forall i j k, i < b_N (snd p) -> j < b_M (snd p) -> k < b_M (snd p) ->
                b_at (snd p) i j k = cconj (b_at (snd p) i k j).

(** Every stored triplet has its mirror stored. *)
Definition mirrored {C : Type} `{Scalar C} (l : list (nat * nat * C)) : Prop :=
  forall r c v, In (r, c, v) l -> In (c, r, cconj v) l.

Section VectorizedHermitian.
Context {C : Type} `{ScalarLaws C}.

Lemma conjugate_pair_invol (p : Subgraph * Block3 C) norbs orb_offsets
      r c v :
  In (r, c, v) (pair_entries norbs orb_offsets (conjugate_pair p)) ->
  In (c, r, cconj v) (pair_entries norbs orb_offsets p).
Proof.
  intros Hin; apply in_pair_entries in Hin
    as (i & j & k & Hi & Hj & Hk & -> & -> & ->).
  destruct p as [[[ta fa] [ts_offs fs_offs]] h]; simpl in *.
  rewrite cconj_invol.
  apply in_pair_entries; exists i, k, j; simpl.
  repeat split; assumption.
Qed.

Lemma self_adjoint_pair_mirrored (p : Subgraph * Block3 C) norbs orb_offsets :
  self_adjoint_pair p -> mirrored (pair_entries norbs orb_offsets p).
Proof.
  intros (Ea & Eo & Em & Hh) r c v Hin.
  apply in_pair_entries in Hin as (i & j & k & Hi & Hj & Hk & -> & -> & ->).
  destruct p as [[[ta fa] [ts_offs fs_offs]] h]; simpl in *; subst fa fs_offs.
  apply in_pair_entries; exists i, k, j; simpl.
  rewrite <- Em in *.
  repeat split; try assumption.
  rewrite (Hh i k j Hi Hk Hj); reflexivity.
Qed.

(** A mirrored list without repeated positions sums, and replays, to a
    Hermitian matrix. *)
Lemma mirrored_values (l : list (nat * nat * C)) r c :
  mirrored l -> List.NoDup (map fst l) ->
  vals_at r c l = map cconj (vals_at c r l).
Proof.
  intros Hm Hnd.
  destruct (@vals_at_short _ r c l Hnd) as [E | (v & Hin & E)].
  - destruct (@vals_at_short _ c r l Hnd) as [E' | (v' & Hin' & E')].
    + rewrite E, E'; reflexivity.
    + exfalso.
      rewrite (@vals_at_single _ r c (cconj v') l Hnd (Hm _ _ _ Hin')) in E.
      discriminate.
  - rewrite E, (@vals_at_single _ c r (cconj v) l Hnd (Hm _ _ _ Hin)); simpl.
    rewrite cconj_invol; reflexivity.
Qed.
End VectorizedHermitian.

Lemma comprehension_inv {A B} (f : A -> result B) (l : list A) (bs : list B) :
  comprehension f l = Ok bs -> forall a, In a l -> exists b, f a = Ok b.
Proof.
  revert bs; induction l as [|x l IH]; intros bs Hrun a Hin; [destruct Hin|].
  simpl in Hrun.
  destruct (f x) as [b|e] eqn:Hx; [|discriminate].
  simpl in Hrun.
  destruct (comprehension f l) as [bs'|e] eqn:Hl; [|discriminate].
  destruct Hin as [<-|Hin]; [eauto|].
  apply (IH bs' eq_refl a Hin).
Qed.

Lemma last_map_cconj {C : Type} `{ScalarLaws C} (l : list C) :
  List.last (map cconj l) c0 = cconj (List.last l c0).
Proof.
  induction l as [|x l IH]; [symmetry; apply cconj_0|].
  destruct l as [|y l]; [reflexivity|].
  change (List.last (map cconj (x :: y :: l)) c0)
    with (List.last (map cconj (y :: l)) c0).
  rewrite IH; reflexivity.
Qed.

Section VectorizedEntryPoint.
Context {C : Type} `{Scalar C}.

Variable syst : System C.

(** The pairs handed to the assembler by
    [vectorized_hamiltonian_submatrix]. *)
Definition expanded_pairs : list (Subgraph * Block3 C) :=
  map (term_pair syst) (enumerate (terms syst))
  ++ map (fun p => conjugate_pair (term_pair syst p))
         (List.filter (fun p : nat * Term => hermitian (snd p))
                      (enumerate (terms syst))).

Lemma hermitian_expansion_ok sgs0 hs0 :
  hermitian_expansion syst = Ok (sgs0, hs0) ->
  length sgs0 = length hs0 /\ combine sgs0 hs0 = expanded_pairs.
Proof.
  intros Hrun.
  assert (Hex : subgraphs_exist syst = true).
  { unfold subgraphs_exist; apply forallb_forall; intros t Ht.
    unfold hermitian_expansion in Hrun.
    destruct (comprehension (subgraph_of syst) (terms syst)) as [sgs|e]
      eqn:Hc; [|discriminate].
    destruct (comprehension_inv _ _ Hc t Ht) as (sg & Hsg).
    unfold subgraph_of, index in Hsg.
    destruct (nth_error (subgraphs syst) (subgraph t)) eqn:Hn;
      [|discriminate].
    apply Nat.ltb_lt, nth_error_Some; rewrite Hn; discriminate. }
  destruct (hermitian_expansion_pairs syst Hex)
    as (sgs & hs & Hrun' & Hlen & Hpairs).
  rewrite Hrun in Hrun'; injection Hrun' as <- <-.
  split; assumption.
Qed.

(** The call of the assembler inside a successful run. *)
Lemma vectorized_hamiltonian_submatrix_ok sparse (A : Assembled C) :
  vectorized_hamiltonian_submatrix syst sparse = Ok A ->
  exists sgs hs norbs orb_offsets,
    hermitian_expansion syst = Ok (sgs, hs) /\
    _count_norbs syst (site_offsets_of syst) (map Some hs)
    = Ok (norbs, orb_offsets) /\
    call_assembler sparse sgs hs norbs orb_offsets
                   (site_offsets_of syst) None = Ok A.
Proof.
  unfold vectorized_hamiltonian_submatrix; intros Hrun.
  destruct (hermitian_expansion syst) as [[sgs hs]|e]; [|discriminate].
  simpl in Hrun.
  destruct (_count_norbs syst (site_offsets_of syst) (map Some hs))
    as [[norbs offs]|e] eqn:Hcount; [|discriminate].
  simpl in Hrun.
  exists sgs, hs, norbs, offs; auto.
Qed.
End VectorizedEntryPoint.

(** X12. The vectorized Hamiltonian is Hermitian, in both formats, when
    every term is flagged [hermitian] or is an onsite term whose blocks
    equal their own conjugate transposes, and no position is stored twice
    in the sparse result. *)
Theorem vectorized_hamiltonian_hermitian
        {C : Type} `{ScalarLaws C} (syst : System C) (sparse : bool)
        (S : Coo C) (A : Assembled C) :
  (forall p, In p (enumerate (terms syst)) ->
             hermitian (snd p) = true \/
             self_adjoint_pair (term_pair syst p)) ->
  vectorized_hamiltonian_submatrix syst true = Ok (Sparse S) ->
  List.NoDup (map fst (coo_data S)) ->
  vectorized_hamiltonian_submatrix syst sparse = Ok A ->
  forall r c, entry (as_dense A) r c = cconj (entry (as_dense A) c r).
Proof.
  intros Hterms Hs Hnd Hrun.
  apply vectorized_hamiltonian_submatrix_ok in Hs
    as (sgs & hs & norbs & offs & Hexp & Hcount & Hs).
  apply vectorized_hamiltonian_submatrix_ok in Hrun
    as (sgs' & hs' & norbs' & offs' & Hexp' & Hcount' & Hrun).
  rewrite Hexp in Hexp'; injection Hexp' as <- <-.
  rewrite Hcount in Hcount'; injection Hcount' as <- <-.
  destruct (hermitian_expansion_ok _ Hexp) as [Hlen Hpairs].
  unfold call_assembler in Hs.
  destruct (_vectorized_make_sparse norbs offs (site_offsets_of syst) sgs hs
              None) as [S'|e] eqn:Hms; [|discriminate].
  injection Hs as ->.
  pose proof (@vms_result _ norbs offs (site_offsets_of syst) sgs hs None)
    as Hres.
  destruct (find (shape_mismatch norbs) (combine sgs hs)) as [p|];
    [rewrite Hres in Hms; discriminate|].
  destruct (Hres S Hms) as [Hdata _].
  assert (Hmirror : mirrored (coo_data S)).
  { rewrite Hdata, Hpairs; unfold expanded_pairs.
    intros r' c' v Hin.
    apply in_flat_map in Hin as (p & Hp & Hin).
    apply in_flat_map.
    apply in_app_or in Hp as [Hp|Hp].
    - apply in_map_iff in Hp as (x & <- & Hx).
      destruct (Hterms x Hx) as [Hflag|Hself].
      + exists (conjugate_pair (term_pair syst x)); split.
        * apply in_or_app; right.
          apply (in_map (fun p => conjugate_pair (term_pair syst p))).
          apply filter_In; auto.
        * apply in_conjugate_pair_entries, Hin.
      + exists (term_pair syst x); split.
        * apply in_or_app; left; apply in_map, Hx.
        * apply (self_adjoint_pair_mirrored norbs offs Hself), Hin.
    - apply in_map_iff in Hp as (x & <- & Hx).
      apply filter_In in Hx as [Hx _].
      exists (term_pair syst x); split.
      + apply in_or_app; left; apply in_map, Hx.
      + apply conjugate_pair_invol, Hin. }
  assert (Hvals : forall r' c',
             vals_at r' c' (coo_data S)
             = map cconj (vals_at c' r' (coo_data S)))
    by (intros r' c'; apply mirrored_values; assumption).
  intros r c; destruct sparse.
  - unfold call_assembler in Hrun; rewrite Hms in Hrun.
    injection Hrun as <-.
    apply (self_mirrored_hermitian Hvals).
  - unfold call_assembler in Hrun.
    destruct (_vectorized_make_dense norbs offs (site_offsets_of syst) sgs hs
                None) as [M|e] eqn:Hmd; [|discriminate].
    injection Hrun as <-.
    destruct (vectorized_sum_and_last _ _ _ _ _ _ Hms Hmd) as [_ Hval].
    cbn [as_dense].
    rewrite (proj2 (Hval r c)), (proj2 (Hval c r)), Hvals.
    apply last_map_cconj.
Qed.

(** A check for the absence of repeated positions. *)
Fixpoint distinct_positions (l : list (nat * nat)) : bool :=
  match l with
  | [] => true
  | x :: l' =>
      negb (existsb (fun y => (fst x =? fst y) && (snd x =? snd y)) l')
      && distinct_positions l'
  end.

Lemma distinct_positions_nodup (l : list (nat * nat)) :
  distinct_positions l = true -> List.NoDup l.
Proof.
  induction l as [|x l IH]; simpl; intros Hd; [constructor|].
  apply andb_true_iff in Hd as [Hx Hl].
  constructor; [|apply IH, Hl].
  intros Hin.
  apply negb_true_iff in Hx.
  assert (Ht : existsb (fun y => (fst x =? fst y) && (snd x =? snd y)) l
               = true).
  { apply existsb_exists; exists x; split; [exact Hin|].
    rewrite !Nat.eqb_refl; reflexivity. }
  congruence.
Qed.

Lemma hopping_system_terms p :
  In p (enumerate (terms hopping_system)) ->
  hermitian (snd p) = true \/ self_adjoint_pair (term_pair hopping_system p).
Proof.
  intros [<-|[<-|[]]]; [right | left; reflexivity].
  split; [reflexivity|split; [reflexivity|split; [reflexivity|]]].
  intros i j k Hi Hj Hk.
  change (b_N (snd (term_pair hopping_system
                      (0, {| subgraph := 0; hermitian := false |}))))
    with 2 in Hi.
  change (b_M (snd (term_pair hopping_system
                      (0, {| subgraph := 0; hermitian := false |}))))
    with 2 in Hj, Hk.
  destruct i as [|[|i]]; [| |lia];
    (destruct j as [|[|j]]; [| |lia]);
    (destruct k as [|[|k]]; [| |lia]); reflexivity.
Qed.

Lemma vectorized_hamiltonian_hermitian_witness :
  match vectorized_hamiltonian_submatrix hopping_system false with
  | Ok A => forall r c, entry (as_dense A) r c = cconj (entry (as_dense A) c r)
  | Raise _ => False
  end.
Proof.
  destruct (vectorized_hamiltonian_submatrix hopping_system false) as [A|e]
    eqn:Hrun; [|vm_compute in Hrun; discriminate].
  destruct (vectorized_hamiltonian_submatrix hopping_system true) as [[S|M]|e]
    eqn:Hs;
    [|vm_compute in Hs; discriminate|vm_compute in Hs; discriminate].
  assert (Hnd : List.NoDup (map fst (coo_data S))).
  { apply distinct_positions_nodup.
    vm_compute in Hs; injection Hs as <-; vm_compute; reflexivity. }
  exact (@vectorized_hamiltonian_hermitian _ _ gauss_laws hopping_system
           false S A hopping_system_terms Hs Hnd Hrun).
Defined.

(** * A well-formed vectorized system assembles *)

Lemma map_snd_combine {A B} (l1 : list A) (l2 : list B) :
  length l1 = length l2 -> map snd (combine l1 l2) = l2.
Proof.
  revert l2; induction l1 as [|a l1 IH]; intros [|b l2] Hlen;
    simpl in *; try lia; [reflexivity|].
  rewrite IH by lia; reflexivity.
Qed.

Lemma in_combine_map_enumerate {A B} (f : nat * A -> B) (l : list A)
      (start : nat) (b : B) (a : A) :
  In (b, a) (combine (map f (combine (seq start (length l)) l)) l) ->
  exists n, In (n, a) (combine (seq start (length l)) l) /\ b = f (n, a).
Proof.
  revert start; induction l as [|x l IH]; intros start Hin; [destruct Hin|].
  simpl in Hin; destruct Hin as [Heq|Hin].
  - injection Heq as <- <-; exists start; split; [left|]; reflexivity.
  - destruct (IH (S start) Hin) as (n & Hn & Hb).
    exists n; split; [right; exact Hn | exact Hb].
Qed.

Section WellFormedSystem.
Context {C : Type} `{Scalar C}.

Variable syst : System C.

(** The number of orbitals of each site family. *)
Variable norb : nat -> nat.

Definition array_at (w : nat) : SiteArray :=
  nth w (site_arrays syst) {| family := 0; sa_len := 0 |}.

(** A pair of a subgraph and its values fits the system: the two site
    arrays exist, each block has the orbital counts of their families,
    there is one pair of local offsets per block, and every offset is
    below the length of its array. *)
Definition pair_fits (p : Subgraph * Block3 C) : bool :=
  let '(((ta, fa), (ts_offs, fs_offs)), h) := p in
  (ta <? length (site_arrays syst)) && (fa <? length (site_arrays syst))
  && (b_M h =? norb (family (array_at ta)))
  && (b_P h =? norb (family (array_at fa)))
  && (length ts_offs =? b_N h) && (length fs_offs =? b_N h)
  && forallb (fun o => o <? sa_len (array_at ta)) ts_offs
  && forallb (fun o => o <? sa_len (array_at fa)) fs_offs.

Definition well_formed : bool :=
  is_none (site_ranges syst)
  && subgraphs_exist syst
  && forallb (fun p => pair_fits (term_pair syst p)) (enumerate (terms syst))
  && forallb (fun s => touched syst (family s)) (site_arrays syst).

Lemma pair_fits_spec (p : Subgraph * Block3 C) :
  pair_fits p = true ->
  let '(((ta, fa), (ts_offs, fs_offs)), h) := p in
  ta < length (site_arrays syst) /\ fa < length (site_arrays syst) /\
  b_M h = norb (family (array_at ta)) /\
  b_P h = norb (family (array_at fa)) /\
  length ts_offs = b_N h /\ length fs_offs = b_N h /\
  (forall i, i < b_N h -> at_ ts_offs i < sa_len (array_at ta)) /\
  (forall i, i < b_N h -> at_ fs_offs i < sa_len (array_at fa)).
Proof.
  destruct p as [[[ta fa] [ts_offs fs_offs]] h]; unfold pair_fits.
  rewrite !andb_true_iff, !Nat.ltb_lt, !Nat.eqb_eq, !forallb_forall.
  intros [[[[[[[Hta Hfa] HM] HP] Lt] Lf] Ot] Of].
  repeat split; try assumption.
  - intros i Hi; apply Nat.ltb_lt, Ot, nth_In; lia.
  - intros i Hi; apply Nat.ltb_lt, Of, nth_In; lia.
Qed.

Lemma pair_fits_conjugate (p : Subgraph * Block3 C) :
  pair_fits p = true -> pair_fits (conjugate_pair p) = true.
Proof.
  destruct p as [[[ta fa] [ts_offs fs_offs]] h]; unfold pair_fits; simpl.
  rewrite !andb_true_iff; tauto.
Qed.

(** ** The resolved orbital counts *)

Definition agrees (m : gmap nat (option nat)) : Prop :=
  forall f v, m !! f = Some (Some v) -> v = norb f.

Definition block_fits (t : Term) (ham : Block3 C) : Prop :=
  forall to_w from_w offs to_sa from_sa,
    nth_error (subgraphs syst) (subgraph t) = Some ((to_w, from_w), offs) ->
    nth_error (site_arrays syst) to_w = Some to_sa ->
    nth_error (site_arrays syst) from_w = Some from_sa ->
    b_M ham = norb (family to_sa) /\ b_P ham = norb (family from_sa).

Lemma agrees_insert m f v :
  agrees m -> v = norb f -> agrees (<[f := Some v]> m).
Proof.
  intros Hm Hv g w.
  destruct (Nat.eq_dec f g) as [->|Hne].
  - rewrite lookup_insert_eq; intros [= <-]; exact Hv.
  - rewrite lookup_insert_ne by exact Hne; apply Hm.
Qed.

Lemma seed_step_agrees (p : option (Block3 C) * Term) m m' :
  (forall ham, fst p = Some ham -> block_fits (snd p) ham) ->
  agrees m -> seed_step syst p m = Ok m' -> agrees m'.
Proof.
  destruct p as [ham t]; simpl; intros Hfit Hm.
  unfold seed_step, subgraph_of, index.
  destruct (nth_error (subgraphs syst) (subgraph t))
    as [[[to_w from_w] offs]|] eqn:Esg; [|discriminate].
  simpl; destruct ham as [ham|]; [|intros [= <-]; exact Hm].
  destruct (nth_error (site_arrays syst) to_w) as [to_sa|] eqn:Eto;
    [|discriminate].
  simpl.
  destruct (nth_error (site_arrays syst) from_w) as [from_sa|] eqn:Efrom;
    [|discriminate].
  simpl; intros [= <-].
  destruct (Hfit ham eq_refl _ _ _ _ _ Esg Eto Efrom) as [EM EP].
  apply agrees_insert; [apply agrees_insert|]; assumption.
Qed.

Lemma eval_step_agrees (p : nat * Term) m m' :
  block_fits (snd p) (hamiltonian_term syst (fst p)) ->
  agrees m -> eval_step syst p m = Ok m' -> agrees m'.
Proof.
  destruct p as [n t]; simpl; intros Hfit Hm.
  unfold eval_step, subgraph_of, index.
  destruct (nth_error (subgraphs syst) (subgraph t))
    as [[[to_w from_w] offs]|] eqn:Esg; [|discriminate].
  simpl.
  destruct (nth_error (site_arrays syst) to_w) as [to_sa|] eqn:Eto;
    [|discriminate].
  simpl.
  destruct (nth_error (site_arrays syst) from_w) as [from_sa|] eqn:Efrom;
    [|discriminate].
  simpl.
  destruct (_ || _); intros [= <-]; [|exact Hm].
  destruct (Hfit _ _ _ _ _ Esg Eto Efrom) as [EM EP].
  apply agrees_insert; [apply agrees_insert|]; assumption.
Qed.

Lemma resolve_agrees (hams : list (option (Block3 C))) m :
  (forall p, In p (combine hams (terms syst)) ->
             forall ham, fst p = Some ham -> block_fits (snd p) ham) ->
  (forall p, In p (enumerate (terms syst)) ->
             block_fits (snd p) (hamiltonian_term syst (fst p))) ->
  resolve_family_norbs syst hams = Ok m -> agrees m.
Proof.
  intros Hgiven Hterms; unfold resolve_family_norbs, seed_norbs, eval_norbs.
  destruct (for_each (seed_step syst) (combine hams (terms syst)) _)
    as [m1|e] eqn:Hseed; [|discriminate].
  simpl; intros Heval.
  refine (@for_each_invariant _ _ _ agrees _ _ _ _ _ Heval).
  - intros p s s' Hp; apply eval_step_agrees, Hterms, Hp.
  - refine (@for_each_invariant _ _ _ agrees _ _ _ _ _ Hseed).
    + intros p s s' Hp; apply seed_step_agrees, Hgiven, Hp.
    + intros f v; rewrite initial_table.
      destruct (existsb _ _); discriminate.
Qed.
End WellFormedSystem.

Lemma pairs_entries_length_eq {C} `{Scalar C} (norbs orb_offsets : list nat)
      (sgs : list Subgraph) (hs : list (Block3 C)) :
  length sgs = length hs ->
  length (flat_map (pair_entries norbs orb_offsets) (combine sgs hs))
  = list_sum (map (fun h => b_N h * b_M h * b_P h) hs).
Proof.
  revert hs; induction sgs as [|sg sgs IH]; intros [|h hs] Hlen;
    simpl in *; try lia.
  rewrite length_app, pair_entries_length; simpl.
  rewrite IH by lia; reflexivity.
Qed.

Lemma combine_app_left {A B} (l1 l2 : list A) (l : list B) :
  length l1 = length l -> combine (l1 ++ l2) l = combine l1 l.
Proof.
  revert l; induction l1 as [|a l1 IH]; intros [|b l] Hlen;
    simpl in *; try lia; [destruct l2; reflexivity|].
  rewrite IH by lia; reflexivity.
Qed.

(** [_count_norbs] once the table has no unknown family left. *)
Lemma count_norbs_resolved {C} `{Scalar C} (syst : System C)
      (site_offsets : list nat) (hams : list (option (Block3 C)))
      (m : gmap nat (option nat)) :
  site_ranges syst = None ->
  resolve_family_norbs syst hams = Ok m ->
  (forall f, m !! f <> Some None) ->
  length (site_arrays syst) <= length site_offsets ->
  let norb := fun s => default 0 (norb_of m (family s)) in
  _count_norbs syst site_offsets hams
  = Ok (map norb (site_arrays syst) ++ [0],
        offsets (map (fun s => sa_len s * norb s) (site_arrays syst))).
Proof.
  intros Hsr Em Hall Hlen; unfold _count_norbs; rewrite Hsr, Em; simpl.
  destruct (existsb is_none (map snd (map_to_list m))) eqn:Hany.
  { apply any_none_spec in Hany as [f Hf]; destruct (Hall f Hf). }
  unfold build_ranges.
  pose proof (@build_ranges_fold m (site_arrays syst) site_offsets [] 0 Hlen)
    as Hfold.
  cbv zeta in Hfold.
  destruct (fold_left _ (combine site_offsets (site_arrays syst)) ([], 0))
    as [R o] eqn:Efold.
  simpl in Hfold; destruct Hfold as (E1 & E2 & E3).
  simpl; rewrite !map_app, E1, E2, E3; simpl.
  rewrite prefix_offsets_total.
  change (0 :: cumsum_from 0 ?l) with (offsets l).
  rewrite offsets_length, length_map, Nat.eqb_refl; reflexivity.
Qed.

Section WellFormedAssembly.
Context {C : Type} `{Scalar C}.

Variable syst : System C.
Variable norb : nat -> nat.

(** The orbitals of each site array, and their total: the dimension of
    the Hamiltonian. *)
Definition array_sizes : list nat :=
  map (fun s => sa_len s * norb (family s)) (site_arrays syst).

Definition total_orbitals : nat := list_sum array_sizes.

Hypothesis wf : well_formed syst norb = true.

Lemma wf_site_ranges : site_ranges syst = None.
Proof.
  unfold well_formed in wf; rewrite !andb_true_iff in wf.
  destruct wf as [[[Hsr _] _] _].
  destruct (site_ranges syst); [discriminate | reflexivity].
Qed.

Lemma wf_subgraphs_exist : subgraphs_exist syst = true.
Proof.
  unfold well_formed in wf; rewrite !andb_true_iff in wf; tauto.
Qed.

Lemma wf_pair_fits p :
  In p (enumerate (terms syst)) ->
  pair_fits syst norb (term_pair syst p) = true.
Proof.
  unfold well_formed in wf; rewrite !andb_true_iff in wf.
  destruct wf as [[_ Hfit] _].
  apply (proj1 (forallb_forall _ _) Hfit).
Qed.

Lemma wf_touched s : In s (site_arrays syst) -> touched syst (family s) = true.
Proof.
  unfold well_formed in wf; rewrite !andb_true_iff in wf.
  destruct wf as [_ Ht].
  apply (proj1 (forallb_forall _ _) Ht).
Qed.

Lemma wf_subgraph_nth n t :
  In (n, t) (enumerate (terms syst)) ->
  nth_error (subgraphs syst) (subgraph t)
  = Some (fst (term_pair syst (n, t))).
Proof.
  intros Hin; pose proof wf_subgraphs_exist as Hex.
  unfold subgraphs_exist in Hex.
  pose proof (proj1 (forallb_forall _ _) Hex t (in_combine_r _ _ _ _ Hin))
    as Hlt.
  apply Nat.ltb_lt in Hlt.
  unfold term_pair; simpl.
  destruct (nth_error (subgraphs syst) (subgraph t)) as [sg|] eqn:E.
  - rewrite (nth_error_nth _ _ _ E); reflexivity.
  - apply nth_error_None in E; lia.
Qed.

Lemma wf_system_wf : system_wf syst = true.
Proof.
  unfold system_wf; apply forallb_forall; intros t Ht.
  destruct (in_enumerate _ _ Ht) as [n Hn].
  unfold term_wf; rewrite (wf_subgraph_nth _ _ Hn).
  pose proof (pair_fits_spec _ _ _ (wf_pair_fits _ Hn)) as Hfit.
  destruct (term_pair syst (n, t)) as [[[ta fa] [ts_offs fs_offs]] h].
  simpl; destruct Hfit as (Hta & Hfa & _).
  apply andb_true_iff; split; apply Nat.ltb_lt; assumption.
Qed.

Lemma wf_block_fits p :
  In p (enumerate (terms syst)) ->
  block_fits syst norb (snd p) (hamiltonian_term syst (fst p)).
Proof.
  destruct p as [n t]; intros Hin to_w from_w offs to_sa from_sa Esg Eto Efrom.
  simpl in *.
  rewrite (wf_subgraph_nth _ _ Hin) in Esg.
  pose proof (pair_fits_spec _ _ _ (wf_pair_fits _ Hin)) as Hfit.
  unfold term_pair in *; simpl in *.
  injection Esg as Esg; rewrite Esg in Hfit.
  destruct offs as [ts_offs fs_offs].
  destruct Hfit as (_ & _ & HM & HP & _).
  unfold array_at in HM, HP.
  rewrite (nth_error_nth _ _ _ Eto) in HM.
  rewrite (nth_error_nth _ _ _ Efrom) in HP.
  split; assumption.
Qed.

(** [_count_norbs] when the blocks handed to it are blocks of the terms
    they stand for. *)
Lemma wf_count_norbs_given (hams : list (option (Block3 C))) :
  (forall p, In p (combine hams (terms syst)) ->
             forall ham, fst p = Some ham ->
                         block_fits syst norb (snd p) ham) ->
  _count_norbs syst (site_offsets_of syst) hams
  = Ok (map (fun s => norb (family s)) (site_arrays syst) ++ [0],
        offsets array_sizes).
Proof.
  intros Hgiven.
  destruct (@resolve_family_norbs_table _ syst hams wf_system_wf)
    as (m & Em & Hm).
  assert (Hagrees : agrees norb m).
  { apply (@resolve_agrees _ syst norb hams m); [exact Hgiven| |exact Em].
    intros p Hp; apply wf_block_fits, Hp. }
  assert (Hknown : forall s, In s (site_arrays syst) ->
                             m !! family s = Some (Some (norb (family s)))).
  { intros s Hs; specialize (Hm (family s)).
    rewrite (wf_touched _ Hs) in Hm; destruct Hm as [v Hv].
    rewrite Hv, (Hagrees _ _ Hv); reflexivity. }
  assert (Hall : forall f, m !! f <> Some None).
  { intros f Hf; specialize (Hm f).
    destruct (touched syst f) eqn:Ht.
    - destruct Hm as [v Hv]; congruence.
    - rewrite Hf in Hm.
      destruct (existsb (fun s => family s =? f) (site_arrays syst)) eqn:Hex;
        [|discriminate].
      apply existsb_exists in Hex as (s & Hs & Heq).
      apply Nat.eqb_eq in Heq; subst f.
      rewrite (wf_touched _ Hs) in Ht; discriminate. }
  rewrite (@count_norbs_resolved _ _ syst _ _ m wf_site_ranges Em Hall).
  2:{ unfold site_offsets_of, cumsum; simpl.
      rewrite cumsum_from_length, length_map; lia. }
  unfold array_sizes; f_equal; f_equal; [f_equal|f_equal];
    apply map_ext_in; intros s Hs; unfold norb_of;
    rewrite (Hknown s Hs); reflexivity.
Qed.

Lemma wf_count_norbs sgs hams :
  hermitian_expansion syst = Ok (sgs, hams) ->
  _count_norbs syst (site_offsets_of syst) (map Some hams)
  = Ok (map (fun s => norb (family s)) (site_arrays syst) ++ [0],
        offsets array_sizes).
Proof.
  intros Hexp.
  destruct (hermitian_expansion_pairs syst wf_subgraphs_exist)
    as (sgs' & hams' & Hexp' & Hlen & Hpairs).
  rewrite Hexp in Hexp'; injection Hexp' as <- <-.
  apply wf_count_norbs_given.
  assert (Hh : hams
               = map (fun p : nat * Term => hamiltonian_term syst (fst p))
                     (enumerate (terms syst))
                 ++ map snd
                      (map (fun p => conjugate_pair (term_pair syst p))
                           (List.filter
                              (fun p : nat * Term => hermitian (snd p))
                              (enumerate (terms syst))))).
  { rewrite <- (map_snd_combine sgs hams Hlen), Hpairs, map_app, map_map.
    reflexivity. }
  intros [ho t] Hin ham Hho; cbn [fst snd] in *; subst ho.
  rewrite Hh, map_app, combine_app_left in Hin.
  2:{ unfold enumerate.
      rewrite !length_map, length_combine, length_seq; lia. }
  rewrite map_map in Hin.
  apply in_combine_map_enumerate in Hin as (n & Hn & Heq).
  injection Heq as ->.
  exact (wf_block_fits _ Hn).
Qed.
End WellFormedAssembly.

Section WellFormedPlacement.
Context {C : Type} `{Scalar C}.

Variable syst : System C.
Variable norb : nat -> nat.

Lemma at_array_norbs w :
  w < length (site_arrays syst) ->
  at_ (map (fun s => norb (family s)) (site_arrays syst) ++ [0]) w
  = norb (family (array_at syst w)).
Proof.
  intros Hw; unfold at_, array_at.
  rewrite app_nth1 by (rewrite length_map; exact Hw).
  rewrite (nth_indep _ 0 (norb (family {| family := 0; sa_len := 0 |})))
    by (rewrite length_map; exact Hw).
  apply (map_nth (fun s => norb (family s))).
Qed.

Lemma at_array_sizes w :
  w < length (site_arrays syst) ->
  at_ (array_sizes syst norb) w
  = sa_len (array_at syst w) * norb (family (array_at syst w)).
Proof.
  intros Hw; unfold at_, array_at, array_sizes.
  rewrite (nth_indep _ 0
             ((fun s => sa_len s * norb (family s))
                {| family := 0; sa_len := 0 |}))
    by (rewrite length_map; exact Hw).
  apply (map_nth (fun s => sa_len s * norb (family s))).
Qed.

(** Orbital [j] of the site at local offset [o] of array [w] is a row
    (and a column) of the matrix. *)
Lemma orbital_inside w o j :
  w < length (site_arrays syst) ->
  o < sa_len (array_at syst w) ->
  j < norb (family (array_at syst w)) ->
  at_ (offsets (array_sizes syst norb)) w
  + at_ (map (fun s => norb (family s)) (site_arrays syst) ++ [0]) w * o + j
  < total_orbitals syst norb.
Proof.
  intros Hw Ho Hj.
  assert (Hlen : length (array_sizes syst norb) = length (site_arrays syst))
    by (unfold array_sizes; apply length_map).
  pose proof (@offsets_succ (array_sizes syst norb) w ltac:(lia)) as Hsucc.
  pose proof (@offsets_le_last (array_sizes syst norb) (w + 1) ltac:(lia))
    as Hlast.
  rewrite offsets_last_sum in Hlast; fold (total_orbitals syst norb) in Hlast.
  rewrite at_array_sizes in Hsucc by exact Hw.
  rewrite at_array_norbs by exact Hw.
  nia.
Qed.

Lemma fits_no_mismatch (p : Subgraph * Block3 C) :
  pair_fits syst norb p = true ->
  shape_mismatch
    (map (fun s => norb (family s)) (site_arrays syst) ++ [0]) p = false.
Proof.
  intros Hfit; apply pair_fits_spec in Hfit.
  destruct p as [[[ta fa] [ts_offs fs_offs]] h]; unfold shape_mismatch; simpl.
  destruct Hfit as (Hta & Hfa & HM & HP & _).
  rewrite !at_array_norbs, HM, HP, !Nat.eqb_refl by assumption; reflexivity.
Qed.

Lemma fits_inside (p : Subgraph * Block3 C) :
  pair_fits syst norb p = true ->
  inside (total_orbitals syst norb, total_orbitals syst norb)
         (pair_entries
            (map (fun s => norb (family s)) (site_arrays syst) ++ [0])
            (offsets (array_sizes syst norb)) p).
Proof.
  intros Hfit r c v Hin; apply pair_fits_spec in Hfit.
  apply in_pair_entries in Hin as (i & j & k & Hi & Hj & Hk & -> & -> & _).
  destruct p as [[[ta fa] [ts_offs fs_offs]] h].
  unfold to_off_of, from_off_of; simpl in *.
  destruct Hfit as (Hta & Hfa & HM & HP & _ & _ & Ot & Of).
  split; apply orbital_inside; auto; lia.
Qed.

Lemma expanded_pairs_fit (wf : well_formed syst norb = true) sgs hams :
  hermitian_expansion syst = Ok (sgs, hams) ->
  length sgs = length hams /\
  forall p, In p (combine sgs hams) -> pair_fits syst norb p = true.
Proof.
  intros Hexp.
  destruct (hermitian_expansion_pairs syst (wf_subgraphs_exist _ _ wf))
    as (sgs' & hams' & Hexp' & Hlen & Hpairs).
  rewrite Hexp in Hexp'; injection Hexp' as <- <-.
  split; [exact Hlen|].
  intros p Hp; rewrite Hpairs in Hp; apply in_app_or in Hp as [Hp|Hp].
  - apply in_map_iff in Hp as (q & <- & Hq); apply wf_pair_fits; assumption.
  - apply in_map_iff in Hp as (q & <- & Hq).
    apply filter_In in Hq as [Hq _].
    apply pair_fits_conjugate, wf_pair_fits; assumption.
Qed.
End WellFormedPlacement.

(** X13.  A vectorized system without precomputed site ranges in which
    every term names a subgraph, every subgraph joins two site arrays
    that exist and holds one pair of local site offsets per block, each
    offset below the length of its array, every block has the orbital
    counts of the families of its two arrays ([norb]), and every family
    occurs in some term, assembles: in both formats
    [vectorized_hamiltonian_submatrix] returns a matrix, and the matrix
    is square with one row per orbital of the system, the sum of
    [len(site_array) * norb] over the site arrays. *)
Theorem well_formed_system_assembles {C} `{Scalar C}
        (syst : System C) (norb : nat -> nat) (sparse : bool) :
  well_formed syst norb = true ->
  exists A,
    vectorized_hamiltonian_submatrix syst sparse = Ok A /\
    shape0 (as_dense A) = total_orbitals syst norb /\
    shape1 (as_dense A) = total_orbitals syst norb.
Proof.
  intros wf.
  destruct (hermitian_expansion_pairs syst (wf_subgraphs_exist _ _ wf))
    as (sgs & hams & Hexp & _ & _).
  destruct (expanded_pairs_fit _ _ wf Hexp) as [Hlen Hfit].
  unfold vectorized_hamiltonian_submatrix.
  rewrite Hexp; simpl.
  rewrite (wf_count_norbs _ _ wf Hexp); simpl.
  assert (Hfind : find (shape_mismatch
                          (map (fun s => norb (family s)) (site_arrays syst)
                               ++ [0]))
                       (combine sgs hams) = None).
  { apply find_none_all; intros p Hp; apply fits_no_mismatch, Hfit, Hp. }
  unfold call_assembler; destruct sparse.
  - unfold _vectorized_make_sparse.
    rewrite vms_loop by (simpl; apply pairs_entries_length).
    rewrite Hfind; simpl.
    rewrite pairs_entries_length_eq, Nat.eqb_refl by exact Hlen; simpl.
    eexists; split; [reflexivity|].
    simpl; split; apply offsets_last_sum.
  - unfold _vectorized_make_dense, shape_or_default.
    pose proof (@vmd_loop _
                  (map (fun s => norb (family s)) (site_arrays syst) ++ [0])
                  (offsets (array_sizes syst norb)) (site_offsets_of syst)
                  (combine sgs hams)
                  (zeros (List.last (offsets (array_sizes syst norb)) 0)
                         (List.last (offsets (array_sizes syst norb)) 0)))
      as Hloop.
    rewrite Hfind in Hloop.
    destruct Hloop as (M & HM & S0 & S1 & _).
    { intros p Hp _; unfold zeros; cbn [shape0 shape1].
      rewrite offsets_last_sum.
      apply fits_inside, Hfit, Hp. }
    cbn [fst snd]; rewrite HM.
    exists (Dense M); split; [reflexivity|].
    cbn [as_dense]; rewrite S0, S1; unfold zeros; cbn [shape0 shape1].
    split; apply offsets_last_sum.
Qed.

(** The norbs of the two families of [hopping_system]. *)
Definition hopping_system_norb (f : nat) : nat :=
  match f with
  | 0 => 2
  | _ => 1
  end.

Lemma well_formed_system_assembles_witness :
  exists A,
    vectorized_hamiltonian_submatrix hopping_system true = Ok A /\
    shape0 (as_dense A) = 5 /\ shape1 (as_dense A) = 5.
Proof.
  exact (@well_formed_system_assembles _ _ hopping_system hopping_system_norb
           true eq_refl).
Defined.

(** * The norbs returned with the vectorized Hamiltonian *)

Lemma fill_from_outside {A} (start stop : nat) (v : A) (a : list A) (i : nat) :
  i + length a <= start \/ stop <= i ->
  fill_from i start stop v a = a.
Proof.
  revert i; induction a as [|x a IH]; intros i Hout; simpl in *;
    [reflexivity|].
  rewrite IH by lia; f_equal.
  destruct (Nat.leb_spec start i), (Nat.ltb_spec i stop); simpl;
    try reflexivity; lia.
Qed.

Lemma fill_from_inside {A} (start stop : nat) (v : A) (a : list A) (i : nat) :
  start <= i -> i + length a <= stop ->
  fill_from i start stop v a = repeat v (length a).
Proof.
  revert i; induction a as [|x a IH]; intros i Hlo Hhi; simpl in *;
    [reflexivity|].
  rewrite IH by lia; f_equal.
  destruct (Nat.leb_spec start i), (Nat.ltb_spec i stop); simpl;
    try reflexivity; lia.
Qed.

Lemma fill_from_app {A} (start stop : nat) (v : A) (a b : list A) (i : nat) :
  fill_from i start stop v (a ++ b)
  = fill_from i start stop v a ++ fill_from (i + length a) start stop v b.
Proof.
  revert i; induction a as [|x a IH]; intros i; simpl.
  - rewrite Nat.add_0_r; reflexivity.
  - rewrite IH; do 3 f_equal; lia.
Qed.

(** Filling the slice of one site array in an array whose earlier cells
    are [done]. *)
Lemma fill_slice_next {A} (v u : A) (done : list A) (n rest : nat) :
  fill_slice (length done) (length done + n) v
             (done ++ repeat u (n + rest))
  = (done ++ repeat v n) ++ repeat u rest.
Proof.
  unfold fill_slice.
  rewrite repeat_app, !fill_from_app; simpl.
  rewrite fill_from_outside by lia.
  rewrite fill_from_inside by (rewrite ?repeat_length; lia).
  rewrite fill_from_outside by (rewrite ?repeat_length; lia).
  rewrite repeat_length, app_assoc; reflexivity.
Qed.

Lemma expand_norbs_fold {X} (len nb : X -> nat) (extra : list nat)
      (l : list X) :
  forall (o : nat) (done : list (option nat)),
    length done = o ->
    fold_left
      (fun norbs (p : nat * (nat * nat)) =>
         let '(start, (stop, norb)) := p in
         fill_slice start stop (Some norb) norbs)
      (combine (o :: cumsum_from o (map len l))
               (combine (cumsum_from o (map len l)) (map nb l ++ extra)))
      (done ++ repeat None (list_sum (map len l)))
    = done ++ flat_map (fun s => repeat (Some (nb s)) (len s)) l.
Proof.
  induction l as [|s l IH]; intros o done Hlen.
  - simpl; reflexivity.
  - subst o.
    change (fold_left
              (fun norbs (p : nat * (nat * nat)) =>
                 let '(start, (stop, norb)) := p in
                 fill_slice start stop (Some norb) norbs)
              (combine
                 ((length done + len s)
                    :: cumsum_from (length done + len s) (map len l))
                 (combine (cumsum_from (length done + len s) (map len l))
                          (map nb l ++ extra)))
              (fill_slice (length done) (length done + len s) (Some (nb s))
                 (done ++ repeat None (len s + list_sum (map len l))))
            = done ++ repeat (Some (nb s)) (len s)
                   ++ flat_map (fun s => repeat (Some (nb s)) (len s)) l).
    rewrite fill_slice_next.
    rewrite (IH (length done + len s) (done ++ repeat (Some (nb s)) (len s)))
      by (rewrite length_app, repeat_length; lia).
    rewrite <- app_assoc; reflexivity.
Qed.

(** [_expand_norbs] on the site offsets of arrays of the given lengths:
    every site gets the norb of its array. *)
Lemma expand_norbs_arrays {X} (len nb : X -> nat) (extra : list nat)
      (l : list X) :
  _expand_norbs (map nb l ++ extra) (cumsum (0 :: map len l))
  = Ok (flat_map (fun s => repeat (Some (nb s)) (len s)) l).
Proof.
  unfold _expand_norbs, cumsum.
  cbn [cumsum_from Nat.add tl].
  change (0 :: cumsum_from 0 (map len l)) with (offsets (map len l)).
  rewrite offsets_last_sum; unfold offsets, cumsum.
  f_equal.
  exact (@expand_norbs_fold _ len nb extra l 0 [] eq_refl).
Qed.

Lemma call_assembler_default_shape
      {C : Type} `{Scalar C} (sparse : bool) (subgraphs : list Subgraph)
      (hams : list (Block3 C)) (norbs orb_offsets site_offsets : list nat)
      (A : Assembled C) :
  call_assembler sparse subgraphs hams norbs orb_offsets site_offsets None
  = Ok A ->
  shape0 (as_dense A) = List.last orb_offsets 0 /\
  shape1 (as_dense A) = List.last orb_offsets 0.
Proof.
  unfold call_assembler; destruct sparse.
  - unfold _vectorized_make_sparse.
    destruct (for_each _ _ _) as [T|e]; [|discriminate].
    cbn [bind]; destruct (_ =? _); [|discriminate].
    cbn [bind]; intros Heq; injection Heq as <-; simpl; auto.
  - destruct (_vectorized_make_dense _ _ _ _ _ _) as [M|e] eqn:Hd;
      [|discriminate].
    cbn [bind]; intros Heq; injection Heq as <-.
    apply _vectorized_make_dense_shape in Hd; exact Hd.
Qed.

(** Without [return_norb] the entry point is the one studied above. *)
Lemma vectorized_hamiltonian_submatrix_norb_mat {C} `{Scalar C}
      (syst : System C) (sparse return_norb : bool) (r : VReturned C) :
  vectorized_hamiltonian_submatrix_norb syst sparse return_norb = Ok r ->
  exists mat,
    vectorized_hamiltonian_submatrix syst sparse = Ok mat /\
    match r with
    | VMat m => return_norb = false /\ m = mat
    | VMatNorb m _ => return_norb = true /\ m = mat
    end.
Proof.
  unfold vectorized_hamiltonian_submatrix_norb,
    vectorized_hamiltonian_submatrix.
  destruct (hermitian_expansion syst) as [[sgs hams]|e]; [|discriminate].
  cbn [bind].
  destruct (_count_norbs syst _ _) as [[norbs orb_offsets]|e];
    [|discriminate].
  cbn [bind].
  destruct (call_assembler _ _ _ _ _ _ _) as [mat|e]; [|discriminate].
  cbn [bind]; intros Hr; exists mat; split; [reflexivity|].
  destruct return_norb.
  - destruct (_expand_norbs _ _); [|discriminate].
    injection Hr as <-; auto.
  - injection Hr as <-; auto.
Qed.

(** X14.  For a system without precomputed site ranges, when
    [vectorized_hamiltonian_submatrix] with [return_norb] returns
    [(mat, norb)]: [mat] is the matrix returned without [return_norb];
    [norb] has one entry for every site, in the order of the site arrays,
    none of them left uninitialised; the sites of one family all have the
    same number of orbitals; and the matrix is square with as many rows
    as [norb] adds up to. *)
Theorem returned_norbs_per_site {C} `{Scalar C}
        (syst : System C) (sparse : bool) (r : VReturned C) :
  site_ranges syst = None ->
  vectorized_hamiltonian_submatrix_norb syst sparse true = Ok r ->
  exists (mat : Assembled C) (n : nat -> nat),
    r = VMatNorb mat
          (flat_map (fun s => repeat (Some (n (family s))) (sa_len s))
                    (site_arrays syst)) /\
    vectorized_hamiltonian_submatrix syst sparse = Ok mat /\
    shape0 (as_dense mat)
    = list_sum (map (fun s => sa_len s * n (family s)) (site_arrays syst)) /\
    shape1 (as_dense mat)
    = list_sum (map (fun s => sa_len s * n (family s)) (site_arrays syst)).
Proof.
  intros Hsr Hrun.
  destruct (vectorized_hamiltonian_submatrix_norb_mat _ _ _ Hrun)
    as (mat & Hmat & Hr).
  pose proof Hmat as Hsame.
  unfold vectorized_hamiltonian_submatrix_norb in Hrun.
  unfold vectorized_hamiltonian_submatrix in Hmat.
  destruct (hermitian_expansion syst) as [[sgs hams]|e]; [|discriminate].
  cbn [bind] in Hrun, Hmat.
  destruct (_count_norbs syst _ _) as [[norbs orb_offsets]|e] eqn:Hcount;
    [|discriminate].
  cbn [bind] in Hrun, Hmat.
  assert (Hres : exists m, resolve_family_norbs syst (map Some hams) = Ok m /\
                           forall f, m !! f <> Some None).
  { unfold _count_norbs in Hcount; rewrite Hsr in Hcount.
    destruct (resolve_family_norbs syst (map Some hams)) as [m|e];
      [|discriminate].
    exists m; split; [reflexivity|].
    cbn [bind] in Hcount.
    destruct (existsb is_none (map snd (map_to_list m))) eqn:Hany;
      [discriminate|].
    intros f Hf.
    assert (existsb is_none (map snd (map_to_list m)) = true)
      by (apply any_none_spec; eauto).
    congruence. }
  destruct Hres as (m & Em & Hall).
  rewrite (@count_norbs_resolved _ _ syst _ _ m Hsr Em Hall) in Hcount.
  2:{ unfold site_offsets_of, cumsum; simpl.
      rewrite cumsum_from_length, length_map; lia. }
  injection Hcount as <- <-.
  rewrite Hmat in Hrun; cbn [bind] in Hrun.
  unfold site_offsets_of in Hrun.
  rewrite (expand_norbs_arrays sa_len
             (fun s => default 0 (norb_of m (family s)))) in Hrun.
  cbn [bind] in Hrun; injection Hrun as <-.
  exists mat, (fun f => default 0 (norb_of m f)).
  split; [reflexivity|split; [exact Hsame|]].
  apply call_assembler_default_shape in Hmat.
  rewrite offsets_last_sum in Hmat; exact Hmat.
Qed.

Lemma returned_norbs_per_site_witness :
  match vectorized_hamiltonian_submatrix_norb hopping_system true true with
  | Ok (VMatNorb mat norb) =>
      norb = [Some 2; Some 2; Some 1] /\
      shape0 (as_dense mat) = 5 /\ shape1 (as_dense mat) = 5
  | _ => False
  end.
Proof.
  destruct (vectorized_hamiltonian_submatrix_norb hopping_system true true)
    as [r|e] eqn:Hrun; [|vm_compute in Hrun; discriminate].
  destruct (@returned_norbs_per_site _ _ hopping_system true r eq_refl Hrun)
    as (mat & n & -> & Hmat & S0 & S1).
  assert (Hn : match vectorized_hamiltonian_submatrix_norb hopping_system
                       true true with
               | Ok (VMatNorb _ norb) => norb
               | _ => []
               end = [Some 2; Some 2; Some 1])
    by (vm_compute; reflexivity).
  rewrite Hrun in Hn; simpl in Hn.
  assert (E0 : n 0 = 2) by congruence.
  assert (E1 : n 1 = 1) by congruence.
  rewrite S0, S1; simpl; rewrite E0, E1; auto.
Defined.

(** * The cell Hamiltonian inside the system Hamiltonian *)

Lemma comprehension_if_ok {A} (p : A -> result bool) (q : A -> bool)
      (l : list A) :
  (forall a, In a l -> p a = Ok (q a)) ->
  comprehension_if p l = Ok (List.filter q l).
Proof.
  induction l as [|a l IH]; intros Hp; simpl; [reflexivity|].
  rewrite (Hp a (or_introl eq_refl)); simpl.
  rewrite IH by (intros b Hb; apply Hp; right; exact Hb); reflexivity.
Qed.

Lemma comprehension_map {A B X} (f : A -> result B) (g : X -> A)
      (l : list X) :
  comprehension f (map g l) = comprehension (fun x => f (g x)) l.
Proof.
  induction l as [|x l IH]; simpl; [reflexivity|].
  rewrite IH; reflexivity.
Qed.

Lemma comprehension_if_map_ok {A X} (p : A -> result bool) (g : X -> A)
      (q : X -> bool) (l : list X) :
  (forall x, In x l -> p (g x) = Ok (q x)) ->
  comprehension_if p (map g l) = Ok (map g (List.filter q l)).
Proof.
  induction l as [|x l IH]; intros Hp; simpl; [reflexivity|].
  rewrite (Hp x (or_introl eq_refl)); simpl.
  rewrite IH by (intros b Hb; apply Hp; right; exact Hb); simpl.
  destruct (q x); reflexivity.
Qed.

Lemma combine_map_map {X A B} (f : X -> A) (g : X -> B) (l : list X) :
  combine (map f l) (map g l) = map (fun x => (f x, g x)) l.
Proof. induction l as [|x l IH]; simpl; [|rewrite IH]; reflexivity. Qed.

Lemma combine_app_right {A B} (l : list A) (l1 l2 : list B) :
  length l1 = length l -> combine l (l1 ++ l2) = combine l l1.
Proof.
  revert l1; induction l as [|a l IH]; intros [|b l1] Hlen;
    simpl in *; try lia; [reflexivity|].
  rewrite IH by lia; reflexivity.
Qed.

Lemma flat_map_filter_nil {X Y} (g : X -> list Y) (q : X -> bool)
      (l : list X) :
  (forall x, In x l -> q x = false -> g x = []) ->
  flat_map g (List.filter q l) = flat_map g l.
Proof.
  induction l as [|x l IH]; intros Hg; simpl; [reflexivity|].
  destruct (q x) eqn:Hq; simpl.
  - rewrite IH by (intros y Hy; apply Hg; right; exact Hy); reflexivity.
  - rewrite (Hg x (or_introl eq_refl) Hq); simpl.
    apply IH; intros y Hy; apply Hg; right; exact Hy.
Qed.

Lemma filter_filter_comm {X} (p q : X -> bool) (l : list X) :
  List.filter p (List.filter q l) = List.filter q (List.filter p l).
Proof.
  induction l as [|x l IH]; simpl; [reflexivity|].
  destruct (p x) eqn:Hp, (q x) eqn:Hq; simpl; rewrite ?Hp, ?Hq, IH;
    reflexivity.
Qed.

Section CellExpansion.
Context {C : Type} `{Scalar C}.

Variable syst : System C.

(** [inside_cell(term)], for a term whose subgraph exists *)
Definition inside_cell (p : nat * Term) : bool :=
  let sg := fst (term_pair syst p) in
  (fst (fst sg) <? next_cell_of syst) && (snd (fst sg) <? next_cell_of syst).

(** The terms inside the cell, with their numbers, and the pairs handed
    to the assembler for them. *)
Definition cell_terms : list (nat * Term) :=
  List.filter inside_cell (enumerate (terms syst)).

Definition cell_pairs : list (Subgraph * Block3 C) :=
  map (term_pair syst) cell_terms
  ++ map (fun p => conjugate_pair (term_pair syst p))
         (List.filter (fun p : nat * Term => hermitian (snd p)) cell_terms).

(** [all_hams] of [vectorized_cell_hamiltonian] *)
Definition cell_all_hams : list (option (Block3 C)) :=
  fill_hams (map (fun p : nat * Term =>
                    (fst p, hamiltonian_term syst (fst p))) cell_terms)
            (repeat None (length (terms syst))).

Hypothesis Hex : subgraphs_exist syst = true.

Lemma term_at_enumerate p :
  In p (enumerate (terms syst)) -> term_at syst (fst p) = Ok (snd p).
Proof.
  destruct p as [n t]; intros Hin; apply in_enumerate_nth in Hin.
  unfold term_at, index; simpl; rewrite Hin; reflexivity.
Qed.

Lemma subgraph_of_enumerate p :
  In p (enumerate (terms syst)) ->
  subgraph_of syst (snd p) = Ok (fst (term_pair syst p)).
Proof.
  destruct p as [n t]; intros Hin; simpl.
  apply subgraph_of_nth, Nat.ltb_lt.
  unfold subgraphs_exist in Hex.
  apply (proj1 (forallb_forall _ _) Hex), (in_combine_r _ _ _ _ Hin).
Qed.

Lemma cell_terms_in p : In p cell_terms -> In p (enumerate (terms syst)).
Proof. intros Hin; apply filter_In in Hin; tauto. Qed.

Lemma vectorized_cell_hamiltonian_pairs (sparse : bool) :
  vectorized_cell_hamiltonian syst sparse
  = (try no := _count_norbs syst (site_offsets_of syst) cell_all_hams in
     let '(norbs, orb_offsets) := no in
     try s0 := index orb_offsets (next_cell_of syst) in
     call_assembler sparse (map fst cell_pairs) (map snd cell_pairs)
                    norbs orb_offsets (site_offsets_of syst)
                    (Some (s0, s0))).
Proof.
  unfold vectorized_cell_hamiltonian; cbv zeta.
  rewrite (@comprehension_if_ok _ _ inside_cell).
  2:{ intros p Hp; rewrite (subgraph_of_enumerate _ Hp).
      unfold inside_cell; cbn [bind].
      destruct (fst (term_pair syst p)) as [[tw fw] offs]; reflexivity. }
  cbn [bind]; fold cell_terms.
  rewrite comprehension_map.
  rewrite (@comprehension_ok _ _ _ (fun p => fst (term_pair syst p))).
  2:{ intros p Hp; apply cell_terms_in in Hp.
      rewrite (term_at_enumerate _ Hp); cbn [bind].
      apply subgraph_of_enumerate, Hp. }
  cbn [bind].
  rewrite (@comprehension_if_map_ok _ _ _ fst
             (fun p : nat * Term => hermitian (snd p))).
  2:{ intros p Hp; apply cell_terms_in in Hp.
      rewrite (term_at_enumerate _ Hp); reflexivity. }
  cbn [bind].
  rewrite comprehension_map.
  rewrite (@comprehension_ok _ _ _
             (fun p => _reverse_subgraph (fst (term_pair syst p)))).
  2:{ intros p Hp; apply filter_In in Hp as [Hp _].
      apply cell_terms_in in Hp.
      rewrite (term_at_enumerate _ Hp); cbn [bind].
      rewrite (subgraph_of_enumerate _ Hp); reflexivity. }
  cbn [bind].
  rewrite (map_map fst (hamiltonian_term syst)).
  rewrite (combine_map_map (fun p : nat * Term => hamiltonian_term syst (fst p))
                           fst).
  rewrite (@comprehension_if_map_ok _ _ _
             (fun p : nat * Term => (hamiltonian_term syst (fst p), fst p))
             (fun p : nat * Term => hermitian (snd p))).
  2:{ intros p Hp; apply cell_terms_in in Hp; cbn [snd].
      rewrite (term_at_enumerate _ Hp); reflexivity. }
  cbn [bind].
  rewrite combine_app_right by (rewrite !length_map; reflexivity).
  rewrite (combine_map_map fst
             (fun p : nat * Term => hamiltonian_term syst (fst p))).
  fold cell_all_hams.
  assert (Hsgs : map (fun p => fst (term_pair syst p)) cell_terms
                 ++ map (fun p => _reverse_subgraph (fst (term_pair syst p)))
                        (List.filter (fun p : nat * Term => hermitian (snd p))
                                     cell_terms)
                 = map fst cell_pairs).
  { unfold cell_pairs; rewrite map_app, !map_map; f_equal.
    apply map_ext; intros p; unfold term_pair, conjugate_pair; simpl.
    destruct (nth _ _ _) as [[tw fw] [to fo]]; reflexivity. }
  assert (Hhs : map (fun p : nat * Term => hamiltonian_term syst (fst p))
                    cell_terms
                ++ map (fun p : Block3 C * nat => conj_transpose3 (fst p))
                       (map (fun p : nat * Term =>
                               (hamiltonian_term syst (fst p), fst p))
                            (List.filter
                               (fun p : nat * Term => hermitian (snd p))
                               cell_terms))
                = map snd cell_pairs).
  { unfold cell_pairs; rewrite map_app, !map_map; f_equal.
    apply map_ext; intros p; unfold term_pair, conjugate_pair; simpl.
    destruct (nth _ _ _) as [[tw fw] [to fo]]; reflexivity. }
  rewrite Hsgs, Hhs; reflexivity.
Qed.
End CellExpansion.

Lemma lookup_nth_error {A} (l : list A) (k : nat) : l !! k = nth_error l k.
Proof.
  revert k; induction l as [|x l IH]; intros [|k]; simpl; auto.
Qed.

Lemma map_fst_combine {A B} (l1 : list A) (l2 : list B) :
  length l1 = length l2 -> map fst (combine l1 l2) = l1.
Proof.
  revert l2; induction l1 as [|a l1 IH]; intros [|b l2] Hlen;
    simpl in *; try lia; [reflexivity|].
  rewrite IH by lia; reflexivity.
Qed.

Lemma combine_fst_snd {A B} (l : list (A * B)) :
  combine (map fst l) (map snd l) = l.
Proof.
  induction l as [|[a b] l IH]; simpl; [|rewrite IH]; reflexivity.
Qed.

Lemma flat_map_map {X Y Z} (f : X -> Y) (g : Y -> list Z) (l : list X) :
  flat_map g (map f l) = flat_map (fun x => g (f x)) l.
Proof.
  induction l as [|x l IH]; simpl; [|rewrite IH]; reflexivity.
Qed.

Lemma index_nth {A} (l : list A) (i : nat) (d : A) :
  i < length l -> index l i = Ok (nth i l d).
Proof.
  intros Hi; unfold index.
  destruct (nth_error l i) as [a|] eqn:E.
  - rewrite (nth_error_nth _ _ _ E); reflexivity.
  - apply nth_error_None in E; lia.
Qed.

Section FittingPairs.
Context {C : Type} `{Scalar C}.

Variable syst : System C.
Variable norb : nat -> nat.

(** Orbital [j] of the site at local offset [o] of array [w] comes before
    the orbitals of the arrays from [k] on, for [w < k]. *)
Lemma orbital_below w k o j :
  w < k -> k <= length (site_arrays syst) ->
  o < sa_len (array_at syst w) ->
  j < norb (family (array_at syst w)) ->
  at_ (offsets (array_sizes syst norb)) w
  + at_ (map (fun s => norb (family s)) (site_arrays syst) ++ [0]) w * o + j
  < at_ (offsets (array_sizes syst norb)) k.
Proof.
  intros Hw Hk Ho Hj.
  assert (Hlen : length (array_sizes syst norb) = length (site_arrays syst))
    by (unfold array_sizes; apply length_map).
  pose proof (@offsets_succ (array_sizes syst norb) w ltac:(lia)) as Hsucc.
  pose proof (@offsets_mono (array_sizes syst norb) (w + 1) k
                ltac:(lia) ltac:(lia)) as Hmono.
  rewrite at_array_sizes in Hsucc by lia.
  rewrite at_array_norbs by lia.
  nia.
Qed.

Lemma fits_below (p : Subgraph * Block3 C) (k : nat) :
  pair_fits syst norb p = true ->
  fst (fst (fst p)) < k -> snd (fst (fst p)) < k ->
  k <= length (site_arrays syst) ->
  inside (at_ (offsets (array_sizes syst norb)) k,
          at_ (offsets (array_sizes syst norb)) k)
         (pair_entries
            (map (fun s => norb (family s)) (site_arrays syst) ++ [0])
            (offsets (array_sizes syst norb)) p).
Proof.
  intros Hfit Hto Hfrom Hk r c v Hin; apply pair_fits_spec in Hfit.
  apply in_pair_entries in Hin as (i & j & l & Hi & Hj & Hl & -> & -> & _).
  destruct p as [[[ta fa] [ts_offs fs_offs]] h].
  unfold to_off_of, from_off_of; simpl in *.
  destruct Hfit as (Hta & Hfa & HM & HP & _ & _ & Ot & Of).
  split; apply orbital_below; auto; lia.
Qed.

(** The entries of a pair with an array from [k] on lie outside the
    first [offsets[k]] rows or outside the first [offsets[k]] columns. *)
Lemma fits_beyond (p : Subgraph * Block3 C) (k r c : nat) :
  pair_fits syst norb p = true ->
  (fst (fst (fst p)) <? k) && (snd (fst (fst p)) <? k) = false ->
  r < at_ (offsets (array_sizes syst norb)) k ->
  c < at_ (offsets (array_sizes syst norb)) k ->
  vals_at r c
    (pair_entries
       (map (fun s => norb (family s)) (site_arrays syst) ++ [0])
       (offsets (array_sizes syst norb)) p) = [].
Proof.
  intros Hfit Hout Hr Hc; apply vals_at_none; intros Hin.
  apply in_map_iff in Hin as ([[r' c'] v] & Heq & Hin).
  simpl in Heq; injection Heq as -> ->.
  apply pair_fits_spec in Hfit.
  apply in_pair_entries in Hin as (i & j & l & Hi & Hj & Hl & -> & -> & _).
  destruct p as [[[ta fa] [ts_offs fs_offs]] h].
  unfold to_off_of, from_off_of in *; simpl in *.
  destruct Hfit as (Hta & Hfa & _).
  assert (Hlen : length (array_sizes syst norb) = length (site_arrays syst))
    by (unfold array_sizes; apply length_map).
  apply andb_false_iff in Hout as [Hout|Hout]; apply Nat.ltb_ge in Hout.
  - pose proof (@offsets_mono (array_sizes syst norb) k ta Hout
                  ltac:(lia)); lia.
  - pose proof (@offsets_mono (array_sizes syst norb) k fa Hout
                  ltac:(lia)); lia.
Qed.

(** Pairs that fit the system and lie inside the matrix are assembled
    in both formats; an element of the result is given by the values
    stored at its position, in the order of the pairs: their sum in the
    sparse format, the last of them in the dense format. *)
Lemma assembled_values (pairs : list (Subgraph * Block3 C))
      (site_offsets : list nat) (shape : option (nat * nat))
      (sparse : bool) :
  let norbs := map (fun s => norb (family s)) (site_arrays syst) ++ [0] in
  let orb_offsets := offsets (array_sizes syst norb) in
  (forall p, In p pairs -> pair_fits syst norb p = true) ->
  (forall p, In p pairs ->
             inside (shape_or_default orb_offsets shape)
                    (pair_entries norbs orb_offsets p)) ->
  exists A,
    call_assembler sparse (map fst pairs) (map snd pairs) norbs orb_offsets
                   site_offsets shape = Ok A /\
    shape0 (as_dense A) = fst (shape_or_default orb_offsets shape) /\
    shape1 (as_dense A) = snd (shape_or_default orb_offsets shape) /\
    forall r c,
      entry (as_dense A) r c
      = let vs := vals_at r c (flat_map (pair_entries norbs orb_offsets)
                                        pairs) in
        if sparse then fold_left cadd vs c0 else List.last vs c0.
Proof.
  intros norbs orb_offsets Hfit Hin.
  assert (Hfind : find (shape_mismatch norbs) pairs = None).
  { apply find_none_all; intros p Hp; apply fits_no_mismatch, Hfit, Hp. }
  assert (Hsparse : exists S,
             _vectorized_make_sparse norbs orb_offsets site_offsets
                                     (map fst pairs) (map snd pairs) shape
             = Ok S /\
             coo_data S = flat_map (pair_entries norbs orb_offsets) pairs /\
             coo_shape0 S = fst (shape_or_default orb_offsets shape) /\
             coo_shape1 S = snd (shape_or_default orb_offsets shape)).
  { assert (Hlen : length (flat_map (pair_entries norbs orb_offsets) pairs)
                   = list_sum (map (fun h => b_N h * b_M h * b_P h)
                                   (map snd pairs))).
    { rewrite <- (pairs_entries_length_eq norbs orb_offsets
                    (map fst pairs) (map snd pairs))
        by (rewrite !length_map; reflexivity).
      rewrite combine_fst_snd; reflexivity. }
    unfold _vectorized_make_sparse.
    rewrite vms_loop by (simpl; apply pairs_entries_length).
    rewrite combine_fst_snd, Hfind; cbn [bind app].
    rewrite Hlen, Nat.eqb_refl.
    eexists; split; [reflexivity|]; simpl; auto. }
  assert (Hdense : exists M,
             _vectorized_make_dense norbs orb_offsets site_offsets
                                    (map fst pairs) (map snd pairs) shape
             = Ok M).
  { unfold _vectorized_make_dense; rewrite combine_fst_snd.
    pose proof (@vmd_loop _ norbs orb_offsets site_offsets pairs
                  (zeros (fst (shape_or_default orb_offsets shape))
                         (snd (shape_or_default orb_offsets shape))))
      as Hloop.
    rewrite Hfind in Hloop.
    destruct Hloop as (M & HM & _).
    { intros p Hp _; unfold zeros; cbn [shape0 shape1].
      rewrite <- surjective_pairing; apply Hin, Hp. }
    exists M; exact HM. }
  destruct Hsparse as (S & HS & Hdata & S0 & S1).
  destruct Hdense as (M & HM).
  destruct (vectorized_sum_and_last _ _ _ _ _ _ HS HM) as [Hshape Hval].
  rewrite Hdata in Hval.
  unfold call_assembler; destruct sparse.
  - rewrite HS; cbn [bind]; exists (Sparse S); split; [reflexivity|].
    cbn [as_dense]; repeat split; try assumption.
    intros r c; apply Hval.
  - rewrite HM; cbn [bind]; exists (Dense M); split; [reflexivity|].
    cbn [as_dense]; injection Hshape as E0 E1.
    repeat split; try congruence.
    intros r c; apply Hval.
Qed.
End FittingPairs.

Section CellInSystem.
Context {C : Type} `{Scalar C}.

Variable syst : System C.
Variable norb : nat -> nat.

Hypothesis wf : well_formed syst norb = true.

Lemma fill_hams_lookup (L : list (nat * Term))
      (acc : list (option (Block3 C))) :
  (forall k h, acc !! k = Some (Some h) -> h = hamiltonian_term syst k) ->
  forall k h,
    fill_hams (map (fun p : nat * Term =>
                      (fst p, hamiltonian_term syst (fst p))) L) acc !! k
    = Some (Some h) ->
    h = hamiltonian_term syst k.
Proof.
  unfold fill_hams; revert acc; induction L as [|p L IH]; intros acc Hacc;
    simpl; [exact Hacc|].
  apply IH; intros k h Hk.
  apply list_lookup_insert_Some in Hk as [(-> & E & _)|[_ Hk]].
  - injection E as <-; reflexivity.
  - apply Hacc, Hk.
Qed.

Lemma cell_all_hams_fit p :
  In p (combine (cell_all_hams syst) (terms syst)) ->
  forall ham, fst p = Some ham -> block_fits syst norb (snd p) ham.
Proof.
  destruct p as [ho t]; intros Hin ham Hho; cbn [fst snd] in *; subst ho.
  apply in_combine_nth in Hin as (k & Hk & Ht).
  rewrite <- lookup_nth_error in Hk.
  unfold cell_all_hams in Hk; apply fill_hams_lookup in Hk.
  - subst ham; apply in_enumerate_nth in Ht.
    exact (wf_block_fits syst norb wf (k, t) Ht).
  - intros k' h Hk'; rewrite lookup_nth_error in Hk'.
    apply nth_error_In, repeat_spec in Hk'; discriminate.
Qed.

Lemma enumerated_pair_fits p :
  In p (enumerate (terms syst)) ->
  pair_fits syst norb (term_pair syst p) = true /\
  pair_fits syst norb (conjugate_pair (term_pair syst p)) = true.
Proof.
  intros Hp; split; [|apply pair_fits_conjugate];
    apply wf_pair_fits; assumption.
Qed.

Lemma expanded_pairs_all_fit p :
  In p (expanded_pairs syst) -> pair_fits syst norb p = true.
Proof.
  unfold expanded_pairs; intros Hp; apply in_app_or in Hp as [Hp|Hp];
    apply in_map_iff in Hp as (q & <- & Hq).
  - apply enumerated_pair_fits, Hq.
  - apply filter_In in Hq as [Hq _]; apply enumerated_pair_fits, Hq.
Qed.

Lemma cell_pairs_fit p :
  In p (cell_pairs syst) ->
  pair_fits syst norb p = true /\
  fst (fst (fst p)) < next_cell_of syst /\
  snd (fst (fst p)) < next_cell_of syst.
Proof.
  unfold cell_pairs, cell_terms; intros Hp; apply in_app_or in Hp as [Hp|Hp];
    apply in_map_iff in Hp as (q & <- & Hq).
  - apply filter_In in Hq as [Hq Hin].
    split; [apply enumerated_pair_fits, Hq|].
    unfold inside_cell in Hin; apply andb_true_iff in Hin as [H1 H2].
    apply Nat.ltb_lt in H1, H2; auto.
  - apply filter_In in Hq as [Hq _]; apply filter_In in Hq as [Hq Hin].
    split; [apply enumerated_pair_fits, Hq|].
    unfold inside_cell in Hin; apply andb_true_iff in Hin as [H1 H2].
    apply Nat.ltb_lt in H1, H2.
    destruct (term_pair syst q) as [[[ta fa] [ts_offs fs_offs]] h].
    simpl in *; auto.
Qed.

(** Below the orbitals of the boundary array, the values stored by the
    terms of the cell are the values stored by all terms. *)
Lemma cell_values r c :
  let norbs := map (fun s => norb (family s)) (site_arrays syst) ++ [0] in
  let orb_offsets := offsets (array_sizes syst norb) in
  r < at_ orb_offsets (next_cell_of syst) ->
  c < at_ orb_offsets (next_cell_of syst) ->
  vals_at r c (flat_map (pair_entries norbs orb_offsets) (cell_pairs syst))
  = vals_at r c (flat_map (pair_entries norbs orb_offsets)
                          (expanded_pairs syst)).
Proof.
  intros norbs orb_offsets Hr Hc.
  rewrite !vals_at_flat_map.
  unfold cell_pairs, expanded_pairs, cell_terms.
  rewrite !flat_map_app, !flat_map_map, filter_filter_comm.
  f_equal; apply flat_map_filter_nil.
  - intros p Hp Hout.
    apply fits_beyond with (k := next_cell_of syst);
      [apply enumerated_pair_fits, Hp | exact Hout | exact Hr | exact Hc].
  - intros p Hp Hout; apply filter_In in Hp as [Hp _].
    apply fits_beyond with (k := next_cell_of syst);
      [apply enumerated_pair_fits, Hp | | exact Hr | exact Hc].
    unfold inside_cell in Hout.
    destruct (term_pair syst p) as [[[ta fa] [ts_offs fs_offs]] h].
    simpl in *; rewrite andb_comm; exact Hout.
Qed.
End CellInSystem.

(** X15.  In a well-formed vectorized system ([well_formed]) the cell
    Hamiltonian is the top left block of the system Hamiltonian: both
    calls return a matrix, [vectorized_cell_hamiltonian] a square one
    with one row per orbital of the site arrays before the boundary
    array, and the two matrices are equal element by element on these
    rows and columns, in the sparse and in the dense format. *)
Theorem cell_hamiltonian_in_system {C} `{Scalar C}
        (syst : System C) (norb : nat -> nat) (sparse : bool) :
  well_formed syst norb = true ->
  let cut := at_ (offsets (array_sizes syst norb)) (next_cell_of syst) in
  exists A_cell A,
    vectorized_cell_hamiltonian syst sparse = Ok A_cell /\
    vectorized_hamiltonian_submatrix syst sparse = Ok A /\
    shape0 (as_dense A_cell) = cut /\ shape1 (as_dense A_cell) = cut /\
    shape0 (as_dense A) = total_orbitals syst norb /\
    shape1 (as_dense A) = total_orbitals syst norb /\
    cut <= total_orbitals syst norb /\
    forall r c, r < cut -> c < cut ->
                entry (as_dense A_cell) r c = entry (as_dense A) r c.
Proof.
  intros wf cut.
  pose proof (next_cell_of_spec syst) as Hb; cbv zeta in Hb.
  destruct Hb as (Hb & _).
  assert (Hlen : length (array_sizes syst norb) = length (site_arrays syst))
    by (unfold array_sizes; apply length_map).
  (* the cell *)
  destruct (@assembled_values _ _ syst norb (cell_pairs syst)
              (site_offsets_of syst) (Some (cut, cut)) sparse)
    as (A_cell & Hcell & C0 & C1 & Vcell).
  { intros p Hp; apply (cell_pairs_fit syst norb wf), Hp. }
  { intros p Hp; destruct (cell_pairs_fit syst norb wf p Hp) as (Hfit & Hto & Hfrom).
    apply fits_below; assumption. }
  (* the system *)
  destruct (@assembled_values _ _ syst norb (expanded_pairs syst)
              (site_offsets_of syst) None sparse)
    as (A & Hfull & F0 & F1 & Vfull).
  { intros p Hp; apply (expanded_pairs_all_fit syst norb wf), Hp. }
  { intros p Hp; unfold shape_or_default; rewrite offsets_last_sum.
    apply fits_inside, (expanded_pairs_all_fit syst norb wf), Hp. }
  exists A_cell, A.
  split.
  { rewrite (vectorized_cell_hamiltonian_pairs syst
               (wf_subgraphs_exist syst norb wf)).
    rewrite (wf_count_norbs_given wf (cell_all_hams syst))
      by (intros p; apply (cell_all_hams_fit syst norb wf)).
    cbn [bind].
    rewrite (index_nth _ 0) by (rewrite offsets_length; lia).
    cbn [bind]; exact Hcell. }
  split.
  { destruct (hermitian_expansion_pairs syst (wf_subgraphs_exist syst norb wf))
      as (sgs & hs & Hexp & Hl & Hpairs).
    unfold vectorized_hamiltonian_submatrix.
    rewrite Hexp; cbn [bind].
    rewrite (wf_count_norbs syst norb wf Hexp); cbn [bind].
    assert (Esgs : sgs = map fst (expanded_pairs syst))
      by (unfold expanded_pairs; rewrite <- Hpairs, map_fst_combine
            by exact Hl; reflexivity).
    assert (Ehs : hs = map snd (expanded_pairs syst))
      by (unfold expanded_pairs; rewrite <- Hpairs, map_snd_combine
            by exact Hl; reflexivity).
    rewrite Esgs, Ehs; exact Hfull. }
  unfold shape_or_default in *; cbn [fst snd] in *.
  rewrite offsets_last_sum in F0, F1.
  repeat split; try assumption.
  - unfold cut, total_orbitals.
    rewrite <- (offsets_last_sum (array_sizes syst norb)).
    apply offsets_le_last; lia.
  - intros r c Hr Hc; rewrite Vcell, Vfull; cbv zeta.
    rewrite (cell_values syst norb wf) by assumption; reflexivity.
Qed.

Lemma cell_hamiltonian_in_system_witness :
  exists A_cell A,
    vectorized_cell_hamiltonian hopping_system true = Ok A_cell /\
    vectorized_hamiltonian_submatrix hopping_system true = Ok A /\
    shape0 (as_dense A_cell) = 4 /\ shape1 (as_dense A_cell) = 4 /\
    shape0 (as_dense A) = 5 /\ shape1 (as_dense A) = 5 /\
    4 <= 5 /\
    forall r c, r < 4 -> c < 4 ->
                entry (as_dense A_cell) r c = entry (as_dense A) r c.
Proof.
  exact (@cell_hamiltonian_in_system _ _ hopping_system hopping_system_norb
           true eq_refl).
Defined.

(** * The inter-cell hopping inside the system Hamiltonian *)

Lemma filter_all {X} (q : X -> bool) (l : list X) :
  (forall x, In x l -> q x = true) -> List.filter q l = l.
Proof.
  induction l as [|x l IH]; intros Hq; simpl; [reflexivity|].
  rewrite (Hq x (or_introl eq_refl)), IH
    by (intros y Hy; apply Hq; right; exact Hy).
  reflexivity.
Qed.

Section InterCellExpansion.
Context {C : Type} `{Scalar C}.

Variable syst : System C.

(** "*from* site is in interface" and "*to* site is in interface", for a
    term whose subgraph exists *)
Definition from_interface (p : nat * Term) : bool :=
  let sg := fst (term_pair syst p) in
  (next_cell_of syst <=? snd (fst sg)) && (fst (fst sg) <? next_cell_of syst).

Definition to_interface (p : nat * Term) : bool :=
  let sg := fst (term_pair syst p) in
  (next_cell_of syst <=? fst (fst sg)) && (snd (fst sg) <? next_cell_of syst).

Definition hopping_terms : list (nat * Term) :=
  List.filter from_interface (enumerate (terms syst)).

Definition reversed_terms : list (nat * Term) :=
  List.filter to_interface (enumerate (terms syst)).

(** The pairs of the inter-cell hoppings before the 'from' site arrays
    are replaced, and the replacement. *)
Definition interface_pairs : list (Subgraph * Block3 C) :=
  map (term_pair syst) hopping_terms
  ++ map (fun p => conjugate_pair (term_pair syst p)) reversed_terms.

Definition to_fundamental (p : Subgraph * Block3 C) : Subgraph * Block3 C :=
  let '(((to_sa, from_sa), (to_off, from_off)), h) := p in
  (((to_sa, from_sa - next_cell_of syst), (to_off, from_off)), h).

Definition inter_cell_pairs : list (Subgraph * Block3 C) :=
  map to_fundamental interface_pairs.

(** [all_hams] of [vectorized_inter_cell_hopping] *)
Definition inter_all_hams : list (option (Block3 C)) :=
  fill_hams
    (map (fun p : nat * Term =>
            (fst p,
             transpose3 (conj_transpose3 (hamiltonian_term syst (fst p)))))
         reversed_terms)
    (fill_hams
       (map (fun p : nat * Term => (fst p, hamiltonian_term syst (fst p)))
            hopping_terms)
       (repeat None (length (terms syst)))).

Hypothesis Hex : subgraphs_exist syst = true.

Lemma vectorized_inter_cell_hopping_pairs (sparse : bool) :
  vectorized_inter_cell_hopping syst sparse
  = (try no := _count_norbs syst (site_offsets_of syst) inter_all_hams in
     let '(norbs, orb_offsets) := no in
     try s0 := index orb_offsets (next_cell_of syst) in
     try s1 := index orb_offsets
                     (length (site_arrays syst) - next_cell_of syst) in
     call_assembler sparse (map fst inter_cell_pairs)
                    (map snd inter_cell_pairs)
                    norbs orb_offsets (site_offsets_of syst)
                    (Some (s0, s1))).
Proof.
  unfold vectorized_inter_cell_hopping; cbv zeta.
  rewrite (@comprehension_if_ok _ _ from_interface).
  2:{ intros p Hp; rewrite (subgraph_of_enumerate _ Hex _ Hp).
      reflexivity. }
  cbn [bind]; fold hopping_terms.
  rewrite (@comprehension_if_ok _ _ to_interface).
  2:{ intros p Hp; rewrite (subgraph_of_enumerate _ Hex _ Hp).
      reflexivity. }
  cbn [bind]; fold reversed_terms.
  rewrite comprehension_map.
  rewrite (@comprehension_ok _ _ _ (fun p => fst (term_pair syst p))).
  2:{ intros p Hp; apply filter_In in Hp as [Hp _].
      rewrite (term_at_enumerate _ _ Hp); cbn [bind].
      apply subgraph_of_enumerate; assumption. }
  cbn [bind].
  rewrite comprehension_map.
  rewrite (@comprehension_ok _ _ _
             (fun p => _reverse_subgraph (fst (term_pair syst p)))).
  2:{ intros p Hp; apply filter_In in Hp as [Hp _].
      rewrite (term_at_enumerate _ _ Hp); cbn [bind].
      rewrite (subgraph_of_enumerate _ Hex _ Hp); reflexivity. }
  cbn [bind].
  rewrite (map_map fst (hamiltonian_term syst)).
  rewrite (map_map fst (fun n => conj_transpose3 (hamiltonian_term syst n))).
  rewrite (combine_map_map fst
             (fun p : nat * Term => hamiltonian_term syst (fst p))).
  rewrite (combine_map_map fst
             (fun p : nat * Term =>
                conj_transpose3 (hamiltonian_term syst (fst p)))).
  rewrite (map_map _ (fun p : nat * Block3 C => (fst p, transpose3 (snd p)))).
  cbn [fst snd]; fold inter_all_hams.
  assert (Hsgs : map (fun sg : Subgraph =>
                        let '((to_sa, from_sa), (to_off, from_off)) := sg in
                        ((to_sa, from_sa - next_cell_of syst),
                         (to_off, from_off)))
                     (map (fun p => fst (term_pair syst p)) hopping_terms
                      ++ map (fun p =>
                                _reverse_subgraph (fst (term_pair syst p)))
                             reversed_terms)
                 = map fst inter_cell_pairs).
  { unfold inter_cell_pairs, interface_pairs.
    rewrite !map_app, !map_map; f_equal; apply map_ext; intros p;
      unfold term_pair, conjugate_pair, to_fundamental; simpl;
      destruct (nth _ _ _) as [[tw fw] [to fo]]; reflexivity. }
  assert (Hhs : map (fun p : nat * Term => hamiltonian_term syst (fst p))
                    hopping_terms
                ++ map (fun p : nat * Term =>
                          conj_transpose3 (hamiltonian_term syst (fst p)))
                       reversed_terms
                = map snd inter_cell_pairs).
  { unfold inter_cell_pairs, interface_pairs.
    rewrite !map_app, !map_map; f_equal; apply map_ext; intros p;
      unfold term_pair, conjugate_pair, to_fundamental; simpl;
      destruct (nth _ _ _) as [[tw fw] [to fo]]; reflexivity. }
  rewrite Hsgs, Hhs; reflexivity.
Qed.
End InterCellExpansion.

Section InterCellInSystem.
Context {C : Type} `{Scalar C}.

Variable syst : System C.
Variable norb : nat -> nat.

(** The site arrays from the boundary array on repeat, one by one, the
    lengths and the orbital counts of the first site arrays. *)
Definition interface_replicates : bool :=
  forallb
    (fun w =>
       (sa_len (array_at syst w)
        =? sa_len (array_at syst (w - next_cell_of syst)))
       && (norb (family (array_at syst w))
           =? norb (family (array_at syst (w - next_cell_of syst)))))
    (seq (next_cell_of syst)
         (length (site_arrays syst) - next_cell_of syst)).

(** Every term that goes into the interface is flagged [hermitian]. *)
Definition reversed_terms_hermitian : bool :=
  forallb (fun p : nat * Term => hermitian (snd p)) (reversed_terms syst).

Hypothesis wf : well_formed syst norb = true.
Hypothesis Hrep : interface_replicates = true.

Let b := next_cell_of syst.
Let n := length (site_arrays syst).
Let norbs := map (fun s => norb (family s)) (site_arrays syst) ++ [0].
Let orb_offsets := offsets (array_sizes syst norb).

Lemma boundary_le : b <= n.
Proof.
  pose proof (next_cell_of_spec syst) as Hb; cbv zeta in Hb.
  destruct Hb as (Hb & _); exact Hb.
Qed.

Lemma replicated_array w :
  b <= w -> w < n ->
  sa_len (array_at syst w) = sa_len (array_at syst (w - b)) /\
  norb (family (array_at syst w)) = norb (family (array_at syst (w - b))).
Proof.
  intros Hlo Hhi; unfold interface_replicates in Hrep.
  pose proof (proj1 (forallb_forall _ _) Hrep w) as Hw.
  fold b n in Hw.
  rewrite andb_true_iff, !Nat.eqb_eq in Hw.
  apply Hw, in_seq; lia.
Qed.

Lemma replicated_sizes w :
  b <= w -> w < n ->
  at_ (array_sizes syst norb) w = at_ (array_sizes syst norb) (w - b).
Proof.
  intros Hlo Hhi; pose proof boundary_le as Hb.
  rewrite !at_array_sizes by (fold n; lia).
  destruct (replicated_array Hlo Hhi) as [-> ->]; reflexivity.
Qed.

Lemma replicated_offsets i :
  b + i <= n ->
  at_ orb_offsets (b + i) = at_ orb_offsets b + at_ orb_offsets i.
Proof.
  assert (Hlen : length (array_sizes syst norb) = n)
    by (unfold array_sizes; apply length_map).
  induction i as [|i IH]; intros Hi.
  - rewrite Nat.add_0_r; unfold orb_offsets at 3, at_; simpl; lia.
  - unfold orb_offsets in *.
    replace (b + S i) with ((b + i) + 1) by lia.
    replace (S i) with (i + 1) by lia.
    rewrite !offsets_succ by lia.
    rewrite IH by lia.
    rewrite (@replicated_sizes (b + i)) by lia.
    replace (b + i - b) with i by lia; lia.
Qed.

Lemma total_is_cut_plus_width :
  total_orbitals syst norb = at_ orb_offsets b + at_ orb_offsets (n - b).
Proof.
  pose proof boundary_le as Hb.
  unfold total_orbitals.
  rewrite <- (offsets_last_sum (array_sizes syst norb)), offsets_last.
  assert (Hlen : length (array_sizes syst norb) = n)
    by (unfold array_sizes; apply length_map).
  rewrite Hlen; fold orb_offsets.
  rewrite <- replicated_offsets by lia; f_equal; lia.
Qed.

(** A pair whose 'from' array is in the interface, with that array
    replaced by the one of the fundamental domain. *)
Lemma to_fundamental_fits (p : Subgraph * Block3 C) :
  pair_fits syst norb p = true ->
  b <= snd (fst (fst p)) ->
  pair_fits syst norb (to_fundamental syst p) = true.
Proof.
  intros Hfit Hfrom; pose proof (pair_fits_spec _ _ _ Hfit) as Hs.
  destruct p as [[[ta fa] [ts_offs fs_offs]] h]; simpl in *.
  destruct Hs as (Hta & Hfa & _).
  fold n in Hta, Hfa.
  destruct (@replicated_array fa Hfrom Hfa) as [El En].
  unfold pair_fits in *; fold b.
  rewrite <- El, <- En.
  rewrite !andb_true_iff in *.
  destruct Hfit as [[[[[[[H1 H2] H3] H4] H5] H6] H7] H8].
  repeat split; try assumption.
  apply Nat.ltb_lt; apply Nat.ltb_lt in H2; lia.
Qed.

Lemma to_fundamental_values (p : Subgraph * Block3 C) r c :
  pair_fits syst norb p = true ->
  b <= snd (fst (fst p)) ->
  vals_at r c (pair_entries norbs orb_offsets (to_fundamental syst p))
  = vals_at r (at_ orb_offsets b + c) (pair_entries norbs orb_offsets p).
Proof.
  intros Hfit Hfrom; pose proof (pair_fits_spec _ _ _ Hfit) as Hs.
  destruct p as [[[ta fa] [ts_offs fs_offs]] h]; simpl in *.
  destruct Hs as (Hta & Hfa & _).
  fold n in Hta, Hfa.
  destruct (@replicated_array fa Hfrom Hfa) as [El En].
  assert (Hoff : at_ orb_offsets fa
                 = at_ orb_offsets b + at_ orb_offsets (fa - b)).
  { rewrite <- replicated_offsets by lia; f_equal; lia. }
  assert (Hn : at_ norbs fa = at_ norbs (fa - b)).
  { unfold norbs; rewrite !at_array_norbs by (fold n; lia); exact En. }
  unfold pair_entries, instance_entries, to_off_of, from_off_of.
  cbn [fst snd]; fold b.
  rewrite !vals_at_flat_map; apply flat_map_ext; intros i.
  rewrite !vals_at_flat_map; apply flat_map_ext; intros j.
  rewrite !vals_at_flat_map; apply flat_map_ext; intros k.
  unfold vals_at; simpl.
  rewrite Hoff, Hn.
  destruct (Nat.eqb_spec r (at_ orb_offsets ta + at_ norbs ta * at_ ts_offs i
                            + j)); simpl; [|reflexivity].
  destruct (Nat.eqb_spec c (at_ orb_offsets (fa - b)
                            + at_ norbs (fa - b) * at_ fs_offs i + k)),
    (Nat.eqb_spec (at_ orb_offsets b + c)
                  (at_ orb_offsets b + at_ orb_offsets (fa - b)
                   + at_ norbs (fa - b) * at_ fs_offs i + k));
    try reflexivity; lia.
Qed.

(** Rows below [offsets[k1]] and columns below [offsets[k2]]. *)
Lemma fits_within (p : Subgraph * Block3 C) (k1 k2 : nat) :
  pair_fits syst norb p = true ->
  fst (fst (fst p)) < k1 -> k1 <= n ->
  snd (fst (fst p)) < k2 -> k2 <= n ->
  inside (at_ orb_offsets k1, at_ orb_offsets k2)
         (pair_entries norbs orb_offsets p).
Proof.
  intros Hfit Hto Hk1 Hfrom Hk2 r c v Hin; apply pair_fits_spec in Hfit.
  apply in_pair_entries in Hin as (i & j & l & Hi & Hj & Hl & -> & -> & _).
  destruct p as [[[ta fa] [ts_offs fs_offs]] h].
  unfold to_off_of, from_off_of; simpl in *.
  destruct Hfit as (Hta & Hfa & HM & HP & _ & _ & Ot & Of).
  split; apply orbital_below; auto; lia.
Qed.

(** The entries of a pair that does not go from the interface to the
    cell are not in the first [offsets[b]] rows or not in the columns
    from [offsets[b]] on. *)
Lemma fits_elsewhere (p : Subgraph * Block3 C) (r c : nat) :
  pair_fits syst norb p = true ->
  (b <=? snd (fst (fst p))) && (fst (fst (fst p)) <? b) = false ->
  r < at_ orb_offsets b ->
  vals_at r (at_ orb_offsets b + c) (pair_entries norbs orb_offsets p) = [].
Proof.
  intros Hfit Hout Hr; apply vals_at_none; intros Hin.
  apply in_map_iff in Hin as ([[r' c'] v] & Heq & Hin).
  simpl in Heq; injection Heq as Er Ec.
  pose proof boundary_le as Hb.
  destruct (Nat.ltb_spec (fst (fst (fst p))) b) as [Hto|Hto].
  - rewrite andb_true_r in Hout; apply Nat.leb_gt in Hout.
    destruct (@fits_within p b b Hfit Hto Hb Hout Hb _ _ _ Hin) as [_ Hc'].
    simpl in Hc'; lia.
  - apply pair_fits_spec in Hfit.
    apply in_pair_entries in Hin as (i & j & l & Hi & Hj & Hl & E1 & E2 & _).
    destruct p as [[[ta fa] [ts_offs fs_offs]] h].
    unfold to_off_of, from_off_of in *; simpl in *.
    destruct Hfit as (Hta & Hfa & _).
    assert (Hlen : length (array_sizes syst norb) = n)
      by (unfold array_sizes; apply length_map).
    pose proof (@offsets_mono (array_sizes syst norb) b ta Hto
                  ltac:(fold n in Hta; lia)) as Hm.
    fold orb_offsets in Hm; lia.
Qed.
End InterCellInSystem.

Lemma flat_map_ext_in {X Y} (f g : X -> list Y) (l : list X) :
  (forall x, In x l -> f x = g x) -> flat_map f l = flat_map g l.
Proof.
  induction l as [|x l IH]; intros Hfg; simpl; [reflexivity|].
  rewrite (Hfg x (or_introl eq_refl)), IH
    by (intros y Hy; apply Hfg; right; exact Hy).
  reflexivity.
Qed.

Section InterCellAssembly.
Context {C : Type} `{Scalar C}.

Variable syst : System C.
Variable norb : nat -> nat.

Hypothesis wf : well_formed syst norb = true.
Hypothesis Hrep : interface_replicates syst norb = true.

Lemma block_fits_dims (t : Term) (h h' : Block3 C) :
  block_fits syst norb t h ->
  b_M h' = b_M h -> b_P h' = b_P h ->
  block_fits syst norb t h'.
Proof.
  intros Hfit EM EP to_w from_w offs to_sa from_sa Esg Eto Efrom.
  rewrite EM, EP; exact (Hfit _ _ _ _ _ Esg Eto Efrom).
Qed.

Lemma fill_hams_dims (updates : list (nat * Block3 C))
      (acc : list (option (Block3 C))) :
  (forall u, In u updates ->
             b_M (snd u) = b_M (hamiltonian_term syst (fst u)) /\
             b_P (snd u) = b_P (hamiltonian_term syst (fst u))) ->
  (forall k h, acc !! k = Some (Some h) ->
               b_M h = b_M (hamiltonian_term syst k) /\
               b_P h = b_P (hamiltonian_term syst k)) ->
  forall k h,
    fill_hams updates acc !! k = Some (Some h) ->
    b_M h = b_M (hamiltonian_term syst k) /\
    b_P h = b_P (hamiltonian_term syst k).
Proof.
  unfold fill_hams; revert acc; induction updates as [|u us IH];
    intros acc Hus Hacc; simpl; [exact Hacc|].
  apply IH; [intros v Hv; apply Hus; right; exact Hv|].
  intros k h Hk.
  apply list_lookup_insert_Some in Hk as [(<- & E & _)|[_ Hk]].
  - injection E as <-; apply Hus; left; reflexivity.
  - apply Hacc, Hk.
Qed.

Lemma inter_all_hams_fit p :
  In p (combine (inter_all_hams syst) (terms syst)) ->
  forall ham, fst p = Some ham -> block_fits syst norb (snd p) ham.
Proof.
  destruct p as [ho t]; intros Hin ham Hho; cbn [fst snd] in *; subst ho.
  apply in_combine_nth in Hin as (k & Hk & Ht).
  rewrite <- lookup_nth_error in Hk.
  unfold inter_all_hams in Hk; apply fill_hams_dims in Hk.
  - destruct Hk as [EM EP]; apply in_enumerate_nth in Ht.
    eapply block_fits_dims;
      [exact (wf_block_fits syst norb wf (k, t) Ht) | exact EM | exact EP].
  - intros u Hu; apply in_map_iff in Hu as (q & <- & _); simpl; auto.
  - apply fill_hams_dims.
    + intros u Hu; apply in_map_iff in Hu as (q & <- & _); simpl; auto.
    + intros k' h Hk'; rewrite lookup_nth_error in Hk'.
      apply nth_error_In, repeat_spec in Hk'; discriminate.
Qed.

Lemma interface_pairs_fit p :
  In p (interface_pairs syst) ->
  pair_fits syst norb p = true /\
  fst (fst (fst p)) < next_cell_of syst /\
  next_cell_of syst <= snd (fst (fst p)) /\
  snd (fst (fst p)) < length (site_arrays syst).
Proof.
  intros Hp.
  assert (Hmain : pair_fits syst norb p = true /\
                  fst (fst (fst p)) < next_cell_of syst /\
                  next_cell_of syst <= snd (fst (fst p))).
  { unfold interface_pairs, hopping_terms, reversed_terms in Hp.
    apply in_app_or in Hp as [Hp|Hp];
      apply in_map_iff in Hp as (q & <- & Hq);
      apply filter_In in Hq as [Hq Hin].
    - split; [apply (enumerated_pair_fits syst norb wf), Hq|].
      unfold from_interface in Hin; apply andb_true_iff in Hin as [H1 H2].
      apply Nat.leb_le in H1; apply Nat.ltb_lt in H2; auto.
    - split; [apply (enumerated_pair_fits syst norb wf), Hq|].
      unfold to_interface in Hin; apply andb_true_iff in Hin as [H1 H2].
      apply Nat.leb_le in H1; apply Nat.ltb_lt in H2.
      destruct (term_pair syst q) as [[[ta fa] [ts_offs fs_offs]] h].
      simpl in *; auto. }
  destruct Hmain as (Hfit & Hto & Hfrom); repeat split; try assumption.
  pose proof (pair_fits_spec _ _ _ Hfit) as Hs.
  destruct p as [[[ta fa] [ts_offs fs_offs]] h]; simpl in *; tauto.
Qed.

Lemma inter_cell_pairs_fit p :
  In p (inter_cell_pairs syst) ->
  pair_fits syst norb p = true /\
  fst (fst (fst p)) < next_cell_of syst /\
  snd (fst (fst p)) < length (site_arrays syst) - next_cell_of syst.
Proof.
  unfold inter_cell_pairs; intros Hp.
  apply in_map_iff in Hp as (q & <- & Hq).
  destruct (interface_pairs_fit q Hq) as (Hfit & Hto & Hfrom & Hlt).
  split; [apply to_fundamental_fits; assumption|].
  destruct q as [[[ta fa] [ts_offs fs_offs]] h]; simpl in *; lia.
Qed.

(** Column [c] of the inter-cell hopping holds what the pairs store in
    column [offsets[b] + c]. *)
Lemma inter_cell_values r c :
  let norbs := map (fun s => norb (family s)) (site_arrays syst) ++ [0] in
  let orb_offsets := offsets (array_sizes syst norb) in
  vals_at r c (flat_map (pair_entries norbs orb_offsets)
                        (inter_cell_pairs syst))
  = vals_at r (at_ orb_offsets (next_cell_of syst) + c)
            (flat_map (pair_entries norbs orb_offsets)
                      (interface_pairs syst)).
Proof.
  intros norbs orb_offsets; unfold inter_cell_pairs.
  rewrite !vals_at_flat_map, flat_map_map.
  apply flat_map_ext_in; intros q Hq.
  destruct (interface_pairs_fit q Hq) as (Hfit & _ & Hfrom & _).
  apply to_fundamental_values; assumption.
Qed.

(** In the first [offsets[b]] rows and from column [offsets[b]] on, the
    system Hamiltonian holds what the interface pairs store, when the
    terms into the interface are flagged [hermitian]. *)
Lemma interface_values r c :
  let norbs := map (fun s => norb (family s)) (site_arrays syst) ++ [0] in
  let orb_offsets := offsets (array_sizes syst norb) in
  reversed_terms_hermitian syst = true ->
  r < at_ orb_offsets (next_cell_of syst) ->
  vals_at r (at_ orb_offsets (next_cell_of syst) + c)
          (flat_map (pair_entries norbs orb_offsets) (interface_pairs syst))
  = vals_at r (at_ orb_offsets (next_cell_of syst) + c)
            (flat_map (pair_entries norbs orb_offsets)
                      (expanded_pairs syst)).
Proof.
  intros norbs orb_offsets Hherm Hr.
  rewrite !vals_at_flat_map.
  unfold interface_pairs, expanded_pairs, hopping_terms.
  rewrite !flat_map_app, !flat_map_map.
  f_equal.
  - apply flat_map_filter_nil; intros p Hp Hout.
    apply fits_elsewhere;
      [apply (enumerated_pair_fits syst norb wf), Hp | exact Hout | exact Hr].
  - unfold reversed_terms_hermitian in Hherm.
    rewrite <- (filter_all _ _ (proj1 (forallb_forall _ _) Hherm)).
    unfold reversed_terms; rewrite filter_filter_comm.
    apply flat_map_filter_nil; intros p Hp Hout.
    apply filter_In in Hp as [Hp _].
    apply fits_elsewhere;
      [apply (enumerated_pair_fits syst norb wf), Hp | | exact Hr].
    unfold to_interface in Hout.
    destruct (term_pair syst p) as [[[ta fa] [ts_offs fs_offs]] h].
    simpl in *; exact Hout.
Qed.
End InterCellAssembly.

(** X16.  In a well-formed vectorized system ([well_formed]) whose site
    arrays from the boundary array on repeat the lengths and orbital
    counts of the first site arrays, and whose terms into the interface
    are all flagged [hermitian], the inter-cell hopping is the block of
    the system Hamiltonian in the rows of the cell and the columns of the
    interface: both calls return a matrix, the hopping matrix has
    [orb_offsets[b]] rows and [orb_offsets[len(site_arrays) - b]]
    columns, which together are all the orbitals of the system, and its
    element [(r, c)] is the element [(r, orb_offsets[b] + c)] of the
    system Hamiltonian, in the sparse and in the dense format. *)
Theorem inter_cell_hopping_in_system {C} `{Scalar C}
        (syst : System C) (norb : nat -> nat) (sparse : bool) :
  well_formed syst norb = true ->
  interface_replicates syst norb = true ->
  reversed_terms_hermitian syst = true ->
  let cut := at_ (offsets (array_sizes syst norb)) (next_cell_of syst) in
  let width := at_ (offsets (array_sizes syst norb))
                   (length (site_arrays syst) - next_cell_of syst) in
  exists V A,
    vectorized_inter_cell_hopping syst sparse = Ok V /\
    vectorized_hamiltonian_submatrix syst sparse = Ok A /\
    shape0 (as_dense V) = cut /\ shape1 (as_dense V) = width /\
    shape0 (as_dense A) = cut + width /\
    shape1 (as_dense A) = cut + width /\
    forall r c, r < cut -> c < width ->
                entry (as_dense V) r c = entry (as_dense A) r (cut + c).
Proof.
  intros wf Hrep Hherm cut width.
  pose proof (next_cell_of_spec syst) as Hb; cbv zeta in Hb.
  destruct Hb as (Hb & _).
  assert (Hlen : length (array_sizes syst norb) = length (site_arrays syst))
    by (unfold array_sizes; apply length_map).
  (* the hopping *)
  destruct (@assembled_values _ _ syst norb (inter_cell_pairs syst)
              (site_offsets_of syst) (Some (cut, width)) sparse)
    as (V & Hinter & V0 & V1 & Vinter).
  { intros p Hp; apply (inter_cell_pairs_fit syst norb wf Hrep), Hp. }
  { intros p Hp.
    destruct (inter_cell_pairs_fit syst norb wf Hrep p Hp)
      as (Hfit & Hto & Hfrom).
    apply fits_within; try assumption; lia. }
  (* the system *)
  destruct (@assembled_values _ _ syst norb (expanded_pairs syst)
              (site_offsets_of syst) None sparse)
    as (A & Hfull & F0 & F1 & Vfull).
  { intros p Hp; apply (expanded_pairs_all_fit syst norb wf), Hp. }
  { intros p Hp; unfold shape_or_default; rewrite offsets_last_sum.
    apply fits_inside, (expanded_pairs_all_fit syst norb wf), Hp. }
  exists V, A.
  split.
  { rewrite (vectorized_inter_cell_hopping_pairs syst
               (wf_subgraphs_exist syst norb wf)).
    rewrite (wf_count_norbs_given wf (inter_all_hams syst))
      by (intros p; apply (inter_all_hams_fit syst norb wf)).
    cbn [bind].
    rewrite !(index_nth _ 0) by (rewrite offsets_length; lia).
    cbn [bind]; exact Hinter. }
  split.
  { destruct (hermitian_expansion_pairs syst (wf_subgraphs_exist syst norb wf))
      as (sgs & hs & Hexp & Hl & Hpairs).
    unfold vectorized_hamiltonian_submatrix.
    rewrite Hexp; cbn [bind].
    rewrite (wf_count_norbs syst norb wf Hexp); cbn [bind].
    assert (Esgs : sgs = map fst (expanded_pairs syst))
      by (unfold expanded_pairs; rewrite <- Hpairs, map_fst_combine
            by exact Hl; reflexivity).
    assert (Ehs : hs = map snd (expanded_pairs syst))
      by (unfold expanded_pairs; rewrite <- Hpairs, map_snd_combine
            by exact Hl; reflexivity).
    rewrite Esgs, Ehs; exact Hfull. }
  unfold shape_or_default in *; cbn [fst snd] in *.
  rewrite offsets_last_sum in F0, F1.
  fold (total_orbitals syst norb) in F0, F1.
  rewrite (total_is_cut_plus_width syst norb Hrep) in F0, F1.
  repeat split; try assumption.
  intros r c Hr Hc; rewrite Vinter, Vfull; cbv zeta.
  rewrite (inter_cell_values syst norb wf Hrep).
  rewrite (interface_values syst norb wf) by assumption.
  reflexivity.
Qed.

(** One orbital on every site of [periodic_chain]. *)
Definition periodic_chain_norb (f : nat) : nat := 1.

Lemma inter_cell_hopping_in_system_witness :
  exists V A,
    vectorized_inter_cell_hopping periodic_chain true = Ok V /\
    vectorized_hamiltonian_submatrix periodic_chain true = Ok A /\
    shape0 (as_dense V) = 2 /\ shape1 (as_dense V) = 2 /\
    shape0 (as_dense A) = 2 + 2 /\
    shape1 (as_dense A) = 2 + 2 /\
    forall r c, r < 2 -> c < 2 ->
                entry (as_dense V) r c = entry (as_dense A) r (2 + c).
Proof.
  exact (@inter_cell_hopping_in_system _ _ periodic_chain periodic_chain_norb
           true eq_refl eq_refl eq_refl).
Defined.
